(** * A shallow embedding of the CPU scheduler simulator (scheduler_skeleton.c)

    The C program simulates FCFS, Round Robin, SRTF and SJF scheduling on
    one or more CPUs over discrete ticks.  This file embeds the data types,
    the ready queue (a fixed-capacity circular buffer), the per-tick
    components and the main loop of [simulate], and states the scheduler's
    properties over them.

    Conventions of the embedding:
    - a C [int] is a [Z]; every counter of a run moves by at most one per
      tick and the loop runs at most 101 ticks, so no signed overflow arises
      for inputs away from the limits of [int]; a theorem that depends on
      the decrement of [remaining_time] states the range of the input for
      which it does not overflow, and the subtractions of the report are
      taken with the wrap-around of the program as built ([wrap_int]);
    - a C array is a list, read with [!!] and written with [<[_:=_]>];
      an index outside the array is undefined behaviour in C: the model
      reads a zeroed element there and writes nothing, and every theorem
      either assumes or establishes that indices are in range;
    - a [Process *] into the [processes] array is the index of the element
      ([curr - processes] in the source), [NULL] is [None];
    - [stderr] is a list of the messages written so far; the text on
      [stdout] is not modelled, of the report printed after the run only
      the integers it computes are;
    - the [%] of C on non-negative operands is [Z.rem]. *)

From Stdlib Require Import ZArith Lia Sorted.
From stdpp Require Import base list strings.

Open Scope Z_scope.

(** ** Constants and types *)

Inductive Algorithm := FCFS | RR | SRTF | SJF.

Inductive ProcessState := WAITING | RUNNING | COMPLETED | READY.

Global Instance Algorithm_eq_dec : EqDecision Algorithm.
Proof. solve_decision. Defined.

Global Instance ProcessState_eq_dec : EqDecision ProcessState.
Proof. solve_decision. Defined.

Definition DEFAULT_TIME_QUANTUM : Z := 2.
Definition MAX_PROCESSES : Z := 500.
Definition INITIAL_TIMELINE_CAPACITY : Z := 1000.

Record Process := mkProcess {
  pid : Z;
  arrival_time : Z;
  burst_time : Z;
  priority : Z;
  remaining_time : Z;
  state : ProcessState;
  start_time : Z;
  finish_time : Z;
  waiting_time : Z;
  quantum_used : Z;
  response_time : Z
}.

Record CPU := mkCPU {
  id : Z;
  current_process : option Z;
  idle_time : Z;
  busy_time : Z
}.

Record ReadyQueue := mkQueue {
  process_indices : list Z;
  front : Z;
  rear : Z;
  size : Z
}.

(** Field assignments [p->f = v]. *)

Definition set_remaining_time (p : Process) (v : Z) : Process :=
  mkProcess (pid p) (arrival_time p) (burst_time p) (priority p) v (state p)
            (start_time p) (finish_time p) (waiting_time p) (quantum_used p)
            (response_time p).

Definition set_state (p : Process) (v : ProcessState) : Process :=
  mkProcess (pid p) (arrival_time p) (burst_time p) (priority p)
            (remaining_time p) v (start_time p) (finish_time p)
            (waiting_time p) (quantum_used p) (response_time p).

Definition set_start_time (p : Process) (v : Z) : Process :=
  mkProcess (pid p) (arrival_time p) (burst_time p) (priority p)
            (remaining_time p) (state p) v (finish_time p) (waiting_time p)
            (quantum_used p) (response_time p).

Definition set_finish_time (p : Process) (v : Z) : Process :=
  mkProcess (pid p) (arrival_time p) (burst_time p) (priority p)
            (remaining_time p) (state p) (start_time p) v (waiting_time p)
            (quantum_used p) (response_time p).

Definition set_waiting_time (p : Process) (v : Z) : Process :=
  mkProcess (pid p) (arrival_time p) (burst_time p) (priority p)
            (remaining_time p) (state p) (start_time p) (finish_time p) v
            (quantum_used p) (response_time p).

Definition set_quantum_used (p : Process) (v : Z) : Process :=
  mkProcess (pid p) (arrival_time p) (burst_time p) (priority p)
            (remaining_time p) (state p) (start_time p) (finish_time p)
            (waiting_time p) v (response_time p).

Definition set_response_time (p : Process) (v : Z) : Process :=
  mkProcess (pid p) (arrival_time p) (burst_time p) (priority p)
            (remaining_time p) (state p) (start_time p) (finish_time p)
            (waiting_time p) (quantum_used p) v.

Definition set_current_process (c : CPU) (v : option Z) : CPU :=
  mkCPU (id c) v (idle_time c) (busy_time c).

Definition set_idle_time (c : CPU) (v : Z) : CPU :=
  mkCPU (id c) (current_process c) v (busy_time c).

Definition set_busy_time (c : CPU) (v : Z) : CPU :=
  mkCPU (id c) (current_process c) (idle_time c) v.

(** Array reads and writes.  [zero_process] is what a read outside the
    array yields in the model (see the conventions above). *)

Definition zero_process : Process :=
  mkProcess 0 0 0 0 0 WAITING 0 0 0 0 0.

Definition zero_cpu : CPU := mkCPU 0 None 0 0.

Definition aget (a : list Z) (i : Z) : Z := default 0 (a !! Z.to_nat i).

Definition aset (a : list Z) (i : Z) (v : Z) : list Z := <[Z.to_nat i := v]> a.

Definition proc (processes : list Process) (i : Z) : Process :=
  default zero_process (processes !! Z.to_nat i).

Definition upd_proc (processes : list Process) (i : Z) (f : Process -> Process)
  : list Process :=
  alter f (Z.to_nat i) processes.

Definition cpu (cpus : list CPU) (c : Z) : CPU :=
  default zero_cpu (cpus !! Z.to_nat c).

Definition upd_cpu (cpus : list CPU) (c : Z) (f : CPU -> CPU) : list CPU :=
  alter f (Z.to_nat c) cpus.

(** ** Queue operations *)

(** The line [enqueue] and [enqueue_priority] print on overflow (without
    its newline). *)
Definition overflow_msg : string := "Error: Ready queue overflow!".

(** [init_queue]: resets the three counters, leaves the array as it is. *)
Definition init_queue (q : ReadyQueue) : ReadyQueue :=
  mkQueue (process_indices q) 0 (-1) 0.

(** [(i + 1) % MAX_PROCESSES]. *)
Definition next (i : Z) : Z := Z.rem (i + 1) MAX_PROCESSES.

(** [enqueue]: returns the queue and what it wrote to [stderr]. *)
Definition enqueue (q : ReadyQueue) (process_idx : Z) : ReadyQueue * list string :=
  if size q >=? MAX_PROCESSES then (q, [overflow_msg])
  else
    let rear' := next (rear q) in
    (mkQueue (aset (process_indices q) rear' process_idx) (front q) rear'
             (size q + 1), []).

(** The test of the scanning loop of [enqueue_priority]: the new entry
    goes before the entry at [cur]. *)
Definition goes_before (new_time new_priority cur_time cur_priority : Z) : bool :=
  (new_time <? cur_time) || ((new_time =? cur_time) && (new_priority >? cur_priority)).

(** First loop of [enqueue_priority]: scan from [cur] towards
    [(rear + 1) % MAX_PROCESSES]; the result is the final [cur]. *)
Fixpoint scan_queue (fuel : nat) (q : ReadyQueue) (processes : list Process)
         (new_time new_priority cur : Z) : Z :=
  match fuel with
  | O => cur
  | S fuel' =>
    if cur =? next (rear q) then cur
    else
      let cur_time := remaining_time (proc processes (aget (process_indices q) cur)) in
      let cur_priority := priority (proc processes (aget (process_indices q) cur)) in
      if goes_before new_time new_priority cur_time cur_priority then cur
      else scan_queue fuel' q processes new_time new_priority (next cur)
  end.

(** Second loop of [enqueue_priority]: shift the entries from [cur] up to
    the new [rear] one place to the right. *)
Fixpoint shift_queue (fuel : nat) (a : list Z) (new_rear temp cur nextcur : Z)
  : list Z :=
  match fuel with
  | O => a
  | S fuel' =>
    if cur =? new_rear then a
    else
      let temp2 := aget a nextcur in
      let a' := aset a nextcur temp in
      shift_queue fuel' a' new_rear temp2 nextcur (next nextcur)
  end.

(** Both loops visit each slot of the buffer at most once, so
    [MAX_PROCESSES + 1] iterations are enough (lemmas [scan_queue_spec] and
    [shift_queue_spec] below). *)
Definition loop_fuel : nat := Z.to_nat MAX_PROCESSES + 1.

Definition enqueue_priority (q : ReadyQueue) (process_idx : Z)
           (processes : list Process) : ReadyQueue * list string :=
  if size q >=? MAX_PROCESSES then (q, [overflow_msg])
  else if rear q =? -1 then enqueue q process_idx
  else
    let new_time := remaining_time (proc processes process_idx) in
    let new_priority := priority (proc processes process_idx) in
    let cur := scan_queue loop_fuel q processes new_time new_priority (front q) in
    if cur =? next (rear q) then enqueue q process_idx
    else
      let new_rear := next (rear q) in
      let temp := aget (process_indices q) cur in
      let a := aset (process_indices q) cur process_idx in
      let a' := shift_queue loop_fuel a new_rear temp cur (next cur) in
      (mkQueue a' (front q) new_rear (size q + 1), []).

(** [(f + k) % MAX_PROCESSES]: the slot [k] places after slot [f]. *)
Definition slot (f k : Z) : Z := Z.rem (f + k) MAX_PROCESSES.

(** [dequeue]: the index removed (or -1) and the queue. *)
Definition dequeue (q : ReadyQueue) : Z * ReadyQueue :=
  if size q <=? 0 then (-1, q)
  else (aget (process_indices q) (front q),
        mkQueue (process_indices q) (next (front q)) (rear q) (size q - 1)).

(** The entries of the queue from front to rear, as [print_queue] lists
    them: [process_indices[(front + k) % MAX_PROCESSES]] for [k < size]. *)
Definition contents (q : ReadyQueue) : list Z :=
  map (fun k => aget (process_indices q) (slot (front q) k))
      (seqZ 0 (size q)).

(** ** The simulated machine

    The memory the simulation components work on: the [processes] array,
    the [cpus] array, the global queue [FCFSQ] (the only queue the code
    uses, whatever the algorithm) and the [stderr] stream.  [process_count]
    and [cpu_count] are the lengths of the two arrays, as in every call the
    program makes. *)

Record Machine := mkMachine {
  processes : list Process;
  cpus : list CPU;
  FCFSQ : ReadyQueue;
  stderr : list string
}.

Definition process_count (m : Machine) : Z := Z.of_nat (length (processes m)).
Definition cpu_count (m : Machine) : Z := Z.of_nat (length (cpus m)).

(** [enqueue(&FCFSQ, idx)] and [enqueue_priority(&FCFSQ, idx, processes)]
    on the machine. *)
Definition enqueue_FCFSQ (m : Machine) (idx : Z) : Machine :=
  let '(q, e) := enqueue (FCFSQ m) idx in
  mkMachine (processes m) (cpus m) q (stderr m ++ e).

Definition enqueue_priority_FCFSQ (m : Machine) (idx : Z) : Machine :=
  let '(q, e) := enqueue_priority (FCFSQ m) idx (processes m) in
  mkMachine (processes m) (cpus m) q (stderr m ++ e).

(** *** handle_arrivals *)

(** One iteration of the first loop: [arrived_indices] holds the
    [*arrival_count] indices recorded so far. *)
Definition arrival_scan_step (current_time : Z)
           (st : list Process * list Z) (i : Z) : list Process * list Z :=
  if arrival_time (proc st.1 i) =? current_time then
    if Z.of_nat (length st.2) <? MAX_PROCESSES then
      (upd_proc st.1 i (fun p => set_quantum_used (set_state p READY) 0),
       st.2 ++ [i])
    else st
  else st.

(** One iteration of the second loop.  The branch for SRTF is empty in the
    source, Round Robin falls into the final empty [else]. *)
Definition arrival_enqueue_step (algorithm : Algorithm) (m : Machine) (idx : Z)
  : Machine :=
  match algorithm with
  | FCFS => enqueue_FCFSQ m idx
  | SRTF => m
  | SJF => enqueue_priority_FCFSQ m idx
  | RR => m
  end.

(** The function is called with non-null arguments and
    [*arrival_count = 0]; its second result is
    [arrived_indices[0 .. *arrival_count)]. *)
Definition handle_arrivals (m : Machine) (current_time : Z) (algorithm : Algorithm)
  : Machine * list Z :=
  let '(ps, arrived_indices) :=
    foldl (arrival_scan_step current_time) (processes m, [])
          (seqZ 0 (process_count m)) in
  (foldl (arrival_enqueue_step algorithm)
         (mkMachine ps (cpus m) (FCFSQ m) (stderr m)) arrived_indices,
   arrived_indices).

(** *** handle_rr_quantum_expiry *)

Definition rr_expiry_step (time_quantum : Z) (m : Machine) (i : Z) : Machine :=
  match current_process (cpu (cpus m) i) with
  | None => m
  | Some curr =>
    let p := proc (processes m) curr in
    if (remaining_time p >? 0) && bool_decide (state p = RUNNING) then
      if quantum_used p >=? time_quantum then
        enqueue_FCFSQ
          (mkMachine
             (upd_proc (processes m) curr
                       (fun p => set_state (set_quantum_used p 0) READY))
             (upd_cpu (cpus m) i (fun c => set_current_process c None))
             (FCFSQ m) (stderr m))
          curr
      else m
    else m
  end.

Definition handle_rr_quantum_expiry (m : Machine) (time_quantum : Z) : Machine :=
  foldl (rr_expiry_step time_quantum) m (seqZ 0 (cpu_count m)).

(** *** handle_srtf_preemption: apart from a check of its arguments for
    [NULL], the body is empty in the source. *)

Definition handle_srtf_preemption (m : Machine) : Machine := m.

(** *** assign_processes_to_idle_cpus *)

(** What the assignments after the two tests do to the process. *)
Definition dispatch (p : Process) (current_time : Z) : Process :=
  let p1 := set_state p RUNNING in
  let p2 := if start_time p1 =? -1
            then set_response_time (set_start_time p1 current_time)
                                   (current_time - arrival_time p1)
            else p1 in
  set_quantum_used p2 0.

(** The test of the discard branch. *)
Definition discarded (p : Process) (current_time : Z) : bool :=
  bool_decide (state p = COMPLETED) || (arrival_time p >? current_time).

(** What the loop popped from the queue: at tick [pop_time], for CPU
    [pop_cpu], index [pop_idx], and the process [&processes[idx]] as it was
    at that moment.  The list of these records is kept beside the machine;
    the machine does not depend on it. *)
Record Pop := mkPop {
  pop_time : Z;
  pop_cpu : Z;
  pop_idx : Z;
  pop_process : Process
}.

(** The [for] loop over [c], with its [c--; continue] retry and its
    [break]: every iteration either moves to the next CPU or removes an
    entry from the queue, so [cpu_count + size] iterations are enough. *)
Fixpoint assign_loop (fuel : nat) (m : Machine) (current_time c : Z)
         (pops : list Pop) : Machine * list Pop :=
  match fuel with
  | O => (m, pops)
  | S fuel' =>
    if c <? cpu_count m then
      match current_process (cpu (cpus m) c) with
      | Some _ => assign_loop fuel' m current_time (c + 1) pops
      | None =>
        let '(idx, q) := dequeue (FCFSQ m) in
        if idx =? -1 then (mkMachine (processes m) (cpus m) q (stderr m), pops)
        else
          let p := proc (processes m) idx in
          let pops' := pops ++ [mkPop current_time c idx p] in
          if discarded p current_time then
            assign_loop fuel' (mkMachine (processes m) (cpus m) q (stderr m))
                        current_time c pops'
          else
            assign_loop fuel'
              (mkMachine
                 (upd_proc (processes m) idx (fun p => dispatch p current_time))
                 (upd_cpu (cpus m) c (fun x => set_current_process x (Some idx)))
                 q (stderr m))
              current_time (c + 1) pops'
      end
    else (m, pops)
  end.

Definition assign_fuel (m : Machine) : nat :=
  (length (cpus m) + Z.to_nat (size (FCFSQ m)) + 1)%nat.

Definition assign_pops (m : Machine) (current_time : Z)
  : Machine * list Pop :=
  assign_loop (assign_fuel m) m current_time 0 [].

Definition assign_processes_to_idle_cpus (m : Machine) (current_time : Z) : Machine :=
  (assign_pops m current_time).1.

(** *** update_waiting_times: iteration [w] touches [processes[w]] only. *)

Definition update_waiting (current_time : Z) (p : Process) : Process :=
  if bool_decide (state p = WAITING) && (arrival_time p <=? current_time)
  then set_waiting_time p (waiting_time p + 1)
  else p.

Definition update_waiting_times (m : Machine) (current_time : Z) : Machine :=
  mkMachine (map (update_waiting current_time) (processes m)) (cpus m)
            (FCFSQ m) (stderr m).

(** *** execute_processes *)

Definition execute_step (current_time : Z) (st : Machine * Z) (c : Z)
  : Machine * Z :=
  let m := st.1 in
  match current_process (cpu (cpus m) c) with
  | Some pi =>
    let ps1 := upd_proc (processes m) pi
                 (fun p => set_quantum_used
                             (set_remaining_time p (remaining_time p - 1))
                             (quantum_used p + 1)) in
    let cs1 := upd_cpu (cpus m) c (fun x => set_busy_time x (busy_time x + 1)) in
    if remaining_time (proc ps1 pi) <=? 0 then
      (mkMachine
         (upd_proc ps1 pi
                   (fun p => set_state (set_finish_time p (current_time + 1))
                                       COMPLETED))
         (upd_cpu cs1 c (fun x => set_current_process x None))
         (FCFSQ m) (stderr m),
       st.2 + 1)
    else (mkMachine ps1 cs1 (FCFSQ m) (stderr m), st.2)
  | None =>
    (mkMachine (processes m)
               (upd_cpu (cpus m) c (fun x => set_idle_time x (idle_time x + 1)))
               (FCFSQ m) (stderr m),
     st.2)
  end.

Definition execute_processes (m : Machine) (current_time completed_count : Z)
  : Machine * Z :=
  foldl (execute_step current_time) (m, completed_count) (seqZ 0 (cpu_count m)).

(** ** Timeline *)

Definition init_timeline (capacity cpu_count : Z) : list (list Z) :=
  replicate (Z.to_nat capacity) (replicate (Z.to_nat cpu_count) (-1)).

Definition expand_timeline (timeline : list (list Z))
           (capacity new_capacity cpu_count : Z) : list (list Z) :=
  timeline ++ replicate (Z.to_nat (new_capacity - capacity))
                        (replicate (Z.to_nat cpu_count) (-1)).

(** The row written at [timeline[current_time]]: the pid on each CPU, or
    -1. *)
Definition timeline_row (m : Machine) : list Z :=
  map (fun x => match current_process x with
                | Some i => pid (proc (processes m) i)
                | None => -1
                end) (cpus m).

(** ** simulate *)

(** The line printed by the safety break of the loop (without its
    newline). *)
Definition abort_msg : string :=
  "Warning: Simulation exceeded maximum expected time. Aborting.".

(** The local variables of [simulate] together with the machine.
    [dispatch_log] gathers the pops of every dispatch of the run; nothing
    reads it. *)
Record Sim := mkSim {
  machine : Machine;
  timeline : list (list Z);
  timeline_capacity : Z;
  current_time : Z;
  completed_count : Z;
  bruh : Z;
  dispatch_log : list Pop
}.

(** The part of the loop body that precedes dispatch: arrivals, then for
    Round Robin the enqueueing of the arrivals and the quantum check, then
    for SRTF the preemption check. *)
Definition before_dispatch (algorithm : Algorithm) (time_quantum : Z)
           (m : Machine) (now : Z) : Machine :=
  let '(m1, arrived_indices) := handle_arrivals m now algorithm in
  let m2 := match algorithm with
            | RR => handle_rr_quantum_expiry
                      (foldl enqueue_FCFSQ m1 arrived_indices) time_quantum
            | _ => m1
            end in
  match algorithm with
  | SRTF => handle_srtf_preemption m2
  | _ => m2
  end.

(** The loop body up to and including [current_time++]. *)
Definition tick (algorithm : Algorithm) (time_quantum : Z) (s : Sim) : Sim :=
  let now := current_time s in
  let m3 := before_dispatch algorithm time_quantum (machine s) now in
  let '(m4, events) := assign_pops m3 now in
  let '(tl, cap) :=
    if now >=? timeline_capacity s
    then (expand_timeline (timeline s) (timeline_capacity s)
                          (timeline_capacity s * 2) (cpu_count m4),
          timeline_capacity s * 2)
    else (timeline s, timeline_capacity s) in
  let tl' := <[Z.to_nat now := timeline_row m4]> tl in
  let m5 := update_waiting_times m4 now in
  let '(m6, cc) := execute_processes m5 now (completed_count s) in
  mkSim m6 tl' cap (now + 1) cc (bruh s) (dispatch_log s ++ events).

(** The [while] loop with its two [break]s. *)
Fixpoint simulate_loop (fuel : nat) (algorithm : Algorithm) (time_quantum : Z)
         (s : Sim) : Sim :=
  match fuel with
  | O => s
  | S fuel' =>
    if completed_count s <? process_count (machine s) then
      let s1 := tick algorithm time_quantum s in
      if (current_time s1 >? timeline_capacity s1 * 5)
         && (completed_count s1 <? process_count (machine s1))
      then
        mkSim (mkMachine (processes (machine s1)) (cpus (machine s1))
                         (FCFSQ (machine s1))
                         (stderr (machine s1) ++ [abort_msg]))
              (timeline s1) (timeline_capacity s1) (current_time s1)
              (completed_count s1) (bruh s1) (dispatch_log s1)
      else
        let s2 := mkSim (machine s1) (timeline s1) (timeline_capacity s1)
                        (current_time s1) (completed_count s1) (bruh s1 + 1)
                        (dispatch_log s1) in
        if bruh s2 >? 100 then s2
        else simulate_loop fuel' algorithm time_quantum s2
    else s
  end.

(** [bruh] starts at 0 and the loop leaves once it exceeds 100, so the
    body runs at most 101 times (lemma [simulate_loop_fuel]). *)
Definition simulate_fuel : nat := 101.

(** The state on entry to the loop: [calloc]ed CPUs with their ids, a
    fresh timeline, the counters at 0.  [q] is the global queue as the
    caller left it. *)
Definition initial_sim (processes : list Process) (cpu_count : Z)
           (q : ReadyQueue) : Sim :=
  mkSim (mkMachine processes
                   (map (fun i => mkCPU i None 0 0) (seqZ 0 cpu_count)) q [])
        (init_timeline INITIAL_TIMELINE_CAPACITY cpu_count)
        INITIAL_TIMELINE_CAPACITY 0 0 0 [].

(** [simulate]: the state in which the loop is left, from which the report
    is printed ([total_time] is its [current_time]). *)
Definition simulate (processes : list Process) (cpu_count : Z)
           (algorithm : Algorithm) (time_quantum : Z) (q : ReadyQueue) : Sim :=
  simulate_loop simulate_fuel algorithm time_quantum
                (initial_sim processes cpu_count q).

(** ** The program's entry: load_processes and main *)

(** The process [load_processes] builds from one input record. *)
Definition load_process (r : Z * Z * Z * Z) : Process :=
  let '(pid, arrival, burst, priority) := r in
  mkProcess pid arrival burst priority burst WAITING (-1) (-1) 0 0 (-1).

(** The global [FCFSQ] after [init_queue] in [main]: a zeroed static
    array. *)
Definition FCFSQ0 : ReadyQueue :=
  init_queue (mkQueue (replicate (Z.to_nat MAX_PROCESSES) 0) 0 0 0).

(** [main] after argument parsing: [records] are the valid lines of the
    input file as (pid, arrival, burst, priority).  With no record [main]
    does not call [simulate]; here the loop is then left at once. *)
Definition run (records : list (Z * Z * Z * Z)) (cpu_count : Z)
           (algorithm : Algorithm) (time_quantum : Z) : Sim :=
  simulate (map load_process records) cpu_count algorithm time_quantum FCFSQ0.

(** The column of CPU [c] in the rows [0 .. total_time) of the timeline. *)
Definition timeline_of (s : Sim) (c : nat) : list Z :=
  map (fun row => default (-1) (row !! c))
      (take (Z.to_nat (current_time s)) (timeline s)).

Definition sum_busy_time (cs : list CPU) : Z :=
  foldr (fun x acc => busy_time x + acc) 0 cs.

Definition sum_completed_burst (ps : list Process) : Z :=
  foldr (fun p acc => if bool_decide (state p = COMPLETED)
                      then burst_time p + acc else acc) 0 ps.



(** ** Results display: the integers of the report *)

(** The limits of [int], and the value an [int] holds after an operation
    whose result is [z]: signed overflow is undefined in C, and the
    program as built wraps around (two's complement). *)
Definition INT_MIN : Z := -2147483648.
Definition INT_MAX : Z := 2147483647.

Definition wrap_int (z : Z) : Z :=
  (z - INT_MIN) mod 4294967296 + INT_MIN.

(** What [print_process_stats], [print_average_stats] and
    [print_csv_output] compute for a process with [finish_time != -1]:
    [turnaround], and [waiting] with its clamp at 0. *)
Definition turnaround (p : Process) : Z :=
  wrap_int (finish_time p - arrival_time p).

Definition waiting (p : Process) : Z :=
  let waiting := wrap_int (turnaround p - burst_time p) in
  if waiting <? 0 then 0 else waiting.

(** The accumulators of the loop of [print_average_stats] (and of its copy
    in [print_csv_output]).  The three totals are [double]s in the source;
    they only ever hold sums of [int]s. *)
Record Totals := mkTotals {
  total_turnaround : Z;
  total_waiting : Z;
  total_response : Z;
  valid_stats_count : Z
}.

Definition average_stats_step (acc : Totals) (p : Process) : Totals :=
  if finish_time p =? -1 then acc
  else mkTotals (total_turnaround acc + turnaround p)
                (total_waiting acc + waiting p)
                (total_response acc + response_time p)
                (valid_stats_count acc + 1).

Definition average_stats (processes : list Process) : Totals :=
  foldl average_stats_step (mkTotals 0 0 0 0) processes.

(** [cpu_total_time] of [print_cpu_stats]. *)
Definition cpu_total_time (x : CPU) : Z := busy_time x + idle_time x.

(** ** Command line and input file *)

(** The configuration [main] holds in its four local variables;
    [input_file] is [None] for [NULL]. *)
Record Config := mkConfig {
  cfg_algorithm : Algorithm;
  cfg_cpu_count : Z;
  cfg_time_quantum : Z;
  cfg_input_file : option string
}.

(** The values [main] gives the four variables before it parses. *)
Definition main_config : Config :=
  mkConfig FCFS 1 DEFAULT_TIME_QUANTUM None.

(** The two lines [parse_arguments] prints before [exit(EXIT_FAILURE)]
    (without their newlines). *)
Definition usage_msg (argv0 : string) : string :=
  String.append "Usage: "
    (String.append argv0
       " -f <file> [-a <FCFS|RR|SRTF|SJF>] [-c <cpus>] [-q <quantum>]").

Definition no_input_msg : string :=
  "Error: Input file required. Use -f <filename>".

(** [scan line] stands for the integers the successive [%d] conversions
    of [sscanf] read from the start of [line], and [atoi] for the library
    function of that name; both are left open. *)
Section InputOutput.
Variable atoi : string -> Z.
Variable scan : string -> list Z.

(** The [-a] branch: an unknown name leaves the algorithm as it is. *)
Definition parse_algorithm (v : string) (algorithm : Algorithm) : Algorithm :=
  if String.eqb v "FCFS" then FCFS
  else if String.eqb v "RR" then RR
  else if String.eqb v "SRTF" then SRTF
  else if String.eqb v "SJF" then SJF
  else algorithm.

(** The loop of [parse_arguments] over [argv[1 .. argc)]; [None] is the
    usage failure.  Every option needs [i + 1 < argc], so a last argument
    without a value falls into the final [else] like an unknown option. *)
Fixpoint parse_loop (args : list string) (cfg : Config) : option Config :=
  match args with
  | [] => Some cfg
  | a :: rest =>
    match rest with
    | [] => None
    | v :: rest' =>
      if String.eqb a "-a" then
        parse_loop rest'
          (mkConfig (parse_algorithm v (cfg_algorithm cfg)) (cfg_cpu_count cfg)
                    (cfg_time_quantum cfg) (cfg_input_file cfg))
      else if String.eqb a "-c" then
        parse_loop rest'
          (mkConfig (cfg_algorithm cfg)
                    (if atoi v <=? 0 then 1 else atoi v)
                    (cfg_time_quantum cfg) (cfg_input_file cfg))
      else if String.eqb a "-q" then
        parse_loop rest'
          (mkConfig (cfg_algorithm cfg) (cfg_cpu_count cfg)
                    (if atoi v <=? 0 then DEFAULT_TIME_QUANTUM else atoi v)
                    (cfg_input_file cfg))
      else if String.eqb a "-f" then
        parse_loop rest'
          (mkConfig (cfg_algorithm cfg) (cfg_cpu_count cfg)
                    (cfg_time_quantum cfg) (Some v))
      else None
    end
  end.

(** [parse_arguments]: the message it exits with, or the configuration it
    returns with. *)
Definition parse_arguments (argv : list string) (cfg : Config)
  : string + Config :=
  match parse_loop (tail argv) cfg with
  | None => inl (usage_msg (default EmptyString (head argv)))
  | Some cfg' =>
    match cfg_input_file cfg' with
    | None => inl no_input_msg
    | Some _ => inr cfg'
    end
  end.

(** *** load_processes *)

(** The test of the second pass that skips a line: [line[0] == '#'],
    [line[0] == '\n'], or nothing but blanks. *)
Definition first_char (line : string) : Ascii.ascii :=
  match line with
  | String c _ => c
  | EmptyString => Ascii.zero
  end.

Definition char_hash : Ascii.ascii := Ascii.ascii_of_nat 35.
Definition char_space : Ascii.ascii := Ascii.ascii_of_nat 32.
Definition char_tab : Ascii.ascii := Ascii.ascii_of_nat 9.
Definition char_newline : Ascii.ascii := Ascii.ascii_of_nat 10.
Definition char_return : Ascii.ascii := Ascii.ascii_of_nat 13.

Definition is_blank (c : Ascii.ascii) : bool :=
  Ascii.eqb c char_space || Ascii.eqb c char_tab || Ascii.eqb c char_newline
  || Ascii.eqb c char_return.

Definition all_blank (line : string) : bool :=
  forallb is_blank (String.list_ascii_of_string line).

Definition skipped_line (line : string) : bool :=
  Ascii.eqb (first_char line) char_hash
  || Ascii.eqb (first_char line) char_newline
  || all_blank line.

(** The first pass: the test is written the other way round, and
    [sscanf] is called with three conversions. *)
Definition counted_line (line : string) : bool :=
  negb (Ascii.eqb (first_char line) char_hash)
  && negb (Ascii.eqb (first_char line) char_newline)
  && negb (all_blank line)
  && (Z.of_nat (length (take 3 (scan line))) =? 3).

Definition count_processes (lines : list string) : Z :=
  foldl (fun process_count line =>
           if counted_line line then process_count + 1 else process_count)
        0 lines.

(** The record the second pass reads with four conversions:
    [items_read] is the number of integers read, [priority] keeps its
    default 0 unless all four were. *)
Definition items_read (line : string) : Z :=
  Z.of_nat (length (take 4 (scan line))).

Definition record_of (line : string) : Z * Z * Z * Z :=
  let ints := scan line in
  (default 0 (ints !! 0%nat), default 0 (ints !! 1%nat),
   default 0 (ints !! 2%nat),
   if items_read line =? 4 then default 0 (ints !! 3%nat) else 0).

(** The second pass over the lines, with [i] and the array [malloc] gave:
    a slot is [None] until it is written. *)
Fixpoint read_processes (process_count : Z) (lines : list string) (i : Z)
         (a : list (option Process)) : Z * list (option Process) :=
  match lines with
  | [] => (i, a)
  | line :: rest =>
    if i <? process_count then
      if skipped_line line then read_processes process_count rest i a
      else if items_read line >=? 3 then
        read_processes process_count rest (i + 1)
                       (<[Z.to_nat i := Some (load_process (record_of line))]> a)
      else read_processes process_count rest i a
    else (i, a)
  end.

(** [load_processes] on a file that could be opened, as the lines [fgets]
    returns: [*count] and the array, [None] for [NULL]. *)
Definition load_processes (lines : list string)
  : Z * option (list (option Process)) :=
  let process_count := count_processes lines in
  if process_count =? 0 then (0, None)
  else
    let '(i, a) :=
      read_processes process_count lines 0
                     (replicate (Z.to_nat process_count) None) in
    (i, Some a).

End InputOutput.

(** *** print_timeline: the segments of the printed timeline *)

Definition TIMELINE_WIDTH : Z := 80.
Definition TIME_UNIT_WIDTH : Z := 5.

Definition time_units_per_line : Z :=
  let n := Z.quot (TIMELINE_WIDTH - 5) TIME_UNIT_WIDTH in
  if n <=? 0 then 1 else n.

(** [start_t] and [end_t] of every segment, in the order printed. *)
Definition timeline_segments (total_time : Z) : list (Z * Z) :=
  let time_segments :=
    Z.quot (total_time + time_units_per_line - 1) time_units_per_line in
  map (fun segment =>
         let start_t := segment * time_units_per_line in
         let end_t := start_t + time_units_per_line in
         (start_t, if end_t >? total_time then total_time else end_t))
      (seqZ 0 time_segments).
(** * Specification vocabulary *)

(** ** The circular buffer *)

(** A queue as the program keeps it: a buffer of [MAX_PROCESSES] slots,
    [front] inside it, [rear] one slot before [front + size], and
    [rear = -1] only as long as nothing was ever enqueued. *)
Record queue_wf (q : ReadyQueue) : Prop := {
  wf_length : length (process_indices q) = Z.to_nat MAX_PROCESSES;
  wf_front : 0 <= front q < MAX_PROCESSES;
  wf_size : 0 <= size q <= MAX_PROCESSES;
  wf_rear : -1 <= rear q < MAX_PROCESSES;
  wf_next_rear : next (rear q) = slot (front q) (size q);
  wf_fresh : rear q = -1 -> size q = 0
}.

(** Linear scan from the front: the number of entries passed over before
    the first one the new entry goes before. *)
Fixpoint skipped (before : Z -> bool) (l : list Z) : nat :=
  match l with
  | [] => O
  | x :: l' => if before x then O else S (skipped before l')
  end.

(** Insertion immediately before the first entry the new one goes
    before, at the back when there is none. *)
Fixpoint insert_ordered (before : Z -> bool) (idx : Z) (l : list Z) : list Z :=
  match l with
  | [] => [idx]
  | x :: l' => if before x then idx :: x :: l'
               else x :: insert_ordered before idx l'
  end.

(** The comparison [enqueue_priority] makes between the new process and a
    queued one. *)
Definition before_entry (processes : list Process) (process_idx : Z) (x : Z) : bool :=
  goes_before (remaining_time (proc processes process_idx))
              (priority (proc processes process_idx))
              (remaining_time (proc processes x))
              (priority (proc processes x)).


(** The queue is ordered by remaining time, shortest first. *)
Definition remaining_sorted (processes : list Process) (l : list Z) : Prop :=
  StronglySorted (fun a b => remaining_time (proc processes a)
                             <= remaining_time (proc processes b)) l.

(** The comparison the claim about SJF asks for, with the lower priority
    value as the more important one; to be compared with [before_entry],
    which is the comparison of the source. *)
Definition claimed_before (processes : list Process) (process_idx : Z) (x : Z) : bool :=
  (remaining_time (proc processes process_idx) <? remaining_time (proc processes x))
  || ((remaining_time (proc processes process_idx) =? remaining_time (proc processes x))
      && (priority (proc processes process_idx) <? priority (proc processes x))).

(** ** The machine *)

Definition valid_index (processes : list Process) (i : Z) : Prop :=
  0 <= i < Z.of_nat (length processes).

Global Instance valid_index_dec ps i : Decision (valid_index ps i).
Proof. unfold valid_index. apply _. Defined.

(** The processes on the CPUs, in CPU order. *)
Definition occupants (cpus : list CPU) : list Z := omap current_process cpus.

(** What holds of the machine between the components of a tick, with
    [now] the latest tick whose arrivals were taken in: the buffer is well
    formed, no process is in two places (queue slots and CPUs together),
    every queued index is a READY process that has arrived, and every CPU
    occupant is a RUNNING process that has arrived. *)
Record sched_inv (m : Machine) (now : Z) : Prop := {
  inv_wf : queue_wf (FCFSQ m);
  inv_nodup : NoDup (contents (FCFSQ m) ++ occupants (cpus m));
  inv_ready :
    Forall (fun i => valid_index (processes m) i /\
                     state (proc (processes m) i) = READY /\
                     arrival_time (proc (processes m) i) <= now)
           (contents (FCFSQ m));
  inv_running :
    Forall (fun i => valid_index (processes m) i /\
                     state (proc (processes m) i) = RUNNING /\
                     arrival_time (proc (processes m) i) <= now)
           (occupants (cpus m))
}.

(** What the first loop of [handle_arrivals] does to an arriving
    process. *)
Definition readied (p : Process) : Process :=
  set_quantum_used (set_state p READY) 0.

(** A popped index the discard branch does not apply to: the process has
    arrived and is not completed. *)
Definition pop_eligible (e : Pop) : Prop :=
  arrival_time (pop_process e) <= pop_time e /\
  state (pop_process e) <> COMPLETED /\
  discarded (pop_process e) (pop_time e) = false.

(** Nothing but overflow reports has been written to [stderr]. *)
Definition only_overflow_reported (m : Machine) : Prop :=
  Forall (fun line => line = overflow_msg) (stderr m).

(** No CPU holds a process. *)
Definition all_idle (cpus : list CPU) : Prop :=
  Forall (fun x => current_process x = None) cpus.

(** *** Dispatch, as the specification words it

    The definitions of this part are written from the words of the
    specification, with record literals and list insertion of their own,
    to be compared with [assign_processes_to_idle_cpus]. *)

(** A popped process that dispatch throws away: already completed, or not
    yet arrived. *)
Definition ineligible (now : Z) (p : Process) : bool :=
  bool_decide (state p = COMPLETED \/ now < arrival_time p).

(** The record of a process after it is dispatched at tick [now]: it is
    RUNNING and [quantum_used] is back at 0; on its first dispatch
    ([start_time] unset, that is -1) the tick is recorded as [start_time]
    and [response_time] is [start_time - arrival_time]; every other field
    is as it was. *)
Definition dispatched_at (now : Z) (p : Process) : Process :=
  let first := bool_decide (start_time p = -1) in
  {| pid := pid p;
     arrival_time := arrival_time p;
     burst_time := burst_time p;
     priority := priority p;
     remaining_time := remaining_time p;
     state := RUNNING;
     start_time := if first then now else start_time p;
     finish_time := finish_time p;
     waiting_time := waiting_time p;
     quantum_used := 0;
     response_time := if first then now - arrival_time p
                      else response_time p |}.

(** The record of a CPU that holds process [idx], and of one that was
    freed: the counters are as they were. *)
Definition occupied_by (idx : Z) (x : CPU) : CPU :=
  {| id := id x; current_process := Some idx;
     idle_time := idle_time x; busy_time := busy_time x |}.


(** The queue from its first entry that is not thrown away. *)
Fixpoint drop_ineligible (processes : list Process) (now : Z) (ql : list Z)
  : list Z :=
  match ql with
  | [] => []
  | idx :: ql' =>
    if ineligible now (proc processes idx)
    then drop_ineligible processes now ql'
    else ql
  end.

(** For each CPU of [todo] in turn: a busy CPU is passed over; an idle
    one receives the first entry of the queue that is not thrown away;
    when the queue runs out the filling stops. *)
Fixpoint fill (now : Z) (todo : list Z) (processes : list Process)
         (cpus : list CPU) (ql : list Z) : list Process * list CPU * list Z :=
  match todo with
  | [] => (processes, cpus, ql)
  | c :: todo' =>
    match current_process (cpu cpus c) with
    | Some _ => fill now todo' processes cpus ql
    | None =>
      match drop_ineligible processes now ql with
      | [] => (processes, cpus, [])
      | idx :: ql' =>
        fill now todo'
             (<[Z.to_nat idx := dispatched_at now (proc processes idx)]>
                processes)
             (<[Z.to_nat c := occupied_by idx (cpu cpus c)]> cpus)
             ql'
      end
    end
  end.

(** The entries of [l] that dispatch does not throw away, in the order of
    [l]. *)
Definition eligible_entries (now : Z) (processes : list Process) (l : list Z)
  : list Z :=
  filter (fun i => ineligible now (proc processes i) = false) l.

(** What the CPUs of [todo] that were idle in [cpus] hold in [cpus'], in
    the order of [todo]. *)
Definition newly_assigned (cpus cpus' : list CPU) (todo : list Z) : list Z :=
  omap (fun c => match current_process (cpu cpus c) with
                 | Some _ => None
                 | None => current_process (cpu cpus' c)
                 end) todo.

(** *** Quantum expiry, as the specification words it *)


(** The two assignments of the source to a process whose quantum is used
    up, in the order of the source. *)
Definition requeued (p : Process) : Process :=
  set_state (set_quantum_used p 0) READY.




(** ** Inputs of the examples *)

(** Records are (pid, arrival, burst, priority). *)
Definition srtf_example : list (Z * Z * Z * Z) := [(1, 0, 8, 0); (2, 1, 4, 0)].
Definition fcfs_example : list (Z * Z * Z * Z) := [(1, 0, 5, 0); (2, 0, 3, 0)].
Definition long_job : list (Z * Z * Z * Z) := [(1, 0, 102, 0)].


(** Two processes with the same remaining time and priorities 1 and 2. *)
Definition tie_processes : list Process :=
  [load_process (1, 0, 5, 1); load_process (2, 0, 5, 2)].

Definition rr_example : list (Z * Z * Z * Z) := [(1, 0, 4, 0); (2, 0, 4, 0)].

(** The machine of the FCFS example after the arrivals of tick 0: both
    processes queued, the CPU idle. *)
Definition fcfs_arrived : Machine :=
  (handle_arrivals
     (machine (initial_sim (map load_process fcfs_example) 1 FCFSQ0)) 0 FCFS).1.


(** A machine for dispatch at tick 3 with entries to throw away: index 0
    has not arrived yet, index 1 was never started, index 2 is completed,
    index 3 has run before, index 4 holds CPU 1; the queue is 0, 1, 2, 3
    and CPUs 0 and 2 are idle. *)
Definition stale_processes : list Process :=
  [mkProcess 1 5 2 0 2 WAITING (-1) (-1) 0 0 (-1);
   mkProcess 2 1 4 0 4 READY (-1) (-1) 0 0 (-1);
   mkProcess 3 0 1 0 0 COMPLETED 0 1 0 1 0;
   mkProcess 4 0 6 0 4 READY 0 (-1) 0 2 0;
   mkProcess 5 2 3 0 2 RUNNING 2 (-1) 0 1 0].

Definition stale_machine : Machine :=
  mkMachine stale_processes
            [mkCPU 0 None 2 1; mkCPU 1 (Some 4) 2 1; mkCPU 2 None 1 2]
            (foldl (fun q i => (enqueue q i).1) FCFSQ0 [0; 1; 2; 3]) [].



(** A queue with one free slot: 499 entries, all of them index 0. *)
Definition almost_full_queue : ReadyQueue :=
  mkQueue (replicate (Z.to_nat MAX_PROCESSES) 0) 0 498 499.


(** * Properties *)

(** ** Further vocabulary: the queue as a container *)

(** [enqueue] of each entry of [l] in turn, with everything written to
    [stderr] on the way. *)
Definition enqueue_list (q : ReadyQueue) (l : list Z) : ReadyQueue * list string :=
  foldl (fun st i => ((enqueue st.1 i).1, st.2 ++ (enqueue st.1 i).2)) (q, []) l.

(** [n] calls of [dequeue] in a row: what they returned, and the queue
    left. *)
Fixpoint dequeue_n (n : nat) (q : ReadyQueue) : list Z * ReadyQueue :=
  match n with
  | O => ([], q)
  | S n' => ((dequeue q).1 :: (dequeue_n n' (dequeue q).2).1,
             (dequeue_n n' (dequeue q).2).2)
  end.

(** The queue is ordered by the whole comparison of [enqueue_priority]:
    no entry goes before an entry that is ahead of it. *)
Definition key_sorted (processes : list Process) (l : list Z) : Prop :=
  StronglySorted (fun a b => before_entry processes b a = false) l.

(** A queue that has wrapped around the end of its buffer: front at slot
    498, three entries in slots 498, 499 and 0. *)
Definition wrapped_queue : ReadyQueue :=
  mkQueue (<[498%nat := 11]> (<[499%nat := 12]> (<[0%nat := 13]>
             (replicate (Z.to_nat MAX_PROCESSES) 0)))) 498 0 3.

(** ** Further vocabulary: runs *)

(** The state of the loop after [k] passes of its body, whatever the loop
    tests say. *)
Definition after_ticks (algorithm : Algorithm) (time_quantum : Z)
           (ps : list Process) (n : Z) (k : nat) : Sim :=
  Nat.iter k (tick algorithm time_quantum) (initial_sim ps n FCFSQ0).

(** The test that lets the loop go on. *)
Definition unfinished (s : Sim) : Prop :=
  completed_count s < process_count (machine s).

Definition with_bruh (s : Sim) (b : Z) : Sim :=
  mkSim (machine s) (timeline s) (timeline_capacity s) (current_time s)
        (completed_count s) b (dispatch_log s).

(** Every process is in one place at most: the queue slots and the CPUs
    together hold no index twice, what is queued is a READY process and
    what is on a CPU is a RUNNING one. *)
Definition one_place_each (m : Machine) : Prop :=
  queue_wf (FCFSQ m) /\
  NoDup (contents (FCFSQ m) ++ occupants (cpus m)) /\
  Forall (fun i => valid_index (processes m) i /\
                   state (proc (processes m) i) = READY)
         (contents (FCFSQ m)) /\
  Forall (fun i => valid_index (processes m) i /\
                   state (proc (processes m) i) = RUNNING)
         (occupants (cpus m)).

(** The fields of a process the input fixes. *)
Definition static (p : Process) : Z * Z * Z * Z :=
  (pid p, arrival_time p, burst_time p, priority p).

(** The ticks a CPU has accounted for. *)
Definition cpu_ticks (x : CPU) : Z := busy_time x + idle_time x.

Definition sumZ (l : list Z) : Z := foldr Z.add 0 l.


(** The work still to do, and the work a machine accounts for: what its
    CPUs have done and what its processes still need. *)
Definition sum_remaining (ps : list Process) : Z := sumZ (map remaining_time ps).

Definition work (m : Machine) : Z :=
  sum_busy_time (cpus m) + sum_remaining (processes m).

(** ** Further vocabulary: the life of a process *)

(** The scheduling fields as [load_processes] sets them, before a process
    has ever been dispatched. *)
Definition unstarted (p : Process) : Prop :=
  start_time p = -1 /\ response_time p = -1 /\ finish_time p = -1 /\
  remaining_time p = burst_time p.

(** A process that was dispatched: it started at or after its arrival and
    by tick [now], its response time was set then, and by time [w] it has
    lost no more remaining time than has passed since. *)
Definition started (now w : Z) (p : Process) : Prop :=
  0 <= arrival_time p <= start_time p /\ start_time p <= now /\
  response_time p = start_time p - arrival_time p /\
  burst_time p - remaining_time p <= w - start_time p.

(** What each state says about the other fields.  [exact] is set for
    the algorithms that never take a process off its CPU before it
    completes. *)
Definition life (exact : bool) (now w : Z) (p : Process) : Prop :=
  match state p with
  | WAITING => unstarted p
  | READY =>
    0 <= arrival_time p <= now /\
    (unstarted p \/
     (exact = false /\ finish_time p = -1 /\ started now w p /\
      1 <= remaining_time p))
  | RUNNING =>
    finish_time p = -1 /\ started now w p /\
    (1 <= remaining_time p \/ remaining_time p = burst_time p) /\
    (exact = true -> burst_time p - remaining_time p = w - start_time p)
  | COMPLETED =>
    started now (finish_time p) p /\
    start_time p < finish_time p <= w /\
    remaining_time p <= 0 /\
    (1 <= burst_time p -> remaining_time p = 0) /\
    (exact = true ->
     burst_time p - remaining_time p = finish_time p - start_time p)
  end.

Definition is_completed (p : Process) : Z :=
  if bool_decide (state p = COMPLETED) then 1 else 0.

Definition completed_total (ps : list Process) : Z :=
  sumZ (map is_completed ps).

(** The processes and CPUs of a run with [cc] completions counted: every
    process is in the condition its state stands for, with the time [w i]
    up to which the work of process [i] is accounted, every RUNNING
    process is on a CPU, and [cc] is the number of COMPLETED processes. *)
Definition life_inv (exact : bool) (ps : list Process) (cs : list CPU)
           (now : Z) (w : Z -> Z) (cc : Z) : Prop :=
  (forall i, valid_index ps i -> life exact now (w i) (proc ps i)) /\
  (forall i, valid_index ps i -> state (proc ps i) = RUNNING ->
             i ∈ occupants cs) /\
  cc = completed_total ps.

Definition non_preemptive (algorithm : Algorithm) : bool :=
  match algorithm with
  | RR => false
  | _ => true
  end.

(** The time up to which process [i] is accounted while
    [execute_processes] is at CPU [c] of its loop at tick [t]: the
    processes on the CPUs still to come have not had this tick yet. *)
Definition accounted (t : Z) (c : nat) (cs : list CPU) (i : Z) : Z :=
  if decide (i ∈ occupants (drop c cs)) then t else t + 1.

(** A process as [load_processes] leaves it, as far as its life goes. *)
Definition fresh (p : Process) : Prop := state p = WAITING /\ unstarted p.

(** ** Further vocabulary: loops over the CPUs *)

(** A loop over the CPUs that is at CPU [c]: [Q] holds of the processes
    on the CPUs it has handled, [P] of those on the CPUs still to come. *)
Definition staged (P Q : Process -> Prop) (c : nat)
           (ps : list Process) (cs : list CPU) : Prop :=
  Forall (fun i => Q (proc ps i)) (occupants (take c cs)) /\
  Forall (fun i => P (proc ps i)) (occupants (drop c cs)).

(** The bounds on a process that holds a CPU under Round Robin: between
    two ticks, and inside a tick once the quantum check has run. *)
Definition within_quantum (time_quantum : Z) (p : Process) : Prop :=
  1 <= quantum_used p <= time_quantum /\ 1 <= remaining_time p.

Definition quantum_left (time_quantum : Z) (p : Process) : Prop :=
  0 <= quantum_used p < time_quantum.

(** ** Further vocabulary: no process lost from sight *)

(** With [now] the latest tick whose arrivals were taken in: a process
    still WAITING has not arrived (or has an arrival time that never
    comes), and a READY process is in the ready queue. *)
Definition none_lost (m : Machine) (now : Z) : Prop :=
  forall i, valid_index (processes m) i ->
    match state (proc (processes m) i) with
    | WAITING => ~ (0 <= arrival_time (proc (processes m) i) <= now)
    | READY => i ∈ contents (FCFSQ m)
    | _ => True
    end.

(** What [enqueue] and [enqueue_priority] need of the entry they are
    given. *)
Definition enqueueable (m : Machine) (now : Z) (i : Z) : Prop :=
  valid_index (processes m) i /\
  state (proc (processes m) i) = READY /\
  arrival_time (proc (processes m) i) <= now /\
  (i ∉ contents (FCFSQ m) ++ occupants (cpus m)).

(** ** Further vocabulary: the timeline *)

(** The cells of a timeline column that show a process, and those that
    show the CPU idle. *)
Definition busy_cells (col : list Z) : Z :=
  Z.of_nat (length (filter (fun v => v <> -1) col)).

Definition idle_cells (col : list Z) : Z :=
  Z.of_nat (length (filter (fun v => v = -1) col)).

(** The two counters of a CPU, and what [execute_processes] makes of them
    in one tick. *)
Definition counted (x : CPU) : Z * Z := (busy_time x, idle_time x).

Definition tick_counted (x : CPU) : Z * Z :=
  match current_process x with
  | Some _ => (busy_time x + 1, idle_time x)
  | None => (busy_time x, idle_time x + 1)
  end.

(** The timeline has [timeline_capacity] rows, of one cell per CPU, and
    the row of the tick to come is among them or is the next to be
    added. *)
Definition timeline_shape (s : Sim) : Prop :=
  length (timeline s) = Z.to_nat (timeline_capacity s) /\
  0 <= current_time s <= timeline_capacity s /\
  0 < timeline_capacity s /\
  Forall (fun row => length row = length (cpus (machine s))) (timeline s).

(** The dispatch of a tick: the machine on which the timeline row is
    read. *)
Definition dispatched (algorithm : Algorithm) (time_quantum : Z) (s : Sim)
  : Machine :=
  assign_processes_to_idle_cpus
    (before_dispatch algorithm time_quantum (machine s) (current_time s))
    (current_time s).

(** ** Further vocabulary: the order of service *)

(** The queue in the order of the arrival times. *)
Definition arrival_sorted (ps : list Process) (l : list Z) : Prop :=
  StronglySorted (fun a b => arrival_time (proc ps a) <= arrival_time (proc ps b))
                 l.

(** The order each algorithm keeps its queue in. *)
Definition queue_order (algorithm : Algorithm) (ps : list Process) (l : list Z)
  : Prop :=
  match algorithm with
  | FCFS => arrival_sorted ps l
  | SJF => key_sorted ps l
  | _ => True
  end.

(** "[p] may be served before [q]": by arrival time for FCFS; for SJF by
    burst time, and on equal burst times by the higher priority value. *)
Definition service_order (algorithm : Algorithm) (p q : Process) : Prop :=
  match algorithm with
  | FCFS => arrival_time p <= arrival_time q
  | SJF => burst_time p < burst_time q \/
           (burst_time p = burst_time q /\ priority q <= priority p)
  | _ => True
  end.

(** No process was started ahead of its turn: whenever [i] has started
    and [j], which had arrived by then, started at a later tick or has
    not started at all, [i] may be served before [j]. *)
Definition served_in_order (algorithm : Algorithm) (ps : list Process) : Prop :=
  forall i j, valid_index ps i -> valid_index ps j ->
    start_time (proc ps i) <> -1 ->
    start_time (proc ps j) = -1 \/
    start_time (proc ps i) < start_time (proc ps j) ->
    0 <= arrival_time (proc ps j) <= start_time (proc ps i) ->
    service_order algorithm (proc ps i) (proc ps j).

(** The fields [service_order] compares, and those the order of service
    is read from. *)
Definition service_key (p : Process) : Z * Z * Z :=
  (arrival_time p, burst_time p, priority p).

Definition service_fields (p : Process) : Z * (Z * Z * Z) :=
  (start_time p, service_key p).

(** ** Further vocabulary: the range of [int] *)

(** The machine [execute_processes] works on in the tick that starts in
    state [s]: after the arrivals, the quantum check, dispatch and the
    bookkeeping of waiting times. *)
Definition at_execute (algorithm : Algorithm) (time_quantum : Z) (s : Sim)
  : Machine :=
  update_waiting_times
    (assign_processes_to_idle_cpus
       (before_dispatch algorithm time_quantum (machine s) (current_time s))
       (current_time s))
    (current_time s).
Ltac zmod :=
  unfold slot, next, MAX_PROCESSES in *;
  Z.to_euclidean_division_equations; lia.

Lemma slot_range f k : 0 <= f -> 0 <= k -> 0 <= slot f k < MAX_PROCESSES.
Proof. intros. zmod. Qed.

Lemma slot_inj f k k' :
  0 <= f -> 0 <= k < MAX_PROCESSES -> 0 <= k' < MAX_PROCESSES ->
  slot f k = slot f k' -> k = k'.
Proof. intros. zmod. Qed.

Lemma next_slot f k : 0 <= f -> 0 <= k -> next (slot f k) = slot f (k + 1).
Proof. intros. zmod. Qed.

Lemma slot_0 f : 0 <= f < MAX_PROCESSES -> slot f 0 = f.
Proof. intros. zmod. Qed.

Lemma FCFSQ0_wf : queue_wf FCFSQ0.
Proof. split; simpl; try reflexivity; try lia; vm_compute; intuition congruence. Qed.

Lemma aget_aset_eq a i v :
  0 <= i < Z.of_nat (length a) -> aget (aset a i v) i = v.
Proof.
  intros H. unfold aget, aset.
  rewrite list_lookup_insert_eq; [done | lia].
Qed.

Lemma aget_aset_ne a i j v :
  0 <= i -> 0 <= j -> i <> j -> aget (aset a i v) j = aget a j.
Proof.
  intros Hi Hj Hne. unfold aget, aset.
  rewrite list_lookup_insert_ne; [done | lia].
Qed.

Lemma length_aset a i v : length (aset a i v) = length a.
Proof. unfold aset. apply length_insert. Qed.

Lemma length_contents q : length (contents q) = Z.to_nat (size q).
Proof. unfold contents. rewrite length_map, length_seqZ. done. Qed.

Lemma contents_lookup q (k : nat) :
  Z.of_nat k < size q ->
  contents q !! k = Some (aget (process_indices q) (slot (front q) (Z.of_nat k))).
Proof.
  intros H. unfold contents.
  rewrite list_lookup_fmap, lookup_seqZ_lt by done. done.
Qed.

Lemma contents_lookup_ge q (k : nat) :
  size q <= Z.of_nat k -> contents q !! k = None.
Proof.
  intros H. apply lookup_ge_None_2. rewrite length_contents. lia.
Qed.

Lemma contents_empty q : size q <= 0 -> contents q = [].
Proof.
  intros H. apply length_zero_iff_nil. rewrite length_contents. lia.
Qed.

(** *** enqueue *)

Lemma enqueue_full q idx :
  size q >= MAX_PROCESSES -> enqueue q idx = (q, [overflow_msg]).
Proof.
  intros H. unfold enqueue.
  destruct (size q >=? MAX_PROCESSES) eqn:E; [done | lia].
Qed.

Lemma enqueue_room q idx :
  queue_wf q -> size q < MAX_PROCESSES ->
  queue_wf (enqueue q idx).1 /\
  contents (enqueue q idx).1 = contents q ++ [idx] /\
  (enqueue q idx).2 = [].
Proof.
  intros [Hl Hf Hs Hr Hn Hfr] Hroom. unfold enqueue.
  destruct (size q >=? MAX_PROCESSES) eqn:E; [lia | clear E]. simpl.
  split; [| split; [| done]].
  - split; simpl; try rewrite length_aset; try done; try zmod.
  - apply list_eq. intros k.
    destruct (decide (Z.of_nat k < size q)) as [Hk | Hk].
    + rewrite contents_lookup by (simpl; lia). simpl.
      rewrite lookup_app_l by (rewrite length_contents; lia).
      rewrite contents_lookup by done.
      rewrite aget_aset_ne; [done | zmod | zmod | ].
      rewrite Hn. zmod.
    + destruct (decide (Z.of_nat k = size q)) as [Hk' | Hk'].
      * rewrite contents_lookup by (simpl; lia). simpl.
        rewrite lookup_app_r by (rewrite length_contents; lia).
        rewrite length_contents.
        replace (k - Z.to_nat (size q))%nat with O by lia. simpl.
        rewrite Hn, Hk'. rewrite aget_aset_eq; [done |].
        rewrite Hl. zmod.
      * rewrite contents_lookup_ge by (simpl; lia).
        symmetry. apply lookup_ge_None_2.
        rewrite length_app, length_contents. simpl. lia.
Qed.

(** *** dequeue *)

Lemma dequeue_empty q : size q <= 0 -> dequeue q = (-1, q).
Proof.
  intros H. unfold dequeue. destruct (size q <=? 0) eqn:E; [done | lia].
Qed.

Lemma dequeue_front q :
  queue_wf q -> 0 < size q ->
  queue_wf (dequeue q).2 /\
  contents q = (dequeue q).1 :: contents (dequeue q).2.
Proof.
  intros [Hl Hf Hs Hr Hn Hfr] Hpos. unfold dequeue.
  destruct (size q <=? 0) eqn:E; [lia | clear E]. simpl. split.
  - split; simpl; try done; zmod.
  - apply list_eq. intros [| k].
    + rewrite contents_lookup by lia. simpl. do 3 f_equal. zmod.
    + simpl. destruct (decide (Z.of_nat (S k) < size q)) as [Hk | Hk].
      * rewrite !contents_lookup by (simpl; lia). simpl. do 2 f_equal. zmod.
      * rewrite !contents_lookup_ge by (simpl; lia). done.
Qed.

(** *** enqueue_priority *)

Lemma insert_ordered_skipped before idx l :
  insert_ordered before idx l =
  take (skipped before l) l ++ idx :: drop (skipped before l) l.
Proof.
  induction l as [| x l IH]; simpl; [done |].
  destruct (before x); simpl; [done |]. by rewrite IH.
Qed.

Lemma skipped_le before l : (skipped before l <= length l)%nat.
Proof.
  induction l as [| x l IH]; simpl; [lia |]. destruct (before x); simpl; lia.
Qed.

(** The scanning loop stops at the slot of the first entry the new one
    goes before, or one past the rear. *)
Lemma scan_queue_spec q ps nt np fuel (k : nat) :
  queue_wf q -> size q < MAX_PROCESSES ->
  Z.of_nat k <= size q ->
  (Z.to_nat (size q) - k < fuel)%nat ->
  scan_queue fuel q ps nt np (slot (front q) (Z.of_nat k)) =
  slot (front q)
       (Z.of_nat (k + skipped (fun x => goes_before nt np
                                          (remaining_time (proc ps x))
                                          (priority (proc ps x)))
                              (drop k (contents q)))).
Proof.
  intros Hwf Hroom. revert k.
  induction fuel as [| fuel IH]; intros k Hk Hfuel; [lia |].
  pose proof Hwf as [Hl Hf Hs Hr Hn Hfr]. simpl.
  destruct (slot (front q) (Z.of_nat k) =? next (rear q)) eqn:E.
  - assert (Z.of_nat k = size q) as Hk' by (rewrite Hn in E; zmod).
    rewrite drop_ge by (rewrite length_contents; lia). simpl.
    by rewrite Nat.add_0_r.
  - assert (Z.of_nat k < size q) as Hk' by (rewrite Hn in E; zmod).
    pose proof (contents_lookup q k Hk') as Hlk.
    rewrite (drop_S _ _ _ Hlk). simpl.
    destruct (goes_before _ _ _ _); [by rewrite Nat.add_0_r |].
    replace (next (slot (front q) (Z.of_nat k)))
      with (slot (front q) (Z.of_nat (S k))) by zmod.
    rewrite IH by lia. f_equal. lia.
Qed.

(** The shifting loop moves the slots [k+1 .. n] one place to the right,
    bringing [temp] into slot [k+1], and touches nothing else. *)
Lemma shift_queue_spec f n fuel a (k : Z) temp :
  0 <= f < MAX_PROCESSES -> 0 <= k <= n -> n < MAX_PROCESSES ->
  length a = Z.to_nat MAX_PROCESSES ->
  n - k < Z.of_nat fuel ->
  let a' := shift_queue fuel a (slot f n) temp (slot f k) (slot f (k + 1)) in
  length a' = length a /\
  forall m, 0 <= m < MAX_PROCESSES ->
    aget a' (slot f m) =
    if (k <? m) && (m <=? n)
    then (if m =? k + 1 then temp else aget a (slot f (m - 1)))
    else aget a (slot f m).
Proof.
  intros Hf. revert a k temp.
  induction fuel as [| fuel IH]; intros a k temp Hk Hn Hl Hfuel; [lia |].
  simpl. destruct (slot f k =? slot f n) eqn:E.
  - assert (k = n) by (apply (slot_inj f); lia). subst k. split; [done |].
    intros m Hm. destruct (n <? m) eqn:E1, (m <=? n) eqn:E2; simpl; try done; lia.
  - assert (k < n) as Hlt.
    { destruct (decide (k = n)) as [-> | ?]; [| lia].
      rewrite Z.eqb_refl in E. done. }
    clear E.
    rewrite next_slot by lia.
    destruct (IH (aset a (slot f (k + 1)) temp) (k + 1)
                 (aget a (slot f (k + 1)))) as [IHl IHm];
      [lia | lia | by rewrite length_aset | lia |].
    split; [by rewrite IHl, length_aset |].
    intros m Hm. rewrite (IHm m Hm). clear IHm IHl IH.
    pose proof (slot_range f (k + 1)) as Hr1.
    pose proof (slot_range f m) as Hr2.
    pose proof (slot_range f (m - 1)) as Hr3.
    destruct (decide (m = k + 1)) as [-> | Hne1].
    + replace (k + 1 <? k + 1) with false by lia.
      replace (k <? k + 1) with true by lia.
      replace (k + 1 <=? n) with true by lia.
      replace (k + 1 =? k + 1) with true by lia. simpl.
      rewrite aget_aset_eq; [done | rewrite Hl; unfold MAX_PROCESSES in *; lia].
    + assert (slot f (k + 1) <> slot f m) as Hne2.
      { intros Heq. apply slot_inj in Heq; lia. }
      destruct (decide (k + 1 < m /\ m <= n)) as [[H1 H2] | Hout].
      * replace (k + 1 <? m) with true by lia.
        replace (k <? m) with true by lia.
        replace (m <=? n) with true by lia.
        replace (m =? k + 1) with false by lia. simpl.
        destruct (m =? k + 1 + 1) eqn:E3.
        -- f_equal. f_equal. lia.
        -- rewrite aget_aset_ne; [done | lia | lia |].
           intros Heq. apply slot_inj in Heq; lia.
      * replace ((k + 1 <? m) && (m <=? n)) with false
          by (destruct (k + 1 <? m) eqn:?, (m <=? n) eqn:?; simpl; lia).
        replace ((k <? m) && (m <=? n)) with false
          by (destruct (k <? m) eqn:?, (m <=? n) eqn:?; simpl; lia).
        rewrite aget_aset_ne; [done | lia | lia | done].
Qed.

(** [enqueue_priority] on a queue with room: the entries become those of
    [insert_ordered] under the source's comparison, and nothing is written
    to [stderr]. *)
Lemma enqueue_priority_room q idx ps :
  queue_wf q -> size q < MAX_PROCESSES ->
  queue_wf (enqueue_priority q idx ps).1 /\
  contents (enqueue_priority q idx ps).1 =
    insert_ordered (before_entry ps idx) idx (contents q) /\
  (enqueue_priority q idx ps).2 = [].
Proof.
  intros Hwf Hroom. pose proof Hwf as [Hl Hf Hs Hr Hn Hfr].
  unfold enqueue_priority.
  destruct (size q >=? MAX_PROCESSES) eqn:E; [lia | clear E].
  destruct (rear q =? -1) eqn:Er.
  { destruct (enqueue_room q idx Hwf Hroom) as (H1 & H2 & H3).
    split; [done |]. split; [| done]. rewrite H2.
    rewrite (contents_empty q) by lia. done. }
  pose proof (scan_queue_spec q ps (remaining_time (proc ps idx))
                (priority (proc ps idx)) loop_fuel 0 Hwf Hroom) as Hscan.
  rewrite drop_0, Nat.add_0_l in Hscan. change (Z.of_nat 0) with 0 in Hscan.
  rewrite slot_0 in Hscan by done.
  rewrite Hscan by (unfold loop_fuel, MAX_PROCESSES in *; lia). clear Hscan.
  fold (before_entry ps idx). rewrite insert_ordered_skipped.
  set (j := skipped (before_entry ps idx) (contents q)).
  pose proof (skipped_le (before_entry ps idx) (contents q)) as Hj.
  fold j in Hj. rewrite length_contents in Hj.
  rewrite Hn.
  destruct (slot (front q) (Z.of_nat j) =? slot (front q) (size q)) eqn:E.
  - assert (Z.of_nat j = size q) as Hj' by (apply (slot_inj (front q)); lia).
    destruct (enqueue_room q idx Hwf Hroom) as (H1 & H2 & H3).
    split; [done |]. split; [| done]. rewrite H2.
    rewrite take_ge, drop_ge by (rewrite length_contents; lia). done.
  - assert (Z.of_nat j < size q) as Hj'.
    { destruct (decide (Z.of_nat j = size q)) as [He | ?]; [| lia].
      rewrite He, Z.eqb_refl in E. done. }
    clear E. cbn [fst snd].
    destruct (shift_queue_spec (front q) (size q) loop_fuel
                (aset (process_indices q) (slot (front q) (Z.of_nat j)) idx)
                (Z.of_nat j)
                (aget (process_indices q) (slot (front q) (Z.of_nat j))))
      as [Hlen Hget];
      [done | lia | done | by rewrite length_aset
      | unfold loop_fuel, MAX_PROCESSES in *; lia |].
    rewrite next_slot by lia.
    split; [| split; [| done]].
    + split; cbn [process_indices front rear size]; try done.
      * by rewrite Hlen, length_aset.
      * lia.
      * pose proof (slot_range (front q) (size q)). lia.
      * rewrite next_slot by lia. done.
      * pose proof (slot_range (front q) (size q)). lia.
    + apply list_eq. intros k.
      destruct (decide (Z.of_nat k < size q + 1)) as [Hk | Hk].
      2:{ rewrite contents_lookup_ge by (cbn [size]; lia).
          symmetry. apply lookup_ge_None_2.
          rewrite length_app, length_take. simpl.
          rewrite length_drop, length_contents. lia. }
      rewrite contents_lookup by (cbn [size]; lia).
      cbn [process_indices front rear size].
      rewrite Hget by lia. clear Hget Hlen.
      pose proof (slot_range (front q) (Z.of_nat j)) as Hr1.
      pose proof (slot_range (front q) (Z.of_nat k)) as Hr2.
      pose proof (slot_range (front q) (Z.of_nat k - 1)) as Hr3.
      destruct (decide (k < j)%nat) as [Hlt | Hge].
      * replace ((Z.of_nat j <? Z.of_nat k) && (Z.of_nat k <=? size q))
          with false by lia.
        rewrite aget_aset_ne; [| lia | lia |].
        2:{ intros Heq. apply slot_inj in Heq; lia. }
        rewrite lookup_app_l by (rewrite length_take, length_contents; lia).
        rewrite lookup_take_lt by done.
        rewrite contents_lookup by lia. done.
      * rewrite lookup_app_r by (rewrite length_take, length_contents; lia).
        rewrite length_take, length_contents.
        replace (k - j `min` Z.to_nat (size q))%nat with (k - j)%nat by lia.
        destruct (decide (k = j)) as [-> | Hne].
        -- replace ((Z.of_nat j <? Z.of_nat j) && (Z.of_nat j <=? size q))
             with false by lia.
           rewrite Nat.sub_diag. simpl.
           rewrite aget_aset_eq; [done |].
           rewrite Hl. unfold MAX_PROCESSES in *. lia.
        -- replace ((Z.of_nat j <? Z.of_nat k) && (Z.of_nat k <=? size q))
             with true by lia.
           replace (k - j)%nat with (S (k - j - 1)) by lia. simpl.
           rewrite lookup_drop.
           replace (j + (k - j - 1))%nat with (k - 1)%nat by lia.
           rewrite contents_lookup by lia.
           replace (Z.of_nat (k - 1)) with (Z.of_nat k - 1) by lia.
           destruct (Z.of_nat k =? Z.of_nat j + 1) eqn:E1.
           ++ do 3 f_equal. lia.
           ++ rewrite aget_aset_ne; [done | lia | lia |].
              intros Heq. apply slot_inj in Heq; lia.
Qed.

Lemma enqueue_priority_full q idx ps :
  size q >= MAX_PROCESSES -> enqueue_priority q idx ps = (q, [overflow_msg]).
Proof.
  intros H. unfold enqueue_priority.
  destruct (size q >=? MAX_PROCESSES) eqn:E; [done | lia].
Qed.

(** ** Reading and writing the arrays *)

Lemma proc_upd_eq ps i f :
  valid_index ps i -> proc (upd_proc ps i f) i = f (proc ps i).
Proof.
  intros [H0 H1]. unfold proc, upd_proc. rewrite list_lookup_alter_eq.
  destruct (ps !! Z.to_nat i) eqn:E; [done |].
  apply lookup_ge_None in E. lia.
Qed.

Lemma proc_upd_ne ps i j f :
  0 <= i -> 0 <= j -> i <> j -> proc (upd_proc ps i f) j = proc ps j.
Proof.
  intros. unfold proc, upd_proc. rewrite list_lookup_alter_ne by lia. done.
Qed.

Lemma length_upd_proc ps i f : length (upd_proc ps i f) = length ps.
Proof. apply length_alter. Qed.

Lemma valid_index_upd ps i f j :
  valid_index (upd_proc ps i f) j <-> valid_index ps j.
Proof. unfold valid_index. by rewrite length_upd_proc. Qed.

Lemma length_upd_cpu cs c f : length (upd_cpu cs c f) = length cs.
Proof. apply length_alter. Qed.

Lemma cpu_lookup cs c :
  0 <= c < Z.of_nat (length cs) ->
  exists x, cs !! Z.to_nat c = Some x /\ cpu cs c = x.
Proof.
  intros H. unfold cpu.
  destruct (cs !! Z.to_nat c) as [x |] eqn:E; [eauto |].
  apply lookup_ge_None in E. lia.
Qed.

Lemma cpu_Some cs c i :
  current_process (cpu cs c) = Some i ->
  exists x, cs !! Z.to_nat c = Some x /\ current_process x = Some i.
Proof.
  unfold cpu. destruct (cs !! Z.to_nat c) as [x |]; simpl; [eauto | done].
Qed.

Lemma cpu_upd_eq cs c f :
  0 <= c < Z.of_nat (length cs) -> cpu (upd_cpu cs c f) c = f (cpu cs c).
Proof.
  intros H. destruct (cpu_lookup cs c H) as (x & Hx & Hc).
  unfold cpu, upd_cpu. rewrite list_lookup_alter_eq, Hx. done.
Qed.

Lemma cpu_upd_ne cs c c' f :
  0 <= c -> 0 <= c' -> c <> c' -> cpu (upd_cpu cs c f) c' = cpu cs c'.
Proof.
  intros. unfold cpu, upd_cpu. rewrite list_lookup_alter_ne by lia. done.
Qed.

(** ** Who is on the CPUs *)

Lemma occupants_alter_same cs c f :
  (forall x, current_process (f x) = current_process x) ->
  occupants (alter f c cs) = occupants cs.
Proof.
  intros Hf. unfold occupants. revert c.
  induction cs as [| y cs IH]; intros [| c]; simpl; try done.
  - by rewrite Hf.
  - destruct (current_process y); [f_equal |]; apply IH.
Qed.

Lemma occupants_free cs c x i :
  cs !! c = Some x -> current_process x = Some i ->
  occupants cs ≡ₚ
  i :: occupants (alter (fun x => set_current_process x None) c cs).
Proof.
  unfold occupants. revert c.
  induction cs as [| y cs IH]; intros [| c] Hx Hi; simpl in *; try done.
  - injection Hx as ->. by rewrite Hi.
  - specialize (IH c Hx Hi). destruct (current_process y).
    + etrans; [apply Permutation_skip, IH | apply Permutation_swap].
    + exact IH.
Qed.

Lemma occupants_take cs c x i :
  cs !! c = Some x -> current_process x = None ->
  occupants (alter (fun x => set_current_process x (Some i)) c cs) ≡ₚ
  i :: occupants cs.
Proof.
  unfold occupants. revert c.
  induction cs as [| y cs IH]; intros [| c] Hx Hi; simpl in *; try done.
  - injection Hx as ->. by rewrite Hi.
  - specialize (IH c Hx Hi). destruct (current_process y).
    + etrans; [apply Permutation_skip, IH | apply Permutation_swap].
    + exact IH.
Qed.

Lemma occupant_elem cs c i :
  current_process (cpu cs c) = Some i -> i ∈ occupants cs.
Proof.
  intros H. destruct (cpu_Some cs c i H) as (x & Hx & Hi).
  unfold occupants. apply list_elem_of_omap. exists x. split; [| done].
  by apply list_elem_of_lookup_2 in Hx.
Qed.

(** ** The invariant under the elementary changes *)

Lemma sched_inv_mono m now now' :
  now <= now' -> sched_inv m now -> sched_inv m now'.
Proof.
  intros Hle [Hwf Hnd Hr Hc]. split; try done.
  - eapply Forall_impl; [exact Hr |]. simpl. intros i (? & ? & ?).
    split_and!; [done | done | lia].
  - eapply Forall_impl; [exact Hc |]. simpl. intros i (? & ? & ?).
    split_and!; [done | done | lia].
Qed.

(** Changes to the processes that keep the state and the arrival time of
    every process that is queued or on a CPU, and changes to the CPUs that
    keep who is where. *)
Lemma sched_inv_frame m ps' cs' err' now :
  sched_inv m now ->
  length ps' = length (processes m) ->
  occupants cs' = occupants (cpus m) ->
  (forall i, i ∈ contents (FCFSQ m) ++ occupants (cpus m) ->
             valid_index (processes m) i ->
             state (proc ps' i) = state (proc (processes m) i) /\
             arrival_time (proc ps' i) = arrival_time (proc (processes m) i)) ->
  sched_inv (mkMachine ps' cs' (FCFSQ m) err') now.
Proof.
  intros [Hwf Hnd Hr Hc] Hlen Hocc Hsame. split; simpl; try done.
  - by rewrite Hocc.
  - apply Forall_forall. intros i Hi.
    rewrite Forall_forall in Hr. destruct (Hr i Hi) as (Hv & Hs & Ha).
    destruct (Hsame i) as [-> ->]; [apply elem_of_app; by left | done |].
    unfold valid_index in *. rewrite Hlen. done.
  - rewrite Hocc. apply Forall_forall. intros i Hi.
    rewrite Forall_forall in Hc. destruct (Hc i Hi) as (Hv & Hs & Ha).
    destruct (Hsame i) as [-> ->]; [apply elem_of_app; by right | done |].
    unfold valid_index in *. rewrite Hlen. done.
Qed.

(** A READY, arrived process that is nowhere yet joins the queue. *)
Lemma sched_inv_queue_add m q' err' idx now :
  sched_inv m now ->
  queue_wf q' ->
  contents q' ≡ₚ idx :: contents (FCFSQ m) ->
  valid_index (processes m) idx ->
  state (proc (processes m) idx) = READY ->
  arrival_time (proc (processes m) idx) <= now ->
  idx ∉ contents (FCFSQ m) ++ occupants (cpus m) ->
  sched_inv (mkMachine (processes m) (cpus m) q' err') now.
Proof.
  intros [Hwf Hnd Hr Hc] Hwf' Hperm Hv Hs Ha Hfresh.
  split; simpl; try done.
  - rewrite Hperm. simpl. by apply NoDup_cons.
  - rewrite Hperm. by apply Forall_cons.
Qed.

Lemma sched_inv_stderr m err' now :
  sched_inv m now ->
  sched_inv (mkMachine (processes m) (cpus m) (FCFSQ m) err') now.
Proof. intros [Hwf Hnd Hr Hc]. by split. Qed.

Lemma insert_ordered_perm before idx l :
  insert_ordered before idx l ≡ₚ idx :: l.
Proof.
  induction l as [| x l IH]; simpl; [done |].
  destruct (before x); [done |]. rewrite IH. apply Permutation_swap.
Qed.

Lemma sched_inv_enqueue m idx now :
  sched_inv m now ->
  valid_index (processes m) idx ->
  state (proc (processes m) idx) = READY ->
  arrival_time (proc (processes m) idx) <= now ->
  idx ∉ contents (FCFSQ m) ++ occupants (cpus m) ->
  sched_inv (enqueue_FCFSQ m idx) now.
Proof.
  intros Hinv Hv Hs Ha Hfresh. unfold enqueue_FCFSQ.
  destruct (decide (size (FCFSQ m) < MAX_PROCESSES)) as [Hroom | Hfull].
  - destruct (enqueue_room (FCFSQ m) idx (inv_wf _ _ Hinv) Hroom)
      as (Hwf' & Hc' & He').
    destruct (enqueue (FCFSQ m) idx) as [q e]. simpl in *.
    eapply sched_inv_queue_add; try done.
    rewrite Hc'. by rewrite Permutation_app_comm.
  - rewrite enqueue_full by lia. by apply sched_inv_stderr.
Qed.

Lemma sched_inv_enqueue_priority m idx now :
  sched_inv m now ->
  valid_index (processes m) idx ->
  state (proc (processes m) idx) = READY ->
  arrival_time (proc (processes m) idx) <= now ->
  idx ∉ contents (FCFSQ m) ++ occupants (cpus m) ->
  sched_inv (enqueue_priority_FCFSQ m idx) now.
Proof.
  intros Hinv Hv Hs Ha Hfresh. unfold enqueue_priority_FCFSQ.
  destruct (decide (size (FCFSQ m) < MAX_PROCESSES)) as [Hroom | Hfull].
  - destruct (enqueue_priority_room (FCFSQ m) idx (processes m)
                                    (inv_wf _ _ Hinv) Hroom)
      as (Hwf' & Hc' & He').
    destruct (enqueue_priority (FCFSQ m) idx (processes m)) as [q e].
    cbn [fst snd] in *.
    eapply sched_inv_queue_add; try done.
    rewrite Hc'. apply insert_ordered_perm.
  - rewrite enqueue_priority_full by lia. by apply sched_inv_stderr.
Qed.

(** What the enqueueing steps leave alone. *)
Lemma enqueue_FCFSQ_frame m idx :
  processes (enqueue_FCFSQ m idx) = processes m /\
  cpus (enqueue_FCFSQ m idx) = cpus m.
Proof. unfold enqueue_FCFSQ. by destruct (enqueue _ _). Qed.

Lemma enqueue_priority_FCFSQ_frame m idx :
  processes (enqueue_priority_FCFSQ m idx) = processes m /\
  cpus (enqueue_priority_FCFSQ m idx) = cpus m.
Proof. unfold enqueue_priority_FCFSQ. by destruct (enqueue_priority _ _ _). Qed.

Lemma enqueue_FCFSQ_contents m idx j :
  queue_wf (FCFSQ m) ->
  j ∈ contents (FCFSQ (enqueue_FCFSQ m idx)) ->
  j = idx \/ j ∈ contents (FCFSQ m).
Proof.
  intros Hwf. unfold enqueue_FCFSQ.
  destruct (decide (size (FCFSQ m) < MAX_PROCESSES)) as [Hroom | Hfull].
  - destruct (enqueue_room (FCFSQ m) idx Hwf Hroom) as (_ & Hc' & _).
    destruct (enqueue (FCFSQ m) idx) as [q e]. simpl in *. rewrite Hc'.
    rewrite elem_of_app, list_elem_of_singleton. tauto.
  - rewrite enqueue_full by lia. simpl. tauto.
Qed.

Lemma enqueue_priority_FCFSQ_contents m idx j :
  queue_wf (FCFSQ m) ->
  j ∈ contents (FCFSQ (enqueue_priority_FCFSQ m idx)) ->
  j = idx \/ j ∈ contents (FCFSQ m).
Proof.
  intros Hwf. unfold enqueue_priority_FCFSQ.
  destruct (decide (size (FCFSQ m) < MAX_PROCESSES)) as [Hroom | Hfull].
  - destruct (enqueue_priority_room (FCFSQ m) idx (processes m) Hwf Hroom)
      as (_ & Hc' & _).
    destruct (enqueue_priority (FCFSQ m) idx (processes m)) as [q e].
    cbn [fst snd FCFSQ] in *. rewrite Hc', insert_ordered_perm.
    rewrite elem_of_cons. tauto.
  - rewrite enqueue_priority_full by lia. simpl. tauto.
Qed.

(** ** handle_arrivals *)

(** The first loop: the indices it records are distinct, each is a
    process arriving now, and exactly these processes are made READY. *)
Lemma arrival_scan_spec now l :
  forall ps arr,
  NoDup l -> Forall (valid_index ps) l ->
  exists new,
    (foldl (arrival_scan_step now) (ps, arr) l).2 = arr ++ new /\
    NoDup new /\
    (forall i, i ∈ new -> i ∈ l /\ arrival_time (proc ps i) = now) /\
    length (foldl (arrival_scan_step now) (ps, arr) l).1 = length ps /\
    forall j, 0 <= j ->
      ((j ∉ new) /\ proc (foldl (arrival_scan_step now) (ps, arr) l).1 j
                    = proc ps j) \/
      ((j ∈ new) /\ proc (foldl (arrival_scan_step now) (ps, arr) l).1 j
                    = readied (proc ps j)).
Proof.
  induction l as [| i l IH]; intros ps arr Hnd Hv.
  - exists []. simpl. rewrite app_nil_r. split_and!; try done.
    + intros i Hi. by apply elem_of_nil in Hi.
    + intros j Hj. left. split; [apply not_elem_of_nil | done].
  - apply NoDup_cons in Hnd as [Hi Hnd]. apply Forall_cons in Hv as [Hvi Hv].
    cbn [foldl].
    assert (arrival_scan_step now (ps, arr) i = (ps, arr) \/
            arrival_scan_step now (ps, arr) i =
              (upd_proc ps i readied, arr ++ [i]) /\
            arrival_time (proc ps i) = now) as [-> | [-> Ea]].
    { unfold arrival_scan_step. cbn [fst snd].
      destruct (arrival_time (proc ps i) =? now) eqn:Ea; [| by left].
      destruct (Z.of_nat (length arr) <? MAX_PROCESSES); [| by left].
      right. split; [done | lia]. }
    { destruct (IH ps arr Hnd Hv) as (new & H1 & H2 & H3 & H4 & H5).
      exists new. split_and!; try done.
      intros k Hk. destruct (H3 k Hk). split; [by right | done]. }
    set (ps1 := upd_proc ps i readied).
    assert (Forall (valid_index ps1) l) as Hv1.
    { eapply Forall_impl; [exact Hv |]. intros k Hk. by apply valid_index_upd. }
    destruct (IH ps1 (arr ++ [i]) Hnd Hv1) as (new & H1 & H2 & H3 & H4 & H5).
    assert (i ∉ new) as Hinew by (intros Hin; by destruct (H3 i Hin)).
    exists (i :: new). split_and!.
    + rewrite H1, <- app_assoc. done.
    + by apply NoDup_cons.
    + intros k Hk. apply elem_of_cons in Hk as [-> | Hk].
      * split; [by left | done].
      * destruct (H3 k Hk) as [Hkl Hka]. split; [by right |].
        rewrite <- Hka. unfold ps1. rewrite proc_upd_ne; [done | | |].
        -- apply Hvi.
        -- rewrite Forall_forall in Hv. apply (Hv k Hkl).
        -- intros ->. done.
    + rewrite H4. apply length_upd_proc.
    + intros j Hj. destruct (decide (j = i)) as [-> | Hne].
      * right. split; [by left |].
        destruct (H5 i Hj) as [[_ ->] | [? _]]; [| done].
        unfold ps1. by rewrite proc_upd_eq.
      * assert (proc ps1 j = proc ps j) as Hsame.
        { unfold ps1. apply proc_upd_ne; [apply Hvi | done | done]. }
        destruct (H5 j Hj) as [[Hn ->] | [Hin ->]].
        -- left. split; [| done]. by apply not_elem_of_cons.
        -- right. split; [by right | by rewrite Hsame].
Qed.

(** After the first loop the invariant holds for the new tick, and the
    recorded arrivals are READY processes that are nowhere yet. *)
Lemma arrival_scan_inv m now ps' arr :
  sched_inv m (now - 1) ->
  foldl (arrival_scan_step now) (processes m, [])
        (seqZ 0 (process_count m)) = (ps', arr) ->
  sched_inv (mkMachine ps' (cpus m) (FCFSQ m) (stderr m)) now /\
  NoDup arr /\
  Forall (fun i => valid_index ps' i /\
                   state (proc ps' i) = READY /\
                   arrival_time (proc ps' i) <= now /\
                   i ∉ contents (FCFSQ m) ++ occupants (cpus m)) arr.
Proof.
  intros Hinv Hfold.
  destruct (arrival_scan_spec now (seqZ 0 (process_count m)) (processes m) [])
    as (new & H1 & H2 & H3 & H4 & H5).
  { apply NoDup_seqZ. }
  { apply Forall_forall. intros i Hi. apply elem_of_seqZ in Hi.
    unfold valid_index, process_count in *. lia. }
  rewrite Hfold in *. cbn [fst snd] in *.
  change ([] ++ new) with new in H1. subst new.
  assert (forall i, i ∈ contents (FCFSQ m) ++ occupants (cpus m) ->
                    valid_index (processes m) i /\
                    arrival_time (proc (processes m) i) <= now - 1) as Hold.
  { intros i Hi. apply elem_of_app in Hi as [Hi | Hi].
    - pose proof (inv_ready _ _ Hinv) as Hr. rewrite Forall_forall in Hr.
      destruct (Hr i Hi) as (? & ? & ?). done.
    - pose proof (inv_running _ _ Hinv) as Hr. rewrite Forall_forall in Hr.
      destruct (Hr i Hi) as (? & ? & ?). done. }
  split_and!; [| done |].
  - apply sched_inv_mono with (now - 1); [lia |].
    apply (sched_inv_frame m ps' (cpus m) (stderr m) (now - 1)); try done.
    intros i Hi Hv. destruct (Hold i Hi) as [_ Ha].
    destruct (H5 i) as [[_ ->] | [Hin _]]; [apply Hv | done |].
    destruct (H3 i Hin) as [_ Hnow]. lia.
  - apply Forall_forall. intros i Hi.
    destruct (H3 i Hi) as [Hil Hnow]. apply elem_of_seqZ in Hil.
    destruct (H5 i) as [[Hn _] | [_ Heq]]; [lia | done |].
    rewrite Heq. split_and!.
    + unfold valid_index, process_count in *. rewrite H4. lia.
    + done.
    + simpl. lia.
    + intros Hin. destruct (Hold i Hin) as [_ Ha]. lia.
Qed.

(** Enqueueing, one after the other, distinct READY processes that are
    nowhere yet. *)
Lemma enqueue_all_inv (step : Machine -> Z -> Machine) now :
  (forall m idx, processes (step m idx) = processes m /\
                 cpus (step m idx) = cpus m) ->
  (forall m idx,
      sched_inv m now -> valid_index (processes m) idx ->
      state (proc (processes m) idx) = READY ->
      arrival_time (proc (processes m) idx) <= now ->
      idx ∉ contents (FCFSQ m) ++ occupants (cpus m) ->
      sched_inv (step m idx) now) ->
  (forall m idx j,
      queue_wf (FCFSQ m) -> j ∈ contents (FCFSQ (step m idx)) ->
      j = idx \/ j ∈ contents (FCFSQ m)) ->
  forall l m,
    sched_inv m now -> NoDup l ->
    Forall (fun i => valid_index (processes m) i /\
                     state (proc (processes m) i) = READY /\
                     arrival_time (proc (processes m) i) <= now /\
                     i ∉ contents (FCFSQ m) ++ occupants (cpus m)) l ->
    sched_inv (foldl step m l) now.
Proof.
  intros Hframe Hstep Hcont.
  induction l as [| i l IH]; intros m Hinv Hnd Hall; [done |].
  apply NoDup_cons in Hnd as [Hi Hnd].
  apply Forall_cons in Hall as [(Hv & Hs & Ha & Hfresh) Hall].
  cbn [foldl]. destruct (Hframe m i) as [Hps Hcs].
  apply IH; [by apply Hstep | done |].
  apply Forall_forall. intros k Hk. rewrite Forall_forall in Hall.
  destruct (Hall k Hk) as (Hkv & Hks & Hka & Hkf).
  rewrite Hps, Hcs. split_and!; try done.
  intros Hin. apply elem_of_app in Hin as [Hin | Hin].
  - apply Hcont in Hin as [-> | Hin]; [done | |].
    + apply Hkf. apply elem_of_app. by left.
    + apply Hinv.
  - apply Hkf. apply elem_of_app. by right.
Qed.

Lemma foldl_same {A B} (f : A -> B -> A) (l : list B) (a : A) :
  (forall a b, f a b = a) -> foldl f a l = a.
Proof. intros H. induction l as [| b l IH]; simpl; [done |]. by rewrite H. Qed.

Lemma enqueue_all_FCFSQ_inv l m now :
  sched_inv m now -> NoDup l ->
  Forall (fun i => valid_index (processes m) i /\
                   state (proc (processes m) i) = READY /\
                   arrival_time (proc (processes m) i) <= now /\
                   i ∉ contents (FCFSQ m) ++ occupants (cpus m)) l ->
  sched_inv (foldl enqueue_FCFSQ m l) now.
Proof.
  apply (enqueue_all_inv enqueue_FCFSQ now enqueue_FCFSQ_frame
           (fun m idx => sched_inv_enqueue m idx now) enqueue_FCFSQ_contents).
Qed.

(** [handle_arrivals] takes the invariant to the new tick; under Round
    Robin, where the caller enqueues the arrivals, they are still to be
    enqueued and nowhere yet. *)
Lemma handle_arrivals_inv m now algorithm :
  sched_inv m (now - 1) ->
  sched_inv (handle_arrivals m now algorithm).1 now /\
  (algorithm = RR ->
   sched_inv (foldl enqueue_FCFSQ (handle_arrivals m now algorithm).1
                    (handle_arrivals m now algorithm).2) now).
Proof.
  intros Hinv. unfold handle_arrivals.
  destruct (foldl (arrival_scan_step now) _ _) as [ps' arr] eqn:Hfold.
  destruct (arrival_scan_inv m now ps' arr Hinv Hfold) as (Hinv' & Hnd & Hall).
  cbn [fst snd].
  destruct algorithm; cbn [arrival_enqueue_step].
  - split; [| done].
    change (foldl (arrival_enqueue_step FCFS)) with (foldl enqueue_FCFSQ).
    by apply enqueue_all_FCFSQ_inv.
  - rewrite foldl_same by done. split; [done |]. intros _.
    by apply enqueue_all_FCFSQ_inv.
  - rewrite foldl_same by done. split; [done | done].
  - split; [| done].
    change (foldl (arrival_enqueue_step SJF)) with (foldl enqueue_priority_FCFSQ).
    by apply (enqueue_all_inv enqueue_priority_FCFSQ now
                enqueue_priority_FCFSQ_frame
                (fun m idx => sched_inv_enqueue_priority m idx now)
                enqueue_priority_FCFSQ_contents).
Qed.

(** ** A process leaves its CPU *)

(** CPU occupant [i] is taken off (to be requeued or retired) and only
    its own record changes: the rest of the machine keeps the invariant,
    and [i] is nowhere. *)
Lemma sched_inv_remove_occupant m ps' cs' err' i now :
  sched_inv m now ->
  occupants (cpus m) ≡ₚ i :: occupants cs' ->
  length ps' = length (processes m) ->
  (forall j, 0 <= j -> j <> i -> proc ps' j = proc (processes m) j) ->
  sched_inv (mkMachine ps' cs' (FCFSQ m) err') now /\
  (i ∉ contents (FCFSQ m) ++ occupants cs') /\
  valid_index (processes m) i /\
  arrival_time (proc (processes m) i) <= now.
Proof.
  intros [Hwf Hnd Hr Hc] Hperm Hlen Hsame.
  rewrite Hperm in Hnd, Hc.
  rewrite <- Permutation_middle in Hnd. apply NoDup_cons in Hnd as [Hi Hnd].
  apply Forall_cons in Hc as [(Hv & _ & Ha) Hc].
  split_and!; try done.
  split; simpl; try done.
  - apply Forall_forall. intros j Hj. rewrite Forall_forall in Hr.
    destruct (Hr j Hj) as (Hjv & Hjs & Hja).
    rewrite Hsame; [| apply Hjv |].
    + unfold valid_index in *. by rewrite Hlen.
    + intros ->. apply Hi, elem_of_app. by left.
  - apply Forall_forall. intros j Hj. rewrite Forall_forall in Hc.
    destruct (Hc j Hj) as (Hjv & Hjs & Hja).
    rewrite Hsame; [| apply Hjv |].
    + unfold valid_index in *. by rewrite Hlen.
    + intros ->. apply Hi, elem_of_app. by right.
Qed.

(** ** handle_rr_quantum_expiry *)

Lemma rr_expiry_step_inv time_quantum m i now :
  sched_inv m now -> sched_inv (rr_expiry_step time_quantum m i) now.
Proof.
  intros Hinv. unfold rr_expiry_step.
  destruct (current_process (cpu (cpus m) i)) as [curr |] eqn:Hc; [| done].
  destruct (_ && _); [| done].
  destruct (quantum_used _ >=? time_quantum); [| done].
  destruct (cpu_Some _ _ _ Hc) as (x & Hx & Hi).
  pose proof (occupants_free _ _ _ _ Hx Hi) as Hperm.
  destruct (sched_inv_remove_occupant m
              (upd_proc (processes m) curr requeued)
              (upd_cpu (cpus m) i (fun c => set_current_process c None))
              (stderr m) curr now Hinv Hperm)
    as (Hinv' & Hfresh & Hv & Ha).
  { apply length_upd_proc. }
  { intros j Hj Hne. apply proc_upd_ne; [| done | done].
    pose proof (inv_running _ _ Hinv) as Hr. rewrite Forall_forall in Hr.
    apply (Hr curr). by apply occupant_elem with i. }
  apply sched_inv_enqueue; simpl; try done.
  - by apply valid_index_upd.
  - by rewrite proc_upd_eq.
  - by rewrite proc_upd_eq.
Qed.

Lemma handle_rr_quantum_expiry_inv m time_quantum now :
  sched_inv m now -> sched_inv (handle_rr_quantum_expiry m time_quantum) now.
Proof.
  unfold handle_rr_quantum_expiry. generalize (seqZ 0 (cpu_count m)).
  intros l. revert m.
  induction l as [| i l IH]; intros m Hinv; [done |].
  cbn [foldl]. by apply IH, rr_expiry_step_inv.
Qed.

(** ** assign_processes_to_idle_cpus *)

Lemma dispatch_fields p now :
  state (dispatch p now) = RUNNING /\
  quantum_used (dispatch p now) = 0 /\
  arrival_time (dispatch p now) = arrival_time p /\
  (start_time p = -1 ->
   start_time (dispatch p now) = now /\
   response_time (dispatch p now) = now - arrival_time p) /\
  (start_time p <> -1 ->
   start_time (dispatch p now) = start_time p /\
   response_time (dispatch p now) = response_time p).
Proof.
  unfold dispatch. cbn [set_state start_time arrival_time].
  destruct (start_time p =? -1) eqn:E; simpl; split_and!; try done; lia.
Qed.

(** A queued process goes onto the idle CPU [c]. *)
Lemma sched_inv_dispatch m q' idx c now :
  sched_inv m now ->
  0 <= c < cpu_count m ->
  current_process (cpu (cpus m) c) = None ->
  queue_wf q' ->
  contents (FCFSQ m) = idx :: contents q' ->
  sched_inv
    (mkMachine (upd_proc (processes m) idx (fun p => dispatch p now))
               (upd_cpu (cpus m) c (fun x => set_current_process x (Some idx)))
               q' (stderr m)) now.
Proof.
  intros [Hwf Hnd Hr Hc] Hrange Hidle Hwf' Hcont.
  destruct (cpu_lookup (cpus m) c Hrange) as (x & Hx & Hcx).
  rewrite Hcx in Hidle.
  pose proof (occupants_take _ _ _ idx Hx Hidle) as Hperm.
  rewrite Hcont in Hnd, Hr. simpl in Hnd.
  apply NoDup_cons in Hnd as [Hfresh Hnd].
  apply Forall_cons in Hr as [(Hv & Hs & Ha) Hr].
  destruct (dispatch_fields (proc (processes m) idx) now) as (Hd1 & _ & Hd2 & _).
  split; cbn [processes cpus FCFSQ stderr]; try done.
  - unfold upd_cpu. rewrite Hperm, <- Permutation_middle.
    by apply NoDup_cons.
  - apply Forall_forall. intros j Hj. rewrite Forall_forall in Hr.
    destruct (Hr j Hj) as (Hjv & Hjs & Hja).
    rewrite proc_upd_ne; [| apply Hv | apply Hjv |].
    + split; [by apply valid_index_upd | done].
    + intros ->. apply Hfresh, elem_of_app. by left.
  - unfold upd_cpu. rewrite Hperm. apply Forall_cons. split.
    + rewrite proc_upd_eq by done. rewrite Hd1, Hd2.
      split; [by apply valid_index_upd | done].
    + apply Forall_forall. intros j Hj. rewrite Forall_forall in Hc.
      destruct (Hc j Hj) as (Hjv & Hjs & Hja).
      rewrite proc_upd_ne; [| apply Hv | apply Hjv |].
      * split; [by apply valid_index_upd | done].
      * intros ->. apply Hfresh, elem_of_app. by right.
Qed.

(** Under the invariant every pop of the dispatch loop is eligible: the
    discard branch is not taken. *)
Lemma assign_loop_inv now fuel :
  forall m c pops,
  sched_inv m now -> 0 <= c ->
  sched_inv (assign_loop fuel m now c pops).1 now /\
  exists new,
    (assign_loop fuel m now c pops).2 = pops ++ new /\
    Forall (fun e => pop_time e = now /\ pop_eligible e) new.
Proof.
  induction fuel as [| fuel IH]; intros m c pops Hinv Hc.
  { simpl. split; [done |]. exists []. by rewrite app_nil_r. }
  cbn [assign_loop].
  destruct (c <? cpu_count m) eqn:Hlt.
  2:{ simpl. split; [done |]. exists []. by rewrite app_nil_r. }
  destruct (current_process (cpu (cpus m) c)) as [i |] eqn:Hocc.
  { apply IH; [done | lia]. }
  destruct (decide (0 < size (FCFSQ m))) as [Hpos | Hempty].
  2:{ rewrite dequeue_empty by lia.
      replace (-1 =? -1) with true by done. cbn [fst snd]. split.
      - by apply sched_inv_stderr.
      - exists []. by rewrite app_nil_r. }
  destruct (dequeue_front (FCFSQ m) (inv_wf _ _ Hinv) Hpos) as [Hwf' Hcont].
  destruct (dequeue (FCFSQ m)) as [idx q']. cbn [fst snd] in *.
  pose proof (inv_ready _ _ Hinv) as Hr. rewrite Hcont in Hr.
  apply Forall_cons in Hr as [(Hv & Hs & Ha) _].
  replace (idx =? -1) with false by (unfold valid_index in Hv; lia).
  assert (discarded (proc (processes m) idx) now = false) as Hnd.
  { unfold discarded. rewrite Hs. simpl. lia. }
  rewrite Hnd.
  destruct (IH (mkMachine
                  (upd_proc (processes m) idx (fun p => dispatch p now))
                  (upd_cpu (cpus m) c
                           (fun x => set_current_process x (Some idx)))
                  q' (stderr m))
               (c + 1)
               (pops ++ [mkPop now c idx (proc (processes m) idx)]))
    as (Hinv' & new & Hnew & Hall).
  { apply sched_inv_dispatch; try done. lia. }
  { lia. }
  split; [done |].
  exists (mkPop now c idx (proc (processes m) idx) :: new). split.
  - rewrite Hnew, <- app_assoc. done.
  - apply Forall_cons. split; [| done]. simpl. split; [done |].
    unfold pop_eligible. simpl. rewrite Hs. split_and!; done.
Qed.

(** ** update_waiting_times *)

Lemma proc_map f ps i :
  valid_index ps i -> proc (map f ps) i = f (proc ps i).
Proof.
  intros [H0 H1]. unfold proc. rewrite list_lookup_fmap.
  destruct (ps !! Z.to_nat i) eqn:E; [done |].
  apply lookup_ge_None in E. lia.
Qed.

Lemma update_waiting_fields now p :
  state (update_waiting now p) = state p /\
  arrival_time (update_waiting now p) = arrival_time p /\
  remaining_time (update_waiting now p) = remaining_time p /\
  burst_time (update_waiting now p) = burst_time p.
Proof. unfold update_waiting. by destruct (_ && _). Qed.

Lemma update_waiting_times_inv m t now :
  sched_inv m now -> sched_inv (update_waiting_times m t) now.
Proof.
  intros Hinv. unfold update_waiting_times.
  apply sched_inv_frame; try done.
  - apply length_map.
  - intros i _ Hv. rewrite proc_map by done.
    destruct (update_waiting_fields t (proc (processes m) i)) as (-> & -> & _).
    done.
Qed.

(** ** execute_processes *)

Lemma execute_step_inv t st c now :
  sched_inv st.1 now -> sched_inv (execute_step t st c).1 now.
Proof.
  destruct st as [m cc]. cbn [fst]. intros Hinv. unfold execute_step.
  cbn [fst snd].
  destruct (current_process (cpu (cpus m) c)) as [pi |] eqn:Hocc.
  2:{ cbn [fst]. apply sched_inv_frame; try done.
      by apply occupants_alter_same. }
  pose proof (inv_running _ _ Hinv) as Hr. rewrite Forall_forall in Hr.
  destruct (Hr pi (occupant_elem _ _ _ Hocc)) as (Hv & Hs & Ha).
  set (ps1 := upd_proc (processes m) pi _).
  destruct (remaining_time (proc ps1 pi) <=? 0); cbn [fst].
  - destruct (cpu_Some _ _ _ Hocc) as (x & Hx & Hi).
    set (cs1 := upd_cpu (cpus m) c _).
    assert (occupants (cpus m) ≡ₚ
            pi :: occupants
                    (upd_cpu cs1 c (fun x => set_current_process x None)))
      as Hperm.
    { assert (occupants cs1 = occupants (cpus m)) as <-
          by by apply occupants_alter_same.
      eapply occupants_free.
      - unfold cs1, upd_cpu. rewrite list_lookup_alter_eq, Hx. done.
      - done. }
    destruct (sched_inv_remove_occupant m
                (upd_proc ps1 pi
                   (fun p => set_state (set_finish_time p (t + 1)) COMPLETED))
                (upd_cpu cs1 c (fun x => set_current_process x None))
                (stderr m) pi now Hinv Hperm) as [H _]; [| | exact H].
    + unfold ps1. by rewrite !length_upd_proc.
    + intros j Hj Hne. unfold ps1.
      rewrite !proc_upd_ne; try done; apply Hv.
  - apply sched_inv_frame; try done.
    + apply length_upd_proc.
    + by apply occupants_alter_same.
    + intros i _ Hiv. unfold ps1.
      destruct (decide (i = pi)) as [-> | Hne].
      * by rewrite proc_upd_eq.
      * rewrite proc_upd_ne; [done | apply Hv | apply Hiv | done].
Qed.

Lemma execute_processes_inv m t cc now :
  sched_inv m now -> sched_inv (execute_processes m t cc).1 now.
Proof.
  unfold execute_processes. generalize (seqZ 0 (cpu_count m)). intros l.
  change m with (m, cc).1 at 1. generalize (m, cc). clear m cc.
  induction l as [| c l IH]; intros st Hinv; [done |].
  cbn [foldl]. by apply IH, execute_step_inv.
Qed.

(** ** One tick, and the whole loop *)

Lemma before_dispatch_inv algorithm time_quantum m now :
  sched_inv m (now - 1) ->
  sched_inv (before_dispatch algorithm time_quantum m now) now.
Proof.
  intros Hinv. unfold before_dispatch.
  destruct (handle_arrivals_inv m now algorithm Hinv) as [H1 H2].
  destruct (handle_arrivals m now algorithm) as [m1 arrived].
  cbn [fst snd] in *.
  destruct algorithm; try done.
  by apply handle_rr_quantum_expiry_inv, H2.
Qed.

Lemma tick_inv algorithm time_quantum s :
  sched_inv (machine s) (current_time s - 1) ->
  sched_inv (machine (tick algorithm time_quantum s))
            (current_time (tick algorithm time_quantum s) - 1) /\
  exists new,
    dispatch_log (tick algorithm time_quantum s) = dispatch_log s ++ new /\
    Forall pop_eligible new.
Proof.
  intros Hinv. unfold tick.
  pose proof (before_dispatch_inv algorithm time_quantum _ _ Hinv) as H3.
  set (m3 := before_dispatch _ _ _ _) in *.
  unfold assign_pops.
  destruct (assign_loop_inv (current_time s) (assign_fuel m3) m3 0 [] H3)
    as (H4 & new & Hnew & Hall); [lia |].
  destruct (assign_loop _ _ _ _ _) as [m4 pops]. cbn [fst snd] in *.
  destruct (if current_time s >=? timeline_capacity s then _ else _)
    as [tl cap].
  pose proof (execute_processes_inv _ (current_time s) (completed_count s) _
                (update_waiting_times_inv m4 (current_time s) _ H4)) as H6.
  destruct (execute_processes _ _ _) as [m6 cc]. cbn [fst] in H6.
  cbn [machine current_time dispatch_log]. split.
  - by replace (current_time s + 1 - 1) with (current_time s) by lia.
  - exists new. split; [by rewrite Hnew |].
    eapply Forall_impl; [exact Hall |]. by intros e [_ He].
Qed.

Lemma simulate_loop_pops algorithm time_quantum fuel :
  forall s,
  sched_inv (machine s) (current_time s - 1) ->
  Forall pop_eligible (dispatch_log s) ->
  Forall pop_eligible
         (dispatch_log (simulate_loop fuel algorithm time_quantum s)).
Proof.
  induction fuel as [| fuel IH]; intros s Hinv Hlog; [done |].
  cbn [simulate_loop].
  destruct (completed_count s <? _); [| done].
  destruct (tick_inv algorithm time_quantum s Hinv) as (Hinv' & new & Hnew & Hall).
  assert (Forall pop_eligible (dispatch_log (tick algorithm time_quantum s)))
    as Hlog' by (rewrite Hnew; by apply Forall_app).
  destruct (_ && _); [done |].
  destruct (_ >? 100); [done |].
  by apply IH.
Qed.

Lemma occupants_initial l : occupants (map (fun i => mkCPU i None 0 0) l) = [].
Proof. induction l as [| i l IH]; [done | exact IH]. Qed.

Lemma initial_sim_inv ps n :
  sched_inv (machine (initial_sim ps n FCFSQ0)) (-1).
Proof.
  split; cbn [machine initial_sim processes cpus FCFSQ].
  - apply FCFSQ0_wf.
  - rewrite occupants_initial. rewrite app_nil_r. vm_compute. constructor.
  - by vm_compute.
  - by rewrite occupants_initial.
Qed.
(** ** The writes of the specification and those of the code *)

Lemma alter_insert {A} (f : A -> A) (d : A) (l : list A) (n : nat) :
  alter f n l = <[n := f (default d (l !! n))]> l.
Proof.
  revert n. induction l as [| x l IH]; intros [| n]; try done.
  cbn. f_equal. apply IH.
Qed.

Lemma insert_upd_proc ps i v :
  <[Z.to_nat i := v]> ps = upd_proc ps i (fun _ => v).
Proof. unfold upd_proc. by rewrite (alter_insert _ v). Qed.

Lemma insert_upd_cpu cs c v :
  <[Z.to_nat c := v]> cs = upd_cpu cs c (fun _ => v).
Proof. unfold upd_cpu. by rewrite (alter_insert _ v). Qed.

Lemma dispatch_dispatched_at p now : dispatch p now = dispatched_at now p.
Proof.
  unfold dispatch, dispatched_at. cbn [start_time set_state].
  destruct (start_time p =? -1) eqn:E.
  - rewrite bool_decide_eq_true_2 by lia. done.
  - rewrite bool_decide_eq_false_2 by lia. done.
Qed.

Lemma discarded_ineligible p now : discarded p now = ineligible now p.
Proof.
  unfold discarded, ineligible.
  destruct (decide (state p = COMPLETED)) as [Hs | Hs].
  - rewrite !bool_decide_eq_true_2 by tauto. done.
  - rewrite (bool_decide_eq_false_2 (state p = COMPLETED)) by done.
    destruct (arrival_time p >? now) eqn:E; cbn [orb].
    + rewrite bool_decide_eq_true_2 by (right; lia). done.
    + rewrite bool_decide_eq_false_2 by (intros [? | ?]; [done | lia]). done.
Qed.

Lemma upd_proc_dispatch ps idx now :
  upd_proc ps idx (fun p => dispatch p now)
  = <[Z.to_nat idx := dispatched_at now (proc ps idx)]> ps.
Proof.
  unfold upd_proc, proc. rewrite (alter_insert _ zero_process).
  by rewrite dispatch_dispatched_at.
Qed.

Lemma upd_cpu_occupied cs c idx :
  upd_cpu cs c (fun x => set_current_process x (Some idx))
  = <[Z.to_nat c := occupied_by idx (cpu cs c)]> cs.
Proof. unfold upd_cpu, cpu. by rewrite (alter_insert _ zero_cpu). Qed.



(** ** Dispatch against its specification *)

Lemma assign_loop_fill now fuel :
  forall m c pops,
  queue_wf (FCFSQ m) ->
  Forall (fun i => i <> -1) (contents (FCFSQ m)) ->
  0 <= c <= cpu_count m ->
  (cpu_count m - c) + size (FCFSQ m) < Z.of_nat fuel ->
  let m' := (assign_loop fuel m now c pops).1 in
  (processes m', cpus m', contents (FCFSQ m')) =
    fill now (seqZ c (cpu_count m - c)) (processes m) (cpus m)
         (contents (FCFSQ m)) /\
  stderr m' = stderr m /\
  queue_wf (FCFSQ m').
Proof.
  induction fuel as [| fuel IH]; intros m c pops Hwf Hne Hc Hfuel.
  { pose proof (wf_size _ Hwf). lia. }
  cbn [assign_loop].
  destruct (c <? cpu_count m) eqn:Hlt.
  2:{ replace (cpu_count m - c) with 0 by lia. by cbn. }
  rewrite seqZ_cons by lia. cbn [fill].
  replace (Z.pred (cpu_count m - c)) with (cpu_count m - (c + 1)) by lia.
  replace (Z.succ c) with (c + 1) by lia.
  destruct (current_process (cpu (cpus m) c)) as [i |] eqn:Hocc.
  { apply IH; try done; lia. }
  destruct (decide (0 < size (FCFSQ m))) as [Hpos | Hempty].
  2:{ rewrite dequeue_empty by lia.
      replace (-1 =? -1) with true by done. cbn [fst snd].
      cbn [processes cpus FCFSQ stderr].
      rewrite (contents_empty (FCFSQ m)) by lia. by cbn. }
  destruct (dequeue_front (FCFSQ m) Hwf Hpos) as [Hwf' Hcont].
  pose proof (wf_size _ Hwf') as Hsz'.
  assert (size (dequeue (FCFSQ m)).2 = size (FCFSQ m) - 1) as Hsize.
  { unfold dequeue. destruct (size (FCFSQ m) <=? 0) eqn:E; [lia | done]. }
  destruct (dequeue (FCFSQ m)) as [idx q']. cbn [fst snd] in *.
  rewrite Hcont in Hne |- *. apply Forall_cons in Hne as [Hidx Hne].
  replace (idx =? -1) with false by lia.
  cbn [drop_ineligible]. rewrite <- discarded_ineligible.
  destruct (discarded (proc (processes m) idx) now) eqn:Hd.
  - specialize (IH (mkMachine (processes m) (cpus m) q' (stderr m)) c
                   (pops ++ [mkPop now c idx (proc (processes m) idx)])).
    cbn [processes cpus FCFSQ stderr cpu_count] in IH.
    unfold cpu_count in *. cbn [cpus] in IH.
    destruct IH as (IH1 & IH2 & IH3); try done; [lia |].
    split; [| done]. rewrite IH1.
    rewrite seqZ_cons by lia. cbn [fill]. rewrite Hocc.
    replace (Z.pred (Z.of_nat (length (cpus m)) - c))
      with (Z.of_nat (length (cpus m)) - (c + 1)) by lia.
    replace (Z.succ c) with (c + 1) by lia. done.
  - rewrite <- upd_proc_dispatch, <- upd_cpu_occupied.
    specialize (IH (mkMachine
                      (upd_proc (processes m) idx (fun p => dispatch p now))
                      (upd_cpu (cpus m) c
                               (fun x => set_current_process x (Some idx)))
                      q' (stderr m))
                   (c + 1)
                   (pops ++ [mkPop now c idx (proc (processes m) idx)])).
    unfold cpu_count in *. cbn [processes cpus FCFSQ stderr] in IH.
    rewrite length_upd_cpu in IH.
    apply IH; try done; lia.
Qed.

Lemma fill_cpu_other now todo :
  forall ps cs ql c,
  Forall (fun c' => 0 <= c') todo -> 0 <= c -> c ∉ todo ->
  cpu (fill now todo ps cs ql).1.2 c = cpu cs c.
Proof.
  induction todo as [| c0 todo IH]; intros ps cs ql c Hpos Hc Hnin; [done |].
  apply Forall_cons in Hpos as [Hc0 Hpos].
  apply not_elem_of_cons in Hnin as [Hne Hnin].
  cbn [fill]. destruct (current_process (cpu cs c0)).
  - by apply IH.
  - destruct (drop_ineligible ps now ql) as [| idx ql']; [done |].
    rewrite IH by done. rewrite insert_upd_cpu. by apply cpu_upd_ne.
Qed.

Lemma fill_length now todo :
  forall ps cs ql,
  length (fill now todo ps cs ql).1.1 = length ps /\
  length (fill now todo ps cs ql).1.2 = length cs.
Proof.
  induction todo as [| c0 todo IH]; intros ps cs ql; [done |].
  cbn [fill]. destruct (current_process (cpu cs c0)); [apply IH |].
  destruct (drop_ineligible ps now ql) as [| idx ql']; [done |].
  destruct (IH (<[Z.to_nat idx := dispatched_at now (proc ps idx)]> ps)
               (<[Z.to_nat c0 := occupied_by idx (cpu cs c0)]> cs) ql')
    as [-> ->].
  by rewrite !length_insert.
Qed.

(** No CPU is left idle while the queue still holds an entry. *)
Lemma fill_idle_empty now todo :
  forall ps cs ql c,
  NoDup todo ->
  Forall (fun c' => 0 <= c' < Z.of_nat (length cs)) todo ->
  c ∈ todo ->
  current_process (cpu (fill now todo ps cs ql).1.2 c) = None ->
  (fill now todo ps cs ql).2 = [].
Proof.
  induction todo as [| c0 todo IH]; intros ps cs ql c Hnd Hr Hin Hidle.
  { by apply elem_of_nil in Hin. }
  apply NoDup_cons in Hnd as [Hc0 Hnd].
  apply Forall_cons in Hr as [Hr0 Hr].
  assert (Forall (fun c' => 0 <= c') todo) as Hpos.
  { eapply Forall_impl; [exact Hr |]. simpl. lia. }
  cbn [fill] in *.
  destruct (current_process (cpu cs c0)) as [i |] eqn:Hocc.
  - apply elem_of_cons in Hin as [-> | Hin].
    + rewrite fill_cpu_other in Hidle by (done || lia). congruence.
    + by apply (IH ps cs ql c).
  - destruct (drop_ineligible ps now ql) as [| idx ql']; [done |].
    apply elem_of_cons in Hin as [-> | Hin].
    + rewrite fill_cpu_other in Hidle by (done || lia).
      rewrite insert_upd_cpu, cpu_upd_eq in Hidle by done. done.
    + apply (IH _ _ _ c); try done.
      eapply Forall_impl; [exact Hr |]. simpl. intros c'.
      by rewrite length_insert.
Qed.

(** *** What dispatch leaves behind *)

Lemma drop_ineligible_split ps now ql :
  exists dropped,
    ql = dropped ++ drop_ineligible ps now ql /\
    Forall (fun i => ineligible now (proc ps i) = true) dropped /\
    match drop_ineligible ps now ql with
    | [] => True
    | idx :: _ => ineligible now (proc ps idx) = false
    end.
Proof.
  induction ql as [| i ql (dropped & H1 & H2 & H3)]; cbn [drop_ineligible].
  - by exists [].
  - destruct (ineligible now (proc ps i)) eqn:E.
    + exists (i :: dropped). split_and!; [by rewrite H1 at 1 | | done].
      by apply Forall_cons.
    + by exists [].
Qed.

Lemma eligible_entries_dropped now ps l :
  Forall (fun i => ineligible now (proc ps i) = true) l ->
  eligible_entries now ps l = [].
Proof.
  unfold eligible_entries. induction 1 as [| i l Hi _ IH]; [done |].
  rewrite filter_cons_False by congruence. done.
Qed.

Lemma eligible_entries_ext now ps ps' l :
  (forall i, i ∈ l ->
             ineligible now (proc ps' i) = ineligible now (proc ps i)) ->
  eligible_entries now ps' l = eligible_entries now ps l.
Proof.
  unfold eligible_entries. induction l as [| i l IH]; intros H; [done |].
  rewrite !filter_cons, (H i) by by left.
  rewrite IH; [done |]. intros j Hj. apply H. by right.
Qed.

Lemma newly_assigned_none cs todo : newly_assigned cs cs todo = [].
Proof.
  unfold newly_assigned. induction todo as [| c todo IH]; [done |].
  cbn [omap list_omap]. destruct (current_process (cpu cs c)) eqn:E.
  - exact IH.
  - exact IH.
Qed.

Lemma newly_assigned_ext cs1 cs2 cs' todo :
  (forall c, c ∈ todo ->
             current_process (cpu cs1 c) = current_process (cpu cs2 c)) ->
  newly_assigned cs1 cs' todo = newly_assigned cs2 cs' todo.
Proof.
  unfold newly_assigned. induction todo as [| c todo IH]; intros H; [done |].
  cbn [omap list_omap]. rewrite (H c) by by left.
  rewrite IH; [done |]. intros c' Hc'. apply H. by right.
Qed.

(** Dispatching twice is dispatching once. *)
Lemma dispatched_at_twice now p :
  dispatched_at now (dispatched_at now p) = dispatched_at now p.
Proof.
  unfold dispatched_at. cbn [start_time arrival_time response_time pid
    burst_time priority remaining_time finish_time waiting_time].
  destruct (decide (start_time p = -1)) as [Hs | Hs].
  - rewrite (bool_decide_eq_true_2 _ Hs).
    destruct (decide (now = -1)) as [Hn | Hn].
    + rewrite (bool_decide_eq_true_2 _ Hn). done.
    + rewrite (bool_decide_eq_false_2 _ Hn). done.
  - rewrite (bool_decide_eq_false_2 _ Hs).
    rewrite (bool_decide_eq_false_2 _ Hs). done.
Qed.

(** A dispatched process stays one that dispatch does not throw away. *)
Lemma dispatched_at_eligible now p :
  ineligible now p = false -> ineligible now (dispatched_at now p) = false.
Proof.
  unfold ineligible. intros H. apply bool_decide_eq_false in H.
  apply bool_decide_eq_false. cbn [dispatched_at state arrival_time].
  intros [? | ?]; [done | tauto].
Qed.

(** The result of [fill], read entry by entry: [popped] is what was taken
    from the front of the queue; the CPUs that were idle hold, in the
    order of [todo], the popped entries that were not thrown away, in the
    order of the queue; these processes have the record of a dispatched
    process and every other process is as it was; a CPU is as it was or
    was idle and received a process. *)
Lemma fill_spec now todo :
  forall ps cs ql,
  NoDup todo ->
  Forall (fun c => 0 <= c < Z.of_nat (length cs)) todo ->
  Forall (valid_index ps) ql ->
  exists popped,
    ql = popped ++ (fill now todo ps cs ql).2 /\
    newly_assigned cs (fill now todo ps cs ql).1.2 todo
    = eligible_entries now ps popped /\
    (forall i, valid_index ps i ->
       (i ∈ eligible_entries now ps popped ->
        proc (fill now todo ps cs ql).1.1 i = dispatched_at now (proc ps i)) /\
       (i ∉ eligible_entries now ps popped ->
        proc (fill now todo ps cs ql).1.1 i = proc ps i)) /\
    (forall c, 0 <= c ->
       cpu (fill now todo ps cs ql).1.2 c = cpu cs c \/
       (current_process (cpu cs c) = None /\
        exists idx, cpu (fill now todo ps cs ql).1.2 c
                    = occupied_by idx (cpu cs c))).
Proof.
  induction todo as [| c0 todo IH]; intros ps cs ql Hnd Hr Hv.
  { exists []. cbn [fill fst snd]. split_and!; try done.
    - intros i _. split; [by intros ?%elem_of_nil | done].
    - intros c _. by left. }
  apply NoDup_cons in Hnd as [Hc0 Hnd].
  apply Forall_cons in Hr as [Hr0 Hr].
  assert (Forall (fun c' => 0 <= c') todo) as Hpos.
  { eapply Forall_impl; [exact Hr |]. simpl. lia. }
  cbn [fill].
  destruct (current_process (cpu cs c0)) as [i0 |] eqn:Hocc.
  { destruct (IH ps cs ql Hnd Hr Hv) as (popped & H1 & H2 & H3 & H4).
    exists popped. split_and!; try done.
    unfold newly_assigned in *. cbn [omap list_omap]. by rewrite Hocc. }
  destruct (drop_ineligible_split ps now ql) as (dropped & Hql & Hdrop & Hel).
  destruct (drop_ineligible ps now ql) as [| idx ql1] eqn:Hdi.
  { exists ql. cbn [fst snd]. rewrite app_nil_r in Hql |- *. subst dropped.
    rewrite newly_assigned_none, eligible_entries_dropped by done.
    split_and!; try done.
    - intros i _. split; [by intros ?%elem_of_nil | done].
    - intros c _. by left. }
  set (ps1 := <[Z.to_nat idx := dispatched_at now (proc ps idx)]> ps).
  set (cs1 := <[Z.to_nat c0 := occupied_by idx (cpu cs c0)]> cs).
  assert (Forall (valid_index ps) (dropped ++ idx :: ql1)) as Hv'
      by by rewrite <- Hql.
  apply Forall_app in Hv' as [_ Hv'].
  apply Forall_cons in Hv' as [Hidx Hv1].
  assert (forall i, valid_index ps1 i <-> valid_index ps i) as Hvalid.
  { intros i. unfold ps1, valid_index. by rewrite length_insert. }
  assert (proc ps1 idx = dispatched_at now (proc ps idx)) as Hp1.
  { unfold ps1. rewrite insert_upd_proc. by rewrite proc_upd_eq. }
  assert (forall i, valid_index ps i -> i <> idx -> proc ps1 i = proc ps i)
    as Hp1'.
  { intros i Hi Hne. unfold ps1. rewrite insert_upd_proc.
    apply proc_upd_ne; [apply Hidx | apply Hi | congruence]. }
  assert (forall i, valid_index ps i ->
             ineligible now (proc ps1 i) = ineligible now (proc ps i))
    as Hsame.
  { intros i Hi. destruct (decide (i = idx)) as [-> | Hne].
    - rewrite Hp1, Hel. by apply dispatched_at_eligible.
    - by rewrite Hp1'. }
  destruct (IH ps1 cs1 ql1 Hnd) as (popped1 & H1 & H2 & H3 & H4).
  { eapply Forall_impl; [exact Hr |]. simpl. intros c'. unfold cs1.
    by rewrite length_insert. }
  { eapply Forall_impl; [exact Hv1 |]. simpl. intros i. by rewrite Hvalid. }
  assert (Forall (valid_index ps) popped1) as Hvp.
  { rewrite H1 in Hv1. by apply Forall_app in Hv1 as [? _]. }
  assert (eligible_entries now ps1 popped1 = eligible_entries now ps popped1)
    as Hext.
  { apply eligible_entries_ext. intros i Hi. apply Hsame.
    rewrite Forall_forall in Hvp. by apply Hvp. }
  assert (eligible_entries now ps (dropped ++ idx :: popped1)
          = idx :: eligible_entries now ps popped1) as Hentries.
  { unfold eligible_entries. rewrite filter_app.
    fold (eligible_entries now ps dropped).
    rewrite eligible_entries_dropped by done.
    by rewrite filter_cons_True by done. }
  exists (dropped ++ idx :: popped1). split_and!.
  - rewrite Hql, H1 at 1. by rewrite <- app_assoc.
  - rewrite Hentries, <- Hext, <- H2.
    unfold newly_assigned at 1. cbn [omap list_omap]. rewrite Hocc.
    rewrite fill_cpu_other by (done || lia).
    unfold cs1 at 1. rewrite insert_upd_cpu, cpu_upd_eq by done.
    cbn [occupied_by current_process]. f_equal.
    apply newly_assigned_ext. intros c Hc. unfold cs1.
    rewrite insert_upd_cpu.
    rewrite Forall_forall in Hpos.
    rewrite cpu_upd_ne; [done | lia | by apply Hpos | by intros ->].
  - intros i Hi. rewrite Hentries.
    destruct (H3 i (proj2 (Hvalid i) Hi)) as [H3a H3b].
    rewrite Hext in H3a, H3b.
    destruct (decide (i = idx)) as [-> | Hne].
    + split; [intros _ | intros Hn; exfalso; apply Hn; by left].
      destruct (decide (idx ∈ eligible_entries now ps popped1)) as [Hin | Hin].
      * rewrite (H3a Hin), Hp1. apply dispatched_at_twice.
      * by rewrite (H3b Hin).
    + rewrite <- (Hp1' i Hi Hne). split.
      * intros [? | Hin]%elem_of_cons; [done | by apply H3a].
      * intros Hn. apply H3b. intros Hin. apply Hn. by right.
  - intros c Hc. destruct (decide (c = c0)) as [-> | Hne].
    + right. split; [done |]. exists idx.
      rewrite fill_cpu_other by (done || lia).
      unfold cs1. by rewrite insert_upd_cpu, cpu_upd_eq.
    + assert (cpu cs1 c = cpu cs c) as Hsc.
      { unfold cs1. rewrite insert_upd_cpu.
        apply cpu_upd_ne; [lia | done | congruence]. }
      destruct (H4 c Hc) as [-> | (Hidle & idx' & ->)].
      * by left.
      * right. rewrite <- Hsc. split; [done |]. by exists idx'.
Qed.

(** Once a CPU of [todo] is left idle the filling has stopped: the CPUs
    after it are as they were. *)
Lemma fill_stops now l1 :
  forall ps cs ql c l2 c',
  NoDup (l1 ++ c :: l2) ->
  Forall (fun c => 0 <= c < Z.of_nat (length cs)) (l1 ++ c :: l2) ->
  current_process (cpu (fill now (l1 ++ c :: l2) ps cs ql).1.2 c) = None ->
  c' ∈ l2 ->
  cpu (fill now (l1 ++ c :: l2) ps cs ql).1.2 c' = cpu cs c'.
Proof.
  induction l1 as [| c0 l1 IH]; intros ps cs ql c l2 c' Hnd Hr Hidle Hin.
  - cbn [app] in *. apply NoDup_cons in Hnd as [Hc Hnd].
    apply Forall_cons in Hr as [Hrc Hr].
    assert (Forall (fun c' => 0 <= c') l2) as Hpos.
    { eapply Forall_impl; [exact Hr |]. simpl. lia. }
    cbn [fill] in *.
    destruct (current_process (cpu cs c)) as [i |] eqn:Hocc.
    + rewrite fill_cpu_other in Hidle by (done || lia). congruence.
    + destruct (drop_ineligible ps now ql) as [| idx ql']; [done |].
      rewrite fill_cpu_other in Hidle by (done || lia).
      rewrite insert_upd_cpu, cpu_upd_eq in Hidle by done. done.
  - cbn [app] in *. apply NoDup_cons in Hnd as [Hc0 Hnd].
    apply Forall_cons in Hr as [Hr0 Hr].
    assert (c' <> c0) as Hne.
    { intros ->. apply Hc0. apply elem_of_app. right. by right. }
    assert (0 <= c') as Hc'.
    { rewrite Forall_forall in Hr.
      apply (Hr c'). apply elem_of_app. right. by right. }
    cbn [fill] in *.
    destruct (current_process (cpu cs c0)) as [i |] eqn:Hocc.
    + by apply IH.
    + destruct (drop_ineligible ps now ql) as [| idx ql']; [done |].
      rewrite (IH _ _ _ c l2 c'); try done.
      * rewrite insert_upd_cpu. apply cpu_upd_ne; [lia | done | congruence].
      * eapply Forall_impl; [exact Hr |]. simpl. intros x.
        by rewrite length_insert.
Qed.

(** ** Quantum expiry against its specification *)



(** *** What the quantum check leaves behind *)








(** ** Ordered insertion *)

Lemma before_entry_spec ps a x :
  before_entry ps a x = true <->
  remaining_time (proc ps a) < remaining_time (proc ps x) \/
  (remaining_time (proc ps a) = remaining_time (proc ps x) /\
   priority (proc ps a) > priority (proc ps x)).
Proof. unfold before_entry, goes_before. lia. Qed.

Lemma insert_ordered_split before idx l :
  exists l1 l2,
    l = l1 ++ l2 /\
    insert_ordered before idx l = l1 ++ idx :: l2 /\
    Forall (fun x => before x = false) l1 /\
    match l2 with [] => True | x :: _ => before x = true end.
Proof.
  induction l as [| x l (l1 & l2 & H1 & H2 & H3 & H4)]; simpl.
  - by exists [], [].
  - destruct (before x) eqn:E.
    + exists [], (x :: l). by split_and!.
    + exists (x :: l1), l2. subst l. rewrite H2. split_and!; try done.
      by apply Forall_cons.
Qed.

Lemma insert_ordered_sorted ps a l :
  remaining_sorted ps l ->
  remaining_sorted ps (insert_ordered (before_entry ps a) a l).
Proof.
  unfold remaining_sorted.
  induction l as [| x l IH]; intros Hs; simpl.
  - repeat constructor.
  - apply StronglySorted_inv in Hs as [Hs Hx].
    destruct (before_entry ps a x) eqn:E.
    + apply before_entry_spec in E.
      constructor; [by constructor |].
      apply Forall_cons. split; [lia |].
      eapply Forall_impl; [exact Hx |]. simpl. lia.
    + assert (remaining_time (proc ps x) <= remaining_time (proc ps a)) as Hle.
      { destruct (decide (remaining_time (proc ps a)
                          < remaining_time (proc ps x))) as [Hlt | ?]; [| lia].
        assert (before_entry ps a x = true) as E'
            by (apply before_entry_spec; by left).
        congruence. }
      constructor; [by apply IH |].
      rewrite insert_ordered_perm. by apply Forall_cons.
Qed.

(** An entry the new one does not go before, preceded only by such
    entries, stays ahead of it. *)
Lemma insert_ordered_behind before b l1 a l2 :
  Forall (fun x => before x = false) l1 -> before a = false ->
  exists l3 l4,
    insert_ordered before b (l1 ++ a :: l2) = l1 ++ a :: l3 ++ b :: l4.
Proof.
  intros Hl1 Ha.
  induction l1 as [| x l1 IH]; simpl.
  - rewrite Ha. destruct (insert_ordered_split before b l2)
      as (l3 & l4 & _ & -> & _). by exists l3, l4.
  - apply Forall_cons in Hl1 as [-> Hl1].
    destruct (IH Hl1) as (l3 & l4 & ->). by exists l3, l4.
Qed.

(** An entry the new one goes before ends up behind it. *)
Lemma insert_ordered_ahead before b l1 a l2 :
  before a = true ->
  exists l0 l3 l4,
    insert_ordered before b (l1 ++ a :: l2) = l0 ++ b :: l3 ++ a :: l4.
Proof.
  intros Ha.
  induction l1 as [| x l1 (l0 & l3 & l4 & IH)]; simpl.
  - rewrite Ha. by exists [], [], l2.
  - destruct (before x).
    + by exists [], (x :: l1), l2.
    + rewrite IH. by exists (x :: l0), l3, l4.
Qed.

(** ** What every run has in common *)

Lemma bruh_tick algorithm time_quantum s :
  bruh (tick algorithm time_quantum s) = bruh s.
Proof.
  unfold tick. destruct (assign_pops _ _) as [m4 ev].
  destruct (if current_time s >=? timeline_capacity s then _ else _) as [tl cap].
  destruct (execute_processes _ _ _) as [m6 cc]. done.
Qed.

(** The loop needs no more fuel than [simulate_fuel] when [bruh] starts at
    0: every pass that goes on raises [bruh] by one, and the pass that
    brings it to 101 leaves. *)
Lemma simulate_loop_fuel algorithm time_quantum fuel fuel' s :
  0 <= bruh s <= 100 ->
  101 - bruh s <= Z.of_nat fuel -> 101 - bruh s <= Z.of_nat fuel' ->
  simulate_loop fuel algorithm time_quantum s =
  simulate_loop fuel' algorithm time_quantum s.
Proof.
  revert fuel' s.
  induction fuel as [| fuel IH]; intros fuel' s Hb Hf Hf'; [lia |].
  destruct fuel' as [| fuel']; [lia |].
  cbn [simulate_loop].
  destruct (completed_count s <? _); [| done].
  destruct (_ && _); [done |].
  cbn [bruh]. rewrite bruh_tick.
  destruct (bruh s + 1 >? 100) eqn:E; [done |].
  apply IH; cbn [bruh]; rewrite ?bruh_tick; lia.
Qed.


(** *** What is written to [stderr] *)

Lemma enqueue_FCFSQ_stderr m idx :
  only_overflow_reported m -> only_overflow_reported (enqueue_FCFSQ m idx).
Proof.
  unfold only_overflow_reported, enqueue_FCFSQ, enqueue. intros H.
  destruct (size (FCFSQ m) >=? MAX_PROCESSES); simpl.
  - apply Forall_app. split; [done |]. by repeat constructor.
  - by rewrite app_nil_r.
Qed.

Lemma enqueue_priority_FCFSQ_stderr m idx :
  only_overflow_reported m ->
  only_overflow_reported (enqueue_priority_FCFSQ m idx).
Proof.
  unfold only_overflow_reported, enqueue_priority_FCFSQ, enqueue_priority.
  intros H.
  destruct (size (FCFSQ m) >=? MAX_PROCESSES) eqn:E.
  { cbn [stderr]. apply Forall_app. split; [done |]. by repeat constructor. }
  assert (only_overflow_reported (enqueue_FCFSQ m idx)) as He
      by by apply enqueue_FCFSQ_stderr.
  unfold only_overflow_reported, enqueue_FCFSQ in He.
  destruct (rear (FCFSQ m) =? -1); [done |].
  destruct (_ =? next (rear (FCFSQ m))); [done |].
  cbn [stderr]. by rewrite app_nil_r.
Qed.

Lemma foldl_preserves {A B} (P : A -> Prop) (f : A -> B -> A) l :
  (forall a b, P a -> P (f a b)) -> forall a, P a -> P (foldl f a l).
Proof.
  intros Hf. induction l as [| b l IH]; intros a Ha; [done |].
  cbn [foldl]. by apply IH, Hf.
Qed.

Lemma handle_arrivals_stderr m now algorithm :
  only_overflow_reported m ->
  only_overflow_reported (handle_arrivals m now algorithm).1.
Proof.
  intros H. unfold handle_arrivals.
  destruct (foldl (arrival_scan_step now) _ _) as [ps' arr]. cbn [fst].
  apply foldl_preserves; [| done].
  intros m0 idx Hm0. destruct algorithm; cbn [arrival_enqueue_step]; try done.
  - by apply enqueue_FCFSQ_stderr.
  - by apply enqueue_priority_FCFSQ_stderr.
Qed.

Lemma handle_rr_quantum_expiry_stderr m time_quantum :
  only_overflow_reported m ->
  only_overflow_reported (handle_rr_quantum_expiry m time_quantum).
Proof.
  unfold handle_rr_quantum_expiry. apply foldl_preserves.
  intros m0 i Hm0. unfold rr_expiry_step.
  destruct (current_process _); [| done].
  destruct (_ && _); [| done]. destruct (_ >=? _); [| done].
  by apply enqueue_FCFSQ_stderr.
Qed.

Lemma before_dispatch_stderr algorithm time_quantum m now :
  only_overflow_reported m ->
  only_overflow_reported (before_dispatch algorithm time_quantum m now).
Proof.
  intros H. unfold before_dispatch.
  pose proof (handle_arrivals_stderr m now algorithm H) as H1.
  destruct (handle_arrivals m now algorithm) as [m1 arrived]. cbn [fst] in H1.
  destruct algorithm; try done.
  apply handle_rr_quantum_expiry_stderr.
  apply foldl_preserves; [| done].
  intros m0 idx. apply enqueue_FCFSQ_stderr.
Qed.

Lemma assign_loop_stderr fuel :
  forall m now c pops, stderr (assign_loop fuel m now c pops).1 = stderr m.
Proof.
  induction fuel as [| fuel IH]; intros m now c pops; [done |].
  cbn [assign_loop]. destruct (c <? cpu_count m); [| done].
  destruct (current_process _); [apply IH |].
  destruct (dequeue (FCFSQ m)) as [idx q].
  destruct (idx =? -1); [done |].
  destruct (discarded _ _); by rewrite IH.
Qed.

Lemma execute_fold_frame t l :
  forall st,
  stderr (foldl (execute_step t) st l).1 = stderr st.1 /\
  FCFSQ (foldl (execute_step t) st l).1 = FCFSQ st.1.
Proof.
  induction l as [| c l IH]; intros st; [done |].
  cbn [foldl]. destruct (IH (execute_step t st c)) as [-> ->].
  unfold execute_step. destruct (current_process _); [| done].
  by destruct (_ <=? 0).
Qed.

Lemma execute_processes_frame m t cc :
  stderr (execute_processes m t cc).1 = stderr m /\
  FCFSQ (execute_processes m t cc).1 = FCFSQ m.
Proof. apply (execute_fold_frame t _ (m, cc)). Qed.

Lemma tick_fields algorithm time_quantum s :
  current_time (tick algorithm time_quantum s) = current_time s + 1 /\
  (timeline_capacity s <= timeline_capacity (tick algorithm time_quantum s)
   \/ timeline_capacity s <= current_time s) /\
  (only_overflow_reported (machine s) ->
   only_overflow_reported (machine (tick algorithm time_quantum s))).
Proof.
  unfold tick.
  pose proof (before_dispatch_stderr algorithm time_quantum (machine s)
                                     (current_time s)) as H3.
  set (m3 := before_dispatch _ _ _ _) in *.
  unfold assign_pops.
  pose proof (assign_loop_stderr (assign_fuel m3) m3 (current_time s) 0 [])
    as H4.
  destruct (assign_loop _ _ _ _ _) as [m4 pops]. cbn [fst] in H4.
  pose proof (execute_processes_frame
                (update_waiting_times m4 (current_time s))
                (current_time s) (completed_count s)) as [H6 _].
  destruct (execute_processes _ _ _) as [m6 cc].
  cbn [fst stderr update_waiting_times] in H6.
  destruct (current_time s >=? timeline_capacity s) eqn:E;
    cbn [current_time timeline_capacity machine].
  - split_and!; [done | right; lia |].
    unfold only_overflow_reported. rewrite H6, H4. done.
  - split_and!; [done | left; lia |].
    unfold only_overflow_reported. rewrite H6, H4. done.
Qed.

(** Every run is over within 101 ticks, and what it leaves on [stderr]
    are overflow reports only: the reported abort is never taken. *)
Lemma simulate_loop_bounded algorithm time_quantum fuel :
  forall s,
  current_time s = bruh s -> 0 <= bruh s <= 100 ->
  INITIAL_TIMELINE_CAPACITY <= timeline_capacity s ->
  only_overflow_reported (machine s) ->
  let s' := simulate_loop fuel algorithm time_quantum s in
  current_time s' <= 101 /\ only_overflow_reported (machine s').
Proof.
  induction fuel as [| fuel IH]; intros s Ht Hb Hcap Herr.
  { cbn. split; [lia | done]. }
  cbn [simulate_loop].
  destruct (completed_count s <? _); [| cbn; split; [lia | done]].
  destruct (tick_fields algorithm time_quantum s) as (Ht' & Hcap' & Herr').
  pose proof (bruh_tick algorithm time_quantum s) as Hb'.
  set (s1 := tick algorithm time_quantum s) in *.
  assert (INITIAL_TIMELINE_CAPACITY <= timeline_capacity s1) as Hcap1.
  { unfold INITIAL_TIMELINE_CAPACITY in *. lia. }
  replace (current_time s1 >? timeline_capacity s1 * 5) with false
    by (unfold INITIAL_TIMELINE_CAPACITY in *; lia).
  cbn [andb bruh].
  destruct (bruh s1 + 1 >? 100) eqn:E.
  - cbv zeta. cbn [current_time machine]. split; [lia | by apply Herr'].
  - apply IH; cbn [current_time bruh timeline_capacity machine];
      try lia; try done. by apply Herr'.
Qed.

(** *** SRTF: nothing is ever queued *)

Lemma assign_loop_empty fuel :
  forall m now c pops,
  size (FCFSQ m) <= 0 ->
  (assign_loop fuel m now c pops).2 = pops /\
  FCFSQ (assign_loop fuel m now c pops).1 = FCFSQ m /\
  cpus (assign_loop fuel m now c pops).1 = cpus m.
Proof.
  induction fuel as [| fuel IH]; intros m now c pops Hsz; [done |].
  cbn [assign_loop]. destruct (c <? cpu_count m); [| done].
  destruct (current_process _); [by apply IH |].
  rewrite dequeue_empty by done. done.
Qed.

Lemma execute_fold_idle t l :
  forall st,
  all_idle (cpus st.1) ->
  all_idle (cpus (foldl (execute_step t) st l).1) /\
  (foldl (execute_step t) st l).2 = st.2.
Proof.
  induction l as [| c l IH]; intros st Hidle; [done |].
  cbn [foldl].
  assert (current_process (cpu (cpus st.1) c) = None) as Hc.
  { unfold cpu. destruct (cpus st.1 !! Z.to_nat c) as [x |] eqn:E; [| done].
    unfold all_idle in Hidle. rewrite Forall_forall in Hidle.
    apply Hidle. by apply list_elem_of_lookup_2 in E. }
  assert (all_idle (cpus (execute_step t st c).1) /\
          (execute_step t st c).2 = st.2) as [Hidle' Hcc].
  { unfold execute_step. rewrite Hc. cbn [fst snd cpus]. split; [| done].
    unfold all_idle, upd_cpu in *. apply Forall_forall. intros x Hx.
    apply list_elem_of_lookup_1 in Hx as [k Hk].
    rewrite Forall_forall in Hidle.
    destruct (decide (Z.to_nat c = k)) as [<- | Hne].
    - rewrite list_lookup_alter_eq in Hk.
      destruct (cpus st.1 !! Z.to_nat c) as [y |] eqn:E; [| done].
      injection Hk as <-. simpl. apply Hidle.
      by apply list_elem_of_lookup_2 in E.
    - rewrite list_lookup_alter_ne in Hk by done.
      apply Hidle. by apply list_elem_of_lookup_2 in Hk. }
  destruct (IH _ Hidle') as [H1 H2]. by rewrite H2, Hcc.
Qed.

Lemma execute_processes_idle m t cc :
  all_idle (cpus m) ->
  all_idle (cpus (execute_processes m t cc).1) /\
  (execute_processes m t cc).2 = cc.
Proof. apply (execute_fold_idle t _ (m, cc)). Qed.

Lemma handle_arrivals_srtf m now :
  FCFSQ (handle_arrivals m now SRTF).1 = FCFSQ m /\
  cpus (handle_arrivals m now SRTF).1 = cpus m.
Proof.
  unfold handle_arrivals.
  destruct (foldl (arrival_scan_step now) _ _) as [ps' arr]. cbn [fst].
  by rewrite foldl_same.
Qed.

Lemma tick_srtf time_quantum s :
  size (FCFSQ (machine s)) <= 0 -> all_idle (cpus (machine s)) ->
  let s' := tick SRTF time_quantum s in
  size (FCFSQ (machine s')) <= 0 /\ all_idle (cpus (machine s')) /\
  dispatch_log s' = dispatch_log s /\
  completed_count s' = completed_count s.
Proof.
  intros Hsz Hidle. unfold tick, before_dispatch.
  destruct (handle_arrivals_srtf (machine s) (current_time s)) as [Hq Hc].
  destruct (handle_arrivals (machine s) (current_time s) SRTF) as [m1 arr].
  cbn [fst] in *. unfold handle_srtf_preemption, assign_pops.
  destruct (assign_loop_empty (assign_fuel m1) m1 (current_time s) 0 [])
    as (Hp & Hq' & Hc'); [by rewrite Hq |].
  destruct (assign_loop _ _ _ _ _) as [m4 pops]. cbn [fst snd] in *.
  destruct (if current_time s >=? timeline_capacity s then _ else _)
    as [tl cap].
  destruct (execute_processes_idle (update_waiting_times m4 (current_time s))
              (current_time s) (completed_count s)) as [Hi Hcc].
  { cbn [update_waiting_times cpus]. by rewrite Hc', Hc. }
  destruct (execute_processes_frame (update_waiting_times m4 (current_time s))
              (current_time s) (completed_count s)) as [_ Hf].
  destruct (execute_processes _ _ _) as [m6 cc]. cbn [fst snd] in *.
  cbv zeta. cbn [machine dispatch_log completed_count]. subst pops.
  cbn [update_waiting_times FCFSQ] in Hf. rewrite Hf, Hq', Hq, app_nil_r. done.
Qed.

Lemma simulate_loop_srtf time_quantum fuel :
  forall s,
  size (FCFSQ (machine s)) <= 0 -> all_idle (cpus (machine s)) ->
  let s' := simulate_loop fuel SRTF time_quantum s in
  dispatch_log s' = dispatch_log s /\
  completed_count s' = completed_count s /\
  all_idle (cpus (machine s')).
Proof.
  induction fuel as [| fuel IH]; intros s Hsz Hidle; [done |].
  cbn [simulate_loop].
  destruct (completed_count s <? _); [| done].
  destruct (tick_srtf time_quantum s Hsz Hidle) as (H1 & H2 & H3 & H4).
  destruct (_ && _); [done |].
  destruct (_ >? 100); [done |].
  cbv zeta.
  destruct (IH (mkSim (machine (tick SRTF time_quantum s))
                      (timeline (tick SRTF time_quantum s))
                      (timeline_capacity (tick SRTF time_quantum s))
                      (current_time (tick SRTF time_quantum s))
                      (completed_count (tick SRTF time_quantum s))
                      (bruh (tick SRTF time_quantum s) + 1)
                      (dispatch_log (tick SRTF time_quantum s))))
    as (IH1 & IH2 & IH3); try done.
  cbn [dispatch_log completed_count] in *. rewrite IH1, IH2. done.
Qed.

(** * The claims *)

(** Closed instances of the side conditions, by evaluation. *)
Ltac by_evaluation :=
  lazymatch goal with
  | |- queue_wf _ =>
      split; vm_compute; try reflexivity; intuition congruence
  | |- _ => apply (bool_decide_unpack _); vm_compute; exact I
  end.

(** ** Dispatch *)

(** C6.  Dispatch does what the specification function [fill] does on the
    entries of the queue: CPUs are visited in increasing index, a busy CPU
    is passed over, an idle one receives the first entry that is neither
    completed nor yet to arrive (the entries before it are thrown away and
    the same CPU is tried again), and the filling stops when the queue runs
    out.  Nothing is written to [stderr], and no CPU is left idle while the
    queue still holds an entry.  Read off the machine after dispatch: the
    entries taken are a prefix [popped] of the queue; the CPUs that were
    idle hold, in increasing CPU index, the popped entries that are
    neither COMPLETED nor yet to arrive, in the order of the queue; each
    of these processes is RUNNING with [quantum_used = 0], and if its
    [start_time] was -1 it is now the tick and [response_time] is the
    tick minus the arrival time, otherwise both are kept; every other
    process, the thrown away ones among them, is exactly as it was; a CPU
    that was busy is as it was, a CPU that received a process keeps its
    id and counters, and once a CPU is left idle every CPU after it is as
    it was. *)
Theorem dispatch_fills_idle_cpus (m : Machine) (now : Z) :
  queue_wf (FCFSQ m) ->
  Forall (valid_index (processes m)) (contents (FCFSQ m)) ->
  let m' := assign_processes_to_idle_cpus m now in
  (processes m', cpus m', contents (FCFSQ m')) =
    fill now (seqZ 0 (cpu_count m)) (processes m) (cpus m)
         (contents (FCFSQ m)) /\
  stderr m' = stderr m /\
  (forall c, 0 <= c < cpu_count m ->
             current_process (cpu (cpus m') c) = None ->
             contents (FCFSQ m') = []) /\
  (exists popped,
      contents (FCFSQ m) = popped ++ contents (FCFSQ m') /\
      newly_assigned (cpus m) (cpus m') (seqZ 0 (cpu_count m))
      = eligible_entries now (processes m) popped /\
      (forall i, valid_index (processes m) i ->
         (i ∈ eligible_entries now (processes m) popped ->
          proc (processes m') i = dispatched_at now (proc (processes m) i)) /\
         (i ∉ eligible_entries now (processes m) popped ->
          proc (processes m') i = proc (processes m) i)) /\
      (forall c, 0 <= c < cpu_count m ->
         cpu (cpus m') c = cpu (cpus m) c \/
         (current_process (cpu (cpus m) c) = None /\
          exists idx, cpu (cpus m') c = occupied_by idx (cpu (cpus m) c)))) /\
  (forall c c', 0 <= c < c' -> c' < cpu_count m ->
              current_process (cpu (cpus m') c) = None ->
              cpu (cpus m') c' = cpu (cpus m) c') /\
  process_count m' = process_count m /\
  cpu_count m' = cpu_count m /\
  (forall p, ineligible now p = true <->
             state p = COMPLETED \/ arrival_time p > now) /\
  (forall p,
      state (dispatch p now) = RUNNING /\
      quantum_used (dispatch p now) = 0 /\
      (start_time p = -1 ->
       start_time (dispatch p now) = now /\
       response_time (dispatch p now) = now - arrival_time p) /\
      (start_time p <> -1 ->
       start_time (dispatch p now) = start_time p /\
       response_time (dispatch p now) = response_time p)).
Proof.
  intros Hwf Hvalid m'.
  destruct (assign_loop_fill now (assign_fuel m) m 0 [] Hwf)
    as (Hfill & Herr & Hwf').
  { eapply Forall_impl; [exact Hvalid |]. unfold valid_index. simpl. lia. }
  { unfold cpu_count. lia. }
  { pose proof (wf_size _ Hwf). unfold assign_fuel, cpu_count. lia. }
  replace (cpu_count m - 0) with (cpu_count m) in Hfill by lia.
  fold (assign_pops m now) in Hfill, Herr.
  fold (assign_processes_to_idle_cpus m now) in Hfill, Herr.
  fold m' in Hfill, Herr.
  assert (NoDup (seqZ 0 (cpu_count m))) as Hnd by apply NoDup_seqZ.
  assert (Forall (fun c => 0 <= c < Z.of_nat (length (cpus m)))
                 (seqZ 0 (cpu_count m))) as Hrange.
  { apply Forall_forall. intros c' Hc'. apply elem_of_seqZ in Hc'.
    unfold cpu_count in Hc'. lia. }
  pose proof (fill_length now (seqZ 0 (cpu_count m)) (processes m) (cpus m)
                (contents (FCFSQ m))) as [Hlp Hlc].
  destruct (fill_spec now (seqZ 0 (cpu_count m)) (processes m) (cpus m)
              (contents (FCFSQ m)) Hnd Hrange Hvalid)
    as (popped & Hs1 & Hs2 & Hs3 & Hs4).
  rewrite <- Hfill in Hs1, Hs2, Hs3, Hs4, Hlp, Hlc.
  cbn [fst snd] in Hs1, Hs2, Hs3, Hs4, Hlp, Hlc.
  split_and!; try done.
  - intros c Hc Hidle.
    pose proof (fill_idle_empty now (seqZ 0 (cpu_count m)) (processes m)
                  (cpus m) (contents (FCFSQ m)) c) as H.
    rewrite <- Hfill in H. cbn [fst snd] in H. apply H; try done.
    apply elem_of_seqZ. lia.
  - exists popped. split_and!; try done. intros c Hc. apply Hs4. lia.
  - intros c c' Hc Hc' Hidle.
    assert (seqZ 0 (cpu_count m)
            = seqZ 0 c ++ c :: seqZ (c + 1) (cpu_count m - (c + 1))) as Hsplit.
    { replace (cpu_count m) with (c + (cpu_count m - c)) at 1 by lia.
      rewrite seqZ_app by lia. f_equal. rewrite seqZ_cons by lia.
      f_equal. f_equal; lia. }
    pose proof (fill_stops now (seqZ 0 c) (processes m) (cpus m)
                  (contents (FCFSQ m)) c
                  (seqZ (c + 1) (cpu_count m - (c + 1))) c') as H.
    rewrite <- Hsplit, <- Hfill in H. cbn [fst snd] in H.
    apply H; try done. apply elem_of_seqZ. lia.
  - unfold process_count. by rewrite Hlp.
  - unfold cpu_count. by rewrite Hlc.
  - intros p. unfold ineligible. rewrite bool_decide_eq_true.
    split; (intros [? | ?]; [by left | right; lia]).
  - intros p. destruct (dispatch_fields p now) as (? & ? & ? & ? & ?). done.
Qed.

Lemma dispatch_fills_idle_cpus_witness :
  queue_wf (FCFSQ stale_machine) /\
  Forall (valid_index (processes stale_machine))
         (contents (FCFSQ stale_machine)) /\
  let m' := assign_processes_to_idle_cpus stale_machine 3 in
  contents (FCFSQ stale_machine) = [0; 1; 2; 3] /\
  map current_process (cpus stale_machine) = [None; Some 4; None] /\
  (processes m', cpus m', contents (FCFSQ m')) =
    fill 3 (seqZ 0 (cpu_count stale_machine)) (processes stale_machine)
         (cpus stale_machine) (contents (FCFSQ stale_machine)) /\
  (exists popped,
      contents (FCFSQ stale_machine) = popped ++ contents (FCFSQ m') /\
      newly_assigned (cpus stale_machine) (cpus m')
                     (seqZ 0 (cpu_count stale_machine))
      = eligible_entries 3 (processes stale_machine) popped) /\
  eligible_entries 3 (processes stale_machine) [0; 1; 2; 3] = [1; 3] /\
  cpus m' = [mkCPU 0 (Some 1) 2 1; mkCPU 1 (Some 4) 2 1;
             mkCPU 2 (Some 3) 1 2] /\
  contents (FCFSQ m') = [] /\
  processes m' =
    [mkProcess 1 5 2 0 2 WAITING (-1) (-1) 0 0 (-1);
     mkProcess 2 1 4 0 4 RUNNING 3 (-1) 0 0 2;
     mkProcess 3 0 1 0 0 COMPLETED 0 1 0 1 0;
     mkProcess 4 0 6 0 4 RUNNING 0 (-1) 0 0 0;
     mkProcess 5 2 3 0 2 RUNNING 2 (-1) 0 1 0].
Proof.
  assert (queue_wf (FCFSQ stale_machine)) as Hwf by by_evaluation.
  assert (Forall (valid_index (processes stale_machine))
                 (contents (FCFSQ stale_machine))) as Hv by by_evaluation.
  split; [exact Hwf |]. split; [exact Hv |].
  destruct (dispatch_fills_idle_cpus stale_machine 3 Hwf Hv)
    as (H1 & _ & _ & (popped & H2 & H3 & _) & _).
  split_and!; try exact H1; [| | by exists popped | | | |];
    vm_compute; reflexivity.
Defined.

(** ** Round Robin *)




(** ** Ordered insertion (SJF) *)

(** C8, as the code has it.  On a queue that is not full,
    [enqueue_priority] scans from the front and places the new entry
    immediately before the first entry it goes before, that is the first
    entry with a larger [remaining_time], or with the same
    [remaining_time] and a smaller [priority] value (the source ranks the
    higher priority value first); with no such entry it goes to the back.
    A queue sorted by [remaining_time] stays sorted.  Of two processes
    with equal [remaining_time] enqueued one after the other, each into a
    queue that is not full, the first stays ahead when the priorities are
    equal or its priority value is the larger one, and the second goes
    ahead when its priority value is the larger one. *)
Theorem enqueue_priority_ordered (q : ReadyQueue) (ps : list Process) (a b : Z) :
  queue_wf q ->
  size q < MAX_PROCESSES ->
  let q1 := (enqueue_priority q a ps).1 in
  let q2 := (enqueue_priority q1 b ps).1 in
  (enqueue_priority q a ps).2 = [] /\
  queue_wf q1 /\
  size q1 = size q + 1 /\
  contents q1 = insert_ordered (before_entry ps a) a (contents q) /\
  (forall x,
      before_entry ps a x = true <->
      remaining_time (proc ps a) < remaining_time (proc ps x) \/
      (remaining_time (proc ps a) = remaining_time (proc ps x) /\
       priority (proc ps a) > priority (proc ps x))) /\
  (exists l1 l2,
      contents q = l1 ++ l2 /\
      contents q1 = l1 ++ a :: l2 /\
      Forall (fun x => before_entry ps a x = false) l1 /\
      match l2 with [] => True | x :: _ => before_entry ps a x = true end) /\
  (remaining_sorted ps (contents q) -> remaining_sorted ps (contents q1)) /\
  (size q1 < MAX_PROCESSES ->
   remaining_time (proc ps a) = remaining_time (proc ps b) ->
   priority (proc ps a) = priority (proc ps b) ->
   exists l1 l2 l3, contents q2 = l1 ++ a :: l2 ++ b :: l3) /\
  (size q1 < MAX_PROCESSES ->
   remaining_time (proc ps a) = remaining_time (proc ps b) ->
   priority (proc ps a) > priority (proc ps b) ->
   exists l1 l2 l3, contents q2 = l1 ++ a :: l2 ++ b :: l3) /\
  (size q1 < MAX_PROCESSES ->
   remaining_time (proc ps a) = remaining_time (proc ps b) ->
   priority (proc ps a) < priority (proc ps b) ->
   exists l1 l2 l3, contents q2 = l1 ++ b :: l2 ++ a :: l3).
Proof.
  intros Hwf Hroom q1 q2.
  destruct (enqueue_priority_room q a ps Hwf Hroom) as (Hwf1 & Hc1 & He1).
  fold q1 in Hwf1, Hc1.
  assert (size q1 = size q + 1) as Hsize.
  { pose proof (f_equal length Hc1) as Hlen.
    rewrite insert_ordered_perm in Hlen. simpl in Hlen.
    rewrite !length_contents in Hlen.
    pose proof (wf_size _ Hwf). pose proof (wf_size _ Hwf1). lia. }
  destruct (insert_ordered_split (before_entry ps a) a (contents q))
    as (l1 & l2 & Hq & Hq1 & Hl1 & Hl2).
  assert (size q1 < MAX_PROCESSES ->
          remaining_time (proc ps a) = remaining_time (proc ps b) ->
          priority (proc ps a) >= priority (proc ps b) ->
          exists l1 l2 l3, contents q2 = l1 ++ a :: l2 ++ b :: l3) as Hstay.
  { intros Hroom1 Hrt Hpr.
    destruct (enqueue_priority_room q1 b ps Hwf1 Hroom1) as (_ & Hc2 & _).
    fold q2 in Hc2. rewrite Hc2, Hc1, Hq1.
    destruct (insert_ordered_behind (before_entry ps b) b l1 a l2)
      as (l3 & l4 & ->).
    + eapply Forall_impl; [exact Hl1 |]. simpl. intros x Hx.
      unfold before_entry, goes_before in *. lia.
    + unfold before_entry, goes_before. lia.
    + by exists l1, l3, l4. }
  split_and!; try done.
  - apply before_entry_spec.
  - exists l1, l2. by rewrite Hc1.
  - intros Hs. rewrite Hc1. by apply insert_ordered_sorted.
  - intros Hroom1 Hrt Hpr. apply Hstay; [done | done | lia].
  - intros Hroom1 Hrt Hpr. apply Hstay; [done | done | lia].
  - intros Hroom1 Hrt Hpr.
    destruct (enqueue_priority_room q1 b ps Hwf1 Hroom1) as (_ & Hc2 & _).
    fold q2 in Hc2. rewrite Hc2, Hc1, Hq1.
    destruct (insert_ordered_ahead (before_entry ps b) b l1 a l2)
      as (l0 & l3 & l4 & ->).
    + apply before_entry_spec. lia.
    + by exists l0, l3, l4.
Qed.

Lemma enqueue_priority_ordered_witness :
  (queue_wf FCFSQ0 /\
   size FCFSQ0 < MAX_PROCESSES /\
   remaining_time (proc tie_processes 0)
   = remaining_time (proc tie_processes 1) /\
   priority (proc tie_processes 0) < priority (proc tie_processes 1) /\
   exists l1 l2 l3,
     contents (enqueue_priority (enqueue_priority FCFSQ0 0 tie_processes).1
                                1 tie_processes).1
     = l1 ++ 1 :: l2 ++ 0 :: l3) /\
  (queue_wf almost_full_queue /\
   size almost_full_queue = 499 /\
   let q1 := (enqueue_priority almost_full_queue 1 tie_processes).1 in
   (enqueue_priority almost_full_queue 1 tie_processes).2 = [] /\
   size q1 = 500 /\
   contents q1
   = insert_ordered (before_entry tie_processes 1) 1
                    (contents almost_full_queue) /\
   contents q1 = 1 :: replicate 499 0).
Proof.
  assert (queue_wf FCFSQ0) as Hwf by by_evaluation.
  assert (size FCFSQ0 < MAX_PROCESSES) as Hroom by (vm_compute; reflexivity).
  assert (queue_wf almost_full_queue) as Hwf' by by_evaluation.
  assert (size almost_full_queue < MAX_PROCESSES) as Hroom'
      by (vm_compute; reflexivity).
  destruct (enqueue_priority_ordered FCFSQ0 tie_processes 0 1 Hwf Hroom)
    as (_ & _ & _ & _ & _ & _ & _ & _ & _ & H).
  destruct (enqueue_priority_ordered almost_full_queue tie_processes 1 0
              Hwf' Hroom') as (H1 & _ & _ & H2 & _).
  cbv zeta. split.
  - split_and!; try exact Hwf; try exact Hroom;
      try (apply H; vm_compute; reflexivity); vm_compute; reflexivity.
  - split_and!; try exact Hwf'; try exact H1; try exact H2;
      vm_compute; reflexivity.
Defined.

(** C8, as the claim states it, fails: with equal remaining time the
    claim places the lower priority value first, the code the higher one.
    Process 0 (priority 1) is queued and process 1 (priority 2) is
    enqueued: the claim's order is 0 before 1, [enqueue_priority] yields 1
    before 0. *)
Lemma higher_priority_value_goes_first :
  let q1 := (enqueue_priority FCFSQ0 0 tie_processes).1 in
  remaining_time (proc tie_processes 0) = remaining_time (proc tie_processes 1) /\
  priority (proc tie_processes 0) < priority (proc tie_processes 1) /\
  insert_ordered (claimed_before tie_processes 1) 1 (contents q1) = [0; 1] /\
  contents (enqueue_priority q1 1 tie_processes).1 = [1; 0] /\
  contents (enqueue_priority q1 1 tie_processes).1
    <> insert_ordered (claimed_before tie_processes 1) 1 (contents q1).
Proof. vm_compute. split_and!; try reflexivity. discriminate. Qed.

(** ** Overflow of the ready queue *)




(** ** The discard branch of dispatch *)

(** C10.  In every run (whatever the algorithm, the number of CPUs, the
    quantum and the processes, so in particular under FCFS, Round Robin and
    SJF with fewer than [MAX_PROCESSES] processes) every index popped from
    the ready queue during dispatch refers to a process that has arrived
    ([arrival_time <= current_time]) and is not COMPLETED: the test of the
    discard-and-retry branch is false at every pop. *)
Theorem discard_branch_unreachable
        (ps : list Process) (n : Z) (algorithm : Algorithm) (time_quantum : Z) :
  Forall pop_eligible
         (dispatch_log (simulate ps n algorithm time_quantum FCFSQ0)).
Proof.
  unfold simulate. apply simulate_loop_pops.
  - exact (initial_sim_inv ps n).
  - constructor.
Qed.

(** ** Runs of the program on concrete inputs *)

Lemma all_idle_initial l : all_idle (map (fun i => mkCPU i None 0 0) l).
Proof. unfold all_idle. apply Forall_forall. intros x Hx.
  apply list_elem_of_fmap in Hx as (i & -> & _). done.
Qed.

(** C1 (the code departs from the claim).  Under SRTF the program never
    runs anything: [handle_srtf_preemption] has an empty body and the SRTF
    branch of [handle_arrivals] enqueues nothing, so in every run under
    SRTF no index is ever popped for dispatch, no CPU is ever occupied and
    no process completes.  On the spec's example (pid 1: arrival 0, burst
    8; pid 2: arrival 1, burst 4; one CPU) the CPU is idle at every tick,
    the loop is left after 101 ticks, and both processes are still READY
    with their whole burst remaining; the claim has pid 1 on the CPU at
    tick 0 and pid 2 completing at tick 5. *)
Theorem srtf_never_runs_anything :
  (forall m, handle_srtf_preemption m = m) /\
  (forall ps n time_quantum,
      let s := simulate ps n SRTF time_quantum FCFSQ0 in
      dispatch_log s = [] /\ completed_count s = 0 /\
      all_idle (cpus (machine s))) /\
  let s := run srtf_example 1 SRTF DEFAULT_TIME_QUANTUM in
  timeline_of s 0 = replicate 101 (-1) /\
  current_time s = 101 /\
  completed_count s = 0 /\
  map state (processes (machine s)) = [READY; READY] /\
  map remaining_time (processes (machine s)) = [8; 4] /\
  map finish_time (processes (machine s)) = [-1; -1].
Proof.
  split; [done |]. split.
  - intros ps n time_quantum. unfold simulate.
    apply (simulate_loop_srtf time_quantum simulate_fuel (initial_sim ps n FCFSQ0)).
    + change (0 <= 0). lia.
    + apply all_idle_initial.
  - vm_compute. split_and!; reflexivity.
Qed.

(** C2 (the code departs from the claim).  Under SRTF an arriving process
    is marked READY but never inserted into the ready queue: whatever the
    machine and the tick, [handle_arrivals] leaves the queue as it was.
    For a single process arriving at tick 0 the process is recorded as
    arrived and READY, and the queue stays empty. *)
Theorem srtf_arrivals_not_enqueued :
  (forall m now, FCFSQ (handle_arrivals m now SRTF).1 = FCFSQ m) /\
  let m := mkMachine [load_process (1, 0, 1, 0)] [mkCPU 0 None 0 0] FCFSQ0 [] in
  (handle_arrivals m 0 SRTF).2 = [0] /\
  map state (processes (handle_arrivals m 0 SRTF).1) = [READY] /\
  contents (FCFSQ (handle_arrivals m 0 SRTF).1) = [].
Proof.
  split; [| vm_compute; repeat split].
  intros m now. unfold handle_arrivals.
  destruct (foldl _ _ _) as [ps arrived]. cbn [fst].
  assert (forall l m0, FCFSQ (foldl (arrival_enqueue_step SRTF) m0 l) = FCFSQ m0)
    as H by (induction l; simpl; auto).
  rewrite H.
  done.
Qed.

(** C3 (the code departs from the claim).  The loop has a third exit the
    claim rules out: the counter [bruh] ends it after 101 passes, silently.
    So every run is over within 101 ticks whether or not its processes are
    completed, and the reported abort (more than five times the timeline
    capacity in ticks) is never taken: its message never reaches [stderr].
    A single process with burst 102 on one CPU under FCFS is still RUNNING
    with one unit left when the loop is left at tick 101, and nothing was
    written to [stderr]. *)
Theorem long_job_cut_off_silently :
  (forall ps n algorithm time_quantum,
      let s := simulate ps n algorithm time_quantum FCFSQ0 in
      current_time s <= 101 /\ abort_msg ∉ stderr (machine s)) /\
  let s := run long_job 1 FCFS DEFAULT_TIME_QUANTUM in
  current_time s = 101 /\
  bruh s = 101 /\
  completed_count s = 0 /\
  process_count (machine s) = 1 /\
  map state (processes (machine s)) = [RUNNING] /\
  map remaining_time (processes (machine s)) = [1] /\
  stderr (machine s) = [] /\
  current_time s <= timeline_capacity s * 5.
Proof.
  split.
  - intros ps n algorithm time_quantum. unfold simulate.
    destruct (simulate_loop_bounded algorithm time_quantum simulate_fuel
                (initial_sim ps n FCFSQ0)) as [Ht Herr].
    { reflexivity. }
    { change (0 <= 0 <= 100). lia. }
    { change (INITIAL_TIMELINE_CAPACITY <= INITIAL_TIMELINE_CAPACITY). lia. }
    { constructor. }
    split; [exact Ht |]. intros Hin.
    unfold only_overflow_reported in Herr. rewrite Forall_forall in Herr.
    apply Herr in Hin. discriminate.
  - vm_compute. split_and!; try reflexivity. discriminate.
Qed.

(** C4 (the code departs from the claim).  [update_waiting_times] tests
    for the state WAITING, but an arrived process that is not running is
    READY: a READY process never gains waiting time.  In the FCFS example
    (pid 1: burst 5, pid 2: burst 3, both arriving at tick 0, one CPU) pid 2
    is READY in the queue during ticks 0 to 4 while pid 1 runs, and its
    [waiting_time] is still 0 at the end. *)
Theorem ready_process_gains_no_waiting_time :
  (forall now p, state p = READY -> update_waiting now p = p) /\
  let s := run fcfs_example 1 FCFS DEFAULT_TIME_QUANTUM in
  timeline_of s 0 = [1; 1; 1; 1; 1; 2; 2; 2] /\
  map start_time (processes (machine s)) = [0; 5] /\
  map state (processes (machine s)) = [COMPLETED; COMPLETED] /\
  map waiting_time (processes (machine s)) = [0; 0].
Proof.
  split.
  - intros now p Hp. unfold update_waiting. by rewrite Hp.
  - vm_compute. split_and!; reflexivity.
Qed.

(** C5 (the code departs from the claim).  For the process with burst 102
    the loop is left after 101 ticks: the CPU has been busy for 101 ticks,
    no process is completed (the sum of the bursts of completed processes
    is 0), and the process is still RUNNING with [remaining_time = 1]. *)
Theorem long_job_breaks_conservation :
  let s := run long_job 1 FCFS DEFAULT_TIME_QUANTUM in
  sum_busy_time (cpus (machine s)) = 101 /\
  sum_completed_burst (processes (machine s)) = 0 /\
  map state (processes (machine s)) = [RUNNING] /\
  map remaining_time (processes (machine s)) = [1].
Proof. vm_compute. split_and!; reflexivity. Qed.

(** * Further properties *)

(** ** The queue as a FIFO container *)

Lemma enqueue_list_room l :
  forall q e,
  queue_wf q -> size q + Z.of_nat (length l) <= MAX_PROCESSES ->
  let r := foldl (fun st i => ((enqueue st.1 i).1, st.2 ++ (enqueue st.1 i).2))
                 (q, e) l in
  queue_wf r.1 /\ contents r.1 = contents q ++ l /\ r.2 = e /\
  size r.1 = size q + Z.of_nat (length l).
Proof.
  induction l as [| i l IH]; intros q e Hwf Hroom.
  { cbn. rewrite app_nil_r. split_and!; try done. lia. }
  cbn [foldl fst snd]. cbn [length] in Hroom.
  destruct (enqueue_room q i Hwf) as (Hwf1 & Hc1 & He1); [lia |].
  assert (size (enqueue q i).1 = size q + 1) as Hs1.
  { unfold enqueue. destruct (size q >=? MAX_PROCESSES) eqn:E; [lia | done]. }
  destruct (IH (enqueue q i).1 (e ++ (enqueue q i).2) Hwf1) as (H1 & H2 & H3 & H4);
    [lia |].
  cbv zeta in *. split_and!; try done.
  - rewrite H2, Hc1, <- app_assoc. done.
  - rewrite H3, He1, app_nil_r. done.
  - rewrite H4, Hs1. cbn [length]. lia.
Qed.

Lemma dequeue_n_front l1 :
  forall q l2,
  queue_wf q -> contents q = l1 ++ l2 ->
  (dequeue_n (length l1) q).1 = l1 /\
  queue_wf (dequeue_n (length l1) q).2 /\
  contents (dequeue_n (length l1) q).2 = l2.
Proof.
  induction l1 as [| i l1 IH]; intros q l2 Hwf Hc; [done |].
  cbn [length dequeue_n fst snd].
  assert (0 < size q) as Hpos.
  { pose proof (length_contents q) as Hl. rewrite Hc in Hl. cbn in Hl. lia. }
  destruct (dequeue_front q Hwf Hpos) as [Hwf' Hc'].
  rewrite Hc in Hc'. cbn in Hc'. injection Hc' as Hi Hrest.
  destruct (IH (dequeue q).2 l2 Hwf') as (H1 & H2 & H3); [done |].
  rewrite H1, <- Hi. done.
Qed.

(** X1.  First in, first out, across the wrap-around of the buffer: on a
    well-formed queue with room for them, enqueueing the entries of [l]
    writes nothing to [stderr] and puts them behind the entries already
    queued; dequeueing then returns the old entries followed by [l], in
    that order, and leaves the queue empty, where one more [dequeue]
    returns -1 and changes nothing. *)
Theorem queue_first_in_first_out (q : ReadyQueue) (l : list Z) :
  queue_wf q ->
  size q + Z.of_nat (length l) <= MAX_PROCESSES ->
  let q1 := (enqueue_list q l).1 in
  let n := length (contents q ++ l) in
  (enqueue_list q l).2 = [] /\
  size q1 = size q + Z.of_nat (length l) /\
  contents q1 = contents q ++ l /\
  (dequeue_n n q1).1 = contents q ++ l /\
  contents (dequeue_n n q1).2 = [] /\
  dequeue (dequeue_n n q1).2 = (-1, (dequeue_n n q1).2).
Proof.
  intros Hwf Hroom q1 n.
  destruct (enqueue_list_room l q [] Hwf Hroom) as (Hwf1 & Hc1 & He1 & Hs1).
  fold (enqueue_list q l) in Hwf1, Hc1, He1, Hs1. fold q1 in Hwf1, Hc1, Hs1.
  destruct (dequeue_n_front (contents q ++ l) q1 [] Hwf1) as (H1 & H2 & H3).
  { by rewrite app_nil_r. }
  fold n in H1, H2, H3.
  split_and!; try done.
  apply dequeue_empty.
  pose proof (length_contents (dequeue_n n q1).2) as Hl. rewrite H3 in Hl.
  pose proof (wf_size _ H2). cbn in Hl. lia.
Qed.

Lemma queue_first_in_first_out_witness :
  queue_wf wrapped_queue /\
  contents wrapped_queue = [11; 12; 13] /\
  (dequeue_n 5 (enqueue_list wrapped_queue [21; 22]).1).1 = [11; 12; 13; 21; 22].
Proof.
  assert (queue_wf wrapped_queue) as Hwf by by_evaluation.
  assert (size wrapped_queue + Z.of_nat (length [21; 22]) <= MAX_PROCESSES)
    as Hroom by (vm_compute; discriminate).
  destruct (queue_first_in_first_out wrapped_queue [21; 22] Hwf Hroom)
    as (_ & _ & _ & H & _).
  split_and!; [exact Hwf | vm_compute; reflexivity | exact H].
Defined.

(** ** The queue ordered by the comparison of [enqueue_priority] *)

Lemma before_entry_false ps a x :
  before_entry ps a x = false <->
  remaining_time (proc ps x) < remaining_time (proc ps a) \/
  (remaining_time (proc ps x) = remaining_time (proc ps a) /\
   priority (proc ps a) <= priority (proc ps x)).
Proof. unfold before_entry, goes_before. lia. Qed.

Lemma insert_ordered_key_sorted ps a l :
  key_sorted ps l ->
  key_sorted ps (insert_ordered (before_entry ps a) a l).
Proof.
  unfold key_sorted.
  induction l as [| x l IH]; intros Hs; simpl.
  - repeat constructor.
  - apply StronglySorted_inv in Hs as [Hs Hx].
    destruct (before_entry ps a x) eqn:E.
    + constructor; [by constructor |].
      apply Forall_cons. split.
      * apply before_entry_spec in E. apply before_entry_false. lia.
      * eapply Forall_impl; [exact Hx |]. simpl. intros y Hy.
        apply before_entry_spec in E. apply before_entry_false in Hy.
        apply before_entry_false. lia.
    + constructor; [by apply IH |].
      rewrite insert_ordered_perm. by apply Forall_cons.
Qed.

(** X2.  The queue stays ordered by the whole comparison of
    [enqueue_priority] (remaining time first, then the higher priority
    value), and so the next [dequeue] returns a best entry: it is the new
    entry or one that was queued, and no entry left in the queue goes
    before it; in particular none has a smaller remaining time. *)
Theorem ordered_queue_yields_best (q : ReadyQueue) (idx : Z) (ps : list Process) :
  queue_wf q ->
  size q < MAX_PROCESSES ->
  key_sorted ps (contents q) ->
  let q1 := (enqueue_priority q idx ps).1 in
  key_sorted ps (contents q1) /\
  contents q1 ≡ₚ idx :: contents q /\
  contents q1 = (dequeue q1).1 :: contents (dequeue q1).2 /\
  forall y, y ∈ contents (dequeue q1).2 ->
    before_entry ps y (dequeue q1).1 = false /\
    remaining_time (proc ps (dequeue q1).1) <= remaining_time (proc ps y).
Proof.
  intros Hwf Hroom Hs q1.
  destruct (enqueue_priority_room q idx ps Hwf Hroom) as (Hwf1 & Hc1 & _).
  fold q1 in Hwf1, Hc1.
  assert (key_sorted ps (contents q1)) as Hs1
      by (rewrite Hc1; by apply insert_ordered_key_sorted).
  assert (contents q1 ≡ₚ idx :: contents q) as Hperm
      by (rewrite Hc1; apply insert_ordered_perm).
  assert (0 < size q1) as Hpos.
  { pose proof (length_contents q1) as Hl.
    rewrite (Permutation_length Hperm) in Hl. cbn in Hl. lia. }
  destruct (dequeue_front q1 Hwf1 Hpos) as [_ Hd].
  split_and!; try done.
  intros y Hy. unfold key_sorted in Hs1. rewrite Hd in Hs1.
  apply StronglySorted_inv in Hs1 as [_ Hall].
  rewrite Forall_forall in Hall. specialize (Hall y Hy). split; [done |].
  apply before_entry_false in Hall. lia.
Qed.

Lemma ordered_queue_yields_best_witness :
  let q := (enqueue_priority FCFSQ0 0 tie_processes).1 in
  queue_wf q /\ key_sorted tie_processes (contents q) /\
  key_sorted tie_processes (contents (enqueue_priority q 1 tie_processes).1) /\
  (dequeue (enqueue_priority q 1 tie_processes).1).1 = 1.
Proof.
  set (q := (enqueue_priority FCFSQ0 0 tie_processes).1).
  assert (queue_wf q) as Hwf by by_evaluation.
  assert (size q < MAX_PROCESSES) as Hroom by (vm_compute; reflexivity).
  assert (key_sorted tie_processes (contents q)) as Hs.
  { unfold key_sorted. replace (contents q) with [0] by (vm_compute; reflexivity).
    repeat constructor. }
  destruct (ordered_queue_yields_best q 1 tie_processes Hwf Hroom Hs) as (H & _).
  split_and!; [exact Hwf | exact Hs | exact H | vm_compute; reflexivity].
Defined.

(** ** The loop of [simulate] as a number of ticks *)

Lemma tick_with_bruh algorithm time_quantum s b :
  tick algorithm time_quantum (with_bruh s b)
  = with_bruh (tick algorithm time_quantum s) b.
Proof.
  unfold tick, with_bruh. cbn [machine current_time timeline timeline_capacity
                                completed_count bruh dispatch_log].
  destruct (assign_pops _ _) as [m4 pops].
  destruct (if current_time s >=? timeline_capacity s then _ else _) as [tl cap].
  destruct (execute_processes _ _ _) as [m6 cc]. done.
Qed.

Lemma after_ticks_S algorithm time_quantum ps n k :
  after_ticks algorithm time_quantum ps n (S k)
  = tick algorithm time_quantum (after_ticks algorithm time_quantum ps n k).
Proof. done. Qed.

Lemma tick_capacity algorithm time_quantum s :
  timeline_capacity (tick algorithm time_quantum s)
  = if current_time s >=? timeline_capacity s
    then timeline_capacity s * 2 else timeline_capacity s.
Proof.
  unfold tick. destruct (assign_pops _ _) as [m4 pops].
  destruct (current_time s >=? timeline_capacity s);
    by destruct (execute_processes _ _ _).
Qed.

Lemma after_ticks_fields algorithm time_quantum ps n k :
  current_time (after_ticks algorithm time_quantum ps n k) = Z.of_nat k /\
  INITIAL_TIMELINE_CAPACITY
    <= timeline_capacity (after_ticks algorithm time_quantum ps n k) /\
  bruh (after_ticks algorithm time_quantum ps n k) = 0.
Proof.
  induction k as [| k (IH1 & IH2 & IH3)].
  { split_and!; try done. }
  rewrite after_ticks_S.
  destruct (tick_fields algorithm time_quantum
              (after_ticks algorithm time_quantum ps n k)) as (Ht & Hc & _).
  rewrite bruh_tick, tick_capacity. split_and!; [lia | | done].
  unfold INITIAL_TIMELINE_CAPACITY in *.
  destruct (_ >=? _); lia.
Qed.

(** The loop, entered after [j] ticks with [bruh = j], returns the state
    after [k] ticks for the first [k >= j] at which nothing is left
    unfinished, or for [k = 101]. *)
Lemma simulate_loop_ticks algorithm time_quantum ps n fuel :
  forall j : nat,
  (j <= 100)%nat -> (101 - j <= fuel)%nat ->
  exists k : nat,
    (j <= k <= 101)%nat /\
    simulate_loop fuel algorithm time_quantum
      (with_bruh (after_ticks algorithm time_quantum ps n j) (Z.of_nat j))
    = with_bruh (after_ticks algorithm time_quantum ps n k) (Z.of_nat k) /\
    (forall i, (j <= i < k)%nat ->
               unfinished (after_ticks algorithm time_quantum ps n i)) /\
    ((k < 101)%nat ->
     ~ unfinished (after_ticks algorithm time_quantum ps n k)).
Proof.
  induction fuel as [| fuel IH]; intros j Hj Hfuel; [lia |].
  cbn [simulate_loop].
  change (completed_count (with_bruh ?s _)) with (completed_count s).
  change (machine (with_bruh ?s _)) with (machine s).
  destruct (completed_count _ <? process_count _) eqn:Hgo.
  2:{ exists j. split_and!; [lia | lia | done | intros; lia |].
      intros _. unfold unfinished. apply Z.ltb_ge in Hgo. lia. }
  rewrite tick_with_bruh, <- after_ticks_S.
  destruct (after_ticks_fields algorithm time_quantum ps n (S j))
    as (Ht & Hcap & _).
  change (current_time (with_bruh ?s _)) with (current_time s).
  change (timeline_capacity (with_bruh ?s _)) with (timeline_capacity s).
  replace (current_time _ >? timeline_capacity _ * 5) with false
    by (unfold INITIAL_TIMELINE_CAPACITY in *; lia).
  cbn [andb].
  cbn [bruh with_bruh machine timeline timeline_capacity current_time
         completed_count dispatch_log].
  destruct (Z.of_nat j + 1 >? 100) eqn:Hb.
  - exists (S j). assert (j = 100%nat) as -> by lia.
    split_and!; [lia | lia | | | lia].
    + done.
    + intros i Hi. assert (i = 100%nat) as -> by lia. by apply Z.ltb_lt.
  - destruct (IH (S j)) as (k & Hk & Heq & Hbefore & Hafter); [lia | lia |].
    exists k. split_and!; [lia | lia | | | done].
    + rewrite <- Heq.
      replace (Z.of_nat (S j)) with (Z.of_nat j + 1) by lia. done.
    + intros i Hi. destruct (decide (i = j)) as [-> | Hne].
      * by apply Z.ltb_lt.
      * apply Hbefore. lia.
Qed.

(** X3.  What [simulate] returns is the state after a whole number [k] of
    ticks, with [total_time = k] and the counter [bruh] at [k]: [k] is the
    first tick count at which no process is left unfinished, if there is
    one below 101, and 101 otherwise. *)
Theorem simulate_runs_whole_ticks
        (ps : list Process) (n : Z) (algorithm : Algorithm) (time_quantum : Z) :
  exists k : nat,
    (k <= 101)%nat /\
    simulate ps n algorithm time_quantum FCFSQ0
    = with_bruh (after_ticks algorithm time_quantum ps n k) (Z.of_nat k) /\
    current_time (simulate ps n algorithm time_quantum FCFSQ0) = Z.of_nat k /\
    (forall i, (i < k)%nat ->
               unfinished (after_ticks algorithm time_quantum ps n i)) /\
    ((k < 101)%nat ->
     ~ unfinished (after_ticks algorithm time_quantum ps n k)).
Proof.
  destruct (simulate_loop_ticks algorithm time_quantum ps n simulate_fuel 0)
    as (k & Hk & Heq & Hbefore & Hafter); [lia | unfold simulate_fuel; lia |].
  exists k. unfold simulate.
  change (initial_sim ps n FCFSQ0)
    with (with_bruh (after_ticks algorithm time_quantum ps n 0) (Z.of_nat 0)).
  rewrite Heq. split_and!; [lia | done | | | done].
  - apply after_ticks_fields.
  - intros i Hi. apply Hbefore. lia.
Qed.

(** ** No process in two places *)

Lemma after_ticks_inv algorithm time_quantum ps n k :
  sched_inv (machine (after_ticks algorithm time_quantum ps n k))
            (Z.of_nat k - 1).
Proof.
  induction k as [| k IH].
  { exact (initial_sim_inv ps n). }
  rewrite after_ticks_S.
  destruct (after_ticks_fields algorithm time_quantum ps n k) as (Ht & _).
  destruct (tick_inv algorithm time_quantum
              (after_ticks algorithm time_quantum ps n k)) as [H _].
  { by rewrite Ht. }
  destruct (tick_fields algorithm time_quantum
              (after_ticks algorithm time_quantum ps n k)) as (Ht' & _).
  rewrite Ht', Ht in H. by replace (Z.of_nat (S k) - 1) with (Z.of_nat k + 1 - 1) by lia.
Qed.

Lemma sched_inv_one_place m now : sched_inv m now -> one_place_each m.
Proof.
  intros [Hwf Hnd Hr Hc]. split_and!; try done.
  - eapply Forall_impl; [exact Hr |]. simpl. tauto.
  - eapply Forall_impl; [exact Hc |]. simpl. tauto.
Qed.

(** X4.  No double assignment: after any number of ticks, and in the
    state [simulate] returns, the ready queue is a well-formed buffer, no
    process index occurs twice among the queue entries and the CPU
    occupants taken together (so no process is on two CPUs, or queued
    twice, or queued while on a CPU), every queued index is a READY
    process and every CPU occupant a RUNNING one. *)
Theorem no_double_assignment
        (ps : list Process) (n : Z) (algorithm : Algorithm) (time_quantum : Z) :
  (forall k, one_place_each
               (machine (after_ticks algorithm time_quantum ps n k))) /\
  one_place_each (machine (simulate ps n algorithm time_quantum FCFSQ0)).
Proof.
  assert (forall k, one_place_each
                      (machine (after_ticks algorithm time_quantum ps n k)))
    as H.
  { intros k. eapply sched_inv_one_place, after_ticks_inv. }
  split; [done |].
  destruct (simulate_loop_ticks algorithm time_quantum ps n simulate_fuel 0)
    as (k & _ & Heq & _); [lia | unfold simulate_fuel; lia |].
  unfold simulate.
  change (initial_sim ps n FCFSQ0)
    with (with_bruh (after_ticks algorithm time_quantum ps n 0) (Z.of_nat 0)).
  rewrite Heq. apply H.
Qed.

(** ** Fields the components leave alone *)

Lemma map_alter_same {A B} (g : A -> B) (f : A -> A) (l : list A) i :
  (forall x, g (f x) = g x) -> map g (alter f i l) = map g l.
Proof.
  intros H. revert i. induction l as [| x l IH]; intros [| i]; simpl; try done.
  - by rewrite H.
  - f_equal. apply IH.
Qed.

Section ProcessField.
Context {A : Type} (g : Process -> A).
Hypothesis g_state : forall p v, g (set_state p v) = g p.
Hypothesis g_quantum_used : forall p v, g (set_quantum_used p v) = g p.
Hypothesis g_start_time : forall p v, g (set_start_time p v) = g p.
Hypothesis g_response_time : forall p v, g (set_response_time p v) = g p.
Hypothesis g_waiting_time : forall p v, g (set_waiting_time p v) = g p.
Hypothesis g_remaining_time : forall p v, g (set_remaining_time p v) = g p.
Hypothesis g_finish_time : forall p v, g (set_finish_time p v) = g p.

Lemma field_enqueue_fold (step : Machine -> Z -> Machine) l :
  (forall m idx, processes (step m idx) = processes m /\
                 cpus (step m idx) = cpus m) ->
  forall m, map g (processes (foldl step m l)) = map g (processes m).
Proof.
  intros Hstep. induction l as [| i l IH]; intros m; [done |].
  cbn [foldl]. rewrite IH. by destruct (Hstep m i) as [-> _].
Qed.

Lemma field_handle_arrivals m now algorithm :
  map g (processes (handle_arrivals m now algorithm).1) = map g (processes m).
Proof.
  unfold handle_arrivals.
  assert (forall l st, map g (foldl (arrival_scan_step now) st l).1
                       = map g st.1) as Hscan.
  { induction l as [| i l IH]; intros st; [done |].
    cbn [foldl]. rewrite IH. unfold arrival_scan_step.
    destruct (_ =? now); [| done]. destruct (_ <? MAX_PROCESSES); [| done].
    cbn [fst]. apply map_alter_same. intros p.
    by rewrite g_quantum_used, g_state. }
  specialize (Hscan (seqZ 0 (process_count m)) (processes m, [])).
  destruct (foldl (arrival_scan_step now) _ _) as [ps' arr].
  cbn [fst] in *. rewrite <- Hscan.
  destruct algorithm; cbn [arrival_enqueue_step].
  - apply (field_enqueue_fold enqueue_FCFSQ), enqueue_FCFSQ_frame.
  - by rewrite foldl_same.
  - by rewrite foldl_same.
  - apply (field_enqueue_fold enqueue_priority_FCFSQ),
      enqueue_priority_FCFSQ_frame.
Qed.

Lemma field_rr m time_quantum :
  map g (processes (handle_rr_quantum_expiry m time_quantum))
  = map g (processes m).
Proof.
  unfold handle_rr_quantum_expiry. generalize (seqZ 0 (cpu_count m)).
  intros l. revert m. induction l as [| i l IH]; intros m; [done |].
  cbn [foldl]. rewrite IH. unfold rr_expiry_step.
  destruct (current_process _); [| done].
  destruct (_ && _); [| done]. destruct (_ >=? _); [| done].
  destruct (enqueue_FCFSQ_frame
              (mkMachine
                 (upd_proc (processes m) z
                           (fun p => set_state (set_quantum_used p 0) READY))
                 (upd_cpu (cpus m) i (fun c => set_current_process c None))
                 (FCFSQ m) (stderr m)) z) as [-> _].
  cbn [processes]. apply map_alter_same. intros p.
  by rewrite g_state, g_quantum_used.
Qed.

Lemma g_dispatch p now : g (dispatch p now) = g p.
Proof.
  unfold dispatch. rewrite g_quantum_used.
  destruct (_ =? -1); by rewrite ?g_response_time, ?g_start_time, g_state.
Qed.

Lemma field_assign_loop fuel :
  forall m now c pops,
  map g (processes (assign_loop fuel m now c pops).1) = map g (processes m).
Proof.
  induction fuel as [| fuel IH]; intros m now c pops; [done |].
  cbn [assign_loop]. destruct (c <? cpu_count m); [| done].
  destruct (current_process _); [apply IH |].
  destruct (dequeue (FCFSQ m)) as [idx q].
  destruct (idx =? -1); [done |].
  destruct (discarded _ _); rewrite IH; [done |].
  cbn [processes]. apply map_alter_same. intros p. apply g_dispatch.
Qed.

Lemma field_before_dispatch algorithm time_quantum m now :
  map g (processes (before_dispatch algorithm time_quantum m now))
  = map g (processes m).
Proof.
  unfold before_dispatch.
  pose proof (field_handle_arrivals m now algorithm) as H.
  destruct (handle_arrivals m now algorithm) as [m1 arr]. cbn [fst] in H.
  destruct algorithm; try done.
  rewrite field_rr.
  rewrite (field_enqueue_fold enqueue_FCFSQ); [done |].
  apply enqueue_FCFSQ_frame.
Qed.

Lemma field_update_waiting_times m now :
  map g (processes (update_waiting_times m now)) = map g (processes m).
Proof.
  unfold update_waiting_times. cbn [processes]. rewrite map_map.
  apply map_ext. intros p. unfold update_waiting.
  destruct (_ && _); [apply g_waiting_time | done].
Qed.

Lemma field_execute_fold t l :
  forall st, map g (processes (foldl (execute_step t) st l).1)
             = map g (processes st.1).
Proof.
  induction l as [| c l IH]; intros st; [done |].
  cbn [foldl]. rewrite IH. unfold execute_step.
  destruct (current_process _); [| done].
  destruct (_ <=? 0); cbn [fst processes].
  - unfold upd_proc. rewrite !map_alter_same; [done | |]; intros p.
    + by rewrite g_quantum_used, g_remaining_time.
    + by rewrite g_state, g_finish_time.
  - apply map_alter_same. intros p.
    by rewrite g_quantum_used, g_remaining_time.
Qed.

Lemma field_tick algorithm time_quantum s :
  map g (processes (machine (tick algorithm time_quantum s)))
  = map g (processes (machine s)).
Proof.
  unfold tick.
  pose proof (field_before_dispatch algorithm time_quantum (machine s)
                                    (current_time s)) as H3.
  set (m3 := before_dispatch _ _ _ _) in *.
  unfold assign_pops.
  pose proof (field_assign_loop (assign_fuel m3) m3 (current_time s) 0 [])
    as H4.
  destruct (assign_loop _ _ _ _ _) as [m4 pops]. cbn [fst] in H4.
  destruct (if current_time s >=? timeline_capacity s then _ else _)
    as [tl cap].
  pose proof (field_execute_fold (current_time s)
                (seqZ 0 (cpu_count (update_waiting_times m4 (current_time s))))
                (update_waiting_times m4 (current_time s), completed_count s))
    as H6.
  fold (execute_processes (update_waiting_times m4 (current_time s))
                          (current_time s) (completed_count s)) in H6.
  destruct (execute_processes _ _ _) as [m6 cc]. cbn [fst machine] in *.
  by rewrite H6, field_update_waiting_times, H4, H3.
Qed.

Lemma field_after_ticks algorithm time_quantum ps n k :
  map g (processes (machine (after_ticks algorithm time_quantum ps n k)))
  = map g ps.
Proof.
  induction k as [| k IH]; [done |].
  by rewrite after_ticks_S, field_tick.
Qed.
End ProcessField.

Lemma simulate_machine ps n algorithm time_quantum :
  exists k : nat,
    (k <= 101)%nat /\
    simulate ps n algorithm time_quantum FCFSQ0
    = with_bruh (after_ticks algorithm time_quantum ps n k) (Z.of_nat k).
Proof.
  destruct (simulate_loop_ticks algorithm time_quantum ps n simulate_fuel 0)
    as (k & Hk & Heq & _); [lia | unfold simulate_fuel; lia |].
  exists k. split; [lia |]. unfold simulate.
  change (initial_sim ps n FCFSQ0)
    with (with_bruh (after_ticks algorithm time_quantum ps n 0) (Z.of_nat 0)).
  by rewrite Heq.
Qed.

(** X5.  The simulation never touches what the input fixes: after any
    number of ticks, and in the state [simulate] returns, there are as
    many processes as at the start and each still has the pid, arrival
    time, burst time and priority it started with. *)
Theorem input_fields_never_change
        (ps : list Process) (n : Z) (algorithm : Algorithm) (time_quantum : Z) :
  (forall k,
      map static (processes (machine (after_ticks algorithm time_quantum ps n k)))
      = map static ps) /\
  map static (processes (machine (simulate ps n algorithm time_quantum FCFSQ0)))
  = map static ps /\
  process_count (machine (simulate ps n algorithm time_quantum FCFSQ0))
  = Z.of_nat (length ps).
Proof.
  assert (forall k,
      map static (processes (machine (after_ticks algorithm time_quantum ps n k)))
      = map static ps) as H.
  { intros k. by apply field_after_ticks. }
  destruct (simulate_machine ps n algorithm time_quantum) as (k & _ & ->).
  cbn [with_bruh machine]. split_and!; try done.
  unfold process_count. rewrite <- (length_map static), H, length_map. done.
Qed.

(** ** What the components do to the CPUs *)

Section CPUField.
Context {B : Type} (h : CPU -> B).
Hypothesis h_current : forall c v, h (set_current_process c v) = h c.

Lemma cpus_handle_arrivals m now algorithm :
  cpus (handle_arrivals m now algorithm).1 = cpus m.
Proof.
  unfold handle_arrivals.
  destruct (foldl (arrival_scan_step now) _ _) as [ps' arr]. cbn [fst].
  assert (forall (step : Machine -> Z -> Machine) l m0,
             (forall m1 idx, processes (step m1 idx) = processes m1 /\
                             cpus (step m1 idx) = cpus m1) ->
             cpus (foldl step m0 l) = cpus m0) as Hfold.
  { intros step l. induction l as [| i l IH]; intros m0 Hs; [done |].
    cbn [foldl]. rewrite IH by done. by destruct (Hs m0 i) as [_ ->]. }
  destruct algorithm; cbn [arrival_enqueue_step].
  - by rewrite (Hfold enqueue_FCFSQ) by apply enqueue_FCFSQ_frame.
  - by rewrite foldl_same.
  - by rewrite foldl_same.
  - by rewrite (Hfold enqueue_priority_FCFSQ)
      by apply enqueue_priority_FCFSQ_frame.
Qed.

Lemma cpu_field_enqueue_all l :
  forall m, cpus (foldl enqueue_FCFSQ m l) = cpus m.
Proof.
  induction l as [| i l IH]; intros m; [done |].
  cbn [foldl]. rewrite IH. by destruct (enqueue_FCFSQ_frame m i) as [_ ->].
Qed.

Lemma cpu_field_rr m time_quantum :
  map h (cpus (handle_rr_quantum_expiry m time_quantum)) = map h (cpus m).
Proof.
  unfold handle_rr_quantum_expiry. generalize (seqZ 0 (cpu_count m)).
  intros l. revert m. induction l as [| i l IH]; intros m; [done |].
  cbn [foldl]. rewrite IH. unfold rr_expiry_step.
  destruct (current_process _); [| done].
  destruct (_ && _); [| done]. destruct (_ >=? _); [| done].
  destruct (enqueue_FCFSQ_frame
              (mkMachine
                 (upd_proc (processes m) z
                           (fun p => set_state (set_quantum_used p 0) READY))
                 (upd_cpu (cpus m) i (fun c => set_current_process c None))
                 (FCFSQ m) (stderr m)) z) as [_ ->].
  cbn [cpus]. by apply map_alter_same.
Qed.

Lemma cpu_field_assign_loop fuel :
  forall m now c pops,
  map h (cpus (assign_loop fuel m now c pops).1) = map h (cpus m).
Proof.
  induction fuel as [| fuel IH]; intros m now c pops; [done |].
  cbn [assign_loop]. destruct (c <? cpu_count m); [| done].
  destruct (current_process _); [apply IH |].
  destruct (dequeue (FCFSQ m)) as [idx q].
  destruct (idx =? -1); [done |].
  destruct (discarded _ _); rewrite IH; [done |].
  cbn [cpus]. by apply map_alter_same.
Qed.

Lemma cpu_field_before_dispatch algorithm time_quantum m now :
  map h (cpus (before_dispatch algorithm time_quantum m now)) = map h (cpus m).
Proof.
  unfold before_dispatch.
  pose proof (cpus_handle_arrivals m now algorithm) as H.
  destruct (handle_arrivals m now algorithm) as [m1 arr]. cbn [fst] in H.
  destruct algorithm; unfold handle_srtf_preemption; cbv zeta;
    try (by rewrite H).
  by rewrite cpu_field_rr, cpu_field_enqueue_all, H.
Qed.

(** Up to dispatch and the bookkeeping of waiting times. *)
Lemma cpu_field_until_execute algorithm time_quantum m now :
  map h (cpus (update_waiting_times
                 (assign_processes_to_idle_cpus
                    (before_dispatch algorithm time_quantum m now) now) now))
  = map h (cpus m).
Proof.
  unfold update_waiting_times, assign_processes_to_idle_cpus, assign_pops.
  cbn [cpus]. by rewrite cpu_field_assign_loop, cpu_field_before_dispatch.
Qed.
End CPUField.

Lemma tick_machine algorithm time_quantum s :
  machine (tick algorithm time_quantum s)
  = (execute_processes
       (update_waiting_times
          (assign_processes_to_idle_cpus
             (before_dispatch algorithm time_quantum (machine s)
                              (current_time s))
             (current_time s))
          (current_time s))
       (current_time s) (completed_count s)).1 /\
  completed_count (tick algorithm time_quantum s)
  = (execute_processes
       (update_waiting_times
          (assign_processes_to_idle_cpus
             (before_dispatch algorithm time_quantum (machine s)
                              (current_time s))
             (current_time s))
          (current_time s))
       (current_time s) (completed_count s)).2.
Proof.
  unfold tick, assign_processes_to_idle_cpus.
  destruct (assign_pops _ _) as [m4 pops]. cbn [fst].
  destruct (if current_time s >=? timeline_capacity s then _ else _)
    as [tl cap].
  by destruct (execute_processes _ _ _) as [m6 cc].
Qed.

(** The machine on which [execute_processes] works keeps the invariant. *)
Lemma until_execute_inv algorithm time_quantum m now :
  sched_inv m (now - 1) ->
  sched_inv (update_waiting_times
               (assign_processes_to_idle_cpus
                  (before_dispatch algorithm time_quantum m now) now) now) now.
Proof.
  intros Hinv. apply update_waiting_times_inv.
  unfold assign_processes_to_idle_cpus, assign_pops.
  apply assign_loop_inv; [| lia]. by apply before_dispatch_inv.
Qed.

(** ** Busy and idle time *)

Lemma alter_prefix {A} (f : A -> A) (l : list A) (k : nat) :
  alter f k (map f (take k l) ++ drop k l)
  = map f (take (S k) l) ++ drop (S k) l.
Proof.
  revert k. induction l as [| x l IH]; intros [| k]; try done.
  cbn. f_equal. apply IH.
Qed.

Lemma map_alter_comm {A B} (g : A -> B) (f : A -> A) (h : B -> B)
      (l : list A) i :
  (forall x, g (f x) = h (g x)) -> map g (alter f i l) = alter h i (map g l).
Proof.
  intros H. revert i. induction l as [| x l IH]; intros [| i]; simpl; try done.
  - by rewrite H.
  - f_equal. apply IH.
Qed.

Lemma execute_step_ticks t st c :
  map cpu_ticks (cpus (execute_step t st c).1)
  = alter Z.succ (Z.to_nat c) (map cpu_ticks (cpus st.1)) /\
  map id (cpus (execute_step t st c).1) = map id (cpus st.1).
Proof.
  unfold execute_step, upd_cpu.
  destruct (current_process _); [destruct (_ <=? 0) |]; cbn [fst cpus].
  - split.
    + rewrite (map_alter_same cpu_ticks) by done.
      apply map_alter_comm. intros x. unfold cpu_ticks. simpl. lia.
    + by rewrite !map_alter_same.
  - split.
    + apply map_alter_comm. intros x. unfold cpu_ticks. simpl. lia.
    + by rewrite !map_alter_same.
  - split.
    + apply map_alter_comm. intros x. unfold cpu_ticks. simpl. lia.
    + by rewrite !map_alter_same.
Qed.

Lemma execute_fold_ticks t (k : nat) :
  forall st,
  map cpu_ticks (cpus (foldl (execute_step t) st (seqZ 0 (Z.of_nat k))).1)
  = map Z.succ (take k (map cpu_ticks (cpus st.1)))
    ++ drop k (map cpu_ticks (cpus st.1)) /\
  map id (cpus (foldl (execute_step t) st (seqZ 0 (Z.of_nat k))).1)
  = map id (cpus st.1).
Proof.
  induction k as [| k IH]; intros st.
  { cbn. by rewrite drop_0. }
  rewrite seqZ_S, foldl_app. cbn [foldl].
  destruct (execute_step_ticks t
              (foldl (execute_step t) st (seqZ 0 (Z.of_nat k)))
              (0 + Z.of_nat k)) as [H1 H2].
  destruct (IH st) as [IH1 IH2].
  rewrite H1, H2, IH1, IH2. split; [| done].
  replace (Z.to_nat (0 + Z.of_nat k)) with k by lia.
  apply alter_prefix.
Qed.

Lemma tick_cpu_ticks algorithm time_quantum s :
  map cpu_ticks (cpus (machine (tick algorithm time_quantum s)))
  = map Z.succ (map cpu_ticks (cpus (machine s))) /\
  map id (cpus (machine (tick algorithm time_quantum s)))
  = map id (cpus (machine s)).
Proof.
  destruct (tick_machine algorithm time_quantum s) as [-> _].
  unfold execute_processes.
  set (m5 := update_waiting_times _ _).
  destruct (execute_fold_ticks (current_time s) (length (cpus m5))
                               (m5, completed_count s)) as [H1 H2].
  fold (cpu_count m5) in H1, H2. rewrite H1, H2. cbn [fst].
  unfold m5.
  rewrite (cpu_field_until_execute id) by done.
  rewrite <- (cpu_field_until_execute cpu_ticks (fun _ _ => eq_refl)
                algorithm time_quantum (machine s) (current_time s)).
  fold m5. split; [| done].
  rewrite take_ge, drop_ge by (rewrite length_map; lia).
  by rewrite app_nil_r.
Qed.

(** X6.  CPU accounting: the CPUs keep the ids 0, 1, 2, ... they were
    given, and every tick adds one to exactly one of [busy_time] and
    [idle_time] of each CPU, so after [k] ticks every CPU has
    [busy_time + idle_time = k]; in the state [simulate] returns the sum
    is [total_time] for every CPU, which is what the utilisation figures
    divide by. *)
Theorem busy_plus_idle_is_elapsed_time
        (ps : list Process) (n : Z) (algorithm : Algorithm) (time_quantum : Z) :
  (forall k,
      let s := after_ticks algorithm time_quantum ps n k in
      map id (cpus (machine s)) = seqZ 0 n /\
      Forall (fun x => busy_time x + idle_time x = Z.of_nat k)
             (cpus (machine s))) /\
  let r := simulate ps n algorithm time_quantum FCFSQ0 in
  map id (cpus (machine r)) = seqZ 0 n /\
  Forall (fun x => busy_time x + idle_time x = current_time r)
         (cpus (machine r)).
Proof.
  assert (forall k,
      let s := after_ticks algorithm time_quantum ps n k in
      map id (cpus (machine s)) = seqZ 0 n /\
      map cpu_ticks (cpus (machine s))
      = map (fun _ => Z.of_nat k) (seqZ 0 n)) as H.
  { induction k as [| k [IH1 IH2]]; cbv zeta.
    - change (after_ticks algorithm time_quantum ps n 0)
        with (initial_sim ps n FCFSQ0).
      unfold initial_sim. cbn [machine cpus].
      rewrite !map_map. split; [by rewrite map_id | done].
    - rewrite after_ticks_S.
      destruct (tick_cpu_ticks algorithm time_quantum
                  (after_ticks algorithm time_quantum ps n k)) as [-> ->].
      rewrite IH1, IH2, map_map. split; [done |].
      apply map_ext. intros _. lia. }
  assert (forall k,
      let s := after_ticks algorithm time_quantum ps n k in
      map id (cpus (machine s)) = seqZ 0 n /\
      Forall (fun x => busy_time x + idle_time x = Z.of_nat k)
             (cpus (machine s))) as H'.
  { intros k. destruct (H k) as [H1 H2]. cbv zeta. split; [done |].
    apply Forall_forall. intros x Hx.
    assert (cpu_ticks x ∈ map cpu_ticks
              (cpus (machine (after_ticks algorithm time_quantum ps n k))))
      as Hin by (apply list_elem_of_fmap; eauto).
    rewrite H2 in Hin. apply list_elem_of_fmap in Hin as (? & Heq & _). exact Heq. }
  split; [exact H' |].
  destruct (simulate_machine ps n algorithm time_quantum) as (k & _ & ->).
  cbn [with_bruh machine current_time].
  destruct (after_ticks_fields algorithm time_quantum ps n k) as (-> & _).
  apply H'.
Qed.

(** ** Conservation of work *)

Lemma sumZ_alter {A} (g : A -> Z) (f : A -> A) (l : list A) i x :
  l !! i = Some x ->
  sumZ (map g (alter f i l)) = sumZ (map g l) + g (f x) - g x.
Proof.
  revert i. induction l as [| y l IH]; intros [| i] H; try done.
  - injection H as ->.
    change (g (f x) + sumZ (map g l) = g x + sumZ (map g l) + g (f x) - g x).
    lia.
  - change (g y + sumZ (map g (alter f i l))
            = g y + sumZ (map g l) + g (f x) - g x).
    rewrite (IH i H). lia.
Qed.

Lemma sum_busy_time_sumZ cs : sum_busy_time cs = sumZ (map busy_time cs).
Proof.
  induction cs as [| x cs IH]; [done |].
  change (busy_time x + sum_busy_time cs
          = busy_time x + sumZ (map busy_time cs)).
  by rewrite IH.
Qed.

Lemma valid_lookup ps i :
  valid_index ps i -> exists p, ps !! Z.to_nat i = Some p /\ proc ps i = p.
Proof.
  intros [H0 Hlt].
  destruct (lookup_lt_is_Some_2 ps (Z.to_nat i)) as [p Hp]; [lia |].
  exists p. split; [done |]. unfold proc. by rewrite Hp.
Qed.

Lemma execute_step_work t st c now :
  sched_inv st.1 now -> work (execute_step t st c).1 = work st.1.
Proof.
  destruct st as [m cc]. cbn [fst]. intros Hinv. unfold execute_step.
  cbn [fst snd].
  destruct (current_process (cpu (cpus m) c)) as [pi |] eqn:Hocc.
  2:{ cbn [fst]. unfold work. cbn [cpus processes].
      rewrite !sum_busy_time_sumZ. unfold upd_cpu.
      by rewrite map_alter_same. }
  pose proof (inv_running _ _ Hinv) as Hr. rewrite Forall_forall in Hr.
  destruct (Hr pi (occupant_elem _ _ _ Hocc)) as (Hv & _ & _).
  destruct (valid_lookup _ _ Hv) as (p & Hp & _).
  destruct (cpu_Some _ _ _ Hocc) as (x & Hx & _).
  set (ps1 := upd_proc (processes m) pi _).
  assert (sum_remaining ps1 = sum_remaining (processes m) - 1) as Hps1.
  { unfold ps1, sum_remaining, upd_proc.
    rewrite (sumZ_alter _ _ _ _ _ Hp).
    cbn [remaining_time set_quantum_used set_remaining_time]. lia. }
  assert (forall cs', map busy_time cs' = map busy_time
            (upd_cpu (cpus m) c (fun x => set_busy_time x (busy_time x + 1))) ->
          sum_busy_time cs' = sum_busy_time (cpus m) + 1) as Hcs.
  { intros cs' Hcs'. rewrite !sum_busy_time_sumZ, Hcs'. unfold upd_cpu.
    rewrite (sumZ_alter _ _ _ _ _ Hx).
    cbn [busy_time set_busy_time]. lia. }
  destruct (remaining_time (proc ps1 pi) <=? 0); cbn [fst]; unfold work;
    cbn [cpus processes]; unfold sum_remaining in *.
  - rewrite (Hcs _) by (unfold upd_cpu at 1; by rewrite map_alter_same).
    unfold upd_proc at 1. rewrite map_alter_same by done. lia.
  - rewrite (Hcs _) by done. lia.
Qed.

(** A fold of [execute_step] over the CPUs keeps what every step keeps
    under the invariant. *)
Lemma execute_fold_keeps (P : Machine * Z -> Prop) t now l :
  (forall st c, sched_inv st.1 now -> P st -> P (execute_step t st c)) ->
  forall st, sched_inv st.1 now -> P st ->
             P (foldl (execute_step t) st l).
Proof.
  intros Hstep. induction l as [| c l IH]; intros st Hinv HP; [done |].
  cbn [foldl]. apply IH; [by apply execute_step_inv | by apply Hstep].
Qed.

Lemma tick_work algorithm time_quantum s :
  sched_inv (machine s) (current_time s - 1) ->
  work (machine (tick algorithm time_quantum s)) = work (machine s).
Proof.
  intros Hinv. destruct (tick_machine algorithm time_quantum s) as [-> _].
  set (m5 := update_waiting_times _ _).
  assert (sched_inv m5 (current_time s)) as Hinv5
      by by apply until_execute_inv.
  transitivity (work m5).
  - unfold execute_processes.
    apply (execute_fold_keeps (fun st => work st.1 = work m5)
             (current_time s) (current_time s)); try done.
    intros st c Hst <-. by eapply execute_step_work.
  - unfold work. f_equal.
    + rewrite !sum_busy_time_sumZ. unfold m5.
      by rewrite (cpu_field_until_execute busy_time).
    + unfold sum_remaining, m5.
      rewrite field_update_waiting_times by done.
      unfold assign_processes_to_idle_cpus, assign_pops.
      rewrite field_assign_loop by done.
      by rewrite field_before_dispatch.
Qed.

Lemma after_ticks_work algorithm time_quantum ps n k :
  work (machine (after_ticks algorithm time_quantum ps n k)) = sum_remaining ps.
Proof.
  induction k as [| k IH].
  - change (after_ticks algorithm time_quantum ps n 0)
      with (initial_sim ps n FCFSQ0).
    unfold initial_sim, work. cbn [machine cpus processes].
    rewrite sum_busy_time_sumZ, map_map. cbn [busy_time].
    assert (forall l : list Z, sumZ (map (fun _ => 0) l) = 0) as Hz.
    { induction l as [| a l IHl]; [done |].
      change (0 + sumZ (map (fun _ : Z => 0) l) = 0). lia. }
    rewrite Hz. lia.
  - rewrite after_ticks_S, tick_work; [done |].
    destruct (after_ticks_fields algorithm time_quantum ps n k) as (-> & _).
    apply after_ticks_inv.
Qed.

(** ** The life of a process *)

Lemma life_mono_now e now now' w p :
  now <= now' -> life e now w p -> life e now' w p.
Proof.
  intros Hle. unfold life, started. destruct (state p); intros H.
  - done.
  - destruct H as (H1 & H2 & H3 & H4). split_and!; try done; lia.
  - destruct H as (H1 & H2 & H3 & H4 & H5). split_and!; try done; lia.
  - destruct H as (H1 & [H2 | (He & H2 & H3 & H4)]); (split; [lia |]).
    + by left.
    + right. split_and!; try done; lia.
Qed.

Lemma life_mono_w e now w w' p :
  w <= w' -> state p <> RUNNING \/ e = false ->
  life e now w p -> life e now w' p.
Proof.
  intros Hle Hs. unfold life, started. destruct (state p); intros H.
  - done.
  - destruct H as (H1 & (H2 & H3 & H4 & H5) & H6 & H7).
    destruct Hs as [Hs | ->]; [done |]. split_and!; try done; lia.
  - destruct H as (H1 & H2 & H3 & H4 & H5). split_and!; try done; lia.
  - destruct H as (H1 & [H2 | (He & H2 & H3 & H4)]); (split; [lia |]).
    + by left.
    + right. split_and!; try done; lia.
Qed.

Lemma proc_lookup ps (i : nat) p :
  ps !! i = Some p -> proc ps (Z.of_nat i) = p /\ valid_index ps (Z.of_nat i).
Proof.
  intros H. unfold proc, valid_index. rewrite Nat2Z.id, H. split; [done |].
  apply lookup_lt_Some in H. lia.
Qed.

(** Two arrays that agree on [g] index by index have the same sum. *)
Lemma sumZ_ext (g : Process -> Z) ps ps' :
  length ps' = length ps ->
  (forall i, valid_index ps i -> g (proc ps' i) = g (proc ps i)) ->
  sumZ (map g ps') = sumZ (map g ps).
Proof.
  intros Hlen H. f_equal. apply list_eq. intros i.
  rewrite !list_lookup_fmap.
  destruct (ps !! i) as [p |] eqn:Hp.
  - destruct (proc_lookup _ _ _ Hp) as [Hpi Hv].
    destruct (lookup_lt_is_Some_2 ps' i) as [p' Hp'].
    { rewrite Hlen. by eapply lookup_lt_Some. }
    destruct (proc_lookup _ _ _ Hp') as [Hpi' _].
    rewrite Hp'. cbn. f_equal. rewrite <- Hpi, <- Hpi'. by apply H.
  - apply lookup_ge_None in Hp. rewrite lookup_ge_None_2; [done | lia].
Qed.

Lemma life_inv_frame e ps cs cs' now w w' cc :
  occupants cs' = occupants cs -> (forall i, w' i = w i) ->
  life_inv e ps cs now w cc -> life_inv e ps cs' now w' cc.
Proof.
  intros Hocc Hw (H1 & H2 & H3). split_and!; [| | done].
  - intros i Hi. rewrite Hw. by apply H1.
  - intros i Hi Hs. rewrite Hocc. by apply H2.
Qed.

(** *** Arrivals *)

Lemma processes_handle_arrivals m now algorithm :
  processes (handle_arrivals m now algorithm).1
  = (foldl (arrival_scan_step now) (processes m, [])
           (seqZ 0 (process_count m))).1.
Proof.
  unfold handle_arrivals.
  destruct (foldl (arrival_scan_step now) _ _) as [ps' arr]. cbn [fst].
  assert (forall (step : Machine -> Z -> Machine) l m0,
             (forall m1 idx, processes (step m1 idx) = processes m1 /\
                             cpus (step m1 idx) = cpus m1) ->
             processes (foldl step m0 l) = processes m0) as Hfold.
  { intros step l. induction l as [| i l IH]; intros m0 Hs; [done |].
    cbn [foldl]. rewrite IH by done. by destruct (Hs m0 i) as [-> _]. }
  destruct algorithm; cbn [arrival_enqueue_step].
  - by rewrite (Hfold enqueue_FCFSQ) by apply enqueue_FCFSQ_frame.
  - by rewrite foldl_same.
  - by rewrite foldl_same.
  - by rewrite (Hfold enqueue_priority_FCFSQ)
      by apply enqueue_priority_FCFSQ_frame.
Qed.

Lemma readied_life e now w p :
  0 <= now -> arrival_time p = now -> life e (now - 1) w p ->
  state p = WAITING /\ life e now w (readied p).
Proof.
  intros Hnow Harr. unfold life, started.
  destruct (state p) eqn:Hs; intros H.
  - split; [done |]. unfold readied. cbn. split; [lia |]. by left.
  - lia.
  - lia.
  - lia.
Qed.

Lemma handle_arrivals_life e m now algorithm w cc :
  0 <= now ->
  life_inv e (processes m) (cpus m) (now - 1) w cc ->
  life_inv e (processes (handle_arrivals m now algorithm).1)
           (cpus (handle_arrivals m now algorithm).1) now w cc.
Proof.
  intros Hnow (H1 & H2 & H3).
  rewrite cpus_handle_arrivals, processes_handle_arrivals.
  destruct (arrival_scan_spec now (seqZ 0 (process_count m)) (processes m) [])
    as (new & _ & _ & Hnew & Hlen & Hproc).
  { apply NoDup_seqZ. }
  { apply Forall_forall. intros i Hi. apply elem_of_seqZ in Hi.
    unfold valid_index, process_count in *. lia. }
  set (ps' := (foldl _ _ _).1) in *.
  assert (forall i, valid_index ps' i <-> valid_index (processes m) i) as Hv.
  { intros i. unfold valid_index. by rewrite Hlen. }
  assert (forall i, valid_index (processes m) i ->
            proc ps' i = proc (processes m) i \/
            (state (proc (processes m) i) = WAITING /\
             proc ps' i = readied (proc (processes m) i) /\
             life e now (w i) (readied (proc (processes m) i)))) as Hcase.
  { intros i Hi. destruct (Hproc i) as [[_ Heq] | [Hin Heq]];
      [apply Hi | by left | right].
    destruct (Hnew i Hin) as [_ Harr].
    destruct (readied_life e now (w i) _ Hnow Harr (H1 i Hi)). done. }
  split_and!.
  - intros i Hi. apply Hv in Hi.
    destruct (Hcase i Hi) as [-> | (_ & -> & Hl)]; [| done].
    apply life_mono_now with (now - 1); [lia | by apply H1].
  - intros i Hi Hs. apply Hv in Hi.
    destruct (Hcase i Hi) as [Heq | (_ & Heq & _)]; rewrite Heq in Hs.
    + by apply H2.
    + done.
  - rewrite H3. symmetry. apply sumZ_ext; [done |].
    intros i Hi. destruct (Hcase i Hi) as [-> | (Hs & -> & _)]; [done |].
    unfold is_completed, readied. cbn [state set_state set_quantum_used].
    rewrite Hs. done.
Qed.

(** *** Quantum expiry *)

Lemma occupants_freed cs c x i j :
  cs !! c = Some x -> current_process x = Some i -> j <> i ->
  j ∈ occupants cs ->
  j ∈ occupants (alter (fun x => set_current_process x None) c cs).
Proof.
  intros Hx Hi Hne Hj.
  rewrite (occupants_free _ _ _ _ Hx Hi) in Hj.
  apply elem_of_cons in Hj as [-> | Hj]; done.
Qed.

Lemma completed_total_alter ps i p f :
  ps !! Z.to_nat i = Some p ->
  completed_total (upd_proc ps i f)
  = completed_total ps + is_completed (f p) - is_completed p.
Proof. intros Hp. unfold completed_total, upd_proc. by apply sumZ_alter. Qed.

Lemma rr_expiry_step_life time_quantum m c now w cc :
  sched_inv m now ->
  life_inv false (processes m) (cpus m) now w cc ->
  life_inv false (processes (rr_expiry_step time_quantum m c))
           (cpus (rr_expiry_step time_quantum m c)) now w cc.
Proof.
  intros Hinv (H1 & H2 & H3). unfold rr_expiry_step.
  destruct (current_process (cpu (cpus m) c)) as [i |] eqn:Hocc; [| done].
  destruct (remaining_time (proc (processes m) i) >? 0) eqn:Hrem; [| done].
  destruct (bool_decide _) eqn:Hrun; [| done]. cbn [andb].
  destruct (_ >=? _); [| done].
  apply bool_decide_eq_true in Hrun.
  pose proof (inv_running _ _ Hinv) as Hr. rewrite Forall_forall in Hr.
  destruct (Hr i (occupant_elem _ _ _ Hocc)) as (Hv & _ & _).
  destruct (valid_lookup _ _ Hv) as (p & Hp & Hpi).
  destruct (cpu_Some _ _ _ Hocc) as (x & Hx & Hxi).
  match goal with
  | |- context [enqueue_FCFSQ ?m0 i] =>
    destruct (enqueue_FCFSQ_frame m0 i) as [-> ->]
  end.
  cbn [processes cpus].
  split_and!.
  - intros j Hj. rewrite valid_index_upd in Hj.
    destruct (decide (j = i)) as [-> | Hne].
    + rewrite proc_upd_eq by done. specialize (H1 i Hv).
      unfold life, started in *. rewrite Hrun in H1.
      cbn. destruct H1 as (Hf & (Ha & Hst & Hre & Hw) & _ & _).
      split; [lia |]. right. split_and!; try done; lia.
    + rewrite proc_upd_ne; [by apply H1 | apply Hv | apply Hj | congruence].
  - intros j Hj Hs. rewrite valid_index_upd in Hj.
    destruct (decide (j = i)) as [-> | Hne].
    + by rewrite proc_upd_eq in Hs.
    + rewrite proc_upd_ne in Hs; [| apply Hv | apply Hj | congruence].
      unfold upd_cpu. eapply occupants_freed; eauto.
  - rewrite (completed_total_alter _ _ _ _ Hp), H3.
    unfold is_completed. cbn [state set_state set_quantum_used].
    rewrite <- Hpi, Hrun. rewrite !bool_decide_eq_false_2 by done. lia.
Qed.

Lemma handle_rr_quantum_expiry_life time_quantum m now w cc :
  sched_inv m now ->
  life_inv false (processes m) (cpus m) now w cc ->
  life_inv false (processes (handle_rr_quantum_expiry m time_quantum))
           (cpus (handle_rr_quantum_expiry m time_quantum)) now w cc.
Proof.
  unfold handle_rr_quantum_expiry. generalize (seqZ 0 (cpu_count m)).
  intros l. revert m. induction l as [| c l IH]; intros m Hinv H; [done |].
  cbn [foldl]. apply IH.
  - by apply rr_expiry_step_inv.
  - by apply rr_expiry_step_life.
Qed.

(** *** Dispatch *)

Lemma dispatch_life e now p :
  state p = READY -> life e now now p ->
  life e now now (dispatch p now) /\ state (dispatch p now) = RUNNING.
Proof.
  intros Hs. unfold life, started, unstarted. rewrite Hs.
  intros (Ha & [(H1 & H2 & H3 & H4) | (He & Hf & (H1 & H2 & H3 & H4) & H5)]).
  - unfold dispatch. cbn [start_time set_state]. rewrite H1.
    replace (-1 =? -1) with true by done. cbn. split; [| done].
    split_and!; try done; lia.
  - unfold dispatch. cbn [start_time set_state].
    replace (start_time p =? -1) with false by lia. cbn. split; [| done].
    split_and!; try done; try lia. intros; congruence.
Qed.

Lemma assign_loop_life e now fuel :
  forall m c pops cc,
  sched_inv m now -> 0 <= c ->
  life_inv e (processes m) (cpus m) now (fun _ => now) cc ->
  life_inv e (processes (assign_loop fuel m now c pops).1)
           (cpus (assign_loop fuel m now c pops).1) now (fun _ => now) cc.
Proof.
  induction fuel as [| fuel IH]; intros m c pops cc Hinv Hc Hlife; [done |].
  cbn [assign_loop].
  destruct (c <? cpu_count m) eqn:Hlt; [| done].
  destruct (current_process (cpu (cpus m) c)) as [i |] eqn:Hocc.
  { apply IH; [done | lia | done]. }
  destruct (decide (0 < size (FCFSQ m))) as [Hpos | Hempty].
  2:{ rewrite dequeue_empty by lia.
      replace (-1 =? -1) with true by done. done. }
  destruct (dequeue_front (FCFSQ m) (inv_wf _ _ Hinv) Hpos) as [Hwf' Hcont].
  destruct (dequeue (FCFSQ m)) as [idx q']. cbn [fst snd] in *.
  pose proof (inv_ready _ _ Hinv) as Hr. rewrite Hcont in Hr.
  apply Forall_cons in Hr as [(Hv & Hs & Ha) _].
  replace (idx =? -1) with false by (unfold valid_index in Hv; lia).
  assert (discarded (proc (processes m) idx) now = false) as Hnd.
  { unfold discarded. rewrite Hs. simpl. lia. }
  rewrite Hnd.
  assert (0 <= c < cpu_count m) as Hrange by lia.
  apply IH; [by apply sched_inv_dispatch | lia |].
  cbn [processes cpus]. destruct Hlife as (H1 & H2 & H3).
  destruct (dispatch_life e now _ Hs (H1 idx Hv)) as [Hl Hrun].
  destruct (valid_lookup _ _ Hv) as (p & Hp & Hpi).
  destruct (cpu_lookup (cpus m) c Hrange) as (x & Hx & Hcx).
  rewrite Hcx in Hocc.
  pose proof (occupants_take _ _ _ idx Hx Hocc) as Hperm.
  split_and!.
  - intros j Hj. rewrite valid_index_upd in Hj.
    destruct (decide (j = idx)) as [-> | Hne].
    + by rewrite proc_upd_eq.
    + rewrite proc_upd_ne; [by apply H1 | apply Hv | apply Hj | congruence].
  - intros j Hj Hsj. rewrite valid_index_upd in Hj.
    unfold upd_cpu. rewrite Hperm. apply elem_of_cons.
    destruct (decide (j = idx)) as [-> | Hne]; [by left | right].
    rewrite proc_upd_ne in Hsj; [| apply Hv | apply Hj | congruence].
    by apply H2.
  - rewrite (completed_total_alter _ _ _ _ Hp), H3.
    unfold is_completed. rewrite <- Hpi, Hrun, Hs.
    rewrite !bool_decide_eq_false_2 by done. lia.
Qed.

(** *** Waiting times *)

Lemma update_waiting_life e now w t p :
  life e now w (update_waiting t p) <-> life e now w p.
Proof. unfold update_waiting. by destruct (_ && _). Qed.

Lemma update_waiting_times_life e m t now w cc :
  life_inv e (processes m) (cpus m) now w cc ->
  life_inv e (processes (update_waiting_times m t))
           (cpus (update_waiting_times m t)) now w cc.
Proof.
  intros (H1 & H2 & H3). unfold update_waiting_times. cbn [processes cpus].
  assert (forall i, valid_index (map (update_waiting t) (processes m)) i
                    <-> valid_index (processes m) i) as Hv.
  { intros i. unfold valid_index. by rewrite length_map. }
  split_and!.
  - intros i Hi. rewrite Hv in Hi. rewrite proc_map by done.
    apply update_waiting_life. by apply H1.
  - intros i Hi Hs. rewrite Hv in Hi. rewrite proc_map in Hs by done.
    apply H2; [done |].
    by destruct (update_waiting_fields t (proc (processes m) i)) as [<- _].
  - rewrite H3. unfold completed_total. rewrite map_map. f_equal.
    apply map_ext. intros p. unfold is_completed.
    by destruct (update_waiting_fields t p) as [-> _].
Qed.

(** *** Execution *)

Lemma occupants_drop cs c x :
  cs !! c = Some x ->
  occupants (drop c cs)
  = match current_process x with
    | Some i => i :: occupants (drop (S c) cs)
    | None => occupants (drop (S c) cs)
    end.
Proof.
  intros Hx. rewrite (drop_S _ _ _ Hx). unfold occupants. cbn.
  by destruct (current_process x).
Qed.

Lemma occupant_once cs c x i :
  NoDup (occupants cs) -> cs !! c = Some x -> current_process x = Some i ->
  i ∉ occupants (drop (S c) cs).
Proof.
  intros Hnd Hx Hi. rewrite <- (take_drop c cs) in Hnd.
  unfold occupants in Hnd. rewrite omap_app in Hnd.
  apply NoDup_app in Hnd as (_ & _ & Hnd).
  fold (occupants (drop c cs)) in Hnd.
  rewrite (occupants_drop _ _ _ Hx), Hi in Hnd.
  by apply NoDup_cons in Hnd as [? _].
Qed.

Lemma accounted_self t c cs cs' x i :
  NoDup (occupants cs) -> cs !! c = Some x -> current_process x = Some i ->
  drop (S c) cs' = drop (S c) cs ->
  accounted t c cs i = t /\ accounted t (S c) cs' i = t + 1.
Proof.
  intros Hnd Hx Hi Hdrop. unfold accounted.
  rewrite Hdrop, (occupants_drop _ _ _ Hx), Hi. split.
  - rewrite decide_True; [done | by left].
  - rewrite decide_False; [done | by eapply occupant_once].
Qed.

Lemma accounted_other t c cs cs' x j :
  cs !! c = Some x -> current_process x <> Some j ->
  drop (S c) cs' = drop (S c) cs ->
  accounted t (S c) cs' j = accounted t c cs j.
Proof.
  intros Hx Hne Hdrop. unfold accounted.
  rewrite Hdrop, (occupants_drop _ _ _ Hx).
  destruct (current_process x) as [i |]; [| done].
  destruct (decide (j ∈ occupants (drop (S c) cs))) as [Hin | Hout].
  - rewrite decide_True; [done | by right].
  - rewrite decide_False; [done |].
    intros [-> | ?]%elem_of_cons; done.
Qed.

Lemma execute_step_life e t st (c : nat) :
  sched_inv st.1 t -> (c < length (cpus st.1))%nat ->
  life_inv e (processes st.1) (cpus st.1) t (accounted t c (cpus st.1)) st.2 ->
  life_inv e (processes (execute_step t st (Z.of_nat c)).1)
           (cpus (execute_step t st (Z.of_nat c)).1) t
           (accounted t (S c) (cpus (execute_step t st (Z.of_nat c)).1))
           (execute_step t st (Z.of_nat c)).2.
Proof.
  destruct st as [m cc]. cbn [fst snd]. intros Hinv Hc Hlife.
  destruct (cpu_lookup (cpus m) (Z.of_nat c)) as (x & Hx & Hcx); [lia |].
  rewrite Nat2Z.id in Hx.
  unfold execute_step, upd_cpu. cbn [fst snd]. rewrite Hcx, Nat2Z.id.
  destruct (current_process x) as [pi |] eqn:Hocc.
  2:{ cbn [fst snd processes cpus].
      eapply life_inv_frame; [| | exact Hlife].
      - by apply occupants_alter_same.
      - intros i. eapply accounted_other; [done | by rewrite Hocc |].
        apply drop_alter_lt. lia. }
  pose proof (inv_running _ _ Hinv) as Hr. rewrite Forall_forall in Hr.
  assert (pi ∈ occupants (cpus m)) as Hin.
  { apply list_elem_of_omap. exists x. split; [| done].
    by eapply list_elem_of_lookup_2. }
  destruct (Hr pi Hin) as (Hv & Hs & _).
  destruct (valid_lookup _ _ Hv) as (p & Hp & Hpi).
  destruct Hlife as (H1 & H2 & H3).
  assert (NoDup (occupants (cpus m))) as Hnd.
  { pose proof (inv_nodup _ _ Hinv) as Hnd.
    by apply NoDup_app in Hnd as (_ & _ & ?). }
  set (decr := fun p => set_quantum_used
                          (set_remaining_time p (remaining_time p - 1))
                          (quantum_used p + 1)).
  set (ps1 := upd_proc (processes m) pi decr).
  set (cs1 := alter (fun x => set_busy_time x (busy_time x + 1)) c (cpus m)).
  assert (occupants cs1 = occupants (cpus m)) as Hocc1
      by by apply occupants_alter_same.
  assert (drop (S c) cs1 = drop (S c) (cpus m)) as Hdrop1
      by (apply drop_alter_lt; lia).
  assert (proc ps1 pi = decr p) as Hp1
      by (unfold ps1; rewrite proc_upd_eq by done; by rewrite Hpi).
  assert (completed_total ps1 = completed_total (processes m)) as Hct1.
  { unfold ps1. rewrite (completed_total_alter _ _ _ _ Hp).
    unfold is_completed, decr. cbn [state set_quantum_used set_remaining_time].
    lia. }
  pose proof (H1 pi Hv) as Hlp. rewrite Hpi in Hlp, Hs.
  unfold life, started in Hlp. rewrite Hs in Hlp.
  rewrite Hp1. cbn [remaining_time decr set_quantum_used set_remaining_time].
  destruct (remaining_time p - 1 <=? 0) eqn:Hdone;
    cbn [fst snd processes cpus].
  - set (cs2 := alter (fun x => set_current_process x None) c cs1).
    assert (drop (S c) cs2 = drop (S c) (cpus m)) as Hdrop2.
    { unfold cs2. rewrite drop_alter_lt by lia. done. }
    destruct (accounted_self t c (cpus m) cs2 x pi Hnd Hx Hocc Hdrop2)
      as [Hw Hw'].
    rewrite Hw in Hlp.
    split_and!.
    + intros j Hj. rewrite valid_index_upd in Hj. unfold ps1 in Hj.
      rewrite valid_index_upd in Hj.
      destruct (decide (j = pi)) as [-> | Hne].
      * rewrite proc_upd_eq by (by apply valid_index_upd).
        rewrite Hp1, Hw'. unfold life, started, decr. cbn.
        destruct Hlp as (Hf & (Ha & Hst & Hre & Hwork) & Hrem & Hex).
        split_and!; try done; try lia. intros He. specialize (Hex He). lia.
      * rewrite proc_upd_ne; [| apply Hv | apply Hj | congruence].
        unfold ps1.
        rewrite proc_upd_ne; [| apply Hv | apply Hj | congruence].
        rewrite (accounted_other t c (cpus m) cs2 x j Hx);
          [by apply H1 | rewrite Hocc; congruence | done].
    + intros j Hj Hsj. rewrite valid_index_upd in Hj. unfold ps1 in Hj.
      rewrite valid_index_upd in Hj.
      destruct (decide (j = pi)) as [-> | Hne].
      { rewrite proc_upd_eq in Hsj by (by apply valid_index_upd). done. }
      rewrite proc_upd_ne in Hsj; [| apply Hv | apply Hj | congruence].
      unfold ps1 in Hsj.
      rewrite proc_upd_ne in Hsj; [| apply Hv | apply Hj | congruence].
      unfold cs2. eapply (occupants_freed cs1 c _ pi).
      * unfold cs1. rewrite list_lookup_alter_eq, Hx. done.
      * done.
      * done.
      * rewrite Hocc1. by apply H2.
    + assert (ps1 !! Z.to_nat pi = Some (decr p)) as Hp1'.
      { unfold ps1, upd_proc. rewrite list_lookup_alter_eq, Hp. done. }
      rewrite (completed_total_alter _ _ _ _ Hp1'), Hct1, H3.
      unfold is_completed, decr.
      cbn [state set_state set_finish_time set_quantum_used
                 set_remaining_time].
      rewrite Hs. rewrite bool_decide_eq_true_2 by done.
      rewrite bool_decide_eq_false_2 by done. lia.
  - destruct (accounted_self t c (cpus m) cs1 x pi Hnd Hx Hocc Hdrop1)
      as [Hw Hw'].
    rewrite Hw in Hlp.
    split_and!.
    + intros j Hj. unfold ps1 in Hj. rewrite valid_index_upd in Hj.
      destruct (decide (j = pi)) as [-> | Hne].
      * rewrite Hp1, Hw'. unfold life, started, decr. cbn. rewrite Hs.
        destruct Hlp as (Hf & (Ha & Hst & Hre & Hwork) & Hrem & Hex).
        split_and!; try done; try lia. intros He. specialize (Hex He). lia.
      * unfold ps1. rewrite proc_upd_ne; [| apply Hv | apply Hj | congruence].
        rewrite (accounted_other t c (cpus m) cs1 x j Hx);
          [by apply H1 | rewrite Hocc; congruence | done].
    + intros j Hj Hsj. unfold ps1 in Hj. rewrite valid_index_upd in Hj.
      rewrite Hocc1.
      destruct (decide (j = pi)) as [-> | Hne]; [done |].
      unfold ps1 in Hsj.
      rewrite proc_upd_ne in Hsj; [| apply Hv | apply Hj | congruence].
      by apply H2.
    + by rewrite Hct1.
Qed.

Lemma execute_fold_inv t now l :
  forall st, sched_inv st.1 now ->
             sched_inv (foldl (execute_step t) st l).1 now.
Proof.
  induction l as [| c l IH]; intros st Hinv; [done |].
  cbn [foldl]. by apply IH, execute_step_inv.
Qed.

Lemma execute_fold_life e t (k : nat) :
  forall st,
  sched_inv st.1 t -> (k <= length (cpus st.1))%nat ->
  life_inv e (processes st.1) (cpus st.1) t (accounted t 0 (cpus st.1)) st.2 ->
  let st' := foldl (execute_step t) st (seqZ 0 (Z.of_nat k)) in
  life_inv e (processes st'.1) (cpus st'.1) t (accounted t k (cpus st'.1))
           st'.2.
Proof.
  induction k as [| k IH]; intros st Hinv Hk Hlife; [done |].
  cbv zeta. rewrite seqZ_S, foldl_app. cbn [foldl]. rewrite Z.add_0_l.
  apply execute_step_life.
  - by apply execute_fold_inv.
  - destruct (execute_fold_ticks t k st) as [_ Hid].
    apply (f_equal length) in Hid. rewrite !length_map in Hid. lia.
  - apply IH; [done | lia | done].
Qed.

Lemma execute_processes_life e m t cc :
  sched_inv m t ->
  life_inv e (processes m) (cpus m) t (fun _ => t) cc ->
  life_inv e (processes (execute_processes m t cc).1)
           (cpus (execute_processes m t cc).1) t (fun _ => t + 1)
           (execute_processes m t cc).2.
Proof.
  intros Hinv (H1 & H2 & H3). unfold execute_processes, cpu_count.
  pose proof (execute_fold_life e t (length (cpus m)) (m, cc)) as Hfold.
  cbv zeta in Hfold. cbn [fst snd] in Hfold.
  destruct (execute_fold_ticks t (length (cpus m)) (m, cc)) as [_ Hid].
  apply (f_equal length) in Hid. rewrite !length_map in Hid.
  cbn [fst] in Hid.
  eapply life_inv_frame; [done | | apply Hfold; try done].
  - intros i. unfold accounted. rewrite drop_ge by lia.
    by rewrite decide_False by (by intros ?%elem_of_nil).
  - split_and!; [| done | done].
    intros i Hi. unfold accounted. destruct (decide _) as [| Hout]; [auto |].
    apply life_mono_w with t; [lia | | by apply H1].
    left. intros Hs. apply Hout. rewrite drop_0. by apply H2.
Qed.

(** *** One tick *)

Lemma enqueue_all_frame l :
  forall m, processes (foldl enqueue_FCFSQ m l) = processes m /\
            cpus (foldl enqueue_FCFSQ m l) = cpus m.
Proof.
  induction l as [| i l IH]; intros m; [done |].
  cbn [foldl]. destruct (IH (enqueue_FCFSQ m i)) as [-> ->].
  apply enqueue_FCFSQ_frame.
Qed.

Lemma before_dispatch_life algorithm time_quantum m now cc :
  0 <= now -> sched_inv m (now - 1) ->
  life_inv (non_preemptive algorithm) (processes m) (cpus m) (now - 1)
           (fun _ => now) cc ->
  life_inv (non_preemptive algorithm)
           (processes (before_dispatch algorithm time_quantum m now))
           (cpus (before_dispatch algorithm time_quantum m now)) now
           (fun _ => now) cc.
Proof.
  intros Hnow Hinv Hlife. unfold before_dispatch.
  pose proof (handle_arrivals_life _ m now algorithm _ cc Hnow Hlife) as H.
  destruct (handle_arrivals_inv m now algorithm Hinv) as [_ Hrr].
  destruct (handle_arrivals m now algorithm) as [m1 arr].
  cbn [fst snd] in *.
  destruct algorithm; unfold handle_srtf_preemption; try done.
  apply handle_rr_quantum_expiry_life; [by apply Hrr |].
  by destruct (enqueue_all_frame arr m1) as [-> ->].
Qed.

Lemma tick_life algorithm time_quantum s :
  0 <= current_time s ->
  sched_inv (machine s) (current_time s - 1) ->
  life_inv (non_preemptive algorithm) (processes (machine s))
           (cpus (machine s)) (current_time s - 1)
           (fun _ => current_time s) (completed_count s) ->
  let s' := tick algorithm time_quantum s in
  life_inv (non_preemptive algorithm) (processes (machine s'))
           (cpus (machine s')) (current_time s' - 1)
           (fun _ => current_time s') (completed_count s').
Proof.
  intros Hnow Hinv Hlife. cbv zeta.
  destruct (tick_machine algorithm time_quantum s) as [-> ->].
  destruct (tick_fields algorithm time_quantum s) as [-> _].
  replace (current_time s + 1 - 1) with (current_time s) by lia.
  apply execute_processes_life; [by apply until_execute_inv |].
  apply update_waiting_times_life.
  unfold assign_processes_to_idle_cpus, assign_pops.
  apply assign_loop_life; [by apply before_dispatch_inv | lia |].
  by apply before_dispatch_life.
Qed.

Lemma after_ticks_life algorithm time_quantum ps n k :
  Forall fresh ps ->
  let s := after_ticks algorithm time_quantum ps n k in
  life_inv (non_preemptive algorithm) (processes (machine s))
           (cpus (machine s)) (Z.of_nat k - 1) (fun _ => Z.of_nat k)
           (completed_count s).
Proof.
  intros Hfresh. induction k as [| k IH]; cbv zeta.
  - change (after_ticks algorithm time_quantum ps n 0)
      with (initial_sim ps n FCFSQ0).
    unfold initial_sim. cbn [machine processes cpus completed_count].
    assert (forall i, valid_index ps i -> fresh (proc ps i)) as Hf.
    { intros i Hi. destruct (valid_lookup _ _ Hi) as (p & Hp & ->).
      rewrite Forall_forall in Hfresh. apply Hfresh.
      by eapply list_elem_of_lookup_2. }
    split_and!.
    + intros i Hi. destruct (Hf i Hi) as [Hs Hu]. unfold life.
      by rewrite Hs.
    + intros i Hi Hs. destruct (Hf i Hi) as [Hs' _]. congruence.
    + unfold completed_total. clear Hf.
      induction Hfresh as [| p l [Hs _] _ IHl]; [done |].
      change (0 = is_completed p + sumZ (map is_completed l)).
      rewrite <- IHl. unfold is_completed. rewrite Hs.
      by rewrite bool_decide_eq_false_2.
  - rewrite after_ticks_S.
    pose proof (after_ticks_fields algorithm time_quantum ps n k)
      as (Ht & _).
    pose proof (tick_life algorithm time_quantum
                  (after_ticks algorithm time_quantum ps n k)) as Htick.
    cbv zeta in Htick. rewrite Ht in Htick.
    destruct (tick_fields algorithm time_quantum
                (after_ticks algorithm time_quantum ps n k)) as [Ht' _].
    rewrite Ht, <- after_ticks_S in Ht'.
    rewrite <- after_ticks_S in Htick. rewrite Ht' in Htick.
    replace (Z.of_nat (S k)) with (Z.of_nat k + 1) by lia.
    apply Htick; [lia | apply after_ticks_inv | exact IH].
Qed.

(** ** What the report can rely on *)

Lemma run_life records n algorithm time_quantum :
  let r := run records n algorithm time_quantum in
  life_inv (non_preemptive algorithm) (processes (machine r))
           (cpus (machine r)) (current_time r - 1)
           (fun _ => current_time r) (completed_count r).
Proof.
  cbv zeta. unfold run.
  destruct (simulate_machine (map load_process records) n algorithm
                             time_quantum) as (k & _ & ->).
  cbn [with_bruh machine current_time completed_count].
  destruct (after_ticks_fields algorithm time_quantum
              (map load_process records) n k) as (-> & _).
  apply after_ticks_life. apply Forall_forall.
  intros p (r & -> & _)%list_elem_of_fmap.
  by destruct r as [[[? ?] ?] ?].
Qed.

Lemma life_inv_Forall e ps cs now w cc :
  life_inv e ps cs now (fun _ => w) cc -> Forall (life e now w) ps.
Proof.
  intros (H1 & _ & _). apply Forall_lookup. intros i p Hp.
  destruct (proc_lookup _ _ _ Hp) as [<- Hv]. by apply H1.
Qed.

Lemma completed_total_filter ps :
  completed_total ps
  = Z.of_nat (length (filter (fun p => state p = COMPLETED) ps)).
Proof.
  unfold completed_total. induction ps as [| p ps IH]; [done |].
  change (is_completed p + sumZ (map is_completed ps)
          = Z.of_nat (length (filter (fun p => state p = COMPLETED)
                                     (p :: ps)))).
  rewrite IH, filter_cons. unfold is_completed.
  destruct (decide (state p = COMPLETED)) as [Hs | Hs].
  - rewrite bool_decide_eq_true_2 by done. cbn [length]. lia.
  - rewrite bool_decide_eq_false_2 by done. lia.
Qed.

Lemma life_finished e now w p :
  life e now w p -> (finish_time p <> -1 <-> state p = COMPLETED).
Proof.
  unfold life, started, unstarted. destruct (state p); intros H.
  - split; [lia | done].
  - split; [lia | done].
  - split; [done | lia].
  - split; [| done]. destruct H as (_ & [? | ?]); lia.
Qed.

Lemma average_stats_count ps acc :
  Forall (fun p => finish_time p <> -1 <-> state p = COMPLETED) ps ->
  valid_stats_count (foldl average_stats_step acc ps)
  = valid_stats_count acc + completed_total ps.
Proof.
  intros H. revert acc. unfold completed_total.
  induction H as [| p ps Hp _ IH]; intros acc; [cbn; lia |].
  cbn [foldl]. rewrite IH.
  change (sumZ (map is_completed (p :: ps)))
    with (is_completed p + sumZ (map is_completed ps)).
  unfold average_stats_step, is_completed.
  destruct (finish_time p =? -1) eqn:Hf.
  - rewrite bool_decide_eq_false_2; [lia |]. intros Hs. apply Hp in Hs. lia.
  - rewrite bool_decide_eq_true_2; [cbn; lia |]. apply Hp. lia.
Qed.

(** X8.  The counter the loop tests is the number of completed processes,
    and the report agrees with it: in the state a run ends in,
    [completed_count] is the number of processes in state COMPLETED, a
    process has a [finish_time] other than -1 exactly if it is COMPLETED,
    and so the [valid_stats_count] of the averages is [completed_count]
    too. *)
Theorem completed_count_counts_completed
        (records : list (Z * Z * Z * Z)) (n : Z) (algorithm : Algorithm)
        (time_quantum : Z) :
  let r := run records n algorithm time_quantum in
  let ps := processes (machine r) in
  completed_count r
  = Z.of_nat (length (filter (fun p => state p = COMPLETED) ps)) /\
  Forall (fun p => finish_time p <> -1 <-> state p = COMPLETED) ps /\
  valid_stats_count (average_stats ps) = completed_count r.
Proof.
  cbv zeta.
  pose proof (run_life records n algorithm time_quantum) as Hlife.
  cbv zeta in Hlife.
  pose proof (life_inv_Forall _ _ _ _ _ _ Hlife) as Hall.
  destruct Hlife as (_ & _ & Hcc).
  assert (Forall (fun p => finish_time p <> -1 <-> state p = COMPLETED)
                 (processes (machine (run records n algorithm time_quantum))))
    as Hfin.
  { eapply Forall_impl; [exact Hall |]. intros p. apply life_finished. }
  split_and!.
  - by rewrite Hcc, completed_total_filter.
  - done.
  - unfold average_stats. rewrite average_stats_count by done.
    cbn [valid_stats_count]. lia.
Qed.

(** X9.  The timestamps of a run are consistent.  In the state a run ends
    in, with [total_time] its [current_time]: a process that never started
    still has [response_time = -1], [finish_time = -1] and its whole burst
    left; a process that started did so at or after its arrival and before
    [total_time], and its response time is the distance between the two;
    a process that finished started before it finished, spent at least
    its burst time between the two, and has no remaining time left if its
    burst was positive. *)
Theorem process_timestamps_consistent
        (records : list (Z * Z * Z * Z)) (n : Z) (algorithm : Algorithm)
        (time_quantum : Z) :
  let r := run records n algorithm time_quantum in
  Forall (fun p =>
    (start_time p = -1 ->
     response_time p = -1 /\ finish_time p = -1 /\
     remaining_time p = burst_time p) /\
    (start_time p <> -1 ->
     0 <= arrival_time p <= start_time p /\ start_time p < current_time r /\
     response_time p = start_time p - arrival_time p) /\
    (finish_time p <> -1 ->
     start_time p <> -1 /\ start_time p < finish_time p <= current_time r /\
     burst_time p <= finish_time p - start_time p /\
     remaining_time p <= 0 /\
     (1 <= burst_time p -> remaining_time p = 0)))
    (processes (machine r)).
Proof.
  cbv zeta.
  pose proof (run_life records n algorithm time_quantum) as Hlife.
  cbv zeta in Hlife. apply life_inv_Forall in Hlife.
  eapply Forall_impl; [exact Hlife |]. intros p.
  unfold life, started, unstarted. destruct (state p); intros H.
  - split_and!; intros; lia.
  - split_and!; intros; lia.
  - split_and!; intros; lia.
  - destruct H as (? & [? | ?]); split_and!; intros; lia.
Qed.

(** ** Runs that complete *)

Lemma completed_total_le ps :
  completed_total ps <= Z.of_nat (length ps) /\
  (Z.of_nat (length ps) <= completed_total ps ->
   Forall (fun p => state p = COMPLETED) ps).
Proof.
  unfold completed_total. induction ps as [| p ps [IH1 IH2]]; [done |].
  change (sumZ (map is_completed (p :: ps)))
    with (is_completed p + sumZ (map is_completed ps)).
  unfold is_completed at 1 3.
  destruct (decide (state p = COMPLETED)) as [Hs | Hs].
  - rewrite bool_decide_eq_true_2 by done. cbn [length]. split; [lia |].
    intros H. apply Forall_cons. split; [done |]. apply IH2. lia.
  - rewrite bool_decide_eq_false_2 by done. cbn [length]. split; [lia |].
    intros H. lia.
Qed.

Lemma sum_completed_burst_all ps :
  Forall (fun p => state p = COMPLETED) ps ->
  sum_completed_burst ps = sumZ (map burst_time ps).
Proof.
  induction 1 as [| p ps Hs _ IH]; [done |].
  change (sum_completed_burst (p :: ps))
    with (if bool_decide (state p = COMPLETED)
          then burst_time p + sum_completed_burst ps
          else sum_completed_burst ps).
  rewrite bool_decide_eq_true_2 by done. rewrite IH. done.
Qed.

Lemma run_burst_times records n algorithm time_quantum :
  map burst_time (processes (machine (run records n algorithm time_quantum)))
  = map (fun r => r.1.2) records.
Proof.
  unfold run.
  destruct (simulate_machine (map load_process records) n algorithm
                             time_quantum) as (k & _ & ->).
  cbn [with_bruh machine]. rewrite field_after_ticks by done.
  rewrite map_map. apply map_ext. by intros [[[? ?] ?] ?].
Qed.

Lemma run_work records n algorithm time_quantum :
  work (machine (run records n algorithm time_quantum))
  = sumZ (map (fun r => r.1.2) records).
Proof.
  unfold run.
  destruct (simulate_machine (map load_process records) n algorithm
                             time_quantum) as (k & _ & ->).
  cbn [with_bruh machine]. rewrite after_ticks_work.
  unfold sum_remaining. rewrite map_map. f_equal.
  apply map_ext. by intros [[[? ?] ?] ?].
Qed.

Lemma all_completed_conserves e now w m cc (bursts : list Z) :
  Forall (life e now w) (processes m) ->
  cc = completed_total (processes m) ->
  ~ cc < process_count m ->
  map burst_time (processes m) = bursts ->
  Forall (fun b => 1 <= b) bursts ->
  work m = sumZ bursts ->
  Forall (fun p => state p = COMPLETED /\ remaining_time p = 0) (processes m) /\
  sum_busy_time (cpus m) = sum_completed_burst (processes m) /\
  sum_busy_time (cpus m) = sumZ bursts.
Proof.
  intros Hall Hcc Hdone Hb Hburst Hwork. unfold process_count in Hdone.
  destruct (completed_total_le (processes m)) as [_ Hc].
  assert (Forall (fun p => state p = COMPLETED) (processes m))
    as Hcompleted by (apply Hc; lia).
  assert (Forall (fun p => 1 <= burst_time p) (processes m)) as Hpos.
  { apply Forall_forall. intros p Hp.
    assert (burst_time p ∈ map burst_time (processes m)) as Hin
        by (apply list_elem_of_fmap; eauto).
    rewrite Hb in Hin. rewrite Forall_forall in Hburst. by apply Hburst. }
  assert (Forall (fun p => state p = COMPLETED /\ remaining_time p = 0)
                 (processes m)) as Hzero.
  { apply Forall_forall. intros p Hp.
    rewrite Forall_forall in Hall, Hcompleted, Hpos.
    specialize (Hall p Hp). specialize (Hcompleted p Hp).
    specialize (Hpos p Hp). unfold life in Hall. rewrite Hcompleted in Hall.
    split; [done |]. by apply Hall. }
  assert (sum_remaining (processes m) = 0) as Hrem.
  { unfold sum_remaining. clear -Hzero.
    induction Hzero as [| p ps [_ Hp] _ IH]; [done |].
    change (remaining_time p + sumZ (map remaining_time ps) = 0). lia. }
  unfold work in Hwork. rewrite Hrem, Z.add_0_r in Hwork.
  split_and!; [exact Hzero | | exact Hwork].
  rewrite sum_completed_burst_all by exact Hcompleted. rewrite Hb.
  exact Hwork.
Qed.

(** X12.  A run that completes conserves work.  If every burst time of
    the input is at least 1 and the run ends with no process unfinished
    (which is the case whenever the loop is left before its 101st pass),
    then every process is COMPLETED with [remaining_time = 0], and the
    busy times of the CPUs add up to the burst times of the completed
    processes, which are all the burst times of the input. *)
Theorem completed_run_conserves_work
        (records : list (Z * Z * Z * Z)) (n : Z) (algorithm : Algorithm)
        (time_quantum : Z) :
  Forall (fun r => 1 <= r.1.2) records ->
  ~ unfinished (run records n algorithm time_quantum) ->
  let m := machine (run records n algorithm time_quantum) in
  Forall (fun p => state p = COMPLETED /\ remaining_time p = 0) (processes m) /\
  sum_busy_time (cpus m) = sum_completed_burst (processes m) /\
  sum_busy_time (cpus m) = sumZ (map (fun r => r.1.2) records).
Proof.
  intros Hburst Hdone.
  pose proof (run_life records n algorithm time_quantum) as Hlife.
  apply (all_completed_conserves
           (non_preemptive algorithm)
           (current_time (run records n algorithm time_quantum) - 1)
           (current_time (run records n algorithm time_quantum))
           (machine (run records n algorithm time_quantum))
           (completed_count (run records n algorithm time_quantum))).
  - exact (life_inv_Forall _ _ _ _ _ _ Hlife).
  - exact (proj2 (proj2 Hlife)).
  - exact Hdone.
  - apply run_burst_times.
  - apply Forall_fmap. exact Hburst.
  - apply run_work.
Qed.

Lemma completed_run_conserves_work_witness :
  let m := machine (run fcfs_example 1 FCFS 2) in
  Forall (fun p => state p = COMPLETED /\ remaining_time p = 0) (processes m) /\
  sum_busy_time (cpus m) = sum_completed_burst (processes m) /\
  sum_busy_time (cpus m) = sumZ (map (fun r => r.1.2) fcfs_example).
Proof.
  apply (completed_run_conserves_work fcfs_example 1 FCFS 2).
  - apply (bool_decide_unpack _). vm_compute. exact I.
  - unfold unfinished. apply Z.le_ngt. apply Z.leb_le.
    vm_compute. reflexivity.
Defined.

(** ** The Round Robin quantum *)

Lemma occupants_app cs1 cs2 :
  occupants (cs1 ++ cs2) = occupants cs1 ++ occupants cs2.
Proof. unfold occupants. apply omap_app. Qed.

Lemma occupants_split cs c x :
  cs !! c = Some x ->
  occupants cs
  = occupants (take c cs)
    ++ match current_process x with Some i => [i] | None => [] end
    ++ occupants (drop (S c) cs).
Proof.
  intros Hx. rewrite <- (take_drop c cs) at 1.
  rewrite occupants_app, (occupants_drop _ _ _ Hx).
  by destruct (current_process x).
Qed.

Lemma occupants_take_S cs c x :
  cs !! c = Some x ->
  occupants (take (S c) cs)
  = occupants (take c cs)
    ++ match current_process x with Some i => [i] | None => [] end.
Proof.
  intros Hx. rewrite (take_S_r _ _ _ Hx), occupants_app.
  unfold occupants at 2. cbn. by destruct (current_process x).
Qed.

(** One pass of such a loop: it looks at CPU [c] only, changes the process
    there only, and either frees the CPU or leaves the process on it with
    [Q]. *)
Lemma staged_step P Q c ps cs ps' cs' x x' :
  NoDup (occupants cs) ->
  Forall (fun i => 0 <= i) (occupants cs) ->
  cs !! c = Some x -> cs' !! c = Some x' ->
  take c cs' = take c cs -> drop (S c) cs' = drop (S c) cs ->
  (forall j, 0 <= j -> current_process x <> Some j -> proc ps' j = proc ps j) ->
  (forall i, current_process x = Some i -> P (proc ps i) ->
             current_process x' = None \/
             (current_process x' = Some i /\ Q (proc ps' i))) ->
  (current_process x = None -> current_process x' = None) ->
  staged P Q c ps cs -> staged P Q (S c) ps' cs'.
Proof.
  intros Hnd Hpos Hx Hx' Htake Hdrop Hother Hself Hidle [HQ HP].
  rewrite (occupants_split _ _ _ Hx) in Hnd, Hpos.
  rewrite (occupants_drop _ _ _ Hx) in HP.
  apply NoDup_app in Hnd as (_ & Hnd1 & Hnd2).
  apply Forall_app in Hpos as [Hpos1 Hpos2].
  unfold staged.
  rewrite (occupants_take_S _ _ _ Hx'), Htake, Hdrop.
  destruct (current_process x) as [i |] eqn:Hcur.
  - apply Forall_cons in HP as [HPi HP].
    apply NoDup_app in Hnd2 as (_ & Hnd2 & _).
    apply Forall_app in Hpos2 as [_ Hpos2].
    split.
    + apply Forall_app. split.
      * apply Forall_forall. intros j Hj. rewrite Forall_forall in HQ, Hpos1.
        rewrite Hother; [by apply HQ | by apply Hpos1 |].
        intros [= <-]. apply (Hnd1 i Hj). apply elem_of_app. left. by left.
      * destruct (Hself i eq_refl HPi) as [-> | [-> HQi]]; [done |].
        by apply Forall_singleton.
    + apply Forall_forall. intros j Hj. rewrite Forall_forall in HP, Hpos2.
      rewrite Hother; [by apply HP | by apply Hpos2 |].
      intros [= <-]. apply (Hnd2 i); [by left | done].
  - rewrite (Hidle eq_refl), app_nil_r. cbn [app] in *. split.
    + apply Forall_forall. intros j Hj. rewrite Forall_forall in HQ, Hpos1.
      rewrite Hother; [by apply HQ | by apply Hpos1 | done].
    + apply Forall_forall. intros j Hj. rewrite Forall_forall in HP, Hpos2.
      rewrite Hother; [by apply HP | by apply Hpos2 | done].
Qed.

(** The loop as a whole, for a state of which [cpus_of] are the CPUs. *)
Lemma fold_staged {St} (cpus_of : St -> list CPU) (step : St -> Z -> St)
      (Inv : St -> Prop) (Stage : nat -> St -> Prop) :
  (forall s c, Inv s -> Inv (step s c)) ->
  (forall s c, length (cpus_of (step s c)) = length (cpus_of s)) ->
  (forall s (c : nat), Inv s -> (c < length (cpus_of s))%nat ->
                       Stage c s -> Stage (S c) (step s (Z.of_nat c))) ->
  forall (k : nat) s,
    Inv s -> (k <= length (cpus_of s))%nat -> Stage O s ->
    Inv (foldl step s (seqZ 0 (Z.of_nat k))) /\
    length (cpus_of (foldl step s (seqZ 0 (Z.of_nat k)))) = length (cpus_of s) /\
    Stage k (foldl step s (seqZ 0 (Z.of_nat k))).
Proof.
  intros Hinv Hlen Hstep. induction k as [| k IH]; intros s Hs Hk H0.
  { done. }
  destruct (IH s Hs ltac:(lia) H0) as (IH1 & IH2 & IH3).
  rewrite seqZ_S, foldl_app. cbn [foldl]. rewrite Z.add_0_l.
  split_and!.
  - by apply Hinv.
  - by rewrite Hlen.
  - apply Hstep; [done | lia | done].
Qed.

Lemma inv_occupants m now :
  sched_inv m now ->
  NoDup (occupants (cpus m)) /\
  Forall (fun i => 0 <= i) (occupants (cpus m)) /\
  forall i, i ∈ occupants (cpus m) ->
            valid_index (processes m) i /\
            state (proc (processes m) i) = RUNNING /\
            arrival_time (proc (processes m) i) <= now.
Proof.
  intros Hinv. pose proof (inv_nodup _ _ Hinv) as Hnd.
  apply NoDup_app in Hnd as (_ & _ & Hnd).
  pose proof (inv_running _ _ Hinv) as Hr. rewrite Forall_forall in Hr.
  split_and!; [done | | done].
  apply Forall_forall. intros i Hi. by destruct (Hr i Hi) as [[? _] _].
Qed.

Lemma lookup_occupant cs c x i :
  cs !! c = Some x -> current_process x = Some i -> i ∈ occupants cs.
Proof.
  intros Hx Hi. apply list_elem_of_omap. exists x. split; [| done].
  by eapply list_elem_of_lookup_2.
Qed.

Lemma rr_expiry_step_staged time_quantum m (c : nat) now :
  sched_inv m now -> (c < length (cpus m))%nat ->
  staged (within_quantum time_quantum) (quantum_left time_quantum) c
         (processes m) (cpus m) ->
  staged (within_quantum time_quantum) (quantum_left time_quantum) (S c)
         (processes (rr_expiry_step time_quantum m (Z.of_nat c)))
         (cpus (rr_expiry_step time_quantum m (Z.of_nat c))).
Proof.
  intros Hinv Hc Hst.
  destruct (inv_occupants _ _ Hinv) as (Hnd & Hpos & Hocc).
  destruct (cpu_lookup (cpus m) (Z.of_nat c)) as (x & Hx & Hcx); [lia |].
  rewrite Nat2Z.id in Hx.
  assert (forall i, current_process x = Some i ->
                    within_quantum time_quantum (proc (processes m) i) ->
                    quantum_used (proc (processes m) i) < time_quantum ->
                    staged (within_quantum time_quantum)
                           (quantum_left time_quantum) (S c)
                           (processes m) (cpus m)) as Hkeep.
  { intros i Hi Hp Hlt.
    apply (staged_step _ _ c (processes m) (cpus m) (processes m) (cpus m)
             x x Hnd Hpos Hx Hx); try done.
    intros i' Hi' [Hp' _]. rewrite Hi in Hi'. injection Hi' as <-.
    right. split; [done |]. unfold quantum_left. lia. }
  unfold rr_expiry_step. rewrite Hcx.
  destruct (current_process x) as [i |] eqn:Hcur.
  2:{ apply (staged_step _ _ c (processes m) (cpus m) (processes m) (cpus m)
               x x Hnd Hpos Hx Hx); try done.
      intros i Hi. rewrite Hcur in Hi. done. }
  destruct (Hocc i (lookup_occupant _ _ _ _ Hx Hcur)) as (Hv & Hs & _).
  destruct Hst as [HQ HP]. pose proof HP as HP'.
  rewrite (occupants_drop _ _ _ Hx), Hcur in HP'.
  apply Forall_cons in HP' as [[Hq Hrem] _].
  replace (remaining_time (proc (processes m) i) >? 0) with true by lia.
  rewrite Hs, bool_decide_eq_true_2 by done. cbn [andb].
  destruct (quantum_used (proc (processes m) i) >=? time_quantum) eqn:Hexp.
  - match goal with
    | |- context [enqueue_FCFSQ ?m0 i] =>
      destruct (enqueue_FCFSQ_frame m0 i) as [-> ->]
    end.
    cbn [processes cpus]. unfold upd_cpu. rewrite Nat2Z.id.
    apply (staged_step _ _ c (processes m) (cpus m) _ _
             x (set_current_process x None) Hnd Hpos Hx).
    + by rewrite list_lookup_alter_eq, Hx.
    + by rewrite take_alter_ge.
    + rewrite drop_alter_lt by lia. done.
    + intros j Hj Hne.
      rewrite proc_upd_ne; [done | apply Hv | done | congruence].
    + intros. by left.
    + done.
    + by split.
  - apply (Hkeep i eq_refl); [by split | lia].
Qed.

Lemma rr_expiry_step_length time_quantum m c :
  length (cpus (rr_expiry_step time_quantum m c)) = length (cpus m).
Proof.
  unfold rr_expiry_step.
  destruct (current_process _); [| done].
  destruct (_ && _); [| done]. destruct (_ >=? _); [| done].
  match goal with
  | |- context [enqueue_FCFSQ ?m0 ?i] =>
    destruct (enqueue_FCFSQ_frame m0 i) as [_ ->]
  end.
  cbn [cpus]. apply length_upd_cpu.
Qed.

Lemma handle_rr_quantum_expiry_quantum time_quantum m now :
  sched_inv m now ->
  Forall (fun i => within_quantum time_quantum (proc (processes m) i))
         (occupants (cpus m)) ->
  let m' := handle_rr_quantum_expiry m time_quantum in
  Forall (fun i => quantum_left time_quantum (proc (processes m') i))
         (occupants (cpus m')).
Proof.
  intros Hinv H. cbv zeta. unfold handle_rr_quantum_expiry, cpu_count.
  assert (staged (within_quantum time_quantum) (quantum_left time_quantum) 0
                 (processes m) (cpus m)) as H0.
  { split; [done |]. by rewrite drop_0. }
  destruct (fold_staged cpus (rr_expiry_step time_quantum)
              (fun m => sched_inv m now)
              (fun c m => staged (within_quantum time_quantum)
                                 (quantum_left time_quantum) c
                                 (processes m) (cpus m))
              (fun s c Hs => rr_expiry_step_inv time_quantum s c now Hs)
              (rr_expiry_step_length time_quantum)
              (fun s c Hs Hc Hst =>
                 rr_expiry_step_staged time_quantum s c now Hs Hc Hst)
              (length (cpus m)) m Hinv (le_n _) H0)
    as (_ & Hlen & [Hfin _]).
  rewrite take_ge in Hfin by lia. exact Hfin.
Qed.

Lemma execute_step_staged time_quantum t st (c : nat) now :
  sched_inv st.1 now -> (c < length (cpus st.1))%nat ->
  staged (quantum_left time_quantum) (within_quantum time_quantum) c
         (processes st.1) (cpus st.1) ->
  staged (quantum_left time_quantum) (within_quantum time_quantum) (S c)
         (processes (execute_step t st (Z.of_nat c)).1)
         (cpus (execute_step t st (Z.of_nat c)).1).
Proof.
  destruct st as [m cc]. cbn [fst]. intros Hinv Hc Hst.
  destruct (inv_occupants _ _ Hinv) as (Hnd & Hpos & Hocc).
  destruct (cpu_lookup (cpus m) (Z.of_nat c)) as (x & Hx & Hcx); [lia |].
  rewrite Nat2Z.id in Hx.
  unfold execute_step, upd_cpu. cbn [fst snd]. rewrite Hcx, Nat2Z.id.
  destruct (current_process x) as [i |] eqn:Hcur.
  2:{ cbn [fst processes cpus].
      apply (staged_step _ _ c (processes m) (cpus m) _ _
               x (set_idle_time x (idle_time x + 1)) Hnd Hpos Hx).
      - by rewrite list_lookup_alter_eq, Hx.
      - by rewrite take_alter_ge.
      - rewrite drop_alter_lt by lia. done.
      - done.
      - intros i Hi. rewrite Hcur in Hi. done.
      - done.
      - done. }
  destruct (Hocc i (lookup_occupant _ _ _ _ Hx Hcur)) as (Hv & Hs & _).
  set (decr := fun p => set_quantum_used
                          (set_remaining_time p (remaining_time p - 1))
                          (quantum_used p + 1)).
  assert (proc (upd_proc (processes m) i decr) i = decr (proc (processes m) i))
    as Hp1 by by rewrite proc_upd_eq.
  rewrite Hp1. cbn [remaining_time decr set_quantum_used set_remaining_time].
  destruct (remaining_time (proc (processes m) i) - 1 <=? 0) eqn:Hdone;
    cbn [fst processes cpus].
  - apply (staged_step _ _ c (processes m) (cpus m) _ _ x
             (set_current_process (set_busy_time x (busy_time x + 1)) None)
             Hnd Hpos Hx).
    + by rewrite !list_lookup_alter_eq, Hx.
    + by rewrite !take_alter_ge.
    + rewrite !drop_alter_lt by lia. done.
    + intros j Hj Hne. rewrite Hcur in Hne.
      rewrite proc_upd_ne; [| apply Hv | done | congruence].
      rewrite proc_upd_ne; [done | apply Hv | done | congruence].
    + intros. by left.
    + done.
    + done.
  - apply (staged_step _ _ c (processes m) (cpus m) _ _ x
             (set_busy_time x (busy_time x + 1)) Hnd Hpos Hx).
    + by rewrite list_lookup_alter_eq, Hx.
    + by rewrite take_alter_ge.
    + rewrite drop_alter_lt by lia. done.
    + intros j Hj Hne. rewrite Hcur in Hne.
      rewrite proc_upd_ne; [done | apply Hv | done | congruence].
    + intros i' Hi' Hp. rewrite Hcur in Hi'. injection Hi' as <-.
      right. split; [done |]. rewrite Hp1.
      unfold quantum_left in Hp. unfold within_quantum, decr.
      cbn [quantum_used remaining_time set_quantum_used set_remaining_time].
      lia.
    + done.
    + done.
Qed.

Lemma execute_processes_quantum time_quantum m t cc now :
  sched_inv m now ->
  Forall (fun i => quantum_left time_quantum (proc (processes m) i))
         (occupants (cpus m)) ->
  let m' := (execute_processes m t cc).1 in
  Forall (fun i => within_quantum time_quantum (proc (processes m') i))
         (occupants (cpus m')).
Proof.
  intros Hinv H. cbv zeta. unfold execute_processes, cpu_count.
  assert (staged (quantum_left time_quantum) (within_quantum time_quantum) 0
                 (processes m) (cpus m)) as H0.
  { split; [done |]. by rewrite drop_0. }
  assert (forall s c, length (cpus (execute_step t s c).1)
                      = length (cpus s.1)) as Hlength.
  { intros s c. destruct (execute_step_ticks t s c) as [_ Hid].
    apply (f_equal length) in Hid. by rewrite !length_map in Hid. }
  destruct (fold_staged (fun st => cpus st.1) (execute_step t)
              (fun st => sched_inv st.1 now)
              (fun c st => staged (quantum_left time_quantum)
                                  (within_quantum time_quantum) c
                                  (processes st.1) (cpus st.1))
              (fun s c Hs => execute_step_inv t s c now Hs)
              Hlength
              (fun s c Hs Hc Hst =>
                 execute_step_staged time_quantum t s c now Hs Hc Hst)
              (length (cpus m)) (m, cc) Hinv (le_n _) H0)
    as (_ & Hlen & [Hfin _]).
  cbn [fst] in Hlen, Hfin. rewrite take_ge in Hfin by lia. exact Hfin.
Qed.

Lemma assign_loop_quantum time_quantum now fuel :
  0 < time_quantum ->
  forall m c pops,
  sched_inv m now -> 0 <= c ->
  Forall (fun i => quantum_left time_quantum (proc (processes m) i))
         (occupants (cpus m)) ->
  let m' := (assign_loop fuel m now c pops).1 in
  Forall (fun i => quantum_left time_quantum (proc (processes m') i))
         (occupants (cpus m')).
Proof.
  intros HQ. induction fuel as [| fuel IH]; intros m c pops Hinv Hc H;
    [done |].
  cbv zeta. cbn [assign_loop].
  destruct (c <? cpu_count m) eqn:Hlt; [| done].
  destruct (current_process (cpu (cpus m) c)) as [i |] eqn:Hocc.
  { apply IH; [done | lia | done]. }
  destruct (decide (0 < size (FCFSQ m))) as [Hpos | Hempty].
  2:{ rewrite dequeue_empty by lia.
      replace (-1 =? -1) with true by done. done. }
  destruct (dequeue_front (FCFSQ m) (inv_wf _ _ Hinv) Hpos) as [Hwf' Hcont].
  destruct (dequeue (FCFSQ m)) as [idx q']. cbn [fst snd] in *.
  pose proof (inv_ready _ _ Hinv) as Hr. rewrite Hcont in Hr.
  apply Forall_cons in Hr as [(Hv & Hs & Ha) _].
  replace (idx =? -1) with false by (unfold valid_index in Hv; lia).
  assert (discarded (proc (processes m) idx) now = false) as Hnd.
  { unfold discarded. rewrite Hs. simpl. lia. }
  rewrite Hnd.
  assert (0 <= c < cpu_count m) as Hrange by lia.
  apply IH; [by apply sched_inv_dispatch | lia |].
  cbn [processes cpus].
  destruct (cpu_lookup (cpus m) c Hrange) as (x & Hx & Hcx).
  rewrite Hcx in Hocc.
  unfold upd_cpu. rewrite (occupants_take _ _ _ idx Hx Hocc).
  destruct (inv_occupants _ _ Hinv) as (_ & Hpos' & _).
  pose proof (inv_nodup _ _ Hinv) as Hnodup. rewrite Hcont in Hnodup.
  cbn [app] in Hnodup. apply NoDup_cons in Hnodup as [Hfresh _].
  apply Forall_cons. split.
  - rewrite proc_upd_eq by done.
    destruct (dispatch_fields (proc (processes m) idx) now) as (_ & Hq & _).
    unfold quantum_left. rewrite Hq. lia.
  - apply Forall_forall. intros j Hj.
    rewrite Forall_forall in H, Hpos'.
    rewrite proc_upd_ne; [by apply H | apply Hv | by apply Hpos' |].
    intros ->. apply Hfresh. apply elem_of_app. by right.
Qed.

Lemma handle_arrivals_occupants (P : Process -> Prop) m now algorithm :
  sched_inv m (now - 1) ->
  Forall (fun i => P (proc (processes m) i)) (occupants (cpus m)) ->
  let m' := (handle_arrivals m now algorithm).1 in
  Forall (fun i => P (proc (processes m') i)) (occupants (cpus m')).
Proof.
  intros Hinv H. cbv zeta.
  rewrite cpus_handle_arrivals, processes_handle_arrivals.
  destruct (arrival_scan_spec now (seqZ 0 (process_count m)) (processes m) [])
    as (new & _ & _ & Hnew & _ & Hproc).
  { apply NoDup_seqZ. }
  { apply Forall_forall. intros i Hi. apply elem_of_seqZ in Hi.
    unfold valid_index, process_count in *. lia. }
  destruct (inv_occupants _ _ Hinv) as (_ & _ & Hocc).
  apply Forall_forall. intros i Hi. rewrite Forall_forall in H.
  destruct (Hocc i Hi) as (Hv & _ & Ha).
  destruct (Hproc i) as [[_ ->] | [Hin _]]; [apply Hv | by apply H |].
  destruct (Hnew i Hin) as [_ Harr]. lia.
Qed.

Lemma tick_quantum time_quantum s :
  0 < time_quantum ->
  sched_inv (machine s) (current_time s - 1) ->
  Forall (fun i => within_quantum time_quantum
                     (proc (processes (machine s)) i))
         (occupants (cpus (machine s))) ->
  let s' := tick RR time_quantum s in
  Forall (fun i => within_quantum time_quantum
                     (proc (processes (machine s')) i))
         (occupants (cpus (machine s'))).
Proof.
  intros HQ Hinv H. cbv zeta.
  destruct (tick_machine RR time_quantum s) as [-> _].
  eapply execute_processes_quantum; [by apply until_execute_inv |].
  unfold update_waiting_times. cbn [processes cpus].
  assert (Forall (fun i => quantum_left time_quantum
                    (proc (processes
                       (assign_processes_to_idle_cpus
                          (before_dispatch RR time_quantum (machine s)
                             (current_time s)) (current_time s))) i))
                 (occupants (cpus
                    (assign_processes_to_idle_cpus
                       (before_dispatch RR time_quantum (machine s)
                          (current_time s)) (current_time s))))) as Hmid.
  { unfold assign_processes_to_idle_cpus, assign_pops.
    apply assign_loop_quantum;
      [done | by apply before_dispatch_inv | lia |].
    unfold before_dispatch.
    pose proof (handle_arrivals_occupants (within_quantum time_quantum)
                  (machine s) (current_time s) RR Hinv H) as Harr.
    destruct (handle_arrivals_inv (machine s) (current_time s) RR Hinv)
      as [_ Hrr].
    destruct (handle_arrivals (machine s) (current_time s) RR) as [m1 arr].
    cbn [fst snd] in *.
    eapply handle_rr_quantum_expiry_quantum; [by apply Hrr |].
    by destruct (enqueue_all_frame arr m1) as [-> ->]. }
  pose proof (before_dispatch_inv RR time_quantum (machine s)
                (current_time s) Hinv) as Hinv3.
  pose proof (assign_loop_inv (current_time s)
                (assign_fuel (before_dispatch RR time_quantum (machine s)
                                (current_time s)))
                _ 0 [] Hinv3 ltac:(lia)) as [Hinv4 _].
  destruct (inv_occupants _ _ Hinv4) as (_ & _ & Hocc).
  apply Forall_forall. intros i Hi. rewrite Forall_forall in Hmid.
  destruct (Hocc i Hi) as (Hv & _ & _).
  fold (assign_pops (before_dispatch RR time_quantum (machine s)
                       (current_time s)) (current_time s)) in Hv.
  rewrite proc_map by exact Hv.
  specialize (Hmid i Hi). unfold quantum_left in *.
  unfold update_waiting. by destruct (_ && _).
Qed.

(** X13.  The quantum counter stays within the quantum.  Under Round
    Robin with a quantum of at least 1 (which [parse_arguments] ensures),
    between any two ticks and in the state [simulate] returns, every
    process that holds a CPU has a [quantum_used] between 1 and
    [time_quantum] and still has work left.  The counter is reset by
    every dispatch, also when a requeued process is dispatched again in
    the tick of its requeueing, so this bounds the ticks since the last
    dispatch and not the ticks a process spends on a CPU in a row. *)
Theorem quantum_never_exceeded
        (ps : list Process) (n : Z) (time_quantum : Z) :
  1 <= time_quantum ->
  (forall k,
      let m := machine (after_ticks RR time_quantum ps n k) in
      Forall (fun i => 1 <= quantum_used (proc (processes m) i) <= time_quantum
                       /\ 1 <= remaining_time (proc (processes m) i))
             (occupants (cpus m))) /\
  let m := machine (simulate ps n RR time_quantum FCFSQ0) in
  Forall (fun i => 1 <= quantum_used (proc (processes m) i) <= time_quantum
                   /\ 1 <= remaining_time (proc (processes m) i))
         (occupants (cpus m)).
Proof.
  intros HQ.
  assert (forall k,
      let m := machine (after_ticks RR time_quantum ps n k) in
      Forall (fun i => within_quantum time_quantum (proc (processes m) i))
             (occupants (cpus m))) as H.
  { induction k as [| k IH]; cbv zeta.
    - change (after_ticks RR time_quantum ps n 0)
        with (initial_sim ps n FCFSQ0).
      unfold initial_sim. cbn [machine cpus]. by rewrite occupants_initial.
    - rewrite after_ticks_S. apply tick_quantum; [lia | | exact IH].
      destruct (after_ticks_fields RR time_quantum ps n k) as (-> & _).
      apply after_ticks_inv. }
  split; [exact H |].
  destruct (simulate_machine ps n RR time_quantum) as (k & _ & ->).
  cbn [with_bruh machine]. apply H.
Qed.

Lemma quantum_never_exceeded_witness :
  (forall k,
      let m := machine (after_ticks RR 2 (map load_process rr_example) 1 k) in
      Forall (fun i => 1 <= quantum_used (proc (processes m) i) <= 2
                       /\ 1 <= remaining_time (proc (processes m) i))
             (occupants (cpus m))) /\
  let m := machine (simulate (map load_process rr_example) 1 RR 2 FCFSQ0) in
  Forall (fun i => 1 <= quantum_used (proc (processes m) i) <= 2
                   /\ 1 <= remaining_time (proc (processes m) i))
         (occupants (cpus m)).
Proof.
  apply (quantum_never_exceeded (map load_process rr_example) 1 2). lia.
Defined.

(** ** Within the capacity of the queue *)

Lemma arrival_time_upd ps i f j :
  (forall p, arrival_time (f p) = arrival_time p) ->
  arrival_time (proc (upd_proc ps i f) j) = arrival_time (proc ps j).
Proof.
  intros Hf. unfold proc, upd_proc.
  destruct (decide (Z.to_nat i = Z.to_nat j)) as [<- | Hne].
  - rewrite list_lookup_alter_eq. destruct (ps !! Z.to_nat i); [apply Hf | done].
  - by rewrite list_lookup_alter_ne.
Qed.

(** With room in [arrived_indices] for all of them, the first loop of
    [handle_arrivals] records every process that arrives now. *)
Lemma arrival_scan_all now l :
  forall st,
  Z.of_nat (length st.2) + Z.of_nat (length l) <= MAX_PROCESSES ->
  forall i,
    i ∈ st.2 \/ (i ∈ l /\ arrival_time (proc st.1 i) = now) ->
    i ∈ (foldl (arrival_scan_step now) st l).2.
Proof.
  induction l as [| a l IH]; intros st Hlen i Hi.
  { destruct Hi as [Hi | [Hi _]]; [done | by apply elem_of_nil in Hi]. }
  cbn [foldl length] in *.
  assert (arrival_scan_step now st a = st /\
          arrival_time (proc st.1 a) <> now \/
          arrival_scan_step now st a
          = (upd_proc st.1 a (fun p => set_quantum_used (set_state p READY) 0),
             st.2 ++ [a])) as Hstep.
  { unfold arrival_scan_step.
    destruct (arrival_time (proc st.1 a) =? now) eqn:Ea; [| left; split; [done | lia]].
    replace (Z.of_nat (length st.2) <? MAX_PROCESSES) with true by lia.
    by right. }
  destruct Hstep as [[-> Hne] | ->].
  - apply IH; [lia |]. destruct Hi as [Hi | [Hi Ha]]; [by left |].
    apply elem_of_cons in Hi as [-> | Hi]; [done | by right].
  - apply IH; cbn [fst snd].
    + rewrite length_app. cbn [length]. lia.
    + destruct Hi as [Hi | [Hi Ha]].
      * left. apply elem_of_app. by left.
      * apply elem_of_cons in Hi as [-> | Hi].
        -- left. apply elem_of_app. right. by left.
        -- right. split; [done |]. by rewrite arrival_time_upd.
Qed.

Lemma sched_inv_fresh_room m now idx :
  sched_inv m now -> process_count m <= MAX_PROCESSES ->
  valid_index (processes m) idx ->
  idx ∉ contents (FCFSQ m) ++ occupants (cpus m) ->
  size (FCFSQ m) < MAX_PROCESSES.
Proof.
  intros [Hwf Hnd Hr Hc] Hcount Hv Hfresh.
  assert (idx :: contents (FCFSQ m) ++ occupants (cpus m)
          ⊆+ seqZ 0 (process_count m)) as Hsub.
  { apply NoDup_submseteq; [by apply NoDup_cons |]. intros i Hi.
    apply elem_of_seqZ. rewrite Forall_forall in Hr, Hc.
    apply elem_of_cons in Hi as [-> | Hi].
    { unfold valid_index, process_count in *. lia. }
    apply elem_of_app in Hi as [Hi | Hi].
    - destruct (Hr i Hi) as (Hvi & _). unfold valid_index, process_count in *. lia.
    - destruct (Hc i Hi) as (Hvi & _). unfold valid_index, process_count in *. lia. }
  apply submseteq_length in Hsub.
  cbn [length] in Hsub.
  rewrite length_app, length_contents, length_seqZ in Hsub.
  pose proof (wf_size _ Hwf). lia.
Qed.

Lemma enqueue_FCFSQ_quiet m idx now :
  sched_inv m now -> process_count m <= MAX_PROCESSES ->
  enqueueable m now idx ->
  stderr (enqueue_FCFSQ m idx) = stderr m /\
  forall j, j ∈ contents (FCFSQ (enqueue_FCFSQ m idx))
            <-> j = idx \/ j ∈ contents (FCFSQ m).
Proof.
  intros Hinv Hcount (Hv & _ & _ & Hfresh).
  pose proof (sched_inv_fresh_room m now idx Hinv Hcount Hv Hfresh) as Hroom.
  destruct (enqueue_room (FCFSQ m) idx (inv_wf _ _ Hinv) Hroom)
    as (_ & Hcont & Herr).
  unfold enqueue_FCFSQ. destruct (enqueue (FCFSQ m) idx) as [q e].
  cbn [fst snd stderr FCFSQ] in *. subst e. rewrite app_nil_r.
  split; [done |]. intros j. rewrite Hcont, elem_of_app, list_elem_of_singleton.
  tauto.
Qed.

Lemma enqueue_priority_FCFSQ_quiet m idx now :
  sched_inv m now -> process_count m <= MAX_PROCESSES ->
  enqueueable m now idx ->
  stderr (enqueue_priority_FCFSQ m idx) = stderr m /\
  forall j, j ∈ contents (FCFSQ (enqueue_priority_FCFSQ m idx))
            <-> j = idx \/ j ∈ contents (FCFSQ m).
Proof.
  intros Hinv Hcount (Hv & _ & _ & Hfresh).
  pose proof (sched_inv_fresh_room m now idx Hinv Hcount Hv Hfresh) as Hroom.
  destruct (enqueue_priority_room (FCFSQ m) idx (processes m)
              (inv_wf _ _ Hinv) Hroom) as (_ & Hcont & Herr).
  unfold enqueue_priority_FCFSQ.
  destruct (enqueue_priority (FCFSQ m) idx (processes m)) as [q e].
  cbn [fst snd stderr FCFSQ] in *. subst e. rewrite app_nil_r.
  split; [done |]. intros j.
  rewrite Hcont, insert_ordered_perm, elem_of_cons. tauto.
Qed.

(** A loop that enqueues the entries of [l] one by one. *)
Lemma enqueue_all_quiet (step : Machine -> Z -> Machine) now :
  (forall m idx, processes (step m idx) = processes m /\
                 cpus (step m idx) = cpus m) ->
  (forall m idx,
      sched_inv m now -> valid_index (processes m) idx ->
      state (proc (processes m) idx) = READY ->
      arrival_time (proc (processes m) idx) <= now ->
      idx ∉ contents (FCFSQ m) ++ occupants (cpus m) ->
      sched_inv (step m idx) now) ->
  (forall m idx,
      sched_inv m now -> process_count m <= MAX_PROCESSES ->
      enqueueable m now idx ->
      stderr (step m idx) = stderr m /\
      forall j, j ∈ contents (FCFSQ (step m idx))
                <-> j = idx \/ j ∈ contents (FCFSQ m)) ->
  forall l m,
    sched_inv m now -> process_count m <= MAX_PROCESSES ->
    NoDup l -> Forall (enqueueable m now) l ->
    stderr (foldl step m l) = stderr m /\
    forall j, j ∈ contents (FCFSQ (foldl step m l))
              <-> j ∈ l \/ j ∈ contents (FCFSQ m).
Proof.
  intros Hframe Hstep Hquiet.
  induction l as [| i l IH]; intros m Hinv Hcount Hnd Hall.
  { split; [done |]. intros j. rewrite elem_of_nil. tauto. }
  apply NoDup_cons in Hnd as [Hi Hnd].
  apply Forall_cons in Hall as [Hen Hall].
  pose proof Hen as (Hv & Hs & Ha & Hfresh).
  cbn [foldl]. destruct (Hframe m i) as [Hps Hcs].
  destruct (Hquiet m i Hinv Hcount Hen) as [Herr Hcont].
  destruct (IH (step m i)) as [IH1 IH2]; try done.
  - by apply Hstep.
  - unfold process_count. by rewrite Hps.
  - apply Forall_forall. intros k Hk. rewrite Forall_forall in Hall.
    destruct (Hall k Hk) as (Hkv & Hks & Hka & Hkf).
    unfold enqueueable. rewrite Hps, Hcs. split_and!; try done.
    intros Hin. apply elem_of_app in Hin as [Hin | Hin].
    + apply Hcont in Hin as [-> | Hin]; [done |].
      apply Hkf. apply elem_of_app. by left.
    + apply Hkf. apply elem_of_app. by right.
  - rewrite IH1, Herr. split; [done |]. intros j.
    rewrite IH2, Hcont, elem_of_cons. tauto.
Qed.

Lemma handle_arrivals_tidy m now algorithm :
  sched_inv m (now - 1) -> process_count m <= MAX_PROCESSES ->
  let r := handle_arrivals m now algorithm in
  stderr r.1 = stderr m /\
  (forall j, j ∈ contents (FCFSQ r.1)
             <-> (algorithm = FCFS \/ algorithm = SJF) /\ j ∈ r.2 \/
                 j ∈ contents (FCFSQ m)) /\
  (algorithm = RR ->
   stderr (foldl enqueue_FCFSQ r.1 r.2) = stderr m /\
   forall j, j ∈ contents (FCFSQ (foldl enqueue_FCFSQ r.1 r.2))
             <-> j ∈ r.2 \/ j ∈ contents (FCFSQ m)) /\
  (forall i, valid_index (processes m) i ->
             arrival_time (proc (processes m) i) = now -> i ∈ r.2) /\
  (forall i, valid_index (processes m) i ->
             (i ∉ r.2) /\ proc (processes r.1) i = proc (processes m) i \/
             i ∈ r.2 /\ proc (processes r.1) i = readied (proc (processes m) i)).
Proof.
  intros Hinv Hcount. cbv zeta.
  pose proof (processes_handle_arrivals m now algorithm) as Hps.
  pose proof (arrival_scan_all now (seqZ 0 (process_count m))
                (processes m, [])) as Hall.
  destruct (arrival_scan_spec now (seqZ 0 (process_count m)) (processes m) [])
    as (new & Hnew & _ & _ & _ & Hproc).
  { apply NoDup_seqZ. }
  { apply Forall_forall. intros i Hi. apply elem_of_seqZ in Hi.
    unfold valid_index, process_count in *. lia. }
  unfold handle_arrivals in *.
  destruct (foldl (arrival_scan_step now) _ _) as [ps' arr] eqn:Hfold.
  destruct (arrival_scan_inv m now ps' arr Hinv Hfold) as (Hinv' & Hnd & Hen).
  cbn [fst snd] in *. change ([] ++ new) with new in Hnew. subst new.
  set (m0 := mkMachine ps' (cpus m) (FCFSQ m) (stderr m)) in *.
  assert (process_count m0 <= MAX_PROCESSES) as Hcount0.
  { unfold process_count, m0. cbn [processes].
    apply (f_equal length) in Hps.
    destruct (arrival_scan_spec now (seqZ 0 (process_count m)) (processes m)
                []) as (? & _ & _ & _ & Hlen & _).
    { apply NoDup_seqZ. }
    { apply Forall_forall. intros i Hi. apply elem_of_seqZ in Hi.
      unfold valid_index, process_count in *. lia. }
    rewrite Hfold in Hlen. cbn [fst] in Hlen. rewrite Hlen.
    unfold process_count in Hcount. lia. }
  assert (stderr (foldl enqueue_FCFSQ m0 arr) = stderr m /\
          forall j, j ∈ contents (FCFSQ (foldl enqueue_FCFSQ m0 arr))
                    <-> j ∈ arr \/ j ∈ contents (FCFSQ m)) as Hfcfs.
  { change (stderr (foldl enqueue_FCFSQ m0 arr) = stderr m0 /\
            forall j, j ∈ contents (FCFSQ (foldl enqueue_FCFSQ m0 arr))
                      <-> j ∈ arr \/ j ∈ contents (FCFSQ m0)).
    apply (enqueue_all_quiet enqueue_FCFSQ now enqueue_FCFSQ_frame
             (fun m idx => sched_inv_enqueue m idx now)
             (fun m idx => enqueue_FCFSQ_quiet m idx now)); done. }
  assert (stderr (foldl enqueue_priority_FCFSQ m0 arr) = stderr m /\
          forall j, j ∈ contents (FCFSQ (foldl enqueue_priority_FCFSQ m0 arr))
                    <-> j ∈ arr \/ j ∈ contents (FCFSQ m)) as Hsjf.
  { change (stderr (foldl enqueue_priority_FCFSQ m0 arr) = stderr m0 /\
            forall j,
              j ∈ contents (FCFSQ (foldl enqueue_priority_FCFSQ m0 arr))
              <-> j ∈ arr \/ j ∈ contents (FCFSQ m0)).
    apply (enqueue_all_quiet enqueue_priority_FCFSQ now
             enqueue_priority_FCFSQ_frame
             (fun m idx => sched_inv_enqueue_priority m idx now)
             (fun m idx => enqueue_priority_FCFSQ_quiet m idx now)); done. }
  assert (forall i, valid_index (processes m) i ->
                    arrival_time (proc (processes m) i) = now -> i ∈ arr)
    as Harr.
  { intros i Hi Ha. apply Hall; cbn [fst snd length].
    - rewrite length_seqZ. unfold process_count in *. lia.
    - right. split; [| done]. apply elem_of_seqZ.
      unfold valid_index, process_count in *. lia. }
  assert (forall i, valid_index (processes m) i ->
             (i ∉ arr) /\ proc ps' i = proc (processes m) i \/
             i ∈ arr /\ proc ps' i = readied (proc (processes m) i)) as Hcase.
  { intros i Hi. destruct (Hproc i) as [[? ?] | [? ?]];
      [apply Hi | by left | by right]. }
  destruct algorithm; cbn [arrival_enqueue_step] in *.
  - change (foldl (arrival_enqueue_step FCFS)) with (foldl enqueue_FCFSQ) in *.
    destruct Hfcfs as [Herr Hcont]. rewrite Hps. split_and!.
    + exact Herr.
    + intros j. rewrite Hcont. intuition.
    + done.
    + exact Harr.
    + exact Hcase.
  - rewrite foldl_same in * by done. cbn [processes FCFSQ stderr m0] in *.
    split_and!.
    + done.
    + intros j. intuition congruence.
    + intros _. exact Hfcfs.
    + exact Harr.
    + exact Hcase.
  - rewrite foldl_same in * by done. cbn [processes FCFSQ stderr m0] in *.
    split_and!.
    + done.
    + intros j. intuition congruence.
    + done.
    + exact Harr.
    + exact Hcase.
  - change (foldl (arrival_enqueue_step SJF))
      with (foldl enqueue_priority_FCFSQ) in *.
    destruct Hsjf as [Herr Hcont]. rewrite Hps. split_and!.
    + exact Herr.
    + intros j. rewrite Hcont. intuition.
    + done.
    + exact Harr.
    + exact Hcase.
Qed.

(** ** Nothing written to stderr, no process lost *)

Lemma rr_expiry_step_tidy time_quantum m c now :
  sched_inv m now -> process_count m <= MAX_PROCESSES ->
  stderr (rr_expiry_step time_quantum m c) = stderr m /\
  process_count (rr_expiry_step time_quantum m c) = process_count m /\
  (none_lost m now -> none_lost (rr_expiry_step time_quantum m c) now).
Proof.
  intros Hinv Hcount. unfold rr_expiry_step.
  destruct (current_process (cpu (cpus m) c)) as [curr |] eqn:Hc; [| done].
  destruct (_ && _); [| done].
  destruct (quantum_used _ >=? time_quantum); [| done].
  destruct (cpu_Some _ _ _ Hc) as (x & Hx & Hi).
  pose proof (occupants_free _ _ _ _ Hx Hi) as Hperm.
  pose proof (inv_running _ _ Hinv) as Hr. rewrite Forall_forall in Hr.
  destruct (Hr curr (occupant_elem _ _ _ Hc)) as (Hv & _ & _).
  destruct (sched_inv_remove_occupant m
              (upd_proc (processes m) curr requeued)
              (upd_cpu (cpus m) c (fun c => set_current_process c None))
              (stderr m) curr now Hinv Hperm)
    as (Hinv' & Hfresh & _ & Ha).
  { apply length_upd_proc. }
  { intros j Hj Hne. apply proc_upd_ne; [apply Hv | done | done]. }
  set (m0 := mkMachine (upd_proc (processes m) curr requeued)
                       (upd_cpu (cpus m) c
                                (fun c => set_current_process c None))
                       (FCFSQ m) (stderr m)) in *.
  assert (process_count m0 = process_count m) as Hcount0.
  { unfold process_count, m0. cbn [processes]. by rewrite length_upd_proc. }
  assert (enqueueable m0 now curr) as Hen.
  { unfold enqueueable, m0. cbn [processes cpus FCFSQ].
    rewrite proc_upd_eq by done. split_and!; try done.
    by apply valid_index_upd. }
  destruct (enqueue_FCFSQ_quiet m0 curr now Hinv' ltac:(lia) Hen)
    as [Herr Hcont].
  destruct (enqueue_FCFSQ_frame m0 curr) as [Hps Hcs].
  change (enqueue_FCFSQ m0 curr) with (enqueue_FCFSQ m0 curr).
  fold requeued. fold m0. split_and!.
  - by rewrite Herr.
  - unfold process_count in *. by rewrite Hps.
  - intros Hnl i Hvi. rewrite Hps in Hvi |- *.
    unfold m0 in Hvi |- *. cbn [processes] in Hvi |- *.
    rewrite valid_index_upd in Hvi.
    destruct (decide (i = curr)) as [-> | Hne].
    + rewrite proc_upd_eq by done. cbn [state requeued set_state].
      apply Hcont. by left.
    + rewrite proc_upd_ne; [| apply Hv | apply Hvi | congruence].
      specialize (Hnl i Hvi).
      destruct (state (proc (processes m) i)); try done.
      apply Hcont. by right.
Qed.

Lemma handle_rr_quantum_expiry_tidy time_quantum m now :
  sched_inv m now -> process_count m <= MAX_PROCESSES ->
  stderr (handle_rr_quantum_expiry m time_quantum) = stderr m /\
  (none_lost m now -> none_lost (handle_rr_quantum_expiry m time_quantum) now).
Proof.
  unfold handle_rr_quantum_expiry. generalize (seqZ 0 (cpu_count m)).
  intros l. revert m. induction l as [| c l IH]; intros m Hinv Hcount;
    [done |].
  cbn [foldl].
  destruct (rr_expiry_step_tidy time_quantum m c now Hinv Hcount)
    as (Herr & Hc & Hnl).
  destruct (IH (rr_expiry_step time_quantum m c)) as [IH1 IH2].
  { by apply rr_expiry_step_inv. }
  { lia. }
  split; [by rewrite IH1 | auto].
Qed.

Lemma arrivals_none_lost m m' now (arr : list Z) :
  none_lost m (now - 1) ->
  length (processes m') = length (processes m) ->
  (forall i, valid_index (processes m) i ->
             arrival_time (proc (processes m) i) = now -> i ∈ arr) ->
  (forall i, valid_index (processes m) i ->
             (i ∉ arr) /\ proc (processes m') i = proc (processes m) i \/
             i ∈ arr /\ proc (processes m') i = readied (proc (processes m) i)) ->
  (forall j, j ∈ arr \/ j ∈ contents (FCFSQ m) -> j ∈ contents (FCFSQ m')) ->
  none_lost m' now.
Proof.
  intros Hnl Hlen Harr Hcase Hcont i Hi.
  assert (valid_index (processes m) i) as Hv
      by (unfold valid_index in *; by rewrite <- Hlen).
  destruct (Hcase i Hv) as [[Hout ->] | [Hin ->]].
  - specialize (Hnl i Hv).
    destruct (state (proc (processes m) i)); try done.
    + intros Ha. apply Hnl.
      destruct (decide (arrival_time (proc (processes m) i) = now))
        as [Hnow | Hnow]; [| lia].
      destruct Hout. by apply Harr.
    + apply Hcont. by right.
  - cbn [state readied set_state set_quantum_used]. apply Hcont. by left.
Qed.

Lemma before_dispatch_tidy algorithm time_quantum m now :
  sched_inv m (now - 1) -> process_count m <= MAX_PROCESSES ->
  stderr (before_dispatch algorithm time_quantum m now) = stderr m /\
  (algorithm <> SRTF -> none_lost m (now - 1) ->
   none_lost (before_dispatch algorithm time_quantum m now) now).
Proof.
  intros Hinv Hcount. unfold before_dispatch.
  destruct (handle_arrivals_tidy m now algorithm Hinv Hcount)
    as (Herr & Hcont & Hrr & Harr & Hcase).
  destruct (handle_arrivals_inv m now algorithm Hinv) as [Hinv1 Hinv2].
  pose proof (f_equal length (field_handle_arrivals pid ltac:(done)
                                ltac:(done) m now algorithm)) as Hlen.
  rewrite !length_map in Hlen.
  destruct (handle_arrivals m now algorithm) as [m1 arr].
  cbn [fst snd] in *.
  assert (algorithm = FCFS \/ algorithm = SJF -> none_lost m (now - 1) ->
          none_lost m1 now) as Hdirect.
  { intros Halg Hnl. apply (arrivals_none_lost m m1 now arr); try done.
    intros j Hj. apply Hcont. tauto. }
  destruct algorithm; unfold handle_srtf_preemption.
  - split; [done |]. intros _. apply Hdirect. by left.
  - destruct (Hrr eq_refl) as [Herr2 Hcont2].
    destruct (enqueue_all_frame arr m1) as [Hps2 Hcs2].
    destruct (handle_rr_quantum_expiry_tidy time_quantum
                (foldl enqueue_FCFSQ m1 arr) now) as [Herr3 Hnl3].
    { by apply Hinv2. }
    { unfold process_count in *. rewrite Hps2. lia. }
    split; [by rewrite Herr3 |]. intros _ Hnl. apply Hnl3.
    apply (arrivals_none_lost m _ now arr); try done.
    + by rewrite Hps2.
    + by rewrite Hps2.
    + intros j Hj. by apply Hcont2.
  - split; [done | done].
  - split; [done |]. intros _. apply Hdirect. by right.
Qed.

Lemma assign_loop_none_lost now fuel :
  forall m c pops,
  sched_inv m now -> 0 <= c -> none_lost m now ->
  none_lost (assign_loop fuel m now c pops).1 now.
Proof.
  induction fuel as [| fuel IH]; intros m c pops Hinv Hc Hnl; [done |].
  cbn [assign_loop].
  destruct (c <? cpu_count m) eqn:Hlt; [| done].
  destruct (current_process (cpu (cpus m) c)) as [i |] eqn:Hocc.
  { apply IH; [done | lia | done]. }
  destruct (decide (0 < size (FCFSQ m))) as [Hpos | Hempty].
  2:{ rewrite dequeue_empty by lia.
      replace (-1 =? -1) with true by done. done. }
  destruct (dequeue_front (FCFSQ m) (inv_wf _ _ Hinv) Hpos) as [Hwf' Hcont].
  destruct (dequeue (FCFSQ m)) as [idx q']. cbn [fst snd] in *.
  pose proof (inv_ready _ _ Hinv) as Hr. rewrite Hcont in Hr.
  apply Forall_cons in Hr as [(Hv & Hs & Ha) _].
  replace (idx =? -1) with false by (unfold valid_index in Hv; lia).
  assert (discarded (proc (processes m) idx) now = false) as Hnd.
  { unfold discarded. rewrite Hs. simpl. lia. }
  rewrite Hnd.
  apply IH; [apply sched_inv_dispatch; try done; lia | lia |].
  intros i Hi. cbn [processes FCFSQ] in *. rewrite valid_index_upd in Hi.
  destruct (decide (i = idx)) as [-> | Hne].
  - rewrite proc_upd_eq by done.
    by destruct (dispatch_fields (proc (processes m) idx) now) as (-> & _).
  - rewrite proc_upd_ne; [| apply Hv | apply Hi | congruence].
    specialize (Hnl i Hi).
    destruct (state (proc (processes m) i)); try done.
    rewrite Hcont in Hnl. apply elem_of_cons in Hnl as [? | ?]; done.
Qed.

Lemma update_waiting_times_none_lost m t now :
  none_lost m now -> none_lost (update_waiting_times m t) now.
Proof.
  intros Hnl i Hi. unfold update_waiting_times in *.
  cbn [processes FCFSQ] in *.
  assert (valid_index (processes m) i) as Hv
      by (unfold valid_index in *; by rewrite length_map in Hi).
  rewrite proc_map by done.
  destruct (update_waiting_fields t (proc (processes m) i))
    as (-> & -> & _).
  by apply Hnl.
Qed.

Lemma execute_step_none_lost t st c now :
  sched_inv st.1 now -> none_lost st.1 now ->
  none_lost (execute_step t st c).1 now.
Proof.
  destruct st as [m cc]. cbn [fst]. intros Hinv Hnl. unfold execute_step.
  cbn [fst snd].
  destruct (current_process (cpu (cpus m) c)) as [pi |] eqn:Hocc; [| done].
  pose proof (inv_running _ _ Hinv) as Hr. rewrite Forall_forall in Hr.
  destruct (Hr pi (occupant_elem _ _ _ Hocc)) as (Hv & Hs & _).
  set (ps1 := upd_proc (processes m) pi _).
  assert (forall i, valid_index (processes m) i ->
            match state (proc ps1 i) with
            | WAITING => ~ (0 <= arrival_time (proc ps1 i) <= now)
            | READY => i ∈ contents (FCFSQ m)
            | _ => True
            end) as Hnl1.
  { intros i Hi. destruct (decide (i = pi)) as [-> | Hne].
    - unfold ps1. rewrite proc_upd_eq by done.
      cbn [state set_quantum_used set_remaining_time]. by rewrite Hs.
    - unfold ps1. rewrite proc_upd_ne; [| apply Hv | apply Hi | congruence].
      by apply Hnl. }
  destruct (remaining_time (proc ps1 pi) <=? 0); cbn [fst].
  - intros i Hi. cbn [processes FCFSQ] in *.
    rewrite valid_index_upd in Hi. unfold ps1 in Hi.
    rewrite valid_index_upd in Hi.
    destruct (decide (i = pi)) as [-> | Hne].
    + rewrite proc_upd_eq by (by apply valid_index_upd). done.
    + rewrite proc_upd_ne; [| apply Hv | apply Hi | congruence].
      by apply Hnl1.
  - intros i Hi. cbn [processes FCFSQ] in *. unfold ps1 in Hi.
    rewrite valid_index_upd in Hi. by apply Hnl1.
Qed.

Lemma tick_tidy algorithm time_quantum s :
  sched_inv (machine s) (current_time s - 1) ->
  process_count (machine s) <= MAX_PROCESSES ->
  let s' := tick algorithm time_quantum s in
  stderr (machine s') = stderr (machine s) /\
  (algorithm <> SRTF -> none_lost (machine s) (current_time s - 1) ->
   none_lost (machine s') (current_time s)).
Proof.
  intros Hinv Hcount. cbv zeta.
  destruct (tick_machine algorithm time_quantum s) as [-> _].
  destruct (before_dispatch_tidy algorithm time_quantum (machine s)
              (current_time s) Hinv Hcount) as [Herr Hnl].
  pose proof (before_dispatch_inv algorithm time_quantum (machine s)
                (current_time s) Hinv) as Hinv3.
  pose proof (until_execute_inv algorithm time_quantum (machine s)
                (current_time s) Hinv) as Hinv5.
  split.
  - destruct (execute_processes_frame
                (update_waiting_times
                   (assign_processes_to_idle_cpus
                      (before_dispatch algorithm time_quantum (machine s)
                         (current_time s)) (current_time s))
                   (current_time s))
                (current_time s) (completed_count s)) as [-> _].
    unfold update_waiting_times, assign_processes_to_idle_cpus, assign_pops.
    cbn [stderr]. by rewrite assign_loop_stderr.
  - intros Halg Hnl0. unfold execute_processes.
    apply (execute_fold_keeps (fun st => none_lost st.1 (current_time s))
             (current_time s) (current_time s)).
    + intros st c Hst. by apply execute_step_none_lost.
    + exact Hinv5.
    + apply update_waiting_times_none_lost.
      unfold assign_processes_to_idle_cpus, assign_pops.
      apply assign_loop_none_lost; [done | lia | by apply Hnl].
Qed.

Lemma after_ticks_tidy algorithm time_quantum ps n k :
  Z.of_nat (length ps) <= MAX_PROCESSES ->
  let s := after_ticks algorithm time_quantum ps n k in
  stderr (machine s) = [] /\
  (algorithm <> SRTF -> Forall (fun p => state p = WAITING) ps ->
   none_lost (machine s) (Z.of_nat k - 1)).
Proof.
  intros Hlen. induction k as [| k [IH1 IH2]]; cbv zeta.
  - change (after_ticks algorithm time_quantum ps n 0)
      with (initial_sim ps n FCFSQ0).
    unfold initial_sim. cbn [machine stderr]. split; [done |].
    intros _ Hw i Hi. cbn [processes] in *.
    destruct (valid_lookup _ _ Hi) as (p & Hp & ->).
    rewrite Forall_forall in Hw.
    rewrite (Hw p) by (by eapply list_elem_of_lookup_2). lia.
  - rewrite after_ticks_S.
    destruct (after_ticks_fields algorithm time_quantum ps n k) as (Ht & _).
    destruct (tick_tidy algorithm time_quantum
                (after_ticks algorithm time_quantum ps n k)) as [Herr Hnl].
    { rewrite Ht. apply after_ticks_inv. }
    { unfold process_count.
      pose proof (f_equal length
                    (field_after_ticks pid ltac:(done) ltac:(done)
                       ltac:(done) ltac:(done) ltac:(done) ltac:(done)
                       ltac:(done) algorithm time_quantum ps n k)) as Hl.
      rewrite !length_map in Hl. rewrite Hl. done. }
    rewrite Ht in Hnl. split; [by rewrite Herr |].
    intros Halg Hw.
    replace (Z.of_nat (S k) - 1) with (Z.of_nat k) by lia. auto.
Qed.

(** X14.  Within the capacity of the queue nothing goes wrong out loud:
    with at most [MAX_PROCESSES] processes, whatever the algorithm, the
    number of CPUs and the quantum, no [enqueue] or [enqueue_priority] of
    the run finds the queue full and the safety break is not taken, so
    nothing is ever written to [stderr]. *)
Theorem no_overflow_within_capacity
        (ps : list Process) (n : Z) (algorithm : Algorithm) (time_quantum : Z) :
  Z.of_nat (length ps) <= MAX_PROCESSES ->
  (forall k,
      stderr (machine (after_ticks algorithm time_quantum ps n k)) = []) /\
  stderr (machine (simulate ps n algorithm time_quantum FCFSQ0)) = [].
Proof.
  intros Hlen.
  assert (forall k,
      stderr (machine (after_ticks algorithm time_quantum ps n k)) = [])
    as H.
  { intros k. by destruct (after_ticks_tidy algorithm time_quantum ps n k
                             Hlen) as [? _]. }
  split; [exact H |].
  destruct (simulate_machine ps n algorithm time_quantum) as (k & _ & ->).
  cbn [with_bruh machine]. apply H.
Qed.

Lemma no_overflow_within_capacity_witness :
  (forall k,
      stderr (machine (after_ticks SJF 2 tie_processes 2 k)) = []) /\
  stderr (machine (simulate tie_processes 2 SJF 2 FCFSQ0)) = [].
Proof.
  apply (no_overflow_within_capacity tie_processes 2 SJF 2).
  vm_compute. discriminate.
Defined.

Lemma run_none_lost records n algorithm time_quantum :
  algorithm <> SRTF ->
  Z.of_nat (length records) <= MAX_PROCESSES ->
  none_lost (machine (run records n algorithm time_quantum))
            (current_time (run records n algorithm time_quantum) - 1).
Proof.
  intros Halg Hlen. unfold run.
  destruct (simulate_machine (map load_process records) n algorithm
                             time_quantum) as (k & _ & ->).
  cbn [with_bruh machine current_time].
  destruct (after_ticks_fields algorithm time_quantum
              (map load_process records) n k) as (-> & _).
  apply after_ticks_tidy; [by rewrite length_map | done |].
  apply Forall_forall. intros p (r & -> & _)%list_elem_of_fmap.
  by destruct r as [[[? ?] ?] ?].
Qed.

Lemma arrived_in_sight e m now w cc i p :
  none_lost m now ->
  life_inv e (processes m) (cpus m) now w cc ->
  processes m !! i = Some p ->
  0 <= arrival_time p <= now ->
  state p = READY /\ Z.of_nat i ∈ contents (FCFSQ m) \/
  state p = RUNNING /\ Z.of_nat i ∈ occupants (cpus m) \/
  state p = COMPLETED.
Proof.
  intros Hnl (_ & Hrun & _) Hp Ha.
  destruct (proc_lookup _ _ _ Hp) as [Hpi Hv].
  specialize (Hnl _ Hv). specialize (Hrun _ Hv). rewrite Hpi in Hnl, Hrun.
  destruct (state p); [done | | |]; auto.
Qed.

(** X15.  No process is lost from sight.  Under FCFS, Round Robin and SJF
    with at most [MAX_PROCESSES] processes, in the state a run ends in,
    every process whose arrival time has come (0 <= arrival_time <
    total_time) is READY and in the ready queue, or RUNNING and on a CPU,
    or COMPLETED. *)
Theorem arrived_processes_in_sight
        (records : list (Z * Z * Z * Z)) (n : Z) (algorithm : Algorithm)
        (time_quantum : Z) :
  algorithm <> SRTF ->
  Z.of_nat (length records) <= MAX_PROCESSES ->
  let r := run records n algorithm time_quantum in
  forall (i : nat) (p : Process),
    processes (machine r) !! i = Some p ->
    0 <= arrival_time p < current_time r ->
    state p = READY /\ Z.of_nat i ∈ contents (FCFSQ (machine r)) \/
    state p = RUNNING /\ Z.of_nat i ∈ occupants (cpus (machine r)) \/
    state p = COMPLETED.
Proof.
  intros Halg Hlen r i p Hp Ha.
  apply (arrived_in_sight (non_preemptive algorithm) (machine r)
           (current_time r - 1) (fun _ => current_time r)
           (completed_count r) i p).
  - by apply run_none_lost.
  - apply run_life.
  - exact Hp.
  - lia.
Qed.

Lemma arrived_processes_in_sight_witness :
  let r := run rr_example 1 RR 2 in
  let p := proc (processes (machine r)) 1 in
  state p = READY /\ 1 ∈ contents (FCFSQ (machine r)) \/
  state p = RUNNING /\ 1 ∈ occupants (cpus (machine r)) \/
  state p = COMPLETED.
Proof.
  apply (arrived_processes_in_sight rr_example 1 RR 2 ltac:(done)
           ltac:(vm_compute; discriminate) 1%nat).
  - vm_compute. reflexivity.
  - split.
    + apply Z.leb_le. vm_compute. reflexivity.
    + apply Z.ltb_lt. vm_compute. reflexivity.
Defined.

(** ** The timeline and the CPU counters *)

Lemma tick_timeline algorithm time_quantum s :
  timeline (tick algorithm time_quantum s)
  = <[Z.to_nat (current_time s) :=
        timeline_row (dispatched algorithm time_quantum s)]>
      (if current_time s >=? timeline_capacity s
       then expand_timeline (timeline s) (timeline_capacity s)
                            (timeline_capacity s * 2)
                            (cpu_count (dispatched algorithm time_quantum s))
       else timeline s).
Proof.
  unfold tick, dispatched, assign_processes_to_idle_cpus.
  destruct (assign_pops _ _) as [m4 pops]. cbn [fst].
  destruct (current_time s >=? timeline_capacity s);
    by destruct (execute_processes _ _ _) as [m6 cc].
Qed.

Lemma dispatched_cpus {B} (h : CPU -> B) algorithm time_quantum s :
  (forall c v, h (set_current_process c v) = h c) ->
  map h (cpus (dispatched algorithm time_quantum s))
  = map h (cpus (machine s)).
Proof.
  intros Hh. unfold dispatched, assign_processes_to_idle_cpus, assign_pops.
  by rewrite cpu_field_assign_loop, cpu_field_before_dispatch.
Qed.

Lemma dispatched_length algorithm time_quantum s :
  length (cpus (dispatched algorithm time_quantum s))
  = length (cpus (machine s)).
Proof.
  pose proof (dispatched_cpus id algorithm time_quantum s
                (fun _ _ => eq_refl)) as H.
  apply (f_equal length) in H. by rewrite !length_map in H.
Qed.

Lemma tick_length algorithm time_quantum s :
  length (cpus (machine (tick algorithm time_quantum s)))
  = length (cpus (machine s)).
Proof.
  destruct (tick_cpu_ticks algorithm time_quantum s) as [_ H].
  apply (f_equal length) in H. by rewrite !length_map in H.
Qed.

Lemma tick_shape algorithm time_quantum s :
  timeline_shape s -> timeline_shape (tick algorithm time_quantum s).
Proof.
  intros (Hlen & Ht & Hcap & Hrows). unfold timeline_shape.
  rewrite tick_timeline, tick_capacity, tick_length, length_insert.
  destruct (tick_fields algorithm time_quantum s) as [-> _].
  assert (length (timeline_row (dispatched algorithm time_quantum s))
          = length (cpus (machine s))) as Hrow.
  { unfold timeline_row. by rewrite length_map, dispatched_length. }
  destruct (current_time s >=? timeline_capacity s) eqn:Hfull.
  - unfold expand_timeline. rewrite length_app, length_replicate.
    split_and!; try lia.
    apply Forall_insert; [| done]. apply Forall_app. split; [done |].
    apply Forall_replicate. rewrite length_replicate.
    unfold cpu_count. by rewrite Nat2Z.id, dispatched_length.
  - split_and!; try lia. by apply Forall_insert.
Qed.

Lemma tick_column algorithm time_quantum s c :
  timeline_shape s ->
  timeline_of (tick algorithm time_quantum s) c
  = timeline_of s c
    ++ [default (-1)
          (timeline_row (dispatched algorithm time_quantum s) !! c)].
Proof.
  intros (Hlen & Ht & Hcap & Hrows). unfold timeline_of.
  rewrite tick_timeline.
  destruct (tick_fields algorithm time_quantum s) as [-> _].
  replace (Z.to_nat (current_time s + 1))
    with (S (Z.to_nat (current_time s))) by lia.
  set (tl := if current_time s >=? timeline_capacity s then _ else _).
  assert ((Z.to_nat (current_time s) < length tl)%nat /\
          take (Z.to_nat (current_time s)) tl
          = take (Z.to_nat (current_time s)) (timeline s)) as [Hlt Htake].
  { unfold tl. destruct (current_time s >=? timeline_capacity s) eqn:Hfull.
    - unfold expand_timeline. rewrite length_app, length_replicate.
      split; [lia |]. apply take_app_le. lia.
    - split; [lia | done]. }
  rewrite (take_S_r _ _ (timeline_row (dispatched algorithm time_quantum s)))
    by (by apply list_lookup_insert_eq).
  rewrite take_insert_ge by lia. rewrite Htake, map_app. done.
Qed.

Lemma counted_alter (f : CPU -> CPU) cs k x :
  cs !! k = Some x ->
  map counted (alter f k cs) = <[k := counted (f x)]> (map counted cs).
Proof.
  revert k. induction cs as [| y cs IH]; intros [| k] H; try done.
  - injection H as ->. done.
  - cbn. f_equal. by apply IH.
Qed.

Lemma insert_middle {A} (l1 : list A) y v l2 :
  <[length l1 := v]> (l1 ++ y :: l2) = l1 ++ v :: l2.
Proof. induction l1 as [| a l1 IH]; [done |]. simpl. f_equal. apply IH. Qed.

Lemma execute_step_counted t st (k : nat) x :
  cpus st.1 !! k = Some x ->
  map counted (cpus (execute_step t st (Z.of_nat k)).1)
  = <[k := tick_counted x]> (map counted (cpus st.1)) /\
  drop (S k) (cpus (execute_step t st (Z.of_nat k)).1)
  = drop (S k) (cpus st.1).
Proof.
  intros Hx.
  assert (cpu (cpus st.1) (Z.of_nat k) = x) as Hcx
      by (unfold cpu; by rewrite Nat2Z.id, Hx).
  unfold execute_step, upd_cpu, tick_counted. rewrite Hcx, Nat2Z.id.
  destruct (current_process x) as [i |];
    [destruct (_ <=? 0) |]; cbn [fst cpus].
  - split; [| rewrite !drop_alter_lt by lia; done].
    rewrite (map_alter_same counted) by done.
    by rewrite (counted_alter _ _ _ _ Hx).
  - split; [| rewrite drop_alter_lt by lia; done].
    by rewrite (counted_alter _ _ _ _ Hx).
  - split; [| rewrite drop_alter_lt by lia; done].
    by rewrite (counted_alter _ _ _ _ Hx).
Qed.

Lemma execute_fold_counted t (k : nat) :
  forall st, (k <= length (cpus st.1))%nat ->
  let st' := foldl (execute_step t) st (seqZ 0 (Z.of_nat k)) in
  map counted (cpus st'.1)
  = map tick_counted (take k (cpus st.1)) ++ map counted (drop k (cpus st.1)) /\
  drop k (cpus st'.1) = drop k (cpus st.1).
Proof.
  induction k as [| k IH]; intros st Hk; cbv zeta.
  { cbn. by rewrite !drop_0. }
  destruct (IH st ltac:(lia)) as [IH1 IH2]. cbv zeta in IH1, IH2.
  rewrite seqZ_S, foldl_app. cbn [foldl]. rewrite Z.add_0_l.
  set (stk := foldl (execute_step t) st (seqZ 0 (Z.of_nat k))) in *.
  destruct (lookup_lt_is_Some_2 (cpus st.1) k) as [x Hx]; [lia |].
  assert (cpus stk.1 !! k = Some x) as Hxk.
  { rewrite <- (Nat.add_0_r k), <- lookup_drop, IH2, lookup_drop.
    by rewrite Nat.add_0_r. }
  destruct (execute_step_counted t stk k x Hxk) as [H1 H2].
  rewrite H1, H2, IH1. split.
  - rewrite (drop_S _ _ _ Hx), (take_S_r _ _ _ Hx), map_app.
    cbn [map]. rewrite <- app_assoc. cbn [app].
    assert (length (map tick_counted (take k (cpus st.1))) = k) as Hl.
    { rewrite length_map, length_take. lia. }
    rewrite <- Hl at 1. apply insert_middle.
  - replace (S k) with (k + 1)%nat by lia.
    by rewrite <- !drop_drop, IH2.
Qed.

Lemma tick_counted_cpus algorithm time_quantum s :
  map counted (cpus (machine (tick algorithm time_quantum s)))
  = map tick_counted (cpus (dispatched algorithm time_quantum s)).
Proof.
  destruct (tick_machine algorithm time_quantum s) as [-> _].
  unfold execute_processes, cpu_count.
  fold (dispatched algorithm time_quantum s).
  set (m5 := update_waiting_times _ _).
  destruct (execute_fold_counted (current_time s) (length (cpus m5))
              (m5, completed_count s) ltac:(done)) as [H _].
  cbv zeta in H. cbn [fst] in H. rewrite H.
  rewrite take_ge, drop_ge by lia. by rewrite app_nil_r.
Qed.

Lemma field_Forall {A B} (g : A -> B) (P : B -> Prop) l l' :
  map g l' = map g l ->
  Forall (fun p => P (g p)) l -> Forall (fun p => P (g p)) l'.
Proof.
  intros Heq H. apply Forall_forall. intros p Hp.
  assert (g p ∈ map g l') as Hin by (apply list_elem_of_fmap; eauto).
  rewrite Heq in Hin. apply list_elem_of_fmap in Hin as (q & -> & Hq).
  rewrite Forall_forall in H. by apply H.
Qed.

Lemma column_snoc col v :
  busy_cells (col ++ [v]) = busy_cells col + (if decide (v = -1) then 0 else 1) /\
  idle_cells (col ++ [v]) = idle_cells col + (if decide (v = -1) then 1 else 0).
Proof.
  unfold busy_cells, idle_cells. rewrite !filter_app, !length_app.
  destruct (decide (v = -1)) as [-> | Hv].
  - rewrite (filter_cons_False (fun v => v <> -1)) by (intros ?; done).
    rewrite (filter_cons_True (fun v => v = -1)) by done.
    cbn [filter length]. rewrite !filter_nil. cbn [length]. lia.
  - rewrite (filter_cons_True (fun v => v <> -1)) by done.
    rewrite (filter_cons_False (fun v => v = -1)) by done.
    rewrite !filter_nil. cbn [length]. lia.
Qed.

(** One tick adds one cell to the column of every CPU, and one to the
    counter that goes with it. *)
Lemma tick_agrees algorithm time_quantum s :
  timeline_shape s ->
  sched_inv (machine s) (current_time s - 1) ->
  Forall (fun p => pid p <> -1) (processes (machine s)) ->
  (forall c x, cpus (machine s) !! c = Some x ->
               counted x = (busy_cells (timeline_of s c),
                            idle_cells (timeline_of s c))) ->
  forall c x, cpus (machine (tick algorithm time_quantum s)) !! c = Some x ->
              counted x
              = (busy_cells (timeline_of (tick algorithm time_quantum s) c),
                 idle_cells (timeline_of (tick algorithm time_quantum s) c)).
Proof.
  intros Hshape Hinv Hpid IH c x' Hx'.
  pose proof (tick_counted_cpus algorithm time_quantum s) as Hcnt.
  pose proof (dispatched_cpus counted algorithm time_quantum s
                (fun _ _ => eq_refl)) as Hsame.
  assert (sched_inv (dispatched algorithm time_quantum s) (current_time s))
    as Hinv4.
  { unfold dispatched, assign_processes_to_idle_cpus, assign_pops.
    apply assign_loop_inv; [by apply before_dispatch_inv | lia]. }
  assert (Forall (fun p => pid p <> -1)
                 (processes (dispatched algorithm time_quantum s))) as Hpid4.
  { apply (field_Forall pid (fun v => v <> -1) (processes (machine s)));
      [| done].
    unfold dispatched, assign_processes_to_idle_cpus, assign_pops.
    rewrite field_assign_loop by done. by rewrite field_before_dispatch. }
  apply (f_equal (fun l => l !! c)) in Hcnt, Hsame.
  rewrite !list_lookup_fmap in Hcnt, Hsame. rewrite Hx' in Hcnt.
  destruct (cpus (dispatched algorithm time_quantum s) !! c) as [x4 |] eqn:Hx4;
    [| done].
  destruct (cpus (machine s) !! c) as [x |] eqn:Hx; [| done].
  cbn [fmap option_fmap option_map] in Hcnt, Hsame.
  injection Hcnt as Hcnt. injection Hsame as Hb4 Hi4.
  specialize (IH c x Hx).
  rewrite (tick_column _ _ _ _ Hshape).
  destruct (column_snoc (timeline_of s c)
              (default (-1)
                 (timeline_row (dispatched algorithm time_quantum s) !! c)))
    as [-> ->].
  unfold timeline_row. rewrite list_lookup_fmap, Hx4.
  cbn [fmap option_fmap option_map].
  repeat match goal with
         | |- context [default (-1) (Some ?v)] =>
           change (default (-1) (Some v)) with v
         end.
  rewrite Hcnt. unfold tick_counted. unfold counted in IH.
  injection IH as Hb Hi.
  destruct (current_process x4) as [i |] eqn:Hcur.
  - destruct (inv_occupants _ _ Hinv4) as (_ & _ & Hocc).
    destruct (Hocc i (lookup_occupant _ _ _ _ Hx4 Hcur)) as (Hv & _ & _).
    destruct (valid_lookup _ _ Hv) as (p & Hp & ->).
    rewrite Forall_forall in Hpid4.
    rewrite !decide_False by (apply Hpid4; by eapply list_elem_of_lookup_2).
    f_equal; lia.
  - rewrite !decide_True by done. f_equal; lia.
Qed.

Lemma after_ticks_agrees algorithm time_quantum ps n k :
  Forall (fun p => pid p <> -1) ps ->
  let s := after_ticks algorithm time_quantum ps n k in
  timeline_shape s /\
  forall c x, cpus (machine s) !! c = Some x ->
              length (timeline_of s c) = k /\
              counted x = (busy_cells (timeline_of s c),
                           idle_cells (timeline_of s c)).
Proof.
  intros Hpid. induction k as [| k [IH1 IH2]]; cbv zeta.
  - change (after_ticks algorithm time_quantum ps n 0)
      with (initial_sim ps n FCFSQ0).
    split.
    + unfold timeline_shape, initial_sim, init_timeline.
      cbn [timeline timeline_capacity current_time machine cpus].
      rewrite length_replicate. split_and!; try done.
      apply Forall_replicate.
      by rewrite length_replicate, length_map, length_seqZ.
    + intros c x Hx. unfold initial_sim in Hx. cbn [machine cpus] in Hx.
      apply list_lookup_fmap_Some in Hx as (i & -> & _). done.
  - rewrite after_ticks_S.
    set (s := after_ticks algorithm time_quantum ps n k) in *.
    split; [by apply tick_shape |].
    intros c x' Hx'. split.
    + rewrite (tick_column _ _ _ _ IH1), length_app. cbn [length].
      assert (is_Some (cpus (machine s) !! c)) as [x Hx].
      { apply lookup_lt_is_Some. rewrite <- (tick_length algorithm
                                               time_quantum s).
        by eapply lookup_lt_Some. }
      destruct (IH2 c x Hx) as [-> _]. lia.
    + apply tick_agrees; try done.
      * unfold s.
        destruct (after_ticks_fields algorithm time_quantum ps n k)
          as (-> & _).
        apply after_ticks_inv.
      * apply (field_Forall pid (fun v => v <> -1) ps); [| done].
        unfold s. by apply field_after_ticks.
      * intros c0 x0 Hx0. by destruct (IH2 c0 x0 Hx0).
Qed.

(** X16.  The timeline and the CPU statistics tell the same story.  If no
    process has the pid -1 (the idle marker of the timeline), then in the
    state [simulate] returns the timeline has a row for every tick of the
    run, every row has one cell per CPU, and for every CPU the number of
    cells of its column that show a process is its [busy_time] and the
    number of cells that show it idle is its [idle_time]. *)
Theorem timeline_agrees_with_cpu_counters
        (ps : list Process) (n : Z) (algorithm : Algorithm) (time_quantum : Z) :
  Forall (fun p => pid p <> -1) ps ->
  let r := simulate ps n algorithm time_quantum FCFSQ0 in
  (Z.to_nat (current_time r) <= length (timeline r))%nat /\
  Forall (fun row => length row = length (cpus (machine r))) (timeline r) /\
  forall c x, cpus (machine r) !! c = Some x ->
              length (timeline_of r c) = Z.to_nat (current_time r) /\
              busy_time x = busy_cells (timeline_of r c) /\
              idle_time x = idle_cells (timeline_of r c).
Proof.
  intros Hpid. cbv zeta.
  destruct (simulate_machine ps n algorithm time_quantum) as (k & _ & ->).
  destruct (after_ticks_agrees algorithm time_quantum ps n k Hpid)
    as [(Hlen & Ht & Hcap & Hrows) Hcols].
  destruct (after_ticks_fields algorithm time_quantum ps n k) as (Hk & _).
  split_and!.
  - cbn [with_bruh current_time timeline]. lia.
  - exact Hrows.
  - intros c x Hx. cbn [with_bruh machine] in Hx.
    destruct (Hcols c x Hx) as [Hl Hc].
    unfold counted in Hc. injection Hc as Hb Hi.
    change (timeline_of
              (with_bruh (after_ticks algorithm time_quantum ps n k)
                         (Z.of_nat k)) c)
      with (timeline_of (after_ticks algorithm time_quantum ps n k) c).
    cbn [with_bruh current_time]. rewrite Hk, Nat2Z.id. done.
Qed.

Lemma timeline_agrees_with_cpu_counters_witness :
  let r := simulate (map load_process fcfs_example) 1 FCFS 2 FCFSQ0 in
  (Z.to_nat (current_time r) <= length (timeline r))%nat /\
  Forall (fun row => length row = length (cpus (machine r))) (timeline r) /\
  forall c x, cpus (machine r) !! c = Some x ->
              length (timeline_of r c) = Z.to_nat (current_time r) /\
              busy_time x = busy_cells (timeline_of r c) /\
              idle_time x = idle_cells (timeline_of r c).
Proof.
  apply (timeline_agrees_with_cpu_counters
           (map load_process fcfs_example) 1 FCFS 2).
  apply (bool_decide_unpack _). vm_compute. exact I.
Defined.

(** ** The command line *)

Lemma parse_loop_inv (atoi : string -> Z) (n : nat) :
  forall args cfg cfg',
  (length args <= n)%nat ->
  parse_loop atoi args cfg = Some cfg' ->
  1 <= cfg_cpu_count cfg -> 1 <= cfg_time_quantum cfg ->
  1 <= cfg_cpu_count cfg' /\ 1 <= cfg_time_quantum cfg' /\
  Nat.Even (length args) /\
  (cfg_input_file cfg' = cfg_input_file cfg \/
   exists f, cfg_input_file cfg' = Some f /\ f ∈ args).
Proof.
  induction n as [| n IH]; intros args cfg cfg' Hlen Hparse Hc Hq.
  { destruct args; [| cbn in Hlen; lia]. injection Hparse as <-.
    split_and!; try done. - by exists O. - by left. }
  destruct args as [| a [| v rest]]; [| done |].
  { injection Hparse as <-. split_and!; try done. - by exists O. - by left. }
  cbn [parse_loop] in Hparse. cbn [length] in Hlen.
  assert (forall cfg1,
             parse_loop atoi rest cfg1 = Some cfg' ->
             1 <= cfg_cpu_count cfg1 -> 1 <= cfg_time_quantum cfg1 ->
             (cfg_input_file cfg1 = cfg_input_file cfg \/
              cfg_input_file cfg1 = Some v) ->
             1 <= cfg_cpu_count cfg' /\ 1 <= cfg_time_quantum cfg' /\
             Nat.Even (length (a :: v :: rest)) /\
             (cfg_input_file cfg' = cfg_input_file cfg \/
              exists f, cfg_input_file cfg' = Some f /\ f ∈ a :: v :: rest))
    as Hnext.
  { intros cfg1 H1 Hc1 Hq1 Hf1.
    destruct (IH rest cfg1 cfg' ltac:(lia) H1 Hc1 Hq1)
      as (Hc' & Hq' & [k Hk] & Hf').
    split_and!; try done.
    - exists (S k). cbn [length]. lia.
    - destruct Hf' as [Hf' | (f & Hf' & Hin)].
      + destruct Hf1 as [Hf1 | Hf1]; [left; congruence |].
        right. exists v. split; [congruence |]. right. by left.
      + right. exists f. split; [done |]. right. by right. }
  destruct (String.eqb a "-a"); [apply (Hnext _ Hparse); by try left |].
  destruct (String.eqb a "-c").
  { apply (Hnext _ Hparse); cbn; try done; [| by left].
    destruct (atoi v <=? 0) eqn:E; lia. }
  destruct (String.eqb a "-q").
  { apply (Hnext _ Hparse); cbn; try done; [| by left].
    destruct (atoi v <=? 0) eqn:E; [done | lia]. }
  destruct (String.eqb a "-f"); [| done].
  apply (Hnext _ Hparse); cbn; try done. by right.
Qed.

(** X17.  What [main] can rely on after [parse_arguments].  Whatever
    [atoi] makes of the values, if [parse_arguments] returns (rather than
    exits) from the defaults of [main], then there is at least one CPU, the
    quantum is at least 1, an input file was named by one of the
    arguments, and the arguments after the program name came in pairs. *)
Theorem parse_arguments_guarantees
        (atoi : string -> Z) (argv : list string) (cfg : Config) :
  parse_arguments atoi argv main_config = inr cfg ->
  1 <= cfg_cpu_count cfg /\ 1 <= cfg_time_quantum cfg /\
  (exists f, cfg_input_file cfg = Some f /\ f ∈ tail argv) /\
  Nat.Even (length (tail argv)).
Proof.
  unfold parse_arguments. intros H.
  destruct (parse_loop atoi (tail argv) main_config) as [cfg' |] eqn:Hparse;
    [| done].
  destruct (cfg_input_file cfg') as [f |] eqn:Hf; [| done].
  injection H as <-.
  destruct (parse_loop_inv atoi (length (tail argv)) (tail argv)
              main_config cfg' ltac:(done) Hparse)
    as (Hc & Hq & Heven & Hfile).
  { done. }
  { unfold main_config, DEFAULT_TIME_QUANTUM. cbn. lia. }
  split_and!; try done.
  destruct Hfile as [Hfile | (g & Hg & Hin)].
  - rewrite Hf in Hfile. done.
  - exists g. done.
Qed.

Lemma parse_arguments_guarantees_witness :
  let argv := ["sched"; "-f"; "jobs.txt"; "-c"; "none"; "-a"; "RR"; "-q"; "0"] in
  let cfg := mkConfig RR 1 DEFAULT_TIME_QUANTUM (Some "jobs.txt") in
  1 <= cfg_cpu_count cfg /\ 1 <= cfg_time_quantum cfg /\
  (exists f, cfg_input_file cfg = Some f /\ f ∈ tail argv) /\
  Nat.Even (length (tail argv)).
Proof.
  apply (parse_arguments_guarantees (fun _ => 0)). vm_compute. reflexivity.
Defined.

(** ** The input file *)

Lemma counted_line_spec (scan : string -> list Z) line :
  counted_line scan line
  = negb (skipped_line line) && (items_read scan line >=? 3).
Proof.
  unfold counted_line, skipped_line, items_read.
  rewrite !negb_orb, !length_take.
  destruct (negb _ && negb _ && negb _); [| done]. cbn [andb].
  destruct (length (scan line)) as [| [| [| [| n]]]]; done.
Qed.

Lemma count_processes_filter (scan : string -> list Z) lines acc :
  foldl (fun process_count line =>
           if counted_line scan line then process_count + 1
           else process_count) acc lines
  = acc + Z.of_nat (length (List.filter (counted_line scan) lines)).
Proof.
  revert acc. induction lines as [| line lines IH]; intros acc;
    [cbn; lia |].
  cbn [foldl List.filter]. rewrite IH.
  destruct (counted_line scan line); cbn [length]; lia.
Qed.

(** The second pass, started with [i] slots written and as many lines to
    come as slots are left. *)
Lemma read_processes_spec (scan : string -> list Z) n lines :
  forall i a,
  0 <= i ->
  i + Z.of_nat (length (List.filter (counted_line scan) lines)) = n ->
  length a = Z.to_nat n ->
  read_processes scan n lines i a
  = (n, take (Z.to_nat i) a
        ++ map (fun line => Some (load_process (record_of scan line)))
               (List.filter (counted_line scan) lines)).
Proof.
  induction lines as [| line lines IH]; intros i a Hi Hn Hlen.
  { cbn in *. replace i with n by lia. rewrite app_nil_r.
    by rewrite take_ge by lia. }
  cbn [read_processes List.filter] in *.
  rewrite counted_line_spec in *.
  destruct (i <? n) eqn:Hlt.
  2:{ assert (List.filter (counted_line scan) lines = []) as Hnil.
      { destruct (negb _ && _); cbn [length] in Hn;
          [lia | apply length_zero_iff_nil; lia]. }
      destruct (negb _ && _); cbn [length] in Hn; [lia |].
      rewrite Hnil. cbn [map]. replace i with n by lia.
      rewrite app_nil_r. by rewrite take_ge by lia. }
  destruct (skipped_line line); cbn [negb andb] in *.
  { by apply IH. }
  destruct (items_read scan line >=? 3); cbn [length map] in *.
  - rewrite IH; [| lia | lia | by rewrite length_insert].
    f_equal. replace (Z.to_nat (i + 1)) with (S (Z.to_nat i)) by lia.
    rewrite (take_S_r _ _ (Some (load_process (record_of scan line))))
      by (apply list_lookup_insert_eq; lia).
    rewrite take_insert_ge by lia. by rewrite <- app_assoc.
  - by apply IH.
Qed.

(** X18.  The two passes of [load_processes] agree.  Whatever [sscanf]
    reads, the lines counted by the first pass are the lines the second
    pass stores: [*count] is the number of such lines, every slot of the
    allocated array is written, and the array holds the processes of
    these lines in the order of the file; with no such line the result is
    [NULL] and 0. *)
Theorem load_processes_stores_counted_lines
        (scan : string -> list Z) (lines : list string) :
  let valid := List.filter (counted_line scan) lines in
  load_processes scan lines
  = match valid with
    | [] => (0, None)
    | _ :: _ =>
      (Z.of_nat (length valid),
       Some (map (fun line => Some (load_process (record_of scan line)))
                 valid))
    end.
Proof.
  cbv zeta. unfold load_processes, count_processes.
  rewrite count_processes_filter, Z.add_0_l.
  destruct (List.filter (counted_line scan) lines) as [| l valid] eqn:Hv.
  { done. }
  replace (Z.of_nat (length (l :: valid)) =? 0) with false
    by (symmetry; apply Z.eqb_neq; cbn [length]; lia).
  rewrite (read_processes_spec scan (Z.of_nat (length (l :: valid)))).
  - by rewrite Hv.
  - lia.
  - rewrite Hv. lia.
  - by rewrite length_replicate.
Qed.

(** ** The printed timeline *)

Lemma seqZ_add m (a b : nat) :
  seqZ m (Z.of_nat a + Z.of_nat b)
  = seqZ m (Z.of_nat a) ++ seqZ (m + Z.of_nat a) (Z.of_nat b).
Proof.
  induction b as [| b IH].
  - rewrite Z.add_0_r. cbn. by rewrite app_nil_r.
  - replace (Z.of_nat a + Z.of_nat (S b)) with (Z.of_nat (S (a + b))) by lia.
    rewrite !seqZ_S, Nat2Z.inj_add, IH, <- app_assoc.
    do 3 f_equal. lia.
Qed.

Lemma segments_prefix total (k : nat) :
  0 <= total ->
  15 * (Z.of_nat k - 1) < total \/ k = O ->
  concat (map (fun se : Z * Z => seqZ se.1 (se.2 - se.1))
              (map (fun segment =>
                      let start_t := segment * time_units_per_line in
                      let end_t := start_t + time_units_per_line in
                      (start_t,
                       if end_t >? total then total else end_t))
                   (seqZ 0 (Z.of_nat k))))
  = seqZ 0 (Z.min (15 * Z.of_nat k) total).
Proof.
  intros Htotal. change time_units_per_line with 15.
  induction k as [| k IH]; intros Hk.
  { cbn. rewrite Z.min_l by lia. done. }
  rewrite seqZ_S, !map_app, concat_app, IH by lia.
  cbn [map concat fst snd]. rewrite app_nil_r, Z.add_0_l.
  rewrite (Z.min_l (15 * Z.of_nat k)) by lia.
  replace (15 * Z.of_nat k) with (Z.of_nat (15 * k)) by lia.
  destruct (Z.of_nat k * 15 + 15 >? total) eqn:Hend.
  - rewrite Z.min_r by lia.
    replace (Z.of_nat k * 15) with (Z.of_nat (15 * k)) by lia.
    replace (total - Z.of_nat (15 * k))
      with (Z.of_nat (Z.to_nat (total - Z.of_nat (15 * k)))) by lia.
    rewrite <- (Z.add_0_l (Z.of_nat (15 * k))) at 2.
    rewrite <- seqZ_add. f_equal. lia.
  - rewrite Z.min_l by lia.
    replace (Z.of_nat k * 15) with (Z.of_nat (15 * k)) by lia.
    replace (Z.of_nat (15 * k) + 15 - Z.of_nat (15 * k))
      with (Z.of_nat 15) by lia.
    rewrite <- (Z.add_0_l (Z.of_nat (15 * k))) at 2.
    rewrite <- seqZ_add. f_equal. lia.
Qed.

(** X19.  The printed timeline shows every tick once.  For a total time
    that is not negative, the segments [print_timeline] prints are not
    empty, hold at most 15 ticks each, stay below [total_time] (so every
    [timeline[t]] it reads is a row of the run), and put one after the
    other they are the ticks 0, 1, ..., total_time - 1 in order. *)
Theorem timeline_segments_cover (total_time : Z) :
  0 <= total_time ->
  Forall (fun se : Z * Z =>
            0 <= se.1 < se.2 /\ se.2 - se.1 <= 15 /\ se.2 <= total_time)
         (timeline_segments total_time) /\
  concat (map (fun se : Z * Z => seqZ se.1 (se.2 - se.1))
              (timeline_segments total_time))
  = seqZ 0 total_time.
Proof.
  intros Htotal. unfold timeline_segments. cbv zeta.
  change time_units_per_line with 15.
  set (segs := Z.quot (total_time + 15 - 1) 15).
  assert (0 <= segs /\ 15 * segs <= total_time + 14 < 15 * segs + 15)
    as [Hsegs Hbound].
  { unfold segs. rewrite Z.quot_div_nonneg by lia.
    pose proof (Z.div_mod (total_time + 15 - 1) 15 ltac:(lia)).
    pose proof (Z.mod_pos_bound (total_time + 15 - 1) 15 ltac:(lia)).
    split; [apply Z.div_pos; lia | lia]. }
  split.
  - apply Forall_forall. intros se Hse.
    apply list_elem_of_fmap in Hse as (j & -> & Hj).
    apply elem_of_seqZ in Hj. cbn [fst snd].
    destruct (j * 15 + 15 >? total_time) eqn:Hend; lia.
  - pose proof (segments_prefix total_time (Z.to_nat segs) Htotal) as H.
    rewrite Z2Nat.id in H by lia.
    etransitivity; [apply H; lia |]. f_equal. lia.
Qed.

Lemma timeline_segments_cover_witness :
  Forall (fun se : Z * Z => 0 <= se.1 < se.2 /\ se.2 - se.1 <= 15 /\ se.2 <= 31)
         (timeline_segments 31) /\
  concat (map (fun se : Z * Z => seqZ se.1 (se.2 - se.1))
              (timeline_segments 31))
  = seqZ 0 31.
Proof. apply (timeline_segments_cover 31). lia. Defined.

(** ** Processes that cannot arrive *)

Lemma life_never_arrives e now w p :
  life e now w p -> arrival_time p < 0 \/ now < arrival_time p ->
  state p = WAITING /\ start_time p = -1 /\ finish_time p = -1.
Proof.
  unfold life, started, unstarted. destruct (state p); intros H Ha.
  - by destruct H as (? & ? & ? & ?).
  - lia.
  - lia.
  - lia.
Qed.

Lemma after_ticks_never_arrives algorithm time_quantum records n (k i : nat)
      rec :
  records !! i = Some rec ->
  rec.1.1.2 < 0 \/ Z.of_nat k <= rec.1.1.2 ->
  let s := after_ticks algorithm time_quantum (map load_process records) n k in
  unfinished s /\
  exists p, processes (machine s) !! i = Some p /\
            state p = WAITING /\ start_time p = -1 /\ finish_time p = -1.
Proof.
  intros Hrec Ha. cbv zeta.
  pose proof (after_ticks_life algorithm time_quantum
                (map load_process records) n k) as Hlife.
  cbv zeta in Hlife.
  destruct Hlife as (H1 & _ & Hcc).
  { apply Forall_forall. intros p (r & -> & _)%list_elem_of_fmap.
    by destruct r as [[[? ?] ?] ?]. }
  pose proof (field_after_ticks arrival_time ltac:(done) ltac:(done)
                ltac:(done) ltac:(done) ltac:(done) ltac:(done) ltac:(done)
                algorithm time_quantum (map load_process records) n k)
    as Harr.
  set (s := after_ticks algorithm time_quantum (map load_process records) n k)
    in *.
  apply (f_equal (fun l => l !! i)) in Harr.
  rewrite map_map, !list_lookup_fmap, Hrec in Harr.
  destruct (processes (machine s) !! i) as [p |] eqn:Hp; [| done].
  cbn in Harr. injection Harr as Harr.
  assert (arrival_time p = rec.1.1.2) as Harr'
      by (rewrite Harr; by destruct rec as [[[? ?] ?] ?]).
  destruct (proc_lookup _ _ _ Hp) as [Hpi Hv].
  specialize (H1 _ Hv). rewrite Hpi in H1.
  destruct (life_never_arrives _ _ _ _ H1) as (Hs & Hst & Hf); [lia |].
  split; [| by exists p].
  unfold unfinished, process_count. rewrite Hcc.
  destruct (completed_total_le (processes (machine s))) as [Hle Hall].
  destruct (decide (completed_total (processes (machine s))
                    < Z.of_nat (length (processes (machine s)))))
    as [? | Hge]; [done |].
  rewrite Forall_forall in Hall.
  specialize (Hall ltac:(lia) p ltac:(by eapply list_elem_of_lookup_2)).
  congruence.
Qed.

(** X20.  A process that cannot arrive holds the run up.  The arrivals of
    tick [t] are the processes with [arrival_time == t], and the ticks of
    a run are 0 to 100 at most: a loaded process with a negative arrival
    time, or one of 101 or more, is never made READY.  A run with such a
    process never sees all processes completed: it goes on to the 101st
    pass of the loop and ends there with that process still WAITING and
    never started. *)
Theorem unreachable_arrival_never_admitted
        (records : list (Z * Z * Z * Z)) (n : Z) (algorithm : Algorithm)
        (time_quantum : Z) (i : nat) (rec : Z * Z * Z * Z) :
  records !! i = Some rec ->
  rec.1.1.2 < 0 \/ 101 <= rec.1.1.2 ->
  let r := run records n algorithm time_quantum in
  current_time r = 101 /\ unfinished r /\
  exists p, processes (machine r) !! i = Some p /\
            state p = WAITING /\ start_time p = -1 /\ finish_time p = -1.
Proof.
  intros Hrec Ha. cbv zeta. unfold run.
  destruct (simulate_loop_ticks algorithm time_quantum
              (map load_process records) n simulate_fuel 0)
    as (k & Hk & Heq & _ & Hafter); [lia | unfold simulate_fuel; lia |].
  unfold simulate.
  change (initial_sim (map load_process records) n FCFSQ0)
    with (with_bruh (after_ticks algorithm time_quantum
                       (map load_process records) n 0) (Z.of_nat 0)).
  rewrite Heq.
  destruct (after_ticks_never_arrives algorithm time_quantum records n k i
              rec Hrec) as [Hun Hp]; [lia |].
  assert (k = 101%nat) as Hk101
      by (destruct (decide (k < 101)%nat); [tauto | lia]).
  destruct (after_ticks_fields algorithm time_quantum
              (map load_process records) n k) as (Ht & _).
  unfold unfinished in *.
  cbn [with_bruh current_time completed_count machine].
  split_and!.
  - rewrite Ht. lia.
  - exact Hun.
  - exact Hp.
Qed.

Lemma unreachable_arrival_never_admitted_witness :
  let r := run [(1, 0, 2, 0); (2, -1, 1, 0)] 1 FCFS 2 in
  current_time r = 101 /\ unfinished r /\
  exists p, processes (machine r) !! 1%nat = Some p /\
            state p = WAITING /\ start_time p = -1 /\ finish_time p = -1.
Proof.
  apply (unreachable_arrival_never_admitted
           [(1, 0, 2, 0); (2, -1, 1, 0)] 1 FCFS 2 1 (2, -1, 1, 0)).
  - reflexivity.
  - left. reflexivity.
Defined.

(** ** The order of the queue *)

Lemma queue_order_ext algorithm ps ps' l :
  (forall j, j ∈ l ->
             arrival_time (proc ps' j) = arrival_time (proc ps j) /\
             remaining_time (proc ps' j) = remaining_time (proc ps j) /\
             priority (proc ps' j) = priority (proc ps j)) ->
  queue_order algorithm ps l -> queue_order algorithm ps' l.
Proof.
  intros Hsame. destruct algorithm; try done; cbn [queue_order].
  - unfold arrival_sorted. induction 1 as [| a l Hs IH Ha]; constructor.
    + apply IH. intros j Hj. apply Hsame. by right.
    + apply Forall_forall. intros b Hb. rewrite Forall_forall in Ha.
      destruct (Hsame a ltac:(by left)) as (-> & _).
      destruct (Hsame b ltac:(by right)) as (-> & _). by apply Ha.
  - unfold key_sorted. induction 1 as [| a l Hs IH Ha]; constructor.
    + apply IH. intros j Hj. apply Hsame. by right.
    + apply Forall_forall. intros b Hb. rewrite Forall_forall in Ha.
      specialize (Ha b Hb). unfold before_entry in *.
      destruct (Hsame a ltac:(by left)) as (_ & -> & ->).
      destruct (Hsame b ltac:(by right)) as (_ & -> & ->). done.
Qed.

Lemma queue_order_tail algorithm ps a l :
  queue_order algorithm ps (a :: l) -> queue_order algorithm ps l.
Proof.
  destruct algorithm; try done; cbn [queue_order];
    unfold arrival_sorted, key_sorted; intros H;
    by apply StronglySorted_inv in H as [? _].
Qed.

Lemma queue_order_nil algorithm ps : queue_order algorithm ps [].
Proof. destruct algorithm; try done; constructor. Qed.

(** A loop that enqueues the entries of [l] one by one, with a property
    [P] of the machine that every pass keeps. *)
Lemma enqueue_all_keeps (step : Machine -> Z -> Machine) now
      (P : Machine -> Prop) (R : list Process -> Z -> Prop) :
  (forall m idx, processes (step m idx) = processes m /\
                 cpus (step m idx) = cpus m) ->
  (forall m idx,
      sched_inv m now -> valid_index (processes m) idx ->
      state (proc (processes m) idx) = READY ->
      arrival_time (proc (processes m) idx) <= now ->
      idx ∉ contents (FCFSQ m) ++ occupants (cpus m) ->
      sched_inv (step m idx) now) ->
  (forall m idx j,
      queue_wf (FCFSQ m) -> j ∈ contents (FCFSQ (step m idx)) ->
      j = idx \/ j ∈ contents (FCFSQ m)) ->
  (forall m idx, sched_inv m now -> enqueueable m now idx ->
                 R (processes m) idx -> P m -> P (step m idx)) ->
  forall l m,
    sched_inv m now -> NoDup l ->
    Forall (enqueueable m now) l -> Forall (R (processes m)) l ->
    P m -> P (foldl step m l).
Proof.
  intros Hframe Hstep Hcont Hkeep.
  induction l as [| i l IH]; intros m Hinv Hnd Hall HR HP; [done |].
  apply NoDup_cons in Hnd as [Hi Hnd].
  apply Forall_cons in Hall as [Hen Hall].
  apply Forall_cons in HR as [HRi HR].
  pose proof Hen as (Hv & Hs & Ha & Hfresh).
  cbn [foldl]. destruct (Hframe m i) as [Hps Hcs].
  apply IH; try done.
  - by apply Hstep.
  - apply Forall_forall. intros k Hk. rewrite Forall_forall in Hall.
    destruct (Hall k Hk) as (Hkv & Hks & Hka & Hkf).
    unfold enqueueable. rewrite Hps, Hcs. split_and!; try done.
    intros Hin. apply elem_of_app in Hin as [Hin | Hin].
    + apply Hcont in Hin as [-> | Hin]; [done | | apply Hinv].
      apply Hkf. apply elem_of_app. by left.
    + apply Hkf. apply elem_of_app. by right.
  - by rewrite Hps.
  - by apply Hkeep.
Qed.

Lemma enqueue_FCFSQ_sorted m idx now :
  sched_inv m now -> arrival_time (proc (processes m) idx) = now ->
  arrival_sorted (processes m) (contents (FCFSQ m)) ->
  arrival_sorted (processes (enqueue_FCFSQ m idx))
                 (contents (FCFSQ (enqueue_FCFSQ m idx))).
Proof.
  intros Hinv Ha Hs. unfold enqueue_FCFSQ.
  destruct (decide (size (FCFSQ m) < MAX_PROCESSES)) as [Hroom | Hfull].
  - destruct (enqueue_room (FCFSQ m) idx (inv_wf _ _ Hinv) Hroom)
      as (_ & Hc & _).
    destruct (enqueue (FCFSQ m) idx) as [q e]. cbn [fst snd] in *.
    cbn [processes FCFSQ]. rewrite Hc. unfold arrival_sorted in *.
    pose proof (inv_ready _ _ Hinv) as Hr.
    clear Hc. induction Hs as [| a l Hs IH Hal].
    + repeat constructor.
    + apply Forall_cons in Hr as [(_ & _ & Haa) Hr].
      cbn [app]. constructor; [by apply IH |].
      apply Forall_app. split; [done |]. apply Forall_singleton. lia.
  - rewrite enqueue_full by lia. done.
Qed.

Lemma enqueue_priority_FCFSQ_sorted m idx now :
  sched_inv m now ->
  key_sorted (processes m) (contents (FCFSQ m)) ->
  key_sorted (processes (enqueue_priority_FCFSQ m idx))
             (contents (FCFSQ (enqueue_priority_FCFSQ m idx))).
Proof.
  intros Hinv Hs. unfold enqueue_priority_FCFSQ.
  destruct (decide (size (FCFSQ m) < MAX_PROCESSES)) as [Hroom | Hfull].
  - destruct (enqueue_priority_room (FCFSQ m) idx (processes m)
                (inv_wf _ _ Hinv) Hroom) as (_ & Hc & _).
    destruct (enqueue_priority (FCFSQ m) idx (processes m)) as [q e].
    cbn [fst snd processes FCFSQ] in *. rewrite Hc.
    by apply insert_ordered_key_sorted.
  - rewrite enqueue_priority_full by lia. done.
Qed.

(** [handle_arrivals] keeps the order of the queue. *)
Lemma handle_arrivals_queue_order m now algorithm :
  sched_inv m (now - 1) ->
  queue_order algorithm (processes m) (contents (FCFSQ m)) ->
  queue_order algorithm (processes (handle_arrivals m now algorithm).1)
              (contents (FCFSQ (handle_arrivals m now algorithm).1)).
Proof.
  intros Hinv Hq.
  destruct (arrival_scan_spec now (seqZ 0 (process_count m)) (processes m) [])
    as (new & Hnew & _ & Hin & _ & Hproc).
  { apply NoDup_seqZ. }
  { apply Forall_forall. intros i Hi. apply elem_of_seqZ in Hi.
    unfold valid_index, process_count in *. lia. }
  unfold handle_arrivals in *.
  destruct (foldl (arrival_scan_step now) _ _) as [ps' arr] eqn:Hfold.
  destruct (arrival_scan_inv m now ps' arr Hinv Hfold) as (Hinv' & Hnd & Hen).
  cbn [fst snd] in *. change ([] ++ new) with new in Hnew. subst new.
  set (m0 := mkMachine ps' (cpus m) (FCFSQ m) (stderr m)) in *.
  assert (forall j, 0 <= j ->
             arrival_time (proc ps' j) = arrival_time (proc (processes m) j) /\
             remaining_time (proc ps' j)
             = remaining_time (proc (processes m) j) /\
             priority (proc ps' j) = priority (proc (processes m) j))
    as Hsame.
  { intros j Hj. by destruct (Hproc j Hj) as [[_ ->] | [_ ->]]. }
  assert (queue_order algorithm (processes m0) (contents (FCFSQ m0))) as Hq0.
  { apply (queue_order_ext algorithm (processes m)); [| done].
    intros j Hj. apply Hsame.
    pose proof (inv_ready _ _ Hinv) as Hr. rewrite Forall_forall in Hr.
    by destruct (Hr j Hj) as [[? _] _]. }
  assert (Forall (fun i => arrival_time (proc (processes m0) i) = now) arr)
    as Hnow.
  { apply Forall_forall. intros i Hi. destruct (Hin i Hi) as [Hl Ha].
    apply elem_of_seqZ in Hl. change (processes m0) with ps'.
    destruct (Hsame i ltac:(lia)) as (-> & _). done. }
  destruct algorithm; cbn [arrival_enqueue_step queue_order] in *.
  - change (foldl (arrival_enqueue_step FCFS)) with (foldl enqueue_FCFSQ).
    apply (enqueue_all_keeps enqueue_FCFSQ now
             (fun m => arrival_sorted (processes m) (contents (FCFSQ m)))
             (fun ps i => arrival_time (proc ps i) = now)
             enqueue_FCFSQ_frame
             (fun m idx => sched_inv_enqueue m idx now)
             enqueue_FCFSQ_contents); try done.
    intros m1 idx Hinv1 _ Ha Hs. by apply (enqueue_FCFSQ_sorted m1 idx now).
  - done.
  - done.
  - change (foldl (arrival_enqueue_step SJF))
      with (foldl enqueue_priority_FCFSQ).
    apply (enqueue_all_keeps enqueue_priority_FCFSQ now
             (fun m => key_sorted (processes m) (contents (FCFSQ m)))
             (fun _ _ => True)
             enqueue_priority_FCFSQ_frame
             (fun m idx => sched_inv_enqueue_priority m idx now)
             enqueue_priority_FCFSQ_contents); try done.
    + intros m1 idx Hinv1 _ _ Hs.
      by apply (enqueue_priority_FCFSQ_sorted m1 idx now).
    + by apply Forall_forall.
Qed.

Lemma assign_loop_queue_order algorithm now fuel :
  forall m c pops,
  sched_inv m now -> 0 <= c ->
  queue_order algorithm (processes m) (contents (FCFSQ m)) ->
  queue_order algorithm (processes (assign_loop fuel m now c pops).1)
              (contents (FCFSQ (assign_loop fuel m now c pops).1)).
Proof.
  induction fuel as [| fuel IH]; intros m c pops Hinv Hc Hq; [done |].
  cbn [assign_loop].
  destruct (c <? cpu_count m) eqn:Hlt; [| done].
  destruct (current_process (cpu (cpus m) c)) as [i |] eqn:Hocc.
  { apply IH; [done | lia | done]. }
  destruct (decide (0 < size (FCFSQ m))) as [Hpos | Hempty].
  2:{ rewrite dequeue_empty by lia.
      replace (-1 =? -1) with true by done. done. }
  destruct (dequeue_front (FCFSQ m) (inv_wf _ _ Hinv) Hpos) as [Hwf' Hcont].
  destruct (dequeue (FCFSQ m)) as [idx q']. cbn [fst snd] in *.
  pose proof (inv_ready _ _ Hinv) as Hr. rewrite Hcont in Hr.
  apply Forall_cons in Hr as [(Hv & Hs & Ha) Hr].
  replace (idx =? -1) with false by (unfold valid_index in Hv; lia).
  assert (discarded (proc (processes m) idx) now = false) as Hnd.
  { unfold discarded. rewrite Hs. simpl. lia. }
  rewrite Hnd.
  apply IH; [apply sched_inv_dispatch; try done; lia | lia |].
  cbn [processes FCFSQ]. rewrite Hcont in Hq.
  apply queue_order_tail in Hq.
  apply (queue_order_ext algorithm (processes m)); [| done].
  intros j Hj. rewrite Forall_forall in Hr.
  destruct (Hr j Hj) as (Hjv & _).
  pose proof (inv_nodup _ _ Hinv) as Hnodup. rewrite Hcont in Hnodup.
  cbn [app] in Hnodup. apply NoDup_cons in Hnodup as [Hfresh _].
  rewrite proc_upd_ne; [done | apply Hv | apply Hjv |].
  intros ->. apply Hfresh. apply elem_of_app. by left.
Qed.

Lemma execute_step_queue_order algorithm t st c now :
  sched_inv st.1 now ->
  queue_order algorithm (processes st.1) (contents (FCFSQ st.1)) ->
  queue_order algorithm (processes (execute_step t st c).1)
              (contents (FCFSQ (execute_step t st c).1)).
Proof.
  destruct st as [m cc]. cbn [fst]. intros Hinv Hq.
  assert (forall ps',
             (forall j, j ∈ contents (FCFSQ m) ->
                        proc ps' j = proc (processes m) j) ->
             queue_order algorithm ps' (contents (FCFSQ m))) as Hext.
  { intros ps' Hsame. apply (queue_order_ext algorithm (processes m));
      [| done]. intros j Hj. by rewrite Hsame. }
  unfold execute_step. cbn [fst snd].
  destruct (current_process (cpu (cpus m) c)) as [pi |] eqn:Hocc; [| done].
  pose proof (inv_running _ _ Hinv) as Hr. rewrite Forall_forall in Hr.
  destruct (Hr pi (occupant_elem _ _ _ Hocc)) as (Hv & _ & _).
  assert (forall j, j ∈ contents (FCFSQ m) -> 0 <= j /\ j <> pi) as Hne.
  { intros j Hj. pose proof (inv_ready _ _ Hinv) as Hrd.
    rewrite Forall_forall in Hrd. destruct (Hrd j Hj) as [[? _] _].
    split; [done |]. intros ->.
    pose proof (inv_nodup _ _ Hinv) as Hnd.
    apply NoDup_app in Hnd as (_ & Hnd & _).
    apply (Hnd pi Hj). by eapply occupant_elem. }
  destruct (_ <=? 0); cbn [fst processes FCFSQ]; apply Hext; intros j Hj;
    destruct (Hne j Hj) as [Hj0 Hjpi].
  - rewrite proc_upd_ne; [| apply Hv | done | congruence].
    rewrite proc_upd_ne; [done | apply Hv | done | congruence].
  - rewrite proc_upd_ne; [done | apply Hv | done | congruence].
Qed.

Lemma before_dispatch_queue_order algorithm time_quantum m now :
  algorithm <> RR ->
  sched_inv m (now - 1) ->
  queue_order algorithm (processes m) (contents (FCFSQ m)) ->
  queue_order algorithm
              (processes (before_dispatch algorithm time_quantum m now))
              (contents (FCFSQ (before_dispatch algorithm time_quantum m
                                                now))).
Proof.
  intros Halg Hinv Hq. unfold before_dispatch.
  pose proof (handle_arrivals_queue_order m now algorithm Hinv Hq) as Harr.
  destruct (handle_arrivals m now algorithm) as [m1 arr]. cbn [fst] in Harr.
  by destruct algorithm.
Qed.

Lemma tick_queue_order algorithm time_quantum s :
  algorithm <> RR ->
  sched_inv (machine s) (current_time s - 1) ->
  queue_order algorithm (processes (machine s))
              (contents (FCFSQ (machine s))) ->
  queue_order algorithm
              (processes (machine (tick algorithm time_quantum s)))
              (contents (FCFSQ (machine (tick algorithm time_quantum s)))).
Proof.
  intros Halg Hinv Hq.
  destruct (tick_machine algorithm time_quantum s) as [-> _].
  pose proof (before_dispatch_inv algorithm time_quantum (machine s)
                (current_time s) Hinv) as Hinv3.
  pose proof (until_execute_inv algorithm time_quantum (machine s)
                (current_time s) Hinv) as Hinv5.
  unfold execute_processes.
  apply (execute_fold_keeps
           (fun st => queue_order algorithm (processes st.1)
                                  (contents (FCFSQ st.1)))
           (current_time s) (current_time s)).
  { intros st c Hst HP.
    by apply (execute_step_queue_order algorithm _ st c (current_time s)). }
  { exact Hinv5. }
  cbn [fst]. unfold update_waiting_times. cbn [processes FCFSQ].
  apply (queue_order_ext algorithm
           (processes (assign_processes_to_idle_cpus
                         (before_dispatch algorithm time_quantum (machine s)
                            (current_time s)) (current_time s)))).
  { intros j Hj.
    pose proof (assign_loop_inv (current_time s)
                  (assign_fuel (before_dispatch algorithm time_quantum
                                  (machine s) (current_time s)))
                  _ 0 [] Hinv3 ltac:(lia)) as [Hinv4 _].
    pose proof (inv_ready _ _ Hinv4) as Hr. rewrite Forall_forall in Hr.
    destruct (Hr j Hj) as (Hv & _).
    rewrite proc_map by exact Hv.
    by destruct (update_waiting_fields (current_time s)
                   (proc (processes (assign_processes_to_idle_cpus
                      (before_dispatch algorithm time_quantum (machine s)
                         (current_time s)) (current_time s))) j))
      as (_ & -> & -> & _); unfold update_waiting; destruct (_ && _). }
  unfold assign_processes_to_idle_cpus, assign_pops.
  apply assign_loop_queue_order; [done | lia |].
  by apply before_dispatch_queue_order.
Qed.

Lemma after_ticks_queue_order algorithm time_quantum ps n k :
  algorithm <> RR ->
  let m := machine (after_ticks algorithm time_quantum ps n k) in
  queue_order algorithm (processes m) (contents (FCFSQ m)).
Proof.
  intros Halg. induction k as [| k IH]; cbv zeta.
  - change (after_ticks algorithm time_quantum ps n 0)
      with (initial_sim ps n FCFSQ0).
    unfold initial_sim. cbn [machine FCFSQ processes].
    rewrite contents_empty by (vm_compute; discriminate).
    apply queue_order_nil.
  - rewrite after_ticks_S. apply tick_queue_order; [done | | exact IH].
    destruct (after_ticks_fields algorithm time_quantum ps n k) as (-> & _).
    apply after_ticks_inv.
Qed.

(** X21.  The ready queue is always in order.  For every input, after any
    number of ticks and in the state [simulate] returns: under FCFS the
    entries of the queue are in order of arrival time, and under SJF they
    are ordered by the comparison of [enqueue_priority] (remaining time,
    then the higher priority value), so that [dequeue] hands dispatch the
    earliest arrival and a shortest job. *)
Theorem ready_queue_always_ordered
        (ps : list Process) (n : Z) (time_quantum : Z) :
  (forall k,
      let m := machine (after_ticks FCFS time_quantum ps n k) in
      arrival_sorted (processes m) (contents (FCFSQ m))) /\
  (forall k,
      let m := machine (after_ticks SJF time_quantum ps n k) in
      key_sorted (processes m) (contents (FCFSQ m))) /\
  (let m := machine (simulate ps n FCFS time_quantum FCFSQ0) in
   arrival_sorted (processes m) (contents (FCFSQ m))) /\
  (let m := machine (simulate ps n SJF time_quantum FCFSQ0) in
   key_sorted (processes m) (contents (FCFSQ m))).
Proof.
  pose proof (fun algorithm H k =>
                after_ticks_queue_order algorithm time_quantum ps n k H) as H.
  split_and!.
  - apply (H FCFS). done.
  - apply (H SJF). done.
  - destruct (simulate_machine ps n FCFS time_quantum) as (k & _ & ->).
    apply (H FCFS). done.
  - destruct (simulate_machine ps n SJF time_quantum) as (k & _ & ->).
    apply (H SJF). done.
Qed.

(** ** The order of service *)

Lemma service_order_static algorithm p p' q q' :
  service_key p' = service_key p ->
  service_key q' = service_key q ->
  service_order algorithm p q -> service_order algorithm p' q'.
Proof.
  unfold service_key. intros [= Hpa Hpb Hpp] [= Hqa Hqb Hqp].
  destruct algorithm; cbn [service_order]; try done; lia.
Qed.

Lemma map_eq_proc {B} (g : Process -> B) ps ps' :
  map g ps' = map g ps ->
  (forall j, valid_index ps' j <-> valid_index ps j) /\
  (forall j, valid_index ps j -> g (proc ps' j) = g (proc ps j)).
Proof.
  intros Hmap.
  assert (length ps' = length ps) as Hlen.
  { apply (f_equal length) in Hmap. by rewrite !length_map in Hmap. }
  split.
  - intros j. unfold valid_index. by rewrite Hlen.
  - intros j [Hj0 Hj1].
    apply (f_equal (fun l => l !! Z.to_nat j)) in Hmap.
    rewrite !list_lookup_fmap in Hmap. unfold proc.
    destruct (ps !! Z.to_nat j) as [p |] eqn:E.
    2:{ apply lookup_ge_None in E. lia. }
    destruct (ps' !! Z.to_nat j) as [p' |] eqn:E'.
    2:{ apply lookup_ge_None in E'. lia. }
    cbn in Hmap. by injection Hmap.
Qed.

(** The order of service is read from [service_fields] only. *)
Lemma served_in_order_ext algorithm ps ps' :
  map service_fields ps' = map service_fields ps ->
  served_in_order algorithm ps -> served_in_order algorithm ps'.
Proof.
  intros Hmap H. destruct (map_eq_proc _ _ _ Hmap) as [Hv Hsame].
  intros i j Hi Hj. apply Hv in Hi, Hj.
  pose proof (Hsame i Hi) as Hfi. pose proof (Hsame j Hj) as Hfj.
  pose proof (f_equal fst Hfi) as Hsi. pose proof (f_equal snd Hfi) as Hki.
  pose proof (f_equal fst Hfj) as Hsj. pose proof (f_equal snd Hfj) as Hkj.
  cbn [fst snd service_fields] in Hsi, Hki, Hsj, Hkj.
  assert (arrival_time (proc ps' j) = arrival_time (proc ps j)) as Haj
      by (unfold service_key in Hkj; congruence).
  rewrite Hsi, Hsj, Haj. intros Hs1 Hs2 Hs3.
  apply (service_order_static algorithm (proc ps i) _ (proc ps j) _);
    [done | done |]. by apply H.
Qed.

Lemma life_ready_unstarted now w p :
  state p = READY -> life true now w p -> unstarted p.
Proof.
  unfold life. intros ->. intros (_ & [H | (H & _)]); [done | discriminate].
Qed.

(** What runs or is completed has started, by now. *)
Lemma life_started e now w p :
  state p = RUNNING \/ state p = COMPLETED ->
  life e now w p -> 0 <= start_time p <= now.
Proof.
  unfold life, started.
  intros [-> | ->]; [intros (_ & (? & ? & _) & _) | intros ((? & ? & _) & _)];
    lia.
Qed.

Lemma dispatch_first p now :
  start_time p = -1 ->
  start_time (dispatch p now) = now /\
  arrival_time (dispatch p now) = arrival_time p /\
  service_key (dispatch p now) = service_key p.
Proof.
  intros Hst. unfold service_key, dispatch. cbn [start_time set_state].
  rewrite Hst. done.
Qed.

(** One dispatch.  The entry at the front of the queue is started at tick
    [now]; every other process that has arrived and not started is behind
    it in the queue. *)
Lemma dispatch_served algorithm m idx rest now cc :
  algorithm = FCFS \/ algorithm = SJF ->
  sched_inv m now ->
  life_inv true (processes m) (cpus m) now (fun _ => now) cc ->
  none_lost m now ->
  contents (FCFSQ m) = idx :: rest ->
  queue_order algorithm (processes m) (idx :: rest) ->
  served_in_order algorithm (processes m) ->
  served_in_order algorithm
                  (upd_proc (processes m) idx (fun p => dispatch p now)).
Proof.
  intros Halg Hinv (Hlife & _ & _) Hnl Hcont Hq Hserved.
  pose proof (inv_ready _ _ Hinv) as Hr. rewrite Hcont in Hr.
  apply Forall_cons in Hr as [(Hv & Hs & Ha) Hr].
  pose proof (life_ready_unstarted _ _ _ Hs (Hlife idx Hv))
    as (Hst & _ & _ & Hrem).
  set (ps := processes m) in *.
  destruct (dispatch_first (proc ps idx) now Hst) as (Hd1 & Hd2 & Hd).
  intros i j Hi Hj. rewrite valid_index_upd in Hi, Hj.
  destruct (decide (i = idx)) as [-> | Hni];
    destruct (decide (j = idx)) as [-> | Hnj].
  - rewrite proc_upd_eq by done. lia.
  - rewrite proc_upd_eq by done.
    rewrite proc_upd_ne; [| apply Hv | apply Hj | congruence].
    rewrite Hd1. intros _ Hor Harr.
    apply (service_order_static algorithm (proc ps idx) _ (proc ps j) _);
      [done | done |].
    specialize (Hnl j Hj). pose proof (Hlife j Hj) as Hlj.
    fold ps in Hnl.
    destruct (state (proc ps j)) eqn:Hsj;
      [lia
      | pose proof (life_started _ _ _ _ ltac:(by left) Hlj); lia
      | pose proof (life_started _ _ _ _ ltac:(by right) Hlj); lia |].
    + rewrite Hcont in Hnl. apply elem_of_cons in Hnl as [-> | Hin];
        [done |].
      pose proof (life_ready_unstarted _ _ _ Hsj Hlj) as (_ & _ & _ & Hrj).
      destruct Halg as [-> | ->]; cbn [queue_order service_order] in *.
      * unfold arrival_sorted in Hq. apply StronglySorted_inv in Hq as [_ Hq].
        rewrite Forall_forall in Hq. by apply Hq.
      * unfold key_sorted in Hq. apply StronglySorted_inv in Hq as [_ Hq].
        rewrite Forall_forall in Hq. specialize (Hq j Hin).
        apply before_entry_false in Hq. fold ps in Hq. lia.
  - rewrite proc_upd_eq by done.
    rewrite proc_upd_ne; [| apply Hv | apply Hi | congruence].
    intros Hsi _ Harr.
    apply (service_order_static algorithm (proc ps i) _ (proc ps idx) _);
      [done | done |].
    apply Hserved; try done; [by left |]. by rewrite <- Hd2.
  - rewrite !proc_upd_ne; [by apply Hserved | apply Hv | apply Hj | congruence
                           | apply Hv | apply Hi | congruence].
Qed.

Lemma assign_loop_served algorithm now fuel :
  forall m c pops cc,
  algorithm = FCFS \/ algorithm = SJF ->
  sched_inv m now -> 0 <= c ->
  life_inv true (processes m) (cpus m) now (fun _ => now) cc ->
  none_lost m now ->
  queue_order algorithm (processes m) (contents (FCFSQ m)) ->
  served_in_order algorithm (processes m) ->
  served_in_order algorithm (processes (assign_loop fuel m now c pops).1).
Proof.
  induction fuel as [| fuel IH];
    intros m c pops cc Halg Hinv Hc Hlife Hnl Hq Hserved; [done |].
  pose proof (assign_loop_life true now 1 m c pops cc Hinv Hc Hlife) as Hl1.
  pose proof (assign_loop_none_lost now 1 m c pops Hinv Hc Hnl) as Hn1.
  pose proof (assign_loop_queue_order algorithm now 1 m c pops Hinv Hc Hq)
    as Hq1.
  pose proof (assign_loop_inv now 1 m c pops Hinv Hc) as [Hi1 _].
  cbn [assign_loop] in *.
  destruct (c <? cpu_count m) eqn:Hlt; [| done].
  destruct (current_process (cpu (cpus m) c)) as [i |] eqn:Hocc.
  { apply (IH _ _ _ cc); try done. lia. }
  destruct (decide (0 < size (FCFSQ m))) as [Hpos | Hempty].
  2:{ rewrite dequeue_empty by lia.
      replace (-1 =? -1) with true by done. done. }
  destruct (dequeue_front (FCFSQ m) (inv_wf _ _ Hinv) Hpos) as [Hwf' Hcont].
  destruct (dequeue (FCFSQ m)) as [idx q']. cbn [fst snd] in *.
  pose proof (inv_ready _ _ Hinv) as Hr. rewrite Hcont in Hr.
  apply Forall_cons in Hr as [(Hv & Hs & Ha) Hr].
  replace (idx =? -1) with false in *
    by (unfold valid_index in Hv; lia).
  assert (discarded (proc (processes m) idx) now = false) as Hnd.
  { unfold discarded. rewrite Hs. simpl. lia. }
  rewrite Hnd in *. cbn [fst] in *.
  apply (IH _ _ _ cc); try done; [lia |].
  cbn [processes].
  apply (dispatch_served algorithm m idx (contents q') now cc); try done.
  by rewrite <- Hcont.
Qed.

Lemma tick_served algorithm time_quantum s :
  algorithm = FCFS \/ algorithm = SJF ->
  0 <= current_time s ->
  process_count (machine s) <= MAX_PROCESSES ->
  sched_inv (machine s) (current_time s - 1) ->
  life_inv true (processes (machine s)) (cpus (machine s))
           (current_time s - 1) (fun _ => current_time s)
           (completed_count s) ->
  none_lost (machine s) (current_time s - 1) ->
  queue_order algorithm (processes (machine s))
              (contents (FCFSQ (machine s))) ->
  served_in_order algorithm (processes (machine s)) ->
  served_in_order algorithm
                  (processes (machine (tick algorithm time_quantum s))).
Proof.
  intros Halg Hnow Hlen Hinv Hlife Hnl Hq Hserved.
  assert (algorithm <> RR /\ algorithm <> SRTF /\
          non_preemptive algorithm = true) as (HnRR & HnSRTF & Hnp)
      by (by destruct Halg as [-> | ->]).
  destruct (tick_machine algorithm time_quantum s) as [-> _].
  set (m3 := before_dispatch algorithm time_quantum (machine s)
                             (current_time s)).
  apply (served_in_order_ext algorithm
           (processes (assign_processes_to_idle_cpus m3 (current_time s)))).
  { unfold execute_processes.
    rewrite (field_execute_fold service_fields) by done. cbn [fst].
    by rewrite (field_update_waiting_times service_fields). }
  unfold assign_processes_to_idle_cpus, assign_pops.
  apply (assign_loop_served algorithm (current_time s) _ m3 0 []
           (completed_count s)); try done.
  - by apply before_dispatch_inv.
  - rewrite <- Hnp. apply before_dispatch_life; try done. by rewrite Hnp.
  - by apply before_dispatch_tidy.
  - by apply before_dispatch_queue_order.
  - apply (served_in_order_ext algorithm (processes (machine s)));
      [| done].
    by apply (field_before_dispatch service_fields).
Qed.

Lemma after_ticks_served algorithm time_quantum ps n k :
  algorithm = FCFS \/ algorithm = SJF ->
  Z.of_nat (length ps) <= MAX_PROCESSES ->
  Forall fresh ps ->
  served_in_order algorithm
    (processes (machine (after_ticks algorithm time_quantum ps n k))).
Proof.
  intros Halg Hlen Hfresh.
  assert (algorithm <> RR /\ algorithm <> SRTF /\
          non_preemptive algorithm = true) as (HnRR & HnSRTF & Hnp)
      by (by destruct Halg as [-> | ->]).
  induction k as [| k IH].
  - change (after_ticks algorithm time_quantum ps n 0)
      with (initial_sim ps n FCFSQ0).
    unfold initial_sim. cbn [machine processes].
    intros i j Hi Hj Hsi. exfalso. apply Hsi.
    destruct Hi as [Hi0 Hi1]. unfold proc.
    destruct (ps !! Z.to_nat i) as [p |] eqn:E.
    2:{ apply lookup_ge_None in E. lia. }
    rewrite Forall_forall in Hfresh. change (start_time p = -1).
    by destruct (Hfresh p (list_elem_of_lookup_2 _ _ _ E)) as (_ & -> & _).
  - rewrite after_ticks_S.
    destruct (after_ticks_fields algorithm time_quantum ps n k)
      as (Ht & _).
    apply tick_served; try done; rewrite ?Ht.
    + lia.
    + unfold process_count.
      pose proof (field_after_ticks (fun _ => tt) ltac:(done) ltac:(done)
                    ltac:(done) ltac:(done) ltac:(done) ltac:(done)
                    ltac:(done) algorithm time_quantum ps n k) as Hmap.
      apply (f_equal length) in Hmap. rewrite !length_map in Hmap.
      by rewrite Hmap.
    + apply after_ticks_inv.
    + rewrite <- Hnp. by apply after_ticks_life.
    + apply after_ticks_tidy; try done.
      apply Forall_forall. intros p Hp. rewrite Forall_forall in Hfresh.
      by destruct (Hfresh p Hp).
    + by apply after_ticks_queue_order.
Qed.

Lemma run_served records n algorithm time_quantum :
  algorithm = FCFS \/ algorithm = SJF ->
  Z.of_nat (length records) <= MAX_PROCESSES ->
  served_in_order algorithm
                  (processes (machine (run records n algorithm time_quantum))).
Proof.
  intros Halg Hlen. unfold run.
  destruct (simulate_machine (map load_process records) n algorithm
                             time_quantum) as (k & _ & ->).
  cbn [with_bruh machine].
  apply after_ticks_served; [done | by rewrite length_map |].
  apply Forall_forall. intros p (r & -> & _)%list_elem_of_fmap.
  by destruct r as [[[? ?] ?] ?].
Qed.

Lemma served_lookup algorithm ps (i j : nat) p q :
  served_in_order algorithm ps ->
  ps !! i = Some p -> ps !! j = Some q ->
  start_time p <> -1 ->
  start_time q = -1 \/ start_time p < start_time q ->
  0 <= arrival_time q <= start_time p ->
  service_order algorithm p q.
Proof.
  intros H Hp Hq.
  destruct (proc_lookup _ _ _ Hp) as [<- Hvi].
  destruct (proc_lookup _ _ _ Hq) as [<- Hvj].
  by apply H.
Qed.

Lemma life_arrival_start now w p :
  life true now w p -> start_time p <> -1 ->
  0 <= arrival_time p <= start_time p.
Proof.
  unfold life, started, unstarted. destruct (state p).
  - intros (-> & _). done.
  - intros (_ & (? & _) & _). done.
  - intros ((? & _) & _). done.
  - intros (_ & [(-> & _) | (H & _)]); [done | discriminate].
Qed.

(** X22.  First come, first served.  Under FCFS with at most
    [MAX_PROCESSES] processes, in the state a run ends in, a process that
    has started arrived no later than every process with a valid arrival
    time (0 <= arrival_time) that started at a later tick or has not
    started at all: no process is started ahead of one that arrived
    strictly before it. *)
Theorem fcfs_starts_in_arrival_order
        (records : list (Z * Z * Z * Z)) (n : Z) (time_quantum : Z) :
  Z.of_nat (length records) <= MAX_PROCESSES ->
  let r := run records n FCFS time_quantum in
  forall (i j : nat) (p q : Process),
    processes (machine r) !! i = Some p ->
    processes (machine r) !! j = Some q ->
    start_time p <> -1 ->
    start_time q = -1 \/ start_time p < start_time q ->
    0 <= arrival_time q ->
    arrival_time p <= arrival_time q.
Proof.
  intros Hlen r i j p q Hp Hq Hsp Hor Haq.
  pose proof (run_life records n FCFS time_quantum) as Hlife.
  cbv zeta in Hlife. fold r in Hlife.
  change (non_preemptive FCFS) with true in Hlife.
  apply life_inv_Forall in Hlife. rewrite Forall_forall in Hlife.
  pose proof (life_arrival_start _ _ _
                (Hlife p (list_elem_of_lookup_2 _ _ _ Hp)) Hsp) as Hap.
  destruct (decide (arrival_time q <= start_time p)) as [Hle | Hgt]; [| lia].
  apply (served_lookup FCFS (processes (machine r)) i j p q); try done.
  by apply run_served; [left |].
Qed.

Lemma fcfs_starts_in_arrival_order_witness :
  let r := run [(1, 0, 3, 0); (2, 1, 2, 0); (3, 2, 1, 0)] 1 FCFS 2 in
  arrival_time (proc (processes (machine r)) 1)
  <= arrival_time (proc (processes (machine r)) 2).
Proof.
  apply (fcfs_starts_in_arrival_order
           [(1, 0, 3, 0); (2, 1, 2, 0); (3, 2, 1, 0)] 1 2
           ltac:(vm_compute; discriminate) 1%nat 2%nat).
  - vm_compute. reflexivity.
  - vm_compute. reflexivity.
  - vm_compute. discriminate.
  - right. apply Z.ltb_lt. vm_compute. reflexivity.
  - apply Z.leb_le. vm_compute. reflexivity.
Defined.

(** X23.  Shortest job first.  Under SJF with at most [MAX_PROCESSES]
    processes, in the state a run ends in, a process that has started has
    a burst time no longer than every process that had arrived by then
    (0 <= arrival_time <= its start time) and started at a later tick or
    has not started at all; where the burst times are equal, its priority
    value is the higher or the same. *)
Theorem sjf_starts_shortest_job
        (records : list (Z * Z * Z * Z)) (n : Z) (time_quantum : Z) :
  Z.of_nat (length records) <= MAX_PROCESSES ->
  let r := run records n SJF time_quantum in
  forall (i j : nat) (p q : Process),
    processes (machine r) !! i = Some p ->
    processes (machine r) !! j = Some q ->
    start_time p <> -1 ->
    start_time q = -1 \/ start_time p < start_time q ->
    0 <= arrival_time q <= start_time p ->
    burst_time p < burst_time q \/
    (burst_time p = burst_time q /\ priority q <= priority p).
Proof.
  intros Hlen r i j p q Hp Hq Hsp Hor Haq.
  apply (served_lookup SJF (processes (machine r)) i j p q); try done.
  by apply run_served; [right |].
Qed.

Lemma sjf_starts_shortest_job_witness :
  let r := run [(1, 0, 3, 0); (2, 1, 2, 0); (3, 1, 1, 0)] 1 SJF 2 in
  let p := proc (processes (machine r)) 2 in
  let q := proc (processes (machine r)) 1 in
  burst_time p < burst_time q \/
  (burst_time p = burst_time q /\ priority q <= priority p).
Proof.
  apply (sjf_starts_shortest_job
           [(1, 0, 3, 0); (2, 1, 2, 0); (3, 1, 1, 0)] 1 2
           ltac:(vm_compute; discriminate) 2%nat 1%nat).
  - vm_compute. reflexivity.
  - vm_compute. reflexivity.
  - vm_compute. discriminate.
  - right. apply Z.ltb_lt. vm_compute. reflexivity.
  - split; apply Z.leb_le; vm_compute; reflexivity.
Defined.

(** ** Within the range of [int] *)

Lemma wrap_int_small z : INT_MIN <= z <= INT_MAX -> wrap_int z = z.
Proof.
  unfold wrap_int, INT_MIN, INT_MAX. intros H.
  rewrite Z.mod_small by lia. lia.
Qed.

Lemma run_time_bound records n algorithm time_quantum :
  0 <= current_time (run records n algorithm time_quantum) <= 101.
Proof.
  unfold run.
  destruct (simulate_machine (map load_process records) n algorithm
                             time_quantum) as (k & Hk & ->).
  cbn [with_bruh current_time].
  destruct (after_ticks_fields algorithm time_quantum
              (map load_process records) n k) as (-> & _).
  lia.
Qed.

Lemma run_burst_range (P : Z -> Prop) records n algorithm time_quantum :
  Forall (fun r => P r.1.2) records ->
  Forall (fun p => P (burst_time p))
         (processes (machine (run records n algorithm time_quantum))).
Proof.
  intros H.
  pose proof (run_burst_times records n algorithm time_quantum) as Hmap.
  revert Hmap.
  generalize (processes (machine (run records n algorithm time_quantum))).
  intros ps' Hmap. apply Forall_forall. intros p Hp.
  assert (burst_time p ∈ map burst_time ps') as Hin.
  { apply list_elem_of_fmap. exists p. split; [reflexivity | exact Hp]. }
  rewrite Hmap in Hin.
  apply list_elem_of_fmap in Hin as (r & -> & Hr).
  rewrite Forall_forall in H. exact (H r Hr).
Qed.

Lemma at_execute_tick algorithm time_quantum s :
  machine (tick algorithm time_quantum s)
  = (execute_processes (at_execute algorithm time_quantum s)
                       (current_time s) (completed_count s)).1.
Proof. by destruct (tick_machine algorithm time_quantum s) as [-> _]. Qed.

Lemma at_execute_life algorithm time_quantum s :
  0 <= current_time s ->
  sched_inv (machine s) (current_time s - 1) ->
  life_inv (non_preemptive algorithm) (processes (machine s))
           (cpus (machine s)) (current_time s - 1)
           (fun _ => current_time s) (completed_count s) ->
  let m := at_execute algorithm time_quantum s in
  life_inv (non_preemptive algorithm) (processes m) (cpus m)
           (current_time s) (fun _ => current_time s) (completed_count s).
Proof.
  intros Hnow Hinv Hlife. cbv zeta. unfold at_execute.
  apply update_waiting_times_life.
  unfold assign_processes_to_idle_cpus, assign_pops.
  apply assign_loop_life; [by apply before_dispatch_inv | lia |].
  by apply before_dispatch_life.
Qed.

(** The decrement of [execute_processes] is applied to a process that
    still has the remaining time it started with, or at least one unit
    left. *)
Lemma occupants_decrementable algorithm time_quantum ps n k i :
  Forall fresh ps ->
  Forall (fun p => INT_MIN < remaining_time p <= INT_MAX) ps ->
  let m := at_execute algorithm time_quantum
                      (after_ticks algorithm time_quantum ps n k) in
  i ∈ occupants (cpus m) ->
  INT_MIN < remaining_time (proc (processes m) i).
Proof.
  intros Hfresh Hrange m Hi.
  set (s := after_ticks algorithm time_quantum ps n k) in *.
  destruct (after_ticks_fields algorithm time_quantum ps n k) as (Ht & _).
  fold s in Ht.
  assert (sched_inv (machine s) (current_time s - 1)) as Hinv.
  { rewrite Ht. apply after_ticks_inv. }
  pose proof (at_execute_life algorithm time_quantum s) as Hlife.
  cbv zeta in Hlife. fold m in Hlife.
  destruct Hlife as (Hlife & _ & _); [lia | done | |].
  { rewrite Ht. by apply after_ticks_life. }
  pose proof (until_execute_inv algorithm time_quantum (machine s)
                (current_time s) Hinv) as Hinv5.
  fold (at_execute algorithm time_quantum s) in Hinv5. fold m in Hinv5.
  pose proof (inv_running _ _ Hinv5) as Hrun. rewrite Forall_forall in Hrun.
  destruct (Hrun i Hi) as (Hv & Hs & _).
  specialize (Hlife i Hv). unfold life in Hlife. rewrite Hs in Hlife.
  destruct Hlife as (_ & _ & [Hone | Hall] & _).
  { unfold INT_MIN. lia. }
  rewrite Hall.
  assert (map burst_time (processes m) = map burst_time ps) as Hmap.
  { unfold m, at_execute.
    rewrite (field_update_waiting_times burst_time) by done.
    unfold assign_processes_to_idle_cpus, assign_pops.
    rewrite (field_assign_loop burst_time) by done.
    rewrite (field_before_dispatch burst_time) by done.
    unfold s. by apply field_after_ticks. }
  destruct (map_eq_proc _ _ _ Hmap) as [Hvalid Hsame].
  rewrite (Hsame i (proj1 (Hvalid i) Hv)).
  destruct (valid_lookup _ _ (proj1 (Hvalid i) Hv)) as (p & Hp & ->).
  apply list_elem_of_lookup_2 in Hp.
  rewrite Forall_forall in Hfresh, Hrange.
  destruct (Hfresh p Hp) as (_ & _ & _ & _ & <-).
  by apply Hrange.
Qed.

(** X7.  Conservation of work.  For processes whose [remaining_time] is
    an [int] other than [INT_MIN], every unit of busy time a CPU counts is
    a unit taken off the remaining time of exactly one process, so after
    any number of ticks, and in the state [simulate] returns, the busy
    times of the CPUs and the remaining times of the processes add up to
    the remaining times at the start; for loaded processes that is the
    sum of the burst times.  The decrement never overflows: in every tick
    of a run of loaded processes, each process on a CPU when
    [execute_processes] starts has a [remaining_time] above [INT_MIN]
    (the one it was loaded with, or at least 1). *)
Theorem busy_time_is_work_done
        (ps : list Process) (n : Z) (algorithm : Algorithm) (time_quantum : Z) :
  Forall (fun p => INT_MIN < remaining_time p <= INT_MAX) ps ->
  (forall k,
      let m := machine (after_ticks algorithm time_quantum ps n k) in
      sum_busy_time (cpus m) + sum_remaining (processes m) = sum_remaining ps) /\
  (let m := machine (simulate ps n algorithm time_quantum FCFSQ0) in
   sum_busy_time (cpus m) + sum_remaining (processes m) = sum_remaining ps) /\
  (forall records,
      sum_remaining (map load_process records)
      = sumZ (map (fun r => r.1.2) records)) /\
  (forall s,
      machine (tick algorithm time_quantum s)
      = (execute_processes (at_execute algorithm time_quantum s)
                           (current_time s) (completed_count s)).1) /\
  (Forall fresh ps ->
   forall k i,
     let m := at_execute algorithm time_quantum
                         (after_ticks algorithm time_quantum ps n k) in
     i ∈ occupants (cpus m) ->
     INT_MIN < remaining_time (proc (processes m) i)).
Proof.
  intros Hrange. split_and!.
  - intros k. apply after_ticks_work.
  - destruct (simulate_machine ps n algorithm time_quantum) as (k & _ & ->).
    cbn [with_bruh machine]. apply after_ticks_work.
  - intros records. unfold sum_remaining. rewrite map_map. f_equal.
    apply map_ext. by intros [[[? ?] ?] ?].
  - apply at_execute_tick.
  - intros Hfresh k i. by apply occupants_decrementable.
Qed.

Lemma busy_time_is_work_done_witness :
  let ps := map load_process rr_example in
  Forall (fun p => INT_MIN < remaining_time p <= INT_MAX) ps /\
  let m := machine (simulate ps 1 RR 2 FCFSQ0) in
  sum_busy_time (cpus m) + sum_remaining (processes m) = sum_remaining ps.
Proof.
  cbv zeta.
  assert (Forall (fun p => INT_MIN < remaining_time p <= INT_MAX)
                 (map load_process rr_example)) as Hrange by by_evaluation.
  split; [exact Hrange |].
  destruct (busy_time_is_work_done (map load_process rr_example) 1 RR 2
              Hrange) as (_ & H & _).
  exact H.
Defined.

(** X10.  The clamp of the report is never needed.  For loaded records
    whose burst times are [int]s of at least [101 - INT_MAX], the
    subtractions of the report do not overflow, and for every process the
    report gives figures for (those with [finish_time != -1]) the
    turnaround is [finish_time - arrival_time], the waiting time is
    [turnaround - burst_time] as it stands, it is at least the response
    time, and the response time is not negative. *)
Theorem reported_waiting_never_clamped
        (records : list (Z * Z * Z * Z)) (n : Z) (algorithm : Algorithm)
        (time_quantum : Z) :
  Forall (fun r => 101 - INT_MAX <= r.1.2 <= INT_MAX) records ->
  let r := run records n algorithm time_quantum in
  Forall (fun p =>
    finish_time p <> -1 ->
    turnaround p = finish_time p - arrival_time p /\
    1 <= turnaround p <= 101 /\
    waiting p = finish_time p - arrival_time p - burst_time p /\
    0 <= response_time p <= waiting p /\
    burst_time p <= turnaround p)
    (processes (machine r)).
Proof.
  intros Hrange. cbv zeta.
  pose proof (run_life records n algorithm time_quantum) as Hlife.
  cbv zeta in Hlife. apply life_inv_Forall in Hlife.
  pose proof (run_time_bound records n algorithm time_quantum) as Ht.
  pose proof (run_burst_range (fun b => 101 - INT_MAX <= b <= INT_MAX)
                records n algorithm time_quantum Hrange) as Hb.
  cbv beta in Hb.
  apply Forall_forall. intros p Hp.
  rewrite Forall_forall in Hlife, Hb.
  pose proof (Hlife p Hp) as Hl. pose proof (Hb p Hp) as Hbp.
  intros Hf.
  pose proof (proj1 (life_finished _ _ _ _ Hl) Hf) as Hs.
  unfold life, started in Hl. rewrite Hs in Hl.
  unfold INT_MAX in Hbp.
  assert (turnaround p = finish_time p - arrival_time p) as Hta.
  { unfold turnaround. apply wrap_int_small. unfold INT_MIN, INT_MAX. lia. }
  unfold waiting. cbv zeta. rewrite Hta.
  rewrite wrap_int_small by (unfold INT_MIN, INT_MAX; lia).
  destruct (finish_time p - arrival_time p - burst_time p <? 0) eqn:Hneg;
    lia.
Qed.

Lemma reported_waiting_never_clamped_witness :
  Forall (fun r : Z * Z * Z * Z => 101 - INT_MAX <= r.1.2 <= INT_MAX)
         fcfs_example /\
  Forall (fun p =>
    finish_time p <> -1 ->
    turnaround p = finish_time p - arrival_time p /\
    1 <= turnaround p <= 101 /\
    waiting p = finish_time p - arrival_time p - burst_time p /\
    0 <= response_time p <= waiting p /\
    burst_time p <= turnaround p)
    (processes (machine (run fcfs_example 1 FCFS 2))).
Proof.
  assert (Forall (fun r : Z * Z * Z * Z => 101 - INT_MAX <= r.1.2 <= INT_MAX)
                 fcfs_example) as Hrange by by_evaluation.
  split; [exact Hrange |].
  apply (reported_waiting_never_clamped fcfs_example 1 FCFS 2 Hrange).
Defined.

(** X11.  Outside Round Robin nothing is taken off a CPU before it
    completes.  For loaded records whose burst times are [int]s other
    than [INT_MIN] (so that the decrement of [execute_processes] never
    overflows), under FCFS, SJF and SRTF as implemented, in the state a
    run ends in: a READY process has never run, a RUNNING process has run
    in every tick since it started, and a finished process has been on a
    CPU from its start to its finish; with a positive burst that makes
    [finish_time = start_time + burst_time], and the waiting time the
    report prints is the response time.  In every tick each process on a
    CPU when [execute_processes] starts has a [remaining_time] above
    [INT_MIN]. *)
Theorem no_preemption_outside_round_robin
        (records : list (Z * Z * Z * Z)) (n : Z) (algorithm : Algorithm)
        (time_quantum : Z) :
  algorithm <> RR ->
  Forall (fun r => INT_MIN < r.1.2 <= INT_MAX) records ->
  let r := run records n algorithm time_quantum in
  Forall (fun p =>
    (state p = READY -> start_time p = -1 /\ remaining_time p = burst_time p) /\
    (state p = RUNNING ->
     burst_time p - remaining_time p = current_time r - start_time p) /\
    (finish_time p <> -1 ->
     burst_time p - remaining_time p = finish_time p - start_time p /\
     (1 <= burst_time p ->
      finish_time p = start_time p + burst_time p /\
      waiting p = response_time p)))
    (processes (machine r)) /\
  (forall k i,
     let m := at_execute algorithm time_quantum
                (after_ticks algorithm time_quantum
                             (map load_process records) n k) in
     i ∈ occupants (cpus m) ->
     INT_MIN < remaining_time (proc (processes m) i)).
Proof.
  intros Halg Hrange. cbv zeta. split.
  2:{ intros k i. apply occupants_decrementable.
      - apply Forall_forall. intros p (r & -> & _)%list_elem_of_fmap.
        by destruct r as [[[? ?] ?] ?].
      - apply Forall_forall. intros p (r & -> & Hr)%list_elem_of_fmap.
        rewrite Forall_forall in Hrange. specialize (Hrange r Hr).
        by destruct r as [[[? ?] ?] ?]. }
  pose proof (run_life records n algorithm time_quantum) as Hlife.
  cbv zeta in Hlife. apply life_inv_Forall in Hlife.
  pose proof (run_time_bound records n algorithm time_quantum) as Ht.
  assert (non_preemptive algorithm = true) as He by by destruct algorithm.
  rewrite He in Hlife.
  eapply Forall_impl; [exact Hlife |]. intros p Hl.
  pose proof (life_finished _ _ _ _ Hl) as Hfin.
  unfold life, started, unstarted in Hl.
  destruct (state p) eqn:Hs.
  - split_and!; [done | done |]. intros Hf. apply Hfin in Hf. done.
  - split_and!; [done | |].
    + intros _. by apply Hl.
    + intros Hf. apply Hfin in Hf. done.
  - split_and!; [done | done |]. intros _.
    destruct Hl as (H1 & H2 & H3 & H4 & H5). specialize (H5 eq_refl).
    split; [done |]. intros Hb. specialize (H4 Hb).
    unfold waiting, turnaround. cbv zeta.
    rewrite (wrap_int_small (finish_time p - arrival_time p))
      by (unfold INT_MIN, INT_MAX; lia).
    rewrite wrap_int_small by (unfold INT_MIN, INT_MAX; lia).
    destruct (finish_time p - arrival_time p - burst_time p <? 0) eqn:Hneg;
      lia.
  - split_and!; [| done |].
    + intros _. destruct Hl as (_ & [? | (? & _)]); [lia | done].
    + intros Hf. apply Hfin in Hf. done.
Qed.

Lemma no_preemption_outside_round_robin_witness :
  FCFS <> RR /\
  Forall (fun r : Z * Z * Z * Z => INT_MIN < r.1.2 <= INT_MAX) fcfs_example /\
  Forall (fun p =>
    (state p = READY -> start_time p = -1 /\ remaining_time p = burst_time p) /\
    (state p = RUNNING ->
     burst_time p - remaining_time p
     = current_time (run fcfs_example 1 FCFS 2) - start_time p) /\
    (finish_time p <> -1 ->
     burst_time p - remaining_time p = finish_time p - start_time p /\
     (1 <= burst_time p ->
      finish_time p = start_time p + burst_time p /\
      waiting p = response_time p)))
    (processes (machine (run fcfs_example 1 FCFS 2))).
Proof.
  assert (Forall (fun r : Z * Z * Z * Z => INT_MIN < r.1.2 <= INT_MAX)
                 fcfs_example) as Hrange by by_evaluation.
  split; [done |]. split; [exact Hrange |].
  apply (no_preemption_outside_round_robin fcfs_example 1 FCFS 2);
    [done | exact Hrange].
Defined.
